(** * SpringEmbedderFRExact: the exact Fruchterman-Reingold spring embedder

    A shallow embedding of [src/ogdf/energybased/SpringEmbedderFRExact.cpp]:
    the flat view of a connected component ([ArrayGraph], [initCC]), the
    initializer, the cooling schedule, the two engines ([mainStep] and
    [mainStep_sse3]) and the orchestrator ([call]).

    The C++ code computes on [double]; every definition of the model is
    written once, over an abstract arithmetic [Arith num], and used at two
    instances:
    - [float], the kernel's IEEE 754 binary64 numbers: the operations of the
      compiled program, with their rounding, overflow, infinities, NaN and
      signed zeros;
    - [R], exact real arithmetic: no rounding, no overflow, and a division
      that is total.
    What does not depend on the arithmetic (which loops run, what [initCC]
    builds, what [call] calls) is proved for every [Arith num], and so for
    the compiled program. What is about NaN, infinities and zeros is proved
    over [float]. A statement over [R] is a statement about the code in
    exact arithmetic and says so: it gives the formulas the code evaluates
    and what they amount to when nothing is rounded, and it need not hold of
    a binary64 run, in which a sum may be rounded or a product overflow.

    C++ [int] values are unbounded integers here ([nat] for array indices and
    sizes, [Z] for the iteration budget and the counters compared with it):
    signed overflow is undefined behaviour in the source and is not modelled.
    The counters [itCount], [i] and [cF] count rounds; they stay within
    [int] when the budget [m_iterations] is below [INT_MAX], which the
    statements about the values of the counters assume.
    Threads are not modelled either: the parallel loops of the source write
    disjoint cells, and the model runs them in index order.

    The file has the model first, then the notions the statements use and
    the concrete inputs, then the properties. *)

From Stdlib Require Import Floats.
From Stdlib Require Import List Bool Arith ZArith Lia Permutation.
From Stdlib Require Import Reals Lra.
Import ListNotations.

Set Implicit Arguments.

(** ** Arithmetic of the source *)

Declare Scope num_scope.
Delimit Scope num_scope with num.

(** The operations on [double] that the file uses: the four operations,
    [sqrt] of <cmath>, the comparisons [<] and [==], the conversion from
    [int], and its two decimal literals that are not integers. *)
Class Arith (num : Type) : Type := {
  num_of_Z : Z -> num;
  lit_0_052 : num;
  lit_10e_6 : num;
  num_add : num -> num -> num;
  num_sub : num -> num -> num;
  num_mul : num -> num -> num;
  num_div : num -> num -> num;
  num_sqrt : num -> num;
  num_lt : num -> num -> bool;
  num_eq : num -> num -> bool
}.

Infix "+" := num_add : num_scope.
Infix "-" := num_sub : num_scope.
Infix "*" := num_mul : num_scope.
Infix "/" := num_div : num_scope.
Infix "<?" := num_lt : num_scope.
Infix "=?" := num_eq : num_scope.

Definition Rltb (a b : R) : bool := if Rlt_dec a b then true else false.
Definition Reqb (a b : R) : bool := if Req_dec_T a b then true else false.

(** Exact arithmetic: the real numbers. There is no rounding, no overflow,
    no infinity and no NaN, and the division is total ([x / 0] is [0]). What
    is proved at this instance is about the formulas of the code, as they
    are when nothing is rounded. *)
#[export] Instance R_arith : Arith R := {
  num_of_Z := IZR;
  lit_0_052 := (52 / 1000)%R;
  lit_10e_6 := (1 / 100000)%R;
  num_add := Rplus;
  num_sub := Rminus;
  num_mul := Rmult;
  num_div := Rdiv;
  num_sqrt := sqrt;
  num_lt := Rltb;
  num_eq := Reqb
}.

Definition float_of_Z (z : Z) : float :=
  match z with
  | Z0 => PrimFloat.zero
  | Zpos p => PrimFloat.of_uint63 (Uint63.of_Z (Zpos p))
  | Zneg p => PrimFloat.opp (PrimFloat.of_uint63 (Uint63.of_Z (Zpos p)))
  end.

#[local] Set Warnings "-inexact-float".

(** The arithmetic of the compiled program: IEEE 754 binary64, with the
    kernel's primitive operations, which round to nearest, overflow to the
    infinities, and have NaN and two zeros. *)
#[export] Instance float_arith : Arith float := {
  num_of_Z := float_of_Z;
  lit_0_052 := 0.052%float;
  lit_10e_6 := 10e-6%float;
  num_add := PrimFloat.add;
  num_sub := PrimFloat.sub;
  num_mul := PrimFloat.mul;
  num_div := PrimFloat.div;
  num_sqrt := PrimFloat.sqrt;
  num_lt := PrimFloat.ltb;
  num_eq := PrimFloat.eqb
}.

#[local] Set Warnings "inexact-float".

(** ** Integers *)

(** [INT_MAX] of <climits>, for an [int] of 32 bits. The budget
    [m_iterations] and the counters of the two loops are [int] in the source
    and [Z] in the model: the two agree as long as no counter passes
    [INT_MAX]. *)
Definition INT_MAX : Z := 2147483647.

(** ** Arrays *)

(** A raw buffer of [n] cells ([System::alignedMemoryAlloc16]); the source
    leaves the cells uninitialised, the model fills them with [d]. *)
Definition alloc {A : Type} (n : nat) (d : A) : list A := repeat d n.

(** [a[i] = v]. Out of range the source has undefined behaviour; the model
    leaves the buffer as it is. *)
Fixpoint store {A : Type} (l : list A) (i : nat) (v : A) : list A :=
  match l, i with
  | [], _ => []
  | _ :: t, O => v :: t
  | h :: t, S i' => h :: store t i' v
  end.

(** ** Graphs and their attributes *)

(** A node is identified with its [index()]. *)
Definition node := nat.

Record edgeElement : Type := mkEdge { e_source : node; e_target : node }.

(** The edges are listed in the order of their creation; the position of an
    edge in the list is its index. *)
Record Graph : Type := mkGraph { nodes : list node; edges : list edgeElement }.

Record adjElement : Type := mkAdj { theEdge : nat; twinNode : node }.

(** The adjacency entries an edge contributes to the list of node [v]: one
    when [v] is its source, one when [v] is its target (a self-loop gives
    both). *)
Definition adjOfEdge (v : node) (ie : nat * edgeElement) : list adjElement :=
  (if Nat.eqb (e_source (snd ie)) v then [mkAdj (fst ie) (e_target (snd ie))] else [])
  ++ (if Nat.eqb (e_target (snd ie)) v then [mkAdj (fst ie) (e_source (snd ie))] else []).

Definition indexed {A : Type} (l : list A) : list (nat * A) :=
  combine (seq 0 (length l)) l.

(** [v->adjEntries] *)
Definition adjEntries (G : Graph) (v : node) : list adjElement :=
  flat_map (adjOfEdge v) (indexed (edges G)).

(** [G.empty()] *)
Definition empty (G : Graph) : bool :=
  match nodes G with [] => true | _ => false end.

(** [NodeArray<T>]: a table indexed by nodes. *)
Definition NodeArray (T : Type) : Type := node -> T.

Definition na_set {T : Type} (a : NodeArray T) (v : node) (x : T) : NodeArray T :=
  fun u => if Nat.eqb u v then x else a u.

Section Model.

Variable num : Type.
Context {AR : Arith num}.

Local Open Scope num_scope.

Definition num0 : num := num_of_Z 0.
Definition num1 : num := num_of_Z 1.

(** [std::max] and [std::min] of <algorithm>. *)
Definition std_max (a b : num) : num := if a <? b then b else a.
Definition std_min (a b : num) : num := if b <? a then b else a.

(** Modelled from the spec: [Math::updateMin] and [Math::updateMax] of
    ogdf/basic/Math.h, which is not among the sources; the spec has the
    initializer "compute the bounding box of all current positions". *)
Definition updateMin (m x : num) : num := if x <? m then x else m.
Definition updateMax (m x : num) : num := if m <? x then x else m.

Definition DPoint : Type := (num * num)%type.

(** The part of [GraphAttributes] the layout reads and writes. *)
Record GraphAttributes : Type := mkGA {
  constGraph : Graph;
  ga_x : NodeArray num;
  ga_y : NodeArray num;
  ga_width : NodeArray num;
  ga_height : NodeArray num;
  ga_weight : NodeArray Z;
  has_nodeWeight : bool;
  ga_bends : nat -> list DPoint
}.

Definition set_x (AG : GraphAttributes) (v : node) (x : num) : GraphAttributes :=
  mkGA (constGraph AG) (na_set (ga_x AG) v x) (ga_y AG) (ga_width AG)
       (ga_height AG) (ga_weight AG) (has_nodeWeight AG) (ga_bends AG).

Definition set_y (AG : GraphAttributes) (v : node) (y : num) : GraphAttributes :=
  mkGA (constGraph AG) (ga_x AG) (na_set (ga_y AG) v y) (ga_width AG)
       (ga_height AG) (ga_weight AG) (has_nodeWeight AG) (ga_bends AG).

(** [AG.clearAllBends()] *)
Definition clearAllBends (AG : GraphAttributes) : GraphAttributes :=
  mkGA (constGraph AG) (ga_x AG) (ga_y AG) (ga_width AG)
       (ga_height AG) (ga_weight AG) (has_nodeWeight AG) (fun _ => []).

(** ** The flat view of one connected component *)

Record ArrayGraph : Type := mkArrayGraph {
  m_numNodes : nat;
  m_numEdges : nat;
  m_numCC : nat;
  m_orig : list node;
  m_src : list nat;
  m_tgt : list nat;
  m_x : list num;
  m_y : list num;
  m_nodeWeight : list num;
  ag_useNodeWeight : bool;
  m_mapNode : NodeArray nat;
  m_nodesInCC : list (list node)
}.

(** What the file takes from outside:
    - [connectedComponents(G, component)] of ogdf/basic/simple_graph_alg.h,
      returning the number of components and the component index of every
      node;
    - [mylog2], a member declared in SpringEmbedderFRExact.h;
    - [TileToRowsCCPacker::call], from the bounding boxes and the page ratio
      to one offset per component;
    - [System::cpuSupports(CPUFeature::SSE3)] and the two macros that select
      the code compiled into [mainStep_sse3]. *)
Record Extern : Type := mkExtern {
  connectedComponents : Graph -> nat * NodeArray nat;
  mylog2 : Z -> num;
  packer_call : list DPoint -> num -> list DPoint;
  cpuSupports_SSE3 : bool;
  OGDF_SSE3_EXTENSIONS : bool;
  OGDF_SPRINGEMBEDDERFREXACT_USE_KSQUARE : bool
}.

Variable ext : Extern.

(** The loop of the constructor: [m_nodesInCC[component[v]].pushBack(v)]. *)
Definition pushBack_in (cc : list (list node)) (c : nat) (v : node) : list (list node) :=
  store cc c (nth c cc [] ++ [v]).

(** [ArrayGraph::ArrayGraph(GraphAttributes& ga)] *)
Definition ArrayGraph_new (ga : GraphAttributes) : ArrayGraph :=
  let G := constGraph ga in
  let '(numCC, component) := connectedComponents ext G in
  let nodesInCC :=
    fold_left (fun cc v => pushBack_in cc (component v) v) (nodes G) (alloc numCC []) in
  mkArrayGraph 0 0 numCC [] [] [] [] [] [] false (fun _ => O) nodesInCC.

(** [component.m_useNodeWeight = ...]; the field is [ag_useNodeWeight] here,
    [m_useNodeWeight] being the option of the embedder. *)
Definition set_useNodeWeight (A : ArrayGraph) (b : bool) : ArrayGraph :=
  mkArrayGraph (m_numNodes A) (m_numEdges A) (m_numCC A) (m_orig A) (m_src A)
    (m_tgt A) (m_x A) (m_y A) (m_nodeWeight A) b (m_mapNode A) (m_nodesInCC A).

(** State of the first loop of [initCC]: the index [j], the buffers it fills
    and the edge counter. *)
Record InitNodes : Type := mkInitNodes {
  in_j : nat;
  in_orig : list node;
  in_map : NodeArray nat;
  in_x : list num;
  in_y : list num;
  in_w : list num;
  in_numEdges : nat
}.

(** [if (v->index() < adj->twinNode()->index()) ++m_numEdges;] *)
Definition count_adj (v : node) (c : nat) (adj : adjElement) : nat :=
  if Nat.ltb v (twinNode adj) then S c else c.

Definition initCC_node (ga : GraphAttributes) (useNodeWeight : bool)
    (s : InitNodes) (v : node) : InitNodes :=
  let j := in_j s in
  let wv :=
    if useNodeWeight
    then (if has_nodeWeight ga then num_of_Z (ga_weight ga v) else num1)
    else num1 in
  mkInitNodes (S j)
    (store (in_orig s) j v)
    (na_set (in_map s) v j)
    (store (in_x s) j (ga_x ga v))
    (store (in_y s) j (ga_y ga v))
    (store (in_w s) j wv)
    (fold_left (count_adj v) (adjEntries (constGraph ga) v) (in_numEdges s)).

(** State of the second loop of [initCC]: [j], [srcId] and the two edge
    buffers. *)
Record InitEdges : Type := mkInitEdges {
  ie_j : nat;
  ie_srcId : nat;
  ie_src : list nat;
  ie_tgt : list nat
}.

Definition initCC_adj (mapNode : NodeArray nat) (v : node)
    (s : InitEdges) (adj : adjElement) : InitEdges :=
  let w := twinNode adj in
  if Nat.ltb v w
  then mkInitEdges (S (ie_j s)) (ie_srcId s)
         (store (ie_src s) (ie_j s) (ie_srcId s))
         (store (ie_tgt s) (ie_j s) (mapNode w))
  else s.

Definition initCC_edges_of (G : Graph) (mapNode : NodeArray nat)
    (s : InitEdges) (v : node) : InitEdges :=
  let s' := fold_left (initCC_adj mapNode v) (adjEntries G v) s in
  mkInitEdges (ie_j s') (S (ie_srcId s')) (ie_src s') (ie_tgt s').

(** [ArrayGraph::initCC(int i)]; [ga] is the attribute store [m_ga] points
    to, in its current state. *)
Definition initCC (ga : GraphAttributes) (A : ArrayGraph) (i : nat) : ArrayGraph :=
  let cc := nth i (m_nodesInCC A) [] in
  let n := length cc in
  let s1 :=
    fold_left (initCC_node ga (ag_useNodeWeight A)) cc
      (mkInitNodes 0 (alloc n O) (m_mapNode A) (alloc n num0) (alloc n num0)
         (alloc n num0) 0) in
  let m := in_numEdges s1 in
  let s2 :=
    fold_left (initCC_edges_of (constGraph ga) (in_map s1)) cc
      (mkInitEdges 0 0 (alloc m O) (alloc m O)) in
  mkArrayGraph n m (m_numCC A) (in_orig s1) (ie_src s2) (ie_tgt s2)
    (in_x s1) (in_y s1) (in_w s1) (ag_useNodeWeight A) (in_map s1) (m_nodesInCC A).

(** [component.original(vCopy)], and reads of the buffers. *)
Definition original (C : ArrayGraph) (v : nat) : node := nth v (m_orig C) O.
Definition rd (a : list num) (i : nat) : num := nth i a num0.
Definition rdi (a : list nat) (i : nat) : nat := nth i a O.

Definition set_xy (C : ArrayGraph) (x y : list num) : ArrayGraph :=
  mkArrayGraph (m_numNodes C) (m_numEdges C) (m_numCC C) (m_orig C) (m_src C)
    (m_tgt C) x y (m_nodeWeight C) (ag_useNodeWeight C) (m_mapNode C)
    (m_nodesInCC C).

(** ** The embedder *)

Inductive CoolingFunction : Type := Factor | Logarithmic.

(** The members of [SpringEmbedderFRExact]: its options, and the initial
    temperatures [m_txNull], [m_tyNull] that [initialize] sets. *)
Record SpringEmbedderFRExact : Type := mkSE {
  m_iterations : Z;
  m_noise : bool;
  m_coolingFunction : CoolingFunction;
  m_coolFactor_x : num;
  m_coolFactor_y : num;
  m_idealEdgeLength : num;
  m_minDistCC : num;
  m_pageRatio : num;
  m_useNodeWeight : bool;
  m_checkConvergence : bool;
  m_convTolerance : num;
  m_txNull : num;
  m_tyNull : num
}.

Definition set_tNull (se : SpringEmbedderFRExact) (tx ty : num) : SpringEmbedderFRExact :=
  mkSE (m_iterations se) (m_noise se) (m_coolingFunction se) (m_coolFactor_x se)
    (m_coolFactor_y se) (m_idealEdgeLength se) (m_minDistCC se) (m_pageRatio se)
    (m_useNodeWeight se) (m_checkConvergence se) (m_convTolerance se) tx ty.

(** *** [initialize] *)

(** The four bounds after the first loop of [initialize]. *)
Record BBox : Type := mkBBox { xmin : num; xmax : num; ymin : num; ymax : num }.

Definition bbox_node (C : ArrayGraph) (b : BBox) (v : nat) : BBox :=
  mkBBox (updateMin (xmin b) (rd (m_x C) v)) (updateMax (xmax b) (rd (m_x C) v))
         (updateMin (ymin b) (rd (m_y C) v)) (updateMax (ymax b) (rd (m_y C) v)).

Definition boundingBoxOf (C : ArrayGraph) : BBox :=
  fold_left (bbox_node C) (seq 0 (m_numNodes C))
    (mkBBox (rd (m_x C) 0) (rd (m_x C) 0) (rd (m_y C) 0) (rd (m_y C) 0)).

Definition rescale_node (b : BBox) (fx fy : num) (C : ArrayGraph) (v : nat) : ArrayGraph :=
  set_xy C (store (m_x C) v ((rd (m_x C) v - xmin b) * fx))
           (store (m_y C) v ((rd (m_y C) v - ymin b) * fy)).

(** [SpringEmbedderFRExact::initialize(ArrayGraph& component)] *)
Definition initialize (se : SpringEmbedderFRExact) (component : ArrayGraph)
    : SpringEmbedderFRExact * ArrayGraph :=
  let b := boundingBoxOf component in
  let w := xmax b - xmin b + m_idealEdgeLength se in
  let h := ymax b - ymin b + m_idealEdgeLength se in
  let ratio := h / w in
  let W := num_sqrt (num_of_Z (Z.of_nat (m_numNodes component)) / ratio)
           * m_idealEdgeLength se in
  let H := ratio * W in
  let fx := W / w in
  let fy := H / h in
  let component' :=
    fold_left (rescale_node b fx fy) (seq 0 (m_numNodes component)) component in
  (set_tNull se (W / num_of_Z 8) (H / num_of_Z 8), component').

(** *** [cool] *)

(** [SpringEmbedderFRExact::cool(double& tx, double& ty, int& cF)] *)
Definition cool (se : SpringEmbedderFRExact) (t : num * num * Z) : num * num * Z :=
  let '(tx, ty, cF) := t in
  match m_coolingFunction se with
  | Factor => (tx * m_coolFactor_x se, ty * m_coolFactor_y se, cF)
  | Logarithmic =>
      let cFLog := mylog2 ext cF in
      if negb (cFLog =? num0)
      then (m_txNull se / cFLog, m_tyNull se / cFLog, (cF + 1)%Z)
      else (tx, ty, (cF + 1)%Z)
  end.

(** *** [mainStep] *)

Definition minDist : num := lit_10e_6.
Definition minDistSquare : num := minDist * minDist.
Definition c_rep (se : SpringEmbedderFRExact) : num :=
  lit_0_052 * (m_idealEdgeLength se * m_idealEdgeLength se).

(** The divisor of the repulsive pass, for the pair [(v, u)]. *)
Definition rep_distSquare (C : ArrayGraph) (v u : nat) : num :=
  let delta_x := rd (m_x C) v - rd (m_x C) u in
  let delta_y := rd (m_y C) v - rd (m_y C) u in
  std_max minDistSquare (delta_x * delta_x + delta_y * delta_y).

(** Body of the inner loop over [u]; [d] is [(disp_x[v], disp_y[v])]. *)
Definition rep_pair (C : ArrayGraph) (v : nat) (d : num * num) (u : nat) : num * num :=
  if Nat.eqb u v then d else
  let delta_x := rd (m_x C) v - rd (m_x C) u in
  let delta_y := rd (m_y C) v - rd (m_y C) u in
  let distSquare := rep_distSquare C v u in
  let t := rd (m_nodeWeight C) u / distSquare in
  (fst d + delta_x * t, snd d + delta_y * t).

(** Body of the loop over [v] of the repulsive pass; [D] is the pair of
    buffers [(disp_x, disp_y)]. *)
Definition rep_node (se : SpringEmbedderFRExact) (C : ArrayGraph)
    (D : list num * list num) (v : nat) : list num * list num :=
  let d := fold_left (rep_pair C v) (seq 0 (m_numNodes C)) (num0, num0) in
  (store (fst D) v (fst d * c_rep se), store (snd D) v (snd d * c_rep se)).

(** Body of the loop over the edges of the attractive pass. *)
Definition attr_edge (se : SpringEmbedderFRExact) (C : ArrayGraph)
    (D : list num * list num) (e : nat) : list num * list num :=
  let k := m_idealEdgeLength se in
  let v := rdi (m_src C) e in
  let u := rdi (m_tgt C) e in
  let delta_x := rd (m_x C) v - rd (m_x C) u in
  let delta_y := rd (m_y C) v - rd (m_y C) u in
  let dist := std_max minDist (num_sqrt (delta_x * delta_x + delta_y * delta_y)) in
  let dx1 := store (fst D) v (rd (fst D) v - delta_x * dist / k) in
  let dy1 := store (snd D) v (rd (snd D) v - delta_y * dist / k) in
  let dx2 := store dx1 u (rd dx1 u + delta_x * dist / k) in
  let dy2 := store dy1 u (rd dy1 u + delta_y * dist / k) in
  (dx2, dy2).

(** The divisor of the capping pass, and the displacement it applies. *)
Definition cap_dist (dx dy : num) : num :=
  std_max minDist (num_sqrt (dx * dx + dy * dy)).
Definition xdisplace (dx dy tx : num) : num :=
  dx / cap_dist dx dy * std_min (cap_dist dx dy) tx.
Definition ydisplace (dx dy ty : num) : num :=
  dy / cap_dist dx dy * std_min (cap_dist dx dy) ty.

(** Body of the capping loop; the state is the component and [converged]. *)
Definition cap_node (se : SpringEmbedderFRExact) (D : list num * list num)
    (tx ty : num) (s : ArrayGraph * bool) (v : nat) : ArrayGraph * bool :=
  let C := fst s in
  let xd := xdisplace (rd (fst D) v) (rd (snd D) v) tx in
  let yd := ydisplace (rd (fst D) v) (rd (snd D) v) ty in
  let eucdistsq := xd * xd + yd * yd in
  let threshold := m_convTolerance se * m_idealEdgeLength se in
  let converged := if threshold * threshold <? eucdistsq then false else snd s in
  (set_xy C (store (m_x C) v (rd (m_x C) v + xd))
            (store (m_y C) v (rd (m_y C) v + yd)), converged).

(** The displacement buffers after the repulsive and the attractive pass. *)
Definition forces (se : SpringEmbedderFRExact) (C : ArrayGraph) : list num * list num :=
  let n := m_numNodes C in
  let D := fold_left (rep_node se C) (seq 0 n) (alloc n num0, alloc n num0) in
  fold_left (attr_edge se C) (seq 0 (m_numEdges C)) D.

(** The variables of the loop of [mainStep]. *)
Record MainLoop : Type := mkMainLoop {
  ml_C : ArrayGraph;
  ml_tx : num;
  ml_ty : num;
  ml_cF : Z;
  ml_converged : bool;
  ml_itCount : Z
}.

(** One execution of the body of [while (!converged)]. *)
Definition mainStep_body (se : SpringEmbedderFRExact) (s : MainLoop) : MainLoop :=
  let C := ml_C s in
  let converged := if m_checkConvergence se then true else ml_converged s in
  let D := forces se C in
  let '(C', converged') :=
    fold_left (cap_node se D (ml_tx s) (ml_ty s)) (seq 0 (m_numNodes C)) (C, converged) in
  let '(tx, ty, cF) := cool se (ml_tx s, ml_ty s, ml_cF s) in
  let itCount := (ml_itCount s + 1)%Z in
  mkMainLoop C' tx ty cF ((m_iterations se <? itCount)%Z || converged') itCount.

Fixpoint mainStep_while (se : SpringEmbedderFRExact) (fuel : nat) (s : MainLoop) : MainLoop :=
  if ml_converged s then s else
  match fuel with
  | O => s
  | S fuel' => mainStep_while se fuel' (mainStep_body se s)
  end.

(** The loop of [mainStep], from its initial variables to its exit; the
    bound on the number of iterations is never reached
    ([mainStep_exits] below). [itCount] is an [int] in the source: for a
    budget below [INT_MAX] it ends at [INT_MAX] at most; for a budget of
    [INT_MAX] the source cannot leave the loop by the test
    [itCount > m_iterations] without a signed overflow, which the model,
    counting in [Z], does not have. *)
Definition mainStep_run (se : SpringEmbedderFRExact) (C : ArrayGraph) : MainLoop :=
  mainStep_while se (S (Z.to_nat (m_iterations se)))
    (mkMainLoop C (m_txNull se) (m_tyNull se) 1 (m_iterations se =? 0)%Z 1).

(** [SpringEmbedderFRExact::mainStep(ArrayGraph& C)] *)
Definition mainStep (se : SpringEmbedderFRExact) (C : ArrayGraph) : ArrayGraph :=
  ml_C (mainStep_run se C).

(** *** [mainStep_sse3] *)

(** A [__m128d] register: two lanes, low and high. *)
Definition m128d : Type := (num * num)%type.

Definition lanes2 (f : num -> num -> num) (a b : m128d) : m128d :=
  (f (fst a) (fst b), f (snd a) (snd b)).
(** The [_sd] instructions compute on the low lane and copy the high lane of
    their first operand. *)
Definition lane_lo (f : num -> num -> num) (a b : m128d) : m128d :=
  (f (fst a) (fst b), snd a).

(** [MAXPD]/[MINPD] return their second operand unless the comparison holds. *)
Definition sse_max (a b : num) : num := if b <? a then a else b.
Definition sse_min (a b : num) : num := if a <? b then a else b.

Definition _mm_set1_pd (a : num) : m128d := (a, a).
Definition _mm_setzero_pd : m128d := (num0, num0).
Definition _mm_load_pd (p : list num) (i : nat) : m128d := (rd p i, rd p (i + 1)%nat).
Definition _mm_load_sd (p : list num) (i : nat) : m128d := (rd p i, num0).
Definition _mm_store_pd (p : list num) (i : nat) (a : m128d) : list num :=
  store (store p i (fst a)) (i + 1)%nat (snd a).
Definition _mm_store_sd (p : list num) (i : nat) (a : m128d) : list num :=
  store p i (fst a).
Definition _mm_add_pd := lanes2 num_add.
Definition _mm_sub_pd := lanes2 num_sub.
Definition _mm_mul_pd := lanes2 num_mul.
Definition _mm_div_pd := lanes2 num_div.
Definition _mm_max_pd := lanes2 sse_max.
Definition _mm_min_pd := lanes2 sse_min.
Definition _mm_sqrt_pd (a : m128d) : m128d := (num_sqrt (fst a), num_sqrt (snd a)).
Definition _mm_add_sd := lane_lo num_add.
Definition _mm_sub_sd := lane_lo num_sub.
Definition _mm_mul_sd := lane_lo num_mul.
Definition _mm_div_sd := lane_lo num_div.
Definition _mm_max_sd := lane_lo sse_max.
Definition _mm_hadd_pd (a b : m128d) : m128d := (fst a + snd a, fst b + snd b).

(** [for (u = start; u + 1 < bound; u += 2) body(u);], giving the final [u]
    with the state; [fuel] bounds the number of iterations and [bound]
    suffices for it. *)
Fixpoint for_pairs {S : Type} (fuel : nat) (u bound : nat) (body : nat -> S -> S) (s : S)
    : nat * S :=
  match fuel with
  | O => (u, s)
  | Datatypes.S fuel' =>
      if Nat.ltb (u + 1)%nat bound
      then for_pairs fuel' (u + 2)%nat bound body (body u s)
      else (u, s)
  end.

(** The lambda [compute_pd]; the state is [(mm_disp_xv, mm_disp_yv)]. *)
Definition compute_pd (se : SpringEmbedderFRExact) (C : ArrayGraph) (v : nat)
    (u : nat) (d : m128d * m128d) : m128d * m128d :=
  let mm_xv := _mm_set1_pd (rd (m_x C) v) in
  let mm_yv := _mm_set1_pd (rd (m_y C) v) in
  let mm_delta_x := _mm_sub_pd mm_xv (_mm_load_pd (m_x C) u) in
  let mm_delta_y := _mm_sub_pd mm_yv (_mm_load_pd (m_y C) u) in
  let mm_xSquare := _mm_mul_pd mm_delta_x mm_delta_x in
  let mm_ySquare := _mm_mul_pd mm_delta_y mm_delta_y in
  let mm_distSquare :=
    _mm_max_pd (_mm_set1_pd minDistSquare) (_mm_add_pd mm_xSquare mm_ySquare) in
  let mm_t :=
    if OGDF_SPRINGEMBEDDERFREXACT_USE_KSQUARE ext
    then _mm_div_pd
           (_mm_set1_pd (m_idealEdgeLength se * m_idealEdgeLength se)) mm_distSquare
    else _mm_div_pd (_mm_load_pd (m_nodeWeight C) u) mm_distSquare in
  (_mm_add_pd (fst d) (_mm_mul_pd mm_delta_x mm_t),
   _mm_add_pd (snd d) (_mm_mul_pd mm_delta_y mm_t)).

(** The lambda [compute_sd]. *)
Definition compute_sd (se : SpringEmbedderFRExact) (C : ArrayGraph) (v : nat)
    (u : nat) (d : m128d * m128d) : m128d * m128d :=
  let mm_xv := _mm_set1_pd (rd (m_x C) v) in
  let mm_yv := _mm_set1_pd (rd (m_y C) v) in
  let mm_delta_x := _mm_sub_sd mm_xv (_mm_load_sd (m_x C) u) in
  let mm_delta_y := _mm_sub_sd mm_yv (_mm_load_sd (m_y C) u) in
  let mm_xSquare := _mm_mul_sd mm_delta_x mm_delta_x in
  let mm_ySquare := _mm_mul_sd mm_delta_y mm_delta_y in
  let mm_distSquare :=
    _mm_max_sd (_mm_set1_pd minDistSquare) (_mm_add_sd mm_xSquare mm_ySquare) in
  let mm_t :=
    if OGDF_SPRINGEMBEDDERFREXACT_USE_KSQUARE ext
    then _mm_div_sd
           (_mm_set1_pd (m_idealEdgeLength se * m_idealEdgeLength se)) mm_distSquare
    else _mm_div_sd (_mm_load_sd (m_nodeWeight C) u) mm_distSquare in
  (_mm_add_sd (fst d) (_mm_mul_sd mm_delta_x mm_t),
   _mm_add_sd (snd d) (_mm_mul_sd mm_delta_y mm_t)).

(** The two registers [mm_disp_xv], [mm_disp_yv] after the four loops over
    [u] of the vectorized repulsive pass for node [v]. *)
Definition rep_lanes_sse3 (se : SpringEmbedderFRExact) (C : ArrayGraph) (v : nat)
    : m128d * m128d :=
  let n := m_numNodes C in
  let d0 := (_mm_setzero_pd, _mm_setzero_pd) in
  let '(u, d1) := for_pairs v 0 v (compute_pd se C v) d0 in
  let uStart := (u + 2)%nat in
  let u := if Nat.eqb u v then (u + 1)%nat else u in
  let d2 := if Nat.ltb u n then compute_sd se C v u d1 else d1 in
  let '(u, d3) := for_pairs n uStart n (compute_pd se C v) d2 in
  if Nat.ltb u n then compute_sd se C v u d3 else d3.

(** Body of the loop over [v] of the vectorized repulsive pass. *)
Definition rep_node_sse3 (se : SpringEmbedderFRExact) (C : ArrayGraph)
    (D : list num * list num) (v : nat) : list num * list num :=
  let d4 := rep_lanes_sse3 se C v in
  let mm_disp_xv := _mm_hadd_pd (fst d4) (fst d4) in
  let mm_disp_yv := _mm_hadd_pd (snd d4) (snd d4) in
  let mm_c_rep := _mm_set1_pd (c_rep se) in
  (_mm_store_sd (fst D) v (_mm_mul_sd mm_disp_xv mm_c_rep),
   _mm_store_sd (snd D) v (_mm_mul_sd mm_disp_yv mm_c_rep)).

Definition forces_sse3 (se : SpringEmbedderFRExact) (C : ArrayGraph) : list num * list num :=
  let n := m_numNodes C in
  let D := fold_left (rep_node_sse3 se C) (seq 0 n) (alloc n num0, alloc n num0) in
  fold_left (attr_edge se C) (seq 0 (m_numEdges C)) D.

(** Body of [for (v = 0; v < n - 1; v += 2)] of the vectorized capping. *)
Definition cap_pair_sse3 (D : list num * list num) (tx ty : num)
    (v : nat) (C : ArrayGraph) : ArrayGraph :=
  let mm_tx := _mm_set1_pd tx in
  let mm_ty := _mm_set1_pd ty in
  let mm_disp_xv := _mm_load_pd (fst D) v in
  let mm_disp_yv := _mm_load_pd (snd D) v in
  let mm_dist :=
    _mm_max_pd (_mm_set1_pd minDist)
      (_mm_sqrt_pd (_mm_add_pd (_mm_mul_pd mm_disp_xv mm_disp_xv)
                               (_mm_mul_pd mm_disp_yv mm_disp_yv))) in
  let x' :=
    _mm_store_pd (m_x C) v
      (_mm_add_pd (_mm_load_pd (m_x C) v)
         (_mm_mul_pd (_mm_div_pd mm_disp_xv mm_dist) (_mm_min_pd mm_dist mm_tx))) in
  let y' :=
    _mm_store_pd (m_y C) v
      (_mm_add_pd (_mm_load_pd (m_y C) v)
         (_mm_mul_pd (_mm_div_pd mm_disp_yv mm_dist) (_mm_min_pd mm_dist mm_ty))) in
  set_xy C x' y'.

(** The block [if (n % 2)] after it. *)
Definition cap_last_sse3 (D : list num * list num) (tx ty : num)
    (C : ArrayGraph) : ArrayGraph :=
  let n := m_numNodes C in
  if Nat.eqb (n mod 2)%nat 0 then C else
  let v := (n - 1)%nat in
  let dist := std_max minDist
    (num_sqrt (rd (fst D) v * rd (fst D) v + rd (snd D) v * rd (snd D) v)) in
  set_xy C (store (m_x C) v (rd (m_x C) v + rd (fst D) v / dist * std_min dist tx))
           (store (m_y C) v (rd (m_y C) v + rd (snd D) v / dist * std_min dist ty)).

(** The variables of the loop of [mainStep_sse3]. *)
Record Sse3Loop : Type := mkSse3Loop {
  sl_C : ArrayGraph;
  sl_tx : num;
  sl_ty : num;
  sl_cF : Z;
  sl_i : Z
}.

(** One execution of the body of [for (i = 1; i <= m_iterations; i++)]. *)
Definition sse3_body (se : SpringEmbedderFRExact) (s : Sse3Loop) : Sse3Loop :=
  let C := sl_C s in
  let n := m_numNodes C in
  let D := forces_sse3 se C in
  let C1 := snd (for_pairs n 0 n (cap_pair_sse3 D (sl_tx s) (sl_ty s)) C) in
  let C2 := cap_last_sse3 D (sl_tx s) (sl_ty s) C1 in
  let '(tx, ty, cF) := cool se (sl_tx s, sl_ty s, sl_cF s) in
  mkSse3Loop C2 tx ty cF (sl_i s + 1)%Z.

Fixpoint sse3_for (se : SpringEmbedderFRExact) (fuel : nat) (s : Sse3Loop) : Sse3Loop :=
  if (sl_i s <=? m_iterations se)%Z then
    match fuel with
    | O => s
    | S fuel' => sse3_for se fuel' (sse3_body se s)
    end
  else s.

(** The loop compiled under [OGDF_SSE3_EXTENSIONS], from its initial
    variables to its exit ([sse3_exits] below). The team of threads of the
    [omp parallel] region shares the work of each pass; the model runs it on
    one thread. [i] is an [int] in the source: for a budget below [INT_MAX]
    it ends at [INT_MAX] at most; for a budget of [INT_MAX] the test
    [i <= m_iterations] of the source never fails, and [i++] overflows,
    which the model, counting in [Z], does not have. *)
Definition sse3_run (se : SpringEmbedderFRExact) (C : ArrayGraph) : Sse3Loop :=
  sse3_for se (Z.to_nat (m_iterations se))
    (mkSse3Loop C (m_txNull se) (m_tyNull se) 1 1).

(** [SpringEmbedderFRExact::mainStep_sse3(ArrayGraph& C)] *)
Definition mainStep_sse3 (se : SpringEmbedderFRExact) (C : ArrayGraph) : ArrayGraph :=
  if OGDF_SSE3_EXTENSIONS ext then sl_C (sse3_run se C) else mainStep se C.

(** *** [call] *)

(** What [call] does, in order: the calls it makes that the properties below
    speak about, each with the index of the component it is made for. *)
Inductive Event : Type :=
| EvClearAllBends
| EvInitCC (i : nat)
| EvInitialize (i : nat)
| EvMainStep (i : nat)
| EvMainStep_sse3 (i : nat)
| EvPackerCall.

(** The block [if (component.numberOfNodes() >= 2) { ... }]. *)
Definition layoutCC (se : SpringEmbedderFRExact) (component : ArrayGraph) (i : nat)
    : SpringEmbedderFRExact * ArrayGraph * list Event :=
  if Nat.leb 2 (m_numNodes component) then
    let '(se1, c1) := initialize se component in
    if cpuSupports_SSE3 ext
    then (se1, mainStep_sse3 se1 c1, [EvInitialize i; EvMainStep_sse3 i])
    else (se1, mainStep se1 c1, [EvInitialize i; EvMainStep i])
  else (se, component, []).

(** The variables of the write-back loop: the attribute store and the four
    bounds [minX], [maxX], [minY], [maxY]. *)
Record WriteBack : Type := mkWriteBack {
  wb_AG : GraphAttributes;
  minX : num;
  maxX : num;
  minY : num;
  maxY : num
}.

Definition half (a : num) : num := a / num_of_Z 2.

Definition writeBack_node (component : ArrayGraph) (s : WriteBack) (vCopy : nat)
    : WriteBack :=
  let v := original component vCopy in
  let AG := set_y (set_x (wb_AG s) v (rd (m_x component) vCopy)) v
              (rd (m_y component) vCopy) in
  let minX' := if ga_x AG v - half (ga_width AG v) <? minX s
               then ga_x AG v - half (ga_width AG v) else minX s in
  let maxX' := if maxX s <? ga_x AG v + half (ga_width AG v)
               then ga_x AG v + half (ga_width AG v) else maxX s in
  let minY' := if ga_y AG v - half (ga_height AG v) <? minY s
               then ga_y AG v - half (ga_height AG v) else minY s in
  let maxY' := if maxY s <? ga_y AG v + half (ga_height AG v)
               then ga_y AG v + half (ga_height AG v) else maxY s in
  mkWriteBack AG minX' maxX' minY' maxY'.

(** The first loop over [vCopy]: every node's position goes back to the
    attribute store. *)
Definition writeBack (component : ArrayGraph) (AG : GraphAttributes) : WriteBack :=
  fold_left (writeBack_node component) (seq 0 (m_numNodes component))
    (mkWriteBack AG (rd (m_x component) 0) (rd (m_x component) 0)
                    (rd (m_y component) 0) (rd (m_y component) 0)).

Definition shift_node (component : ArrayGraph) (mX mY : num)
    (AG : GraphAttributes) (vCopy : nat) : GraphAttributes :=
  let v := original component vCopy in
  let AG1 := set_x AG v (ga_x AG v - mX) in
  set_y AG1 v (ga_y AG1 v - mY).

(** The variables of the loop of [call] over the components. *)
Record CallState : Type := mkCallState {
  cs_se : SpringEmbedderFRExact;
  cs_AG : GraphAttributes;
  cs_component : ArrayGraph;
  cs_boundingBox : list DPoint;
  cs_trace : list Event
}.

(** Body of [for (i = 0; i < component.numberOfCCs(); ++i)]. *)
Definition call_cc (s : CallState) (i : nat) : CallState :=
  let component := initCC (cs_AG s) (cs_component s) i in
  let '(se', component', evs) := layoutCC (cs_se s) component i in
  let wb := writeBack component' (cs_AG s) in
  let mX := minX wb - m_minDistCC se' in
  let mY := minY wb - m_minDistCC se' in
  let AG' :=
    fold_left (shift_node component' mX mY) (seq 0 (m_numNodes component')) (wb_AG wb) in
  mkCallState se' AG' component'
    (store (cs_boundingBox s) i (maxX wb - mX, maxY wb - mY))
    (cs_trace s ++ EvInitCC i :: evs).

Definition offset_node (dx dy : num) (AG : GraphAttributes) (v : node) : GraphAttributes :=
  let AG1 := set_x AG v (ga_x AG v + dx) in
  set_y AG1 v (ga_y AG1 v + dy).

(** Body of the last loop of [call]. *)
Definition offset_cc (component : ArrayGraph) (offset : list DPoint)
    (AG : GraphAttributes) (i : nat) : GraphAttributes :=
  let dx := fst (nth i offset (num0, num0)) in
  let dy := snd (nth i offset (num0, num0)) in
  fold_left (offset_node dx dy) (nth i (m_nodesInCC component) []) AG.

(** The variables of [call] when it enters the loop over the components;
    [AG1] is the attribute store after [clearAllBends]. *)
Definition call_start (se : SpringEmbedderFRExact) (AG1 : GraphAttributes) : CallState :=
  let component := set_useNodeWeight (ArrayGraph_new AG1) (m_useNodeWeight se) in
  mkCallState se AG1 component (alloc (m_numCC component) (num0, num0))
    [EvClearAllBends].

(** [SpringEmbedderFRExact::call(GraphAttributes& AG)]: the embedder and the
    attribute store after the call, with the calls made on the way. *)
Definition call (se : SpringEmbedderFRExact) (AG : GraphAttributes)
    : SpringEmbedderFRExact * GraphAttributes * list Event :=
  if empty (constGraph AG) then (se, AG, []) else
  let s0 := call_start se (clearAllBends AG) in
  let numCC := m_numCC (cs_component s0) in
  let s := fold_left call_cc (seq 0 numCC) s0 in
  let offset := packer_call ext (cs_boundingBox s) (m_pageRatio (cs_se s)) in
  let AG2 := fold_left (offset_cc (cs_component s) offset) (seq 0 numCC) (cs_AG s) in
  (cs_se s, AG2, cs_trace s ++ [EvPackerCall]).

End Model.

Arguments num0 {num AR}.
Arguments num1 {num AR}.
Arguments minDist {num AR}.
Arguments minDistSquare {num AR}.
Arguments _mm_setzero_pd {num AR}.

(** ** The constructor of the embedder *)

(** The decimal literals of the constructor that are not integers. *)
Class Literals (num : Type) : Type := {
  lit_0_9 : num;
  lit_0_01 : num
}.

#[export] Instance R_literals : Literals R := {
  lit_0_9 := (9 / 10)%R;
  lit_0_01 := (1 / 100)%R
}.

#[local] Set Warnings "-inexact-float".

#[export] Instance float_literals : Literals float := {
  lit_0_9 := 0.9%float;
  lit_0_01 := 0.01%float
}.

#[local] Set Warnings "inexact-float".

Section Construction.

Variable num : Type.
Context {AR : Arith num} {AL : Literals num}.

Local Open Scope num_scope.

(** What the constructor takes from [LayoutStandards] of
    ogdf/basic/LayoutStandards.h: the default width and height of a node and
    the default distances between nodes and between components. *)
Record LayoutStandards : Type := mkLayoutStandards {
  defaultNodeWidth : num;
  defaultNodeHeight : num;
  defaultNodeSeparation : num;
  defaultCCSeparation : num
}.

(** [SpringEmbedderFRExact::SpringEmbedderFRExact()]. The constructor does
    not set [m_txNull] and [m_tyNull]; [txNull] and [tyNull] stand for what
    the two members hold. *)
Definition SpringEmbedderFRExact_new (ls : LayoutStandards) (txNull tyNull : num)
    : SpringEmbedderFRExact num :=
  let def_nw := defaultNodeWidth ls in
  let def_nh := defaultNodeHeight ls in
  mkSE 1000 true Factor lit_0_9 lit_0_9
    (defaultNodeSeparation ls + num_sqrt (def_nw * def_nw + def_nh * def_nh))
    (defaultCCSeparation ls) num1 false true lit_0_01 txNull tyNull.

End Construction.

(** * Notions of the statements *)

(** ** Buffers and loops *)

(** [vals] written into [a] from index [j] on. *)
Fixpoint fill {A : Type} (a : list A) (j : nat) (vals : list A) : list A :=
  match vals with
  | [] => a
  | v :: vs => fill (store a j v) (S j) vs
  end.

Section Notions.

Variable num : Type.
Context {AR : Arith num}.

Local Open Scope num_scope.

(** [for v in l: a[v] = f(v, a[v])] *)
Definition upd (f : nat -> num -> num) (l : list nat) (a : list num) : list num :=
  fold_left (fun a v => store a v (f v (rd a v))) l a.

(** [C'] is [C] but for its positions, and has as many of them. *)
Definition only_xy (C C' : ArrayGraph num) : Prop :=
  exists x y, C' = set_xy C x y
    /\ length x = length (m_x C) /\ length y = length (m_y C).

(** ** The flat view *)

(** The weight [initCC] gives node [v]. *)
Definition weightOf (ga : GraphAttributes num) (useNodeWeight : bool) (v : node) : num :=
  if useNodeWeight
  then (if has_nodeWeight ga then num_of_Z (ga_weight ga v) else num1)
  else num1.

(** The edges [initCC] has stored, read back through [m_orig]. *)
Definition storedEdges (C : ArrayGraph num) : list (node * node) :=
  map (fun j => (original C (rdi (m_src C) j), original C (rdi (m_tgt C) j)))
      (seq 0 (m_numEdges C)).

(** ** The capping loop *)

(** Node [v] moves by more than the threshold: the test that resets
    [converged] in the capping loop. *)
Definition exceeds (se : SpringEmbedderFRExact num) (D : list num * list num)
    (tx ty : num) (v : nat) : bool :=
  let xd := xdisplace (rd (fst D) v) (rd (snd D) v) tx in
  let yd := ydisplace (rd (fst D) v) (rd (snd D) v) ty in
  let threshold := m_convTolerance se * m_idealEdgeLength se in
  threshold * threshold <? xd * xd + yd * yd.

End Notions.

(** ** Graphs and components *)

(** The adjacency entries of [v] that [initCC] records: those whose other
    end has the larger index. *)
Definition recorded (G : Graph) (v : node) : list adjElement :=
  filter (fun adj => Nat.ltb v (twinNode adj)) (adjEntries G v).

(** The pairs the second loop records: for each node of the list, with its
    position [srcId] in it, one pair per recorded adjacency entry. *)
Fixpoint edgePairs (G : Graph) (srcId : nat) (l : list node) : list (nat * node) :=
  match l with
  | [] => []
  | v :: l' => map (fun adj => (srcId, twinNode adj)) (recorded G v)
               ++ edgePairs G (S srcId) l'
  end.

(** An edge as an unordered pair: smaller index first. *)
Definition norm (e : edgeElement) : node * node :=
  (Nat.min (e_source e) (e_target e), Nat.max (e_source e) (e_target e)).

(** A self-loop. *)
Definition isLoop (e : edgeElement) : bool := Nat.eqb (e_source e) (e_target e).

(** A graph whose nodes are listed once and whose edges join nodes of it. *)
Definition wellFormed (G : Graph) : Prop :=
  NoDup (nodes G)
  /\ forall e, In e (edges G) -> In (e_source e) (nodes G) /\ In (e_target e) (nodes G).

(** What the model asks of [connectedComponents]: the two ends of an edge
    are in the same component. *)
Definition closedComponents (G : Graph) (comp : NodeArray nat) : Prop :=
  forall e, In e (edges G) -> comp (e_source e) = comp (e_target e).

(** The edges of component [i]. *)
Definition componentEdges (G : Graph) (comp : NodeArray nat) (i : nat) : list edgeElement :=
  filter (fun e => Nat.eqb (comp (e_source e)) i) (edges G).

(** ** Calls made by [call] *)

(** The engine is one of the three calls made for a component. *)
Definition engineEvent (i : nat) (e : Event) : Prop :=
  e = EvInitialize i \/ e = EvMainStep i \/ e = EvMainStep_sse3 i.

(** ** Over the reals *)

(** Modelled from the spec: [mylog2], declared in SpringEmbedderFRExact.h,
    which is not among the sources. The spec has the logarithmic mode reset
    the temperatures to [temperatureX0 / log2(cF)] and [log2(cF) = 0] at
    [cF = 1]: the logarithm to base 2. *)
Definition mylog2_spec (cF : Z) : R := (ln (IZR cF) / ln 2)%R.

(** The sum of [f a], [f (a + 1)], ..., [f (a + n - 1)]. *)
Fixpoint sum_from (f : nat -> R) (a n : nat) : R :=
  match n with
  | O => 0%R
  | S n' => (f a + sum_from f (S a) n')%R
  end.

Section RealNotions.

Local Open Scope R_scope.

(** [boundingBoxOf] is the bounding box of the positions: its bounds hold
    for every node and each is the coordinate of a node. *)
Definition isBoundingBox (C : ArrayGraph R) (b : BBox R) : Prop :=
  (forall v, (v < m_numNodes C)%nat ->
     xmin b <= rd (m_x C) v <= xmax b /\ ymin b <= rd (m_y C) v <= ymax b)
  /\ (exists v, (v < m_numNodes C)%nat /\ xmin b = rd (m_x C) v)
  /\ (exists v, (v < m_numNodes C)%nat /\ xmax b = rd (m_x C) v)
  /\ (exists v, (v < m_numNodes C)%nat /\ ymin b = rd (m_y C) v)
  /\ (exists v, (v < m_numNodes C)%nat /\ ymax b = rd (m_y C) v).

(** The temperatures and the counter after [n] calls of [cool], from the
    initial values of the engine's loop. *)
Definition cooled (ext : Extern R) (se : SpringEmbedderFRExact R) (n : nat) : R * R * Z :=
  Nat.iter n (cool ext se) (m_txNull se, m_tyNull se, 1%Z).

Definition tempX (t : R * R * Z) : R := fst (fst t).
Definition tempY (t : R * R * Z) : R := snd (fst t).

(** The states of the loop of [mainStep] at the start of a round. *)
Inductive reached (ext : Extern R) (se : SpringEmbedderFRExact R) (C : ArrayGraph R)
    : MainLoop R -> Prop :=
| reached_first :
    reached ext se C
      (mkMainLoop C (m_txNull se) (m_tyNull se) 1 (m_iterations se =? 0)%Z 1)
| reached_next s :
    reached ext se C s -> ml_converged s = false ->
    reached ext se C (mainStep_body ext se s).

(** The repulsive terms of node [u] on node [v], per axis. *)
Definition rep_x (C : ArrayGraph R) (v u : nat) : R :=
  (rd (m_x C) v - rd (m_x C) u) * (rd (m_nodeWeight C) u / rep_distSquare C v u).
Definition rep_y (C : ArrayGraph R) (v u : nat) : R :=
  (rd (m_y C) v - rd (m_y C) u) * (rd (m_nodeWeight C) u / rep_distSquare C v u).

(** The two lanes of a register, added. *)
Definition lanesum (a : m128d R) : R := fst a + snd a.

(** The position of node [v] after the capping, per axis. *)
Definition cap_x (D : list R * list R) (tx : R) (v : nat) (x : R) : R :=
  x + xdisplace (rd (fst D) v) (rd (snd D) v) tx.
Definition cap_y (D : list R * list R) (ty : R) (v : nat) (y : R) : R :=
  y + ydisplace (rd (fst D) v) (rd (snd D) v) ty.

(** The loop variables the two paths share. *)
Definition same_state (s : MainLoop R) (t : Sse3Loop R) : Prop :=
  ml_C s = sl_C t /\ ml_tx s = sl_tx t /\ ml_ty s = sl_ty t /\ ml_cF s = sl_cF t
  /\ ml_itCount s = sl_i t.

End RealNotions.

(** ** Rounds, options, calls and tiles *)

Section RoundNotions.

Variable num : Type.
Context {AR : Arith num}.
Variable ext : Extern num.

(** The variables of the loop of [mainStep] when the loop is reached, and
    after [r] executions of its body. *)
Definition mainStep_init (se : SpringEmbedderFRExact num) (C : ArrayGraph num)
    : MainLoop num :=
  mkMainLoop C (m_txNull se) (m_tyNull se) 1 (m_iterations se =? 0)%Z 1.

Definition afterRounds (se : SpringEmbedderFRExact num) (C : ArrayGraph num) (r : nat)
    : MainLoop num :=
  Nat.iter r (mainStep_body ext se) (mainStep_init se C).

(** The number of rounds [mainStep] has run when it returns: [itCount]
    starts at 1 and counts them. *)
Definition roundsDone (se : SpringEmbedderFRExact num) (C : ArrayGraph num) : nat :=
  Z.to_nat (ml_itCount (mainStep_run ext se C) - 1).

(** The round that starts in state [s] is quiet: no node moves by more than
    the threshold in it. *)
Definition quiet (se : SpringEmbedderFRExact num) (s : MainLoop num) : bool :=
  forallb (fun v => negb (exceeds se (forces se (ml_C s)) (ml_tx s) (ml_ty s) v))
    (seq 0 (m_numNodes (ml_C s))).

(** The variables of the loop of [mainStep_sse3] when the loop is reached. *)
Definition sse3_init (se : SpringEmbedderFRExact num) (C : ArrayGraph num)
    : Sse3Loop num :=
  mkSse3Loop C (m_txNull se) (m_tyNull se) 1 1.

End RoundNotions.


Section WeightNotions.

Variable num : Type.
Context {AR : Arith num}.

(** The view [C] with the buffer of node weights replaced by [w]. *)
Definition set_nodeWeight (C : ArrayGraph num) (w : list num) : ArrayGraph num :=
  mkArrayGraph (m_numNodes C) (m_numEdges C) (m_numCC C) (m_orig C) (m_src C)
    (m_tgt C) (m_x C) (m_y C) w (ag_useNodeWeight C) (m_mapNode C)
    (m_nodesInCC C).

End WeightNotions.

Section OptionNotions.

Variable num : Type.
Context {AR : Arith num}.

Local Open Scope num_scope.

(** The embedder with the option [noise] set to [b]. *)
Definition set_noise (se : SpringEmbedderFRExact num) (b : bool) : SpringEmbedderFRExact num :=
  mkSE (m_iterations se) b (m_coolingFunction se) (m_coolFactor_x se)
    (m_coolFactor_y se) (m_idealEdgeLength se) (m_minDistCC se) (m_pageRatio se)
    (m_useNodeWeight se) (m_checkConvergence se) (m_convTolerance se)
    (m_txNull se) (m_tyNull se).

(** The view [C] with every position moved by [(a, b)]. *)
Definition translate (a b : num) (C : ArrayGraph num) : ArrayGraph num :=
  set_xy C (map (fun x => x + a) (m_x C)) (map (fun y => y + b) (m_y C)).

End OptionNotions.

Section CallNotions.

Variable num : Type.
Context {AR : Arith num}.
Variable ext : Extern num.

Local Open Scope num_scope.

(** The calls [call] makes for component [i], in order: [initCC], and for a
    component of two nodes or more [initialize] and one of the engines. *)
Definition callsFor (A : ArrayGraph num) (i : nat) : list Event :=
  EvInitCC i
  :: (if Nat.leb 2 (length (nth i (m_nodesInCC A) []))
      then [EvInitialize i;
            if cpuSupports_SSE3 ext then EvMainStep_sse3 i else EvMainStep i]
      else []).

(** The variables of [call] when it leaves the loop over the components. *)
Definition call_loop (se : SpringEmbedderFRExact num) (AG : GraphAttributes num)
    : CallState num :=
  let s0 := call_start ext se (clearAllBends AG) in
  fold_left (call_cc ext) (seq 0 (m_numCC (cs_component s0))) s0.

(** [AG.x(v) = fx(AG.x(v)); AG.y(v) = fy(AG.y(v))], the shape of the bodies
    of the two loops of [call] that move nodes. *)
Definition move_node (fx fy : num -> num) (AG : GraphAttributes num) (v : node)
    : GraphAttributes num :=
  let AG1 := set_x AG v (fx (ga_x AG v)) in
  set_y AG1 v (fy (ga_y AG1 v)).

(** [AG'] has the graph, the node sizes and the node weights of [AG]. *)
Definition sameButPositions (AG AG' : GraphAttributes num) : Prop :=
  constGraph AG' = constGraph AG
  /\ ga_width AG' = ga_width AG /\ ga_height AG' = ga_height AG
  /\ ga_weight AG' = ga_weight AG /\ has_nodeWeight AG' = has_nodeWeight AG.

(** [se'] has the options of [se]: they differ in the two initial
    temperatures at most. *)
Definition sameOptions (se se' : SpringEmbedderFRExact num) : Prop :=
  se' = set_tNull se (m_txNull se') (m_tyNull se').

End CallNotions.

Section TileNotions.

Local Open Scope R_scope.

(** The rectangle of node [v] lies in the tile of size [box] placed at
    [off], at a distance of [d] at least from the left and from the lower
    edge of the tile. *)
Definition inTile (AG : GraphAttributes R) (d : R) (off box : DPoint R) (v : node) : Prop :=
  (fst off + d <= ga_x AG v - ga_width AG v / 2
   /\ ga_x AG v + ga_width AG v / 2 <= fst off + fst box)
  /\ (snd off + d <= ga_y AG v - ga_height AG v / 2
      /\ ga_y AG v + ga_height AG v / 2 <= snd off + snd box).

End TileNotions.

(** ** On binary64 numbers *)

Section BinaryNotions.

Local Open Scope float_scope.

(** [0 <= t]: [t] is neither negative nor NaN. *)
Definition nonneg (t : float) : bool := (zero <=? t).

(** [x] is a zero, a finite number or an infinity of sign [s]. *)
Definition signed (s : bool) (x : spec_float) : Prop :=
  match x with
  | S754_zero s' | S754_infinity s' | S754_finite s' _ _ => s' = s
  | S754_nan => False
  end.

(** What is at least zero, as a [spec_float]. *)
Definition SFnonneg (x : spec_float) : Prop :=
  match x with
  | S754_zero _ | S754_finite false _ _ | S754_infinity false => True
  | _ => False
  end.

(** A positive finite number. *)
Definition posfin (c : float) : bool := (zero <? c) && is_finite c.

(** [x] is the number [a]: [a] itself, or a zero where [a] is a zero (the
    two zeros of binary64 are equal as numbers). *)
Definition near (a x : float) : Prop :=
  x = a \/ (is_zero a = true /\ is_zero x = true).

(** Every cell of the buffer holds a zero. *)
Definition zeros (l : list float) : Prop := forall i, is_zero (rd l i) = true.

(** A view made of two nodes alone, both at [(a, b)], with its edges
    between valid indices and node weights that do not overflow when they
    are divided by [minDistSquare]. *)
Definition pairAt (a b : float) (C : ArrayGraph float) : Prop :=
  m_numNodes C = 2%nat /\ length (m_x C) = 2%nat /\ length (m_y C) = 2%nat
  /\ (forall v, (v < 2)%nat -> near a (rd (m_x C) v) /\ near b (rd (m_y C) v))
  /\ (forall e, (rdi (m_src C) e < 2)%nat /\ (rdi (m_tgt C) e < 2)%nat)
  /\ (forall u, (u < 2)%nat ->
        is_finite (rd (m_nodeWeight C) u / minDistSquare) = true).

End BinaryNotions.

(** * Concrete inputs *)

(** ** Collaborators *)

(** Modelled from the spec: [connectedComponents] of
    ogdf/basic/simple_graph_alg.h, which is not among the sources; the spec
    has it give "a partition of the node set into disjoint components, as a
    mapping from node to component index". Every node starts with its own
    index as label, the smaller label of the two ends of an edge is given to
    both, once per node for every edge, and the labels are numbered in the
    order in which [G.nodes] meets them: [nodup] keeps the last occurrence
    of a value, so the list of labels is reversed before it and its result
    reversed again. *)
Definition relabel (lab : NodeArray nat) (e : edgeElement) : NodeArray nat :=
  let m := Nat.min (lab (e_source e)) (lab (e_target e)) in
  na_set (na_set lab (e_source e) m) (e_target e) m.

Definition labels (G : Graph) : NodeArray nat :=
  fold_left (fun lab _ => fold_left relabel (edges G) lab) (nodes G) (fun v => v).

Fixpoint indexOf (x : nat) (l : list nat) : nat :=
  match l with
  | [] => O
  | y :: l' => if Nat.eqb x y then O else S (indexOf x l')
  end.

Definition connectedComponents_ref (G : Graph) : nat * NodeArray nat :=
  let lab := labels G in
  let reps := rev (nodup Nat.eq_dec (rev (map lab (nodes G)))) in
  (length reps, fun v => indexOf (lab v) reps).

Section Inputs.

Local Open Scope float_scope.

(** A packer for the runs: the components side by side in one row. *)
Fixpoint rowPacker (x : float) (boxes : list (float * float)) : list (float * float) :=
  match boxes with
  | [] => []
  | b :: boxes' => (x, 0) :: rowPacker (x + fst b) boxes'
  end.

(** The collaborators of the runs. All runs cool by a factor, where [cool]
    does not call [mylog2]; its place is taken by the integer logarithm.
    [sse3] tells whether the vectorized loop is compiled in and the
    processor has SSE3. *)
Definition extF (sse3 : bool) : Extern float :=
  mkExtern connectedComponents_ref
    (fun cF => float_of_Z (Z.log2 cF))
    (fun boxes _ => rowPacker 0 boxes)
    sse3 sse3 false.

#[local] Set Warnings "-inexact-float".

(** The embedder with its default options but for the ideal edge length
    and the separation of components, which the defaults take from
    [LayoutStandards], and for the budget of iterations and
    [checkConvergence], which the runs vary. *)
Definition seF (iterations : Z) (checkConvergence : bool) : SpringEmbedderFRExact float :=
  mkSE iterations true Factor 0.9 0.9 10 5 1 false checkConvergence 0.01 0 0.

#[local] Set Warnings "inexact-float".

(** ** Graphs with binary64 attributes *)

(** Nodes of 20 by 20, every edge with two bend points. *)
Definition attributesF (G : Graph) (x y : NodeArray float) : GraphAttributes float :=
  mkGA G x y (fun _ => 20) (fun _ => 20) (fun _ => 1%Z) false
       (fun _ => [(1, 1); (2, 2)]).

(** One node, at (5, 7). *)
Definition G_single : Graph := mkGraph [0%nat] [].
Definition AG_single : GraphAttributes float :=
  attributesF G_single (fun _ => 5) (fun _ => 7).

(** Two nodes joined by an edge. *)
Definition G_pair : Graph := mkGraph [0%nat; 1%nat] [mkEdge 0%nat 1%nat].

(** The pair with a self-loop at node 1. *)
Definition G_loop : Graph :=
  mkGraph [0%nat; 1%nat] [mkEdge 0%nat 1%nat; mkEdge 1%nat 1%nat].

(** The attribute of a pair: [p0] for node 0, [p1] for node 1. *)
Definition at2 (p0 p1 : float) : NodeArray float :=
  fun v => if Nat.eqb v 0 then p0 else p1.

(** The pair with both nodes at (3, 4). *)
Definition AG_coincident : GraphAttributes float :=
  attributesF G_pair (fun _ => 3) (fun _ => 4).

(** The pair at (0, 0) and (30, 40). *)
Definition AG_far : GraphAttributes float :=
  attributesF G_pair (at2 0 30) (at2 0 40).

(** The pair with the self-loop, and the pair at (0, 0) and (3, 0), which
    [initialize] puts close to the distance where the two forces cancel. *)
Definition AG_loop : GraphAttributes float :=
  attributesF G_loop (at2 0 30) (at2 0 40).
Definition AG_near : GraphAttributes float :=
  attributesF G_pair (at2 0 3) (at2 0 0).

#[local] Set Warnings "-inexact-float".


#[local] Set Warnings "inexact-float".

(** The view of component [i] of [AG], as [initCC] builds it first. *)
Definition viewF (AG : GraphAttributes float) (i : nat) : ArrayGraph float :=
  initCC AG (ArrayGraph_new (extF false) AG) i.

(** The component and the embedder as [call] hands them to the engine:
    after [initCC] and [initialize]. *)
Definition initializedF (iterations : Z) (checkConvergence : bool)
    (AG : GraphAttributes float) : SpringEmbedderFRExact float * ArrayGraph float :=
  initialize (seF iterations checkConvergence) (viewF AG 0).

(** The two nodes of a pair are apart. *)
Definition separated (C : ArrayGraph float) : Prop :=
  rd (m_x C) 0 <> rd (m_x C) 1 \/ rd (m_y C) 0 <> rd (m_y C) 1.

End Inputs.

(** ** Views over the reals *)

(** Over the reals: collaborators with the logarithm of the spec, an
    embedder in logarithmic mode with initial temperatures 2 and 3, and the
    view of a pair at (0, 0) and (3, 4). *)
Definition extR : Extern R :=
  mkExtern connectedComponents_ref mylog2_spec
    (fun boxes _ => map (fun _ => (0%R, 0%R)) boxes) true true false.

Definition seR : SpringEmbedderFRExact R :=
  mkSE 1000 true Logarithmic (9 / 10)%R (9 / 10)%R 10%R 5%R 1%R false true
    (1 / 100)%R 2%R 3%R.

Definition viewR (x y : list R) : ArrayGraph R :=
  mkArrayGraph 2 1 1 [0%nat; 1%nat] [0%nat] [1%nat] x y [1%R; 1%R] false
    (fun v => v) [[0%nat; 1%nat]].

Definition C_farR : ArrayGraph R := viewR [0%R; 3%R] [0%R; 4%R].

(** ** More inputs *)

(** Three nodes and an edge between nodes 0 and 2: two components. *)
Definition G_two : Graph := mkGraph [0%nat; 1%nat; 2%nat] [mkEdge 0%nat 2%nat].

Section MoreInputs.

Local Open Scope float_scope.

(** The three nodes at (0, 0), (5, 5) and (3, 4), in binary64. *)
Definition AG_two : GraphAttributes float :=
  attributesF G_two
    (fun v => if Nat.eqb v 0 then 0 else if Nat.eqb v 1 then 5 else 3)
    (fun v => if Nat.eqb v 0 then 0 else if Nat.eqb v 1 then 5 else 4).

(** A path of three nodes, 0 - 1 - 2, with nodes 0 and 1 both at (3, 4)
    and node 2 at (0, 0). *)
Definition G_path : Graph :=
  mkGraph [0%nat; 1%nat; 2%nat] [mkEdge 0%nat 1%nat; mkEdge 1%nat 2%nat].
Definition AG_path : GraphAttributes float :=
  attributesF G_path
    (fun v => if Nat.eqb v 2 then 0 else 3)
    (fun v => if Nat.eqb v 2 then 0 else 4).

#[local] Set Warnings "-inexact-float".

(** The embedder of the runs with an ideal edge length of 1e200, the square
    of which is not a binary64 number. *)
Definition seF_long : SpringEmbedderFRExact float :=
  mkSE 1000 true Factor 0.9 0.9 1e200 5 1 false false 0.01 0 0.

#[local] Set Warnings "inexact-float".

(** Collaborators of a build with the vectorized loop compiled with the
    square of the edge length. *)
Definition extK : Extern float :=
  mkExtern connectedComponents_ref
    (fun cF => float_of_Z (Z.log2 cF))
    (fun boxes _ => rowPacker 0 boxes)
    true true true.

End MoreInputs.

Section MoreInputsReals.

Local Open Scope R_scope.

(** The three nodes at (0, 0), (5, 5) and (3, 4), over the reals, with
    nodes of 2 by 2. *)
Definition AG_twoR : GraphAttributes R :=
  mkGA G_two
    (fun v => if Nat.eqb v 0 then 0 else if Nat.eqb v 1 then 5 else 3)
    (fun v => if Nat.eqb v 0 then 0 else if Nat.eqb v 1 then 5 else 4)
    (fun _ => 2) (fun _ => 2) (fun _ => 1%Z) false (fun _ => []).

(** Default sizes for the constructor, and the embedder it makes, with 2
    and 3 in the two members it does not set. *)
Definition lsR : LayoutStandards R := mkLayoutStandards 20 20 20 30.

Definition seR_default : SpringEmbedderFRExact R := SpringEmbedderFRExact_new lsR 2 3.

(** The embedder [seR] without [checkConvergence]. *)
Definition seR_nocheck : SpringEmbedderFRExact R :=
  mkSE 1000 true Logarithmic (9 / 10) (9 / 10) 10 5 1 false false (1 / 100) 2 3.

(** The variables of [call] on the three nodes when it enters the loop over
    the components. *)
Definition s_twoR : CallState R := call_start extR seR (clearAllBends AG_twoR).

End MoreInputsReals.

(** * Properties *)

(** ** Loops and buffers *)

Lemma fold_left_inv {S X : Type} (P : S -> Prop) (f : S -> X -> S) (l : list X) :
  (forall s x, In x l -> P s -> P (f s x)) ->
  forall s, P s -> P (fold_left f l s).
Proof.
  induction l as [|x l IH]; simpl; intros Hf s Hs; [assumption|].
  apply IH; auto.
Qed.

Lemma store_length {A : Type} (l : list A) i v : length (store l i v) = length l.
Proof.
  revert i; induction l as [|h t IH]; intros [|i]; simpl; auto.
Qed.

Lemma nth_store_same {A : Type} (l : list A) i v d :
  i < length l -> nth i (store l i v) d = v.
Proof.
  revert i; induction l as [|h t IH]; intros [|i]; simpl; intros H; auto; try lia.
  apply IH; lia.
Qed.

Lemma nth_store_other {A : Type} (l : list A) i j v d :
  i <> j -> nth j (store l i v) d = nth j l d.
Proof.
  revert i j; induction l as [|h t IH]; intros [|i] [|j]; simpl; intros H; auto; try lia.
Qed.

Lemma alloc_length {A : Type} n (d : A) : length (alloc n d) = n.
Proof. apply repeat_length. Qed.

(** ** The engine *)

Section Control.

Variable num : Type.
Context {AR : Arith num}.
Variable ext : Extern num.

(** *** The engine writes positions only *)

Lemma only_xy_refl (C : ArrayGraph num) : only_xy C C.
Proof. exists (m_x C), (m_y C). destruct C; auto. Qed.

Lemma only_xy_trans (C1 C2 C3 : ArrayGraph num) :
  only_xy C1 C2 -> only_xy C2 C3 -> only_xy C1 C3.
Proof.
  intros (x & y & -> & Hx & Hy) (x' & y' & -> & Hx' & Hy').
  exists x', y'. simpl in *. repeat split; congruence.
Qed.

Lemma only_xy_set (C : ArrayGraph num) x y :
  length x = length (m_x C) -> length y = length (m_y C) -> only_xy C (set_xy C x y).
Proof. intros; exists x, y; auto. Qed.

Lemma only_xy_fold {X : Type} (f : ArrayGraph num -> X -> ArrayGraph num) (l : list X) C :
  (forall C0 x, only_xy C0 (f C0 x)) -> only_xy C (fold_left f l C).
Proof.
  intros Hf. apply (fold_left_inv (only_xy C)).
  - intros s x _ Hs. eapply only_xy_trans; eauto.
  - apply only_xy_refl.
Qed.

Lemma for_pairs_inv {S : Type} (P : S -> Prop) (body : nat -> S -> S) bound :
  (forall u s, P s -> P (body u s)) ->
  forall fuel u s, P s -> P (snd (for_pairs fuel u bound body s)).
Proof.
  intros Hb. induction fuel as [|fuel IH]; intros u s Hs; simpl; auto.
  destruct (Nat.ltb (u + 1) bound); simpl; auto.
Qed.

(** A loop over pairs is left with its condition false: the bound on its
    rounds is not what ends it. *)
Lemma for_pairs_exits {S : Type} (body : nat -> S -> S) bound fuel u s :
  bound <= u + fuel -> ~ (fst (for_pairs fuel u bound body s) + 1 < bound).
Proof.
  revert u s; induction fuel as [|fuel IH]; intros u s Hf; simpl.
  - lia.
  - destruct (Nat.ltb_spec (u + 1) bound) as [Hlt|Hge]; simpl; [|lia].
    apply IH. lia.
Qed.

Lemma only_xy_cap_node se D tx ty s v : only_xy (fst s) (fst (cap_node se D tx ty s v)).
Proof. apply only_xy_set; apply store_length. Qed.

Lemma only_xy_mainStep_body se s : only_xy (ml_C s) (ml_C (mainStep_body ext se s)).
Proof.
  unfold mainStep_body.
  match goal with |- context [fold_left ?f ?l ?a] =>
    assert (H : only_xy (ml_C s) (fst (fold_left f l a))) end.
  { apply (fold_left_inv (fun p => only_xy (ml_C s) (fst p))).
    - intros p x _ Hp. eapply only_xy_trans; [exact Hp|]. apply only_xy_cap_node.
    - apply only_xy_refl. }
  destruct (fold_left _ _ _) as [C' c']. destruct (cool _ _ _) as [[tx ty] cF].
  exact H.
Qed.

Lemma only_xy_mainStep se C : only_xy C (mainStep ext se C).
Proof.
  unfold mainStep, mainStep_run.
  generalize (S (Z.to_nat (m_iterations se))); intros fuel.
  match goal with |- only_xy _ (ml_C (mainStep_while _ _ _ ?s0)) =>
    change (only_xy (ml_C s0) (ml_C (mainStep_while ext se fuel s0)));
    generalize s0 end.
  induction fuel as [|fuel IH]; intros s; simpl.
  - destruct (ml_converged s); apply only_xy_refl.
  - destruct (ml_converged s); [apply only_xy_refl|].
    eapply only_xy_trans; [apply only_xy_mainStep_body | apply IH].
Qed.

Lemma only_xy_sse3_body se s : only_xy (sl_C s) (sl_C (sse3_body ext se s)).
Proof.
  unfold sse3_body. destruct (cool _ _ _) as [[tx ty] cF]. cbn [sl_C].
  eapply only_xy_trans.
  - apply (for_pairs_inv (only_xy (sl_C s))); [|apply only_xy_refl].
    intros u C0 H0. eapply only_xy_trans; [exact H0|].
    unfold cap_pair_sse3, _mm_store_pd.
    apply only_xy_set; rewrite 2 store_length; reflexivity.
  - unfold cap_last_sse3. destruct (Nat.eqb _ 0); [apply only_xy_refl|].
    apply only_xy_set; apply store_length.
Qed.

Lemma only_xy_mainStep_sse3 se C : only_xy C (mainStep_sse3 ext se C).
Proof.
  unfold mainStep_sse3. destruct (OGDF_SSE3_EXTENSIONS ext); [|apply only_xy_mainStep].
  unfold sse3_run.
  generalize (Z.to_nat (m_iterations se)); intros fuel.
  match goal with |- only_xy _ (sl_C (sse3_for _ _ _ ?s0)) =>
    change (only_xy (sl_C s0) (sl_C (sse3_for ext se fuel s0)));
    generalize s0 end.
  induction fuel as [|fuel IH]; intros s; simpl.
  - destruct (sl_i s <=? m_iterations se)%Z; apply only_xy_refl.
  - destruct (sl_i s <=? m_iterations se)%Z; [|apply only_xy_refl].
    eapply only_xy_trans; [apply only_xy_sse3_body | apply IH].
Qed.

Lemma only_xy_initialize se C : only_xy C (snd (initialize se C)).
Proof.
  unfold initialize. cbn [snd]. apply only_xy_fold.
  intros C0 v. apply only_xy_set; apply store_length.
Qed.

Lemma initialize_options se C :
  fst (initialize se C)
  = set_tNull se (m_txNull (fst (initialize se C))) (m_tyNull (fst (initialize se C))).
Proof. reflexivity. Qed.

Lemma only_xy_layoutCC se C i : only_xy C (snd (fst (layoutCC ext se C i))).
Proof.
  unfold layoutCC. destruct (Nat.leb 2 _); [|apply only_xy_refl].
  pose proof (only_xy_initialize se C) as Hi.
  destruct (initialize se C) as [se1 c1]. cbn [snd] in Hi.
  destruct (cpuSupports_SSE3 ext); cbn [fst snd];
    (eapply only_xy_trans; [exact Hi|]);
    [apply only_xy_mainStep_sse3 | apply only_xy_mainStep].
Qed.

(** *** The two loops of the engine reach their exit *)

Lemma mainStep_while_exits se fuel s :
  (m_iterations se < ml_itCount s + Z.of_nat fuel)%Z ->
  (1 <= ml_itCount s)%Z ->
  (ml_converged s = true \/ 1 <= fuel) ->
  ml_converged (mainStep_while ext se fuel s) = true.
Proof.
  revert s; induction fuel as [|fuel IH]; intros s Hlt Hit Hc; simpl.
  - destruct (ml_converged s) eqn:E; auto. destruct Hc; [discriminate | lia].
  - destruct (ml_converged s) eqn:E; auto.
    destruct fuel as [|fuel].
    + simpl. unfold mainStep_body.
      destruct (fold_left _ _ _) as [C' c']. destruct (cool _ _ _) as [[tx ty] cF].
      simpl. replace (m_iterations se <? ml_itCount s + 1)%Z with true.
      * reflexivity.
      * symmetry; apply Z.ltb_lt; lia.
    + apply IH.
      * unfold mainStep_body.
        destruct (fold_left _ _ _) as [C' c']. destruct (cool _ _ _) as [[tx ty] cF].
        simpl. lia.
      * unfold mainStep_body.
        destruct (fold_left _ _ _) as [C' c']. destruct (cool _ _ _) as [[tx ty] cF].
        simpl. lia.
      * right; lia.
Qed.

(** [mainStep] returns: its loop is left with [converged] set. *)
Lemma mainStep_exits se C : ml_converged (mainStep_run ext se C) = true.
Proof.
  unfold mainStep_run.
  apply mainStep_while_exits; cbn [ml_itCount ml_converged]; [lia | lia | right; lia].
Qed.

Lemma sse3_for_exits se fuel s :
  (m_iterations se < sl_i s + Z.of_nat fuel)%Z ->
  (m_iterations se < sl_i (sse3_for ext se fuel s))%Z.
Proof.
  revert s; induction fuel as [|fuel IH]; intros s Hlt; simpl.
  - destruct (sl_i s <=? m_iterations se)%Z eqn:E; [apply Z.leb_le in E | apply Z.leb_gt in E]; lia.
  - destruct (sl_i s <=? m_iterations se)%Z eqn:E; [|apply Z.leb_gt in E; lia].
    apply IH. unfold sse3_body. destruct (cool _ _ _) as [[tx ty] cF]. simpl. lia.
Qed.

(** The loop of [mainStep_sse3] returns, with [i] past the budget. *)
Lemma sse3_exits se C : (m_iterations se < sl_i (sse3_run ext se C))%Z.
Proof.
  unfold sse3_run. apply sse3_for_exits. cbn [sl_i]. lia.
Qed.

(** C6: with an iteration budget of zero the body of neither loop is
    executed (the loop variables are the initial ones: [itCount], [i] and the
    cooling counter are still 1) and both [mainStep] and [mainStep_sse3]
    return the component as [initialize] left it. *)
Theorem zero_budget_skips_engine se C :
  m_iterations se = 0%Z ->
  mainStep_run ext se C = mkMainLoop C (m_txNull se) (m_tyNull se) 1 true 1
  /\ sse3_run ext se C = mkSse3Loop C (m_txNull se) (m_tyNull se) 1 1
  /\ mainStep ext se C = C
  /\ mainStep_sse3 ext se C = C
  /\ (forall i, 2 <= m_numNodes C ->
       snd (fst (layoutCC ext se C i)) = snd (initialize se C)).
Proof.
  intros H0.
  assert (Hgen : forall se' C', m_iterations se' = 0%Z ->
            mainStep ext se' C' = C' /\ mainStep_sse3 ext se' C' = C').
  { intros se' C' H'.
    assert (Hm : mainStep ext se' C' = C').
    { unfold mainStep, mainStep_run. rewrite H'. reflexivity. }
    split; [exact Hm|].
    unfold mainStep_sse3. rewrite Hm.
    unfold sse3_run. rewrite H'. simpl. rewrite H'.
    destruct (OGDF_SSE3_EXTENSIONS ext); reflexivity. }
  assert (Hm : mainStep_run ext se C
               = mkMainLoop C (m_txNull se) (m_tyNull se) 1 true 1).
  { unfold mainStep_run. rewrite H0. reflexivity. }
  assert (Hs : sse3_run ext se C = mkSse3Loop C (m_txNull se) (m_tyNull se) 1 1).
  { unfold sse3_run. rewrite H0. simpl. rewrite H0. reflexivity. }
  destruct (Hgen se C H0) as [H1 H2].
  repeat split; auto.
  intros i Hn. unfold layoutCC.
  apply Nat.leb_le in Hn. rewrite Hn.
  destruct (initialize se C) as [se1 c1] eqn:Ei.
  assert (H1' : m_iterations se1 = 0%Z).
  { unfold initialize in Ei. injection Ei as <- _. exact H0. }
  destruct (Hgen se1 c1 H1') as [H3 H4].
  destruct (cpuSupports_SSE3 ext); simpl; auto.
Qed.

End Control.

(** ** The orchestrator *)

Section Orchestrator.

Variable num : Type.
Context {AR : Arith num}.
Variable ext : Extern num.

(** *** What the orchestrator leaves alone *)

Lemma writeBack_bends (component : ArrayGraph num) AG :
  ga_bends (wb_AG (writeBack component AG)) = ga_bends AG.
Proof.
  unfold writeBack.
  apply (fold_left_inv (fun s => ga_bends (wb_AG s) = ga_bends AG)); auto.
Qed.

Lemma call_cc_bends (s : CallState num) i :
  ga_bends (cs_AG (call_cc ext s i)) = ga_bends (cs_AG s).
Proof.
  unfold call_cc.
  destruct (layoutCC _ _ _ _) as [[se' c'] evs]. cbn [cs_AG].
  apply (fold_left_inv (fun a => ga_bends a = ga_bends (cs_AG s))).
  - intros a x _ Ha. exact Ha.
  - apply writeBack_bends.
Qed.

Lemma offset_cc_bends (component : ArrayGraph num) offset AG i :
  ga_bends (offset_cc component offset AG i) = ga_bends AG.
Proof.
  unfold offset_cc.
  apply (fold_left_inv (fun a => ga_bends a = ga_bends AG)); auto.
Qed.

(** The events of one round of the loop over the components carry its
    index, and the earlier ones stay in place. *)
Lemma call_cc_trace (s : CallState num) i :
  exists evs, cs_trace (call_cc ext s i) = cs_trace s ++ evs
    /\ (forall e, In e evs ->
          e = EvInitCC i \/ e = EvInitialize i \/ e = EvMainStep i
          \/ e = EvMainStep_sse3 i)
    /\ (length (nth i (m_nodesInCC (cs_component s)) []) < 2 -> evs = [EvInitCC i]).
Proof.
  unfold call_cc.
  destruct (layoutCC _ _ _ _) as [[se' c'] evs] eqn:E. cbn [cs_trace].
  exists (EvInitCC i :: evs). split; [reflexivity|].
  unfold layoutCC in E. cbn [initCC m_numNodes] in E.
  destruct (Nat.leb 2 _) eqn:En.
  - destruct (initialize _ _) as [se1 c1].
    split.
    + destruct (cpuSupports_SSE3 ext); injection E as _ _ <-;
        intros e [<-|[<-|[<-|[]]]]; auto.
    + intros Hlt. apply Nat.leb_le in En. lia.
  - injection E as _ _ <-. split.
    + intros e [<-|[]]; auto.
    + reflexivity.
Qed.

Lemma call_loop_bends l (s : CallState num) :
  ga_bends (cs_AG (fold_left (call_cc ext) l s)) = ga_bends (cs_AG s).
Proof.
  apply (fold_left_inv (fun s' => ga_bends (cs_AG s') = ga_bends (cs_AG s))); auto.
  intros s' i _ H. rewrite call_cc_bends. exact H.
Qed.

Lemma call_loop_trace l (s : CallState num) :
  exists evs, cs_trace (fold_left (call_cc ext) l s) = cs_trace s ++ evs
    /\ (forall e, In e evs -> exists i, In i l /\
          (e = EvInitCC i \/ e = EvInitialize i \/ e = EvMainStep i
           \/ e = EvMainStep_sse3 i)).
Proof.
  revert s; induction l as [|i l IH]; intros s; simpl.
  - exists []. rewrite app_nil_r. split; [reflexivity | intros e []].
  - destruct (IH (call_cc ext s i)) as (evs2 & E2 & H2).
    destruct (call_cc_trace s i) as (evs1 & E1 & H1 & _).
    exists (evs1 ++ evs2). rewrite E2, E1, app_assoc. split; [reflexivity|].
    intros e He. apply in_app_or in He. destruct He as [He|He].
    + exists i. split; [left; reflexivity | apply H1; exact He].
    + destruct (H2 e He) as (j & Hj & Hf). exists j. split; [right|]; assumption.
Qed.

(** C10: on a graph that is not empty, [call] begins with [clearAllBends]:
    it is the first thing done (every [initCC], [initialize], [mainStep],
    [mainStep_sse3] and the packer come after it, and it is not done again),
    and no edge has a bend point in the attribute store that [call] leaves,
    whatever the components are and whether or not the engine ran on them. *)
Theorem call_clears_all_bends se (AG : GraphAttributes num) :
  empty (constGraph AG) = false ->
  (forall e, ga_bends (snd (fst (call ext se AG))) e = [])
  /\ exists rest, snd (call ext se AG) = EvClearAllBends :: rest
       /\ ~ In EvClearAllBends rest.
Proof.
  intros Hne. unfold call. rewrite Hne. cbn [fst snd].
  split.
  - intros e.
    match goal with |- ga_bends (fold_left ?f ?l ?a) e = _ =>
      assert (H : ga_bends (fold_left f l a) = ga_bends a) end.
    { apply (fold_left_inv (fun a' => ga_bends a' = ga_bends _)); auto.
      intros a' i _ H. rewrite offset_cc_bends. exact H. }
    rewrite H, call_loop_bends. reflexivity.
  - match goal with |- context [fold_left (call_cc ext) ?l ?s0] =>
      destruct (call_loop_trace l s0) as (evs & E & Hevs) end.
    rewrite E. unfold call_start. cbn [cs_trace app].
    exists (evs ++ [EvPackerCall]). split; [reflexivity|].
    intros Hin. apply in_app_or in Hin. destruct Hin as [Hin|[Hin|[]]].
    + destruct (Hevs _ Hin) as (i & _ & [H|[H|[H|H]]]); discriminate.
    + discriminate.
Qed.

End Orchestrator.

(** ** The flat view built by [initCC] *)

Lemma store_app {A : Type} (pre : list A) r rest v :
  store (pre ++ r :: rest) (length pre) v = pre ++ v :: rest.
Proof.
  induction pre as [|p pre IH]; simpl; [reflexivity | rewrite IH; reflexivity].
Qed.

Lemma fill_app {A : Type} (vals pre rest : list A) :
  length vals <= length rest ->
  fill (pre ++ rest) (length pre) vals = pre ++ vals ++ skipn (length vals) rest.
Proof.
  revert pre rest; induction vals as [|v vs IH]; intros pre rest Hl; simpl.
  - reflexivity.
  - destruct rest as [|r rest]; simpl in Hl; [lia|].
    rewrite store_app.
    replace (pre ++ v :: rest) with ((pre ++ [v]) ++ rest) by (rewrite <- app_assoc; reflexivity).
    replace (S (length pre)) with (length (pre ++ [v])) by (rewrite length_app; simpl; lia).
    rewrite IH by lia. rewrite <- app_assoc. reflexivity.
Qed.

Lemma fill_alloc {A : Type} (vals : list A) d :
  fill (alloc (length vals) d) 0 vals = vals.
Proof.
  pose proof (fill_app vals [] (alloc (length vals) d)) as H.
  simpl in H. rewrite H by (rewrite alloc_length; lia).
  rewrite skipn_all2 by (rewrite alloc_length; lia). apply app_nil_r.
Qed.

Section FlatView.

Variable num : Type.
Context {AR : Arith num}.

Lemma count_adj_fold v l c :
  fold_left (count_adj v) l c
  = c + length (filter (fun adj => Nat.ltb v (twinNode adj)) l).
Proof.
  revert c; induction l as [|a l IH]; intros c; simpl; [lia|].
  rewrite IH. unfold count_adj. destruct (Nat.ltb v (twinNode a)); simpl; lia.
Qed.

(** The first loop of [initCC], buffer by buffer. *)
Lemma initCC_nodes_fold (ga : GraphAttributes num) b l (s : InitNodes num) :
  let s' := fold_left (initCC_node ga b) l s in
  in_j s' = in_j s + length l
  /\ in_orig s' = fill (in_orig s) (in_j s) l
  /\ in_x s' = fill (in_x s) (in_j s) (map (ga_x ga) l)
  /\ in_y s' = fill (in_y s) (in_j s) (map (ga_y ga) l)
  /\ in_w s' = fill (in_w s) (in_j s) (map (weightOf ga b) l)
  /\ in_numEdges s'
     = in_numEdges s + length (flat_map (recorded (constGraph ga)) l).
Proof.
  revert s; induction l as [|v l IH]; intros s; simpl.
  - repeat split; lia.
  - destruct (IH (initCC_node ga b s v)) as (Hj & Ho & Hx & Hy & Hw & He).
    rewrite Hj, Ho, Hx, Hy, Hw, He. cbn [initCC_node in_j in_orig in_x in_y in_w in_numEdges].
    rewrite count_adj_fold, length_app. unfold recorded, weightOf.
    repeat split; lia.
Qed.

(** The index the first loop leaves in [m_mapNode]. *)
Lemma initCC_nodes_map (ga : GraphAttributes num) b l (s : InitNodes num) k d :
  NoDup l -> k < length l ->
  in_map (fold_left (initCC_node ga b) l s) (nth k l d) = in_j s + k.
Proof.
  revert s k; induction l as [|v l IH]; intros s k Hnd Hk; simpl in *; [lia|].
  inversion Hnd as [|? ? Hnotin Hnd']; subst.
  destruct k as [|k].
  - assert (Hkeep : forall l' (s' : InitNodes num), ~ In v l' ->
               in_map (fold_left (initCC_node ga b) l' s') v = in_map s' v).
    { induction l' as [|u l' IH']; intros s' Hn; simpl; [reflexivity|].
      rewrite IH' by (intros H; apply Hn; right; exact H).
      cbn [initCC_node in_map]. unfold na_set.
      destruct (Nat.eqb v u) eqn:E; [|reflexivity].
      apply Nat.eqb_eq in E. exfalso; apply Hn; left; congruence. }
    rewrite Hkeep by assumption. cbn [initCC_node in_map]. unfold na_set.
    rewrite Nat.eqb_refl. lia.
  - rewrite IH by (auto; lia). cbn [initCC_node in_j]. lia.
Qed.

Lemma initCC_adj_fold mapNode v l (s : InitEdges) :
  let s' := fold_left (initCC_adj mapNode v) l s in
  let rec := filter (fun adj => Nat.ltb v (twinNode adj)) l in
  ie_j s' = ie_j s + length rec
  /\ ie_srcId s' = ie_srcId s
  /\ ie_src s' = fill (ie_src s) (ie_j s) (map (fun _ => ie_srcId s) rec)
  /\ ie_tgt s' = fill (ie_tgt s) (ie_j s) (map (fun adj => mapNode (twinNode adj)) rec).
Proof.
  revert s; induction l as [|a l IH]; intros s; simpl.
  - repeat split; lia.
  - destruct (IH (initCC_adj mapNode v s a)) as (Hj & Hs & Hsrc & Htgt).
    rewrite Hj, Hs, Hsrc, Htgt. unfold initCC_adj.
    destruct (Nat.ltb v (twinNode a)); simpl; repeat split; lia.
Qed.

Lemma fill_fill {A : Type} (a : list A) j l1 l2 :
  fill (fill a j l1) (j + length l1) l2 = fill a j (l1 ++ l2).
Proof.
  revert a j; induction l1 as [|v l1 IH]; intros a j; simpl.
  - rewrite Nat.add_0_r. reflexivity.
  - rewrite <- IH. f_equal. lia.
Qed.

Lemma initCC_edges_fold G mapNode l (s : InitEdges) :
  let s' := fold_left (initCC_edges_of G mapNode) l s in
  let ps := edgePairs G (ie_srcId s) l in
  ie_j s' = ie_j s + length ps
  /\ ie_src s' = fill (ie_src s) (ie_j s) (map fst ps)
  /\ ie_tgt s' = fill (ie_tgt s) (ie_j s) (map (fun p => mapNode (snd p)) ps).
Proof.
  revert s; induction l as [|v l IH]; intros s; simpl.
  - repeat split; lia.
  - destruct (initCC_adj_fold mapNode v (adjEntries G v) s) as (Hj & Hs & Hsrc & Htgt).
    set (s1 := fold_left (initCC_adj mapNode v) (adjEntries G v) s) in *.
    destruct (IH (initCC_edges_of G mapNode s v)) as (Hj' & Hsrc' & Htgt').
    unfold initCC_edges_of in *. fold s1 in Hj', Hsrc', Htgt' |- *.
    cbn [ie_j ie_srcId ie_src ie_tgt] in Hj', Hsrc', Htgt'.
    rewrite Hj', Hsrc', Htgt', Hs, Hj, Hsrc, Htgt.
    fold (recorded G v).
    rewrite !map_app, !map_map, length_app, !length_map. cbn [fst snd].
    repeat split.
    + lia.
    + rewrite <- fill_fill, length_map. reflexivity.
    + rewrite <- fill_fill, length_map. reflexivity.
Qed.

Lemma edgePairs_length G l a :
  length (edgePairs G a l) = length (flat_map (recorded G) l).
Proof.
  revert a; induction l as [|v l IH]; intros a; simpl; [reflexivity|].
  rewrite !length_app, length_map, IH. reflexivity.
Qed.

(** What [initCC] builds for the node list [cc] of component [i]. *)
Lemma initCC_spec (ga : GraphAttributes num) (A : ArrayGraph num) i :
  let cc := nth i (m_nodesInCC A) [] in
  let C := initCC ga A i in
  let ps := edgePairs (constGraph ga) 0 cc in
  m_numNodes C = length cc
  /\ m_orig C = cc
  /\ m_x C = map (ga_x ga) cc
  /\ m_y C = map (ga_y ga) cc
  /\ m_nodeWeight C = map (weightOf ga (ag_useNodeWeight A)) cc
  /\ m_numEdges C = length ps
  /\ m_src C = map fst ps
  /\ m_tgt C = map (fun p => m_mapNode C (snd p)) ps
  /\ m_nodesInCC C = m_nodesInCC A
  /\ m_numCC C = m_numCC A.
Proof.
  intros cc C ps. unfold C, initCC. fold cc.
  set (s0 := mkInitNodes _ _ _ _ _ _ _).
  destruct (initCC_nodes_fold ga (ag_useNodeWeight A) cc s0) as (Hj & Ho & Hx & Hy & Hw & He).
  set (s1 := fold_left (initCC_node ga (ag_useNodeWeight A)) cc s0) in *.
  set (t0 := mkInitEdges _ _ _ _).
  destruct (initCC_edges_fold (constGraph ga) (in_map s1) cc t0) as (Hj2 & Hsrc & Htgt).
  cbn [m_numNodes m_orig m_x m_y m_nodeWeight m_numEdges m_src m_tgt m_nodesInCC m_numCC m_mapNode].
  rewrite Ho, Hx, Hy, Hw, Hsrc, Htgt, He.
  unfold s0, t0. cbn [in_orig in_x in_y in_w in_j in_numEdges ie_src ie_tgt ie_j ie_srcId].
  fold ps.
  assert (Hlen : length (flat_map (recorded (constGraph ga)) cc) = length ps)
    by (symmetry; apply edgePairs_length).
  rewrite Nat.add_0_l, Hlen.
  assert (He' : in_numEdges s1 = length ps).
  { rewrite He. unfold s0. cbn [in_numEdges]. lia. }
  rewrite He'.
  repeat split.
  - apply fill_alloc.
  - rewrite <- (length_map (ga_x ga) cc) at 1. apply fill_alloc.
  - rewrite <- (length_map (ga_y ga) cc) at 1. apply fill_alloc.
  - rewrite <- (length_map (weightOf ga (ag_useNodeWeight A)) cc) at 1. apply fill_alloc.
  - rewrite <- (length_map fst ps) at 1. apply fill_alloc.
  - rewrite <- (length_map (fun p => in_map s1 (snd p)) ps) at 1. apply fill_alloc.
Qed.

End FlatView.

(** ** Edges of a component *)

(** The recorded entries of [v], as pairs of nodes, are the edges that are
    not self-loops and have [v] as their end of smaller index. *)
Lemma recorded_of_edges_from (v : node) (l : list edgeElement) a :
  map (fun adj => (v, twinNode adj))
    (filter (fun adj => Nat.ltb v (twinNode adj))
       (flat_map (adjOfEdge v) (combine (seq a (length l)) l)))
  = map norm
      (filter (fun e => negb (isLoop e)
                        && Nat.eqb (Nat.min (e_source e) (e_target e)) v) l).
Proof.
  revert a; induction l as [|e l IH]; intros a; simpl; [reflexivity|].
  rewrite filter_app, map_app, IH. clear IH.
  unfold adjOfEdge, isLoop, norm. cbn [fst snd].
  destruct e as [s t]; cbn [e_source e_target].
  destruct (Nat.eqb_spec s v) as [Hs|Hs]; destruct (Nat.eqb_spec t v) as [Ht|Ht];
    destruct (Nat.eqb_spec s t) as [Hst|Hst]; subst; try congruence;
    cbn [app filter negb andb twinNode].
  - rewrite Nat.ltb_irrefl. reflexivity.
  - destruct (Nat.ltb_spec v t) as [Hlt|Hge].
    + replace (Nat.eqb (Nat.min v t) v) with true by (symmetry; apply Nat.eqb_eq; lia).
      simpl. f_equal. f_equal; lia.
    + replace (Nat.eqb (Nat.min v t) v) with false by (symmetry; apply Nat.eqb_neq; lia).
      reflexivity.
  - destruct (Nat.ltb_spec v s) as [Hlt|Hge].
    + replace (Nat.eqb (Nat.min s v) v) with true by (symmetry; apply Nat.eqb_eq; lia).
      simpl. f_equal. f_equal; lia.
    + replace (Nat.eqb (Nat.min s v) v) with false by (symmetry; apply Nat.eqb_neq; lia).
      reflexivity.
  - reflexivity.
  - replace (Nat.eqb (Nat.min s t) v) with false by (symmetry; apply Nat.eqb_neq; lia).
    reflexivity.
Qed.

Lemma recorded_of_edges (G : Graph) (v : node) :
  map (fun adj => (v, twinNode adj)) (recorded G v)
  = map norm
      (filter (fun e => negb (isLoop e)
                        && Nat.eqb (Nat.min (e_source e) (e_target e)) v) (edges G)).
Proof. apply recorded_of_edges_from. Qed.

Lemma filter_orb_disjoint {A : Type} (p q : A -> bool) (l : list A) :
  (forall x, In x l -> p x = true -> q x = false) ->
  Permutation (filter (fun x => p x || q x) l) (filter p l ++ filter q l).
Proof.
  induction l as [|x l IH]; intros Hd; simpl; [constructor|].
  assert (IH' := IH (fun y Hy => Hd y (or_intror Hy))).
  destruct (p x) eqn:Ep; simpl.
  - rewrite (Hd x (or_introl eq_refl) Ep). constructor. exact IH'.
  - destruct (q x); [|exact IH'].
    eapply Permutation_trans; [constructor; exact IH'|]. apply Permutation_middle.
Qed.

(** Collecting, node by node, the edges with a given smaller end gives each
    edge whose smaller end is in the list once. *)
Lemma edges_by_smaller_end (G : Graph) (cc : list node) :
  NoDup cc ->
  Permutation
    (flat_map (fun v => map (fun adj => (v, twinNode adj)) (recorded G v)) cc)
    (map norm
       (filter (fun e => negb (isLoop e)
                  && existsb (Nat.eqb (Nat.min (e_source e) (e_target e))) cc)
          (edges G))).
Proof.
  induction 1 as [|v cc Hnotin Hnd IH]; simpl.
  - rewrite (filter_ext _ (fun _ => false)); [|intros e; apply andb_false_r].
    replace (filter (fun _ => false) (edges G)) with (@nil edgeElement); [constructor|].
    induction (edges G); simpl; auto.
  - rewrite recorded_of_edges.
    eapply Permutation_trans; [apply Permutation_app_head; exact IH|].
    rewrite <- map_app. apply Permutation_map. apply Permutation_sym.
    rewrite (filter_ext _ (fun e =>
       (negb (isLoop e) && Nat.eqb (Nat.min (e_source e) (e_target e)) v)
       || (negb (isLoop e)
           && existsb (Nat.eqb (Nat.min (e_source e) (e_target e))) cc))).
    + apply filter_orb_disjoint. intros e _ Hp.
      apply andb_true_iff in Hp. destruct Hp as [Hn Hv]. rewrite Hn. simpl.
      apply Nat.eqb_eq in Hv. rewrite Hv.
      destruct (existsb (Nat.eqb v) cc) eqn:E; [|reflexivity].
      apply existsb_exists in E. destruct E as (u & Hu & Huv).
      apply Nat.eqb_eq in Huv. subst u. contradiction.
    + intros e. destruct (negb (isLoop e)); simpl; reflexivity.
Qed.

Section Components.

Variable num : Type.
Context {AR : Arith num}.
Variable ext : Extern num.

Lemma pushBack_fold (comp : NodeArray nat) i l (cc0 : list (list node)) :
  i < length cc0 ->
  nth i (fold_left (fun cc v => pushBack_in cc (comp v) v) l cc0) []
  = nth i cc0 [] ++ filter (fun v => Nat.eqb (comp v) i) l.
Proof.
  revert cc0; induction l as [|v l IH]; intros cc0 Hi; simpl.
  - rewrite app_nil_r. reflexivity.
  - rewrite IH by (unfold pushBack_in; rewrite store_length; exact Hi).
    unfold pushBack_in.
    destruct (Nat.eqb_spec (comp v) i) as [E|E].
    + rewrite E, nth_store_same by exact Hi. rewrite <- app_assoc. reflexivity.
    + rewrite nth_store_other by exact E. reflexivity.
Qed.

(** The constructor lists, for each component, its nodes in the order of
    [G.nodes]. *)
Lemma nodesInCC_new (ga : GraphAttributes num) numCC comp i :
  connectedComponents ext (constGraph ga) = (numCC, comp) ->
  i < numCC ->
  nth i (m_nodesInCC (ArrayGraph_new ext ga)) []
  = filter (fun v => Nat.eqb (comp v) i) (nodes (constGraph ga)).
Proof.
  intros Hcc Hi. unfold ArrayGraph_new. rewrite Hcc. cbn [m_nodesInCC].
  rewrite pushBack_fold by (rewrite alloc_length; exact Hi).
  unfold alloc. rewrite nth_repeat. reflexivity.
Qed.

Lemma map_seq_nth {A B : Type} (f : A -> B) (l : list A) d :
  map (fun j => f (nth j l d)) (seq 0 (length l)) = map f l.
Proof.
  induction l as [|x l IH]; simpl; [reflexivity|].
  rewrite <- seq_shift, map_map. simpl. rewrite IH. reflexivity.
Qed.

Lemma initCC_mapNode (ga : GraphAttributes num) (A : ArrayGraph num) i k :
  NoDup (nth i (m_nodesInCC A) []) ->
  k < length (nth i (m_nodesInCC A) []) ->
  m_mapNode (initCC ga A i) (nth k (nth i (m_nodesInCC A) []) 0) = k.
Proof.
  intros Hnd Hk. unfold initCC. cbn [m_mapNode].
  rewrite initCC_nodes_map by assumption. reflexivity.
Qed.

(** Read back through [m_orig], the recorded pairs are the nodes themselves. *)
Lemma edgePairs_originals (G : Graph) (mapNode : NodeArray nat) (cc : list node) :
  (forall k, k < length cc -> mapNode (nth k cc 0) = k) ->
  (forall v adj, In v cc -> In adj (recorded G v) -> In (twinNode adj) cc) ->
  forall l pre, cc = pre ++ l ->
  map (fun p => (nth (fst p) cc 0, nth (mapNode (snd p)) cc 0))
      (edgePairs G (length pre) l)
  = flat_map (fun v => map (fun adj => (v, twinNode adj)) (recorded G v)) l.
Proof.
  intros Hmap Hclosed. induction l as [|v l IH]; intros pre Hcc; simpl; [reflexivity|].
  rewrite map_app, map_map. cbn [fst snd].
  assert (Hv : nth (length pre) cc 0 = v).
  { rewrite Hcc, app_nth2, Nat.sub_diag by lia. reflexivity. }
  assert (Hin : In v cc) by (rewrite Hcc; apply in_or_app; right; left; reflexivity).
  f_equal.
  - apply map_ext_in. intros adj Hadj. rewrite Hv. f_equal.
    destruct (In_nth cc (twinNode adj) 0 (Hclosed v adj Hin Hadj)) as (k & Hk & Ek).
    rewrite <- Ek at 1. rewrite (Hmap k Hk). exact Ek.
  - specialize (IH (pre ++ [v])). rewrite length_app in IH. simpl in IH.
    rewrite Nat.add_1_r in IH. apply IH. rewrite <- app_assoc. exact Hcc.
Qed.

Lemma recorded_twin (G : Graph) v adj :
  In adj (recorded G v) ->
  exists e, In e (edges G) /\ isLoop e = false
    /\ ((e_source e = v /\ e_target e = twinNode adj)
        \/ (e_target e = v /\ e_source e = twinNode adj)).
Proof.
  intros Hadj.
  assert (H : In (v, twinNode adj) (map (fun a => (v, twinNode a)) (recorded G v))).
  { apply in_map_iff. exists adj. split; [reflexivity | exact Hadj]. }
  rewrite recorded_of_edges in H. apply in_map_iff in H.
  destruct H as (e & He & Hf). apply filter_In in Hf. destruct Hf as (Hin & Hc).
  apply andb_true_iff in Hc. destruct Hc as (Hl & Hm).
  exists e. split; [exact Hin|]. split; [destruct (isLoop e); [discriminate|reflexivity]|].
  unfold norm in He. injection He as H1 H2.
  destruct (Nat.le_ge_cases (e_source e) (e_target e)); [left | right]; lia.
Qed.

Lemma edgePairs_in (G : Graph) l a p :
  In p (edgePairs G a l) ->
  a <= fst p < a + length l
  /\ exists adj, In adj (recorded G (nth (fst p - a) l 0)) /\ snd p = twinNode adj.
Proof.
  revert a; induction l as [|v l IH]; intros a Hp; simpl in *; [contradiction|].
  apply in_app_or in Hp. destruct Hp as [Hp|Hp].
  - apply in_map_iff in Hp. destruct Hp as (adj & <- & Hadj). cbn [fst snd].
    split; [lia|]. rewrite Nat.sub_diag. exists adj. auto.
  - destruct (IH _ Hp) as (Hr & adj & Hadj & Hs). split; [lia|].
    replace (fst p - a) with (S (fst p - S a)) by lia. exists adj. auto.
Qed.

Lemma map_seq_nth2 {A B : Type} (f1 f2 : A -> nat) (F : nat -> nat -> B) (l : list A) :
  map (fun j => F (nth j (map f1 l) 0) (nth j (map f2 l) 0)) (seq 0 (length l))
  = map (fun p => F (f1 p) (f2 p)) l.
Proof.
  induction l as [|x l IH]; simpl; [reflexivity|].
  rewrite <- seq_shift, map_map. simpl. rewrite IH. reflexivity.
Qed.

Lemma nth_map_in {A B : Type} (f : A -> B) (l : list A) d j :
  j < length l -> exists x, In x l /\ nth j (map f l) d = f x.
Proof.
  revert j; induction l as [|x l IH]; intros [|j] Hj; simpl in *; try lia.
  - exists x. auto.
  - destruct (IH j) as (y & Hy & E); [lia|]. exists y. auto.
Qed.

(** C7, as the code has it: for the view [initCC] builds of component [i],
    - [m_orig] is a bijection between the indices below [m_numNodes] and the
      nodes of the component, with [m_mapNode] its inverse, and the position
      and weight buffers have [m_numNodes] cells;
    - every stored [(m_src[j], m_tgt[j])] is a pair of indices below
      [m_numNodes];
    - every edge of the component that is not a self-loop is stored exactly
      once, from its end of smaller index (the stored pairs, read back
      through [m_orig], are a permutation of the component's edges that join
      two different nodes, each as (smaller end, larger end)); a self-loop is
      not stored. *)
Theorem initCC_flat_view (ga : GraphAttributes num) (A : ArrayGraph num) numCC comp i :
  let G := constGraph ga in
  connectedComponents ext G = (numCC, comp) ->
  m_nodesInCC A = m_nodesInCC (ArrayGraph_new ext ga) ->
  wellFormed G ->
  closedComponents G comp ->
  i < numCC ->
  let C := initCC ga A i in
  (length (m_orig C) = m_numNodes C
   /\ NoDup (m_orig C)
   /\ (forall v, In v (m_orig C) <-> In v (nodes G) /\ comp v = i)
   /\ (forall j, j < m_numNodes C -> m_mapNode C (original C j) = j)
   /\ length (m_x C) = m_numNodes C /\ length (m_y C) = m_numNodes C
   /\ length (m_nodeWeight C) = m_numNodes C)
  /\ (length (m_src C) = m_numEdges C /\ length (m_tgt C) = m_numEdges C
      /\ forall j, j < m_numEdges C ->
           rdi (m_src C) j < m_numNodes C /\ rdi (m_tgt C) j < m_numNodes C)
  /\ Permutation (storedEdges C)
       (map norm (filter (fun e => negb (isLoop e)) (componentEdges G comp i)))
  /\ Forall (fun p => fst p < snd p) (storedEdges C).
Proof.
  intros G Hcc HA [Hnd Hends] Hclosed Hi C.
  set (cc := filter (fun v => Nat.eqb (comp v) i) (nodes G)).
  assert (Hnth : nth i (m_nodesInCC A) [] = cc).
  { rewrite HA. apply (nodesInCC_new ga Hcc Hi). }
  assert (Hndcc : NoDup cc) by (apply NoDup_filter; exact Hnd).
  assert (Hincc : forall v, In v cc <-> In v (nodes G) /\ comp v = i).
  { intros v. unfold cc. rewrite filter_In, Nat.eqb_eq. reflexivity. }
  destruct (initCC_spec ga A i) as (Hn & Ho & Hx & Hy & Hw & Hm & Hsrc & Htgt & _ & _).
  fold C in Hn, Ho, Hx, Hy, Hw, Hm, Hsrc, Htgt. rewrite Hnth in *.
  set (ps := edgePairs (constGraph ga) 0 cc) in *.
  assert (Hmap : forall k, k < length cc -> m_mapNode C (nth k cc 0) = k).
  { intros k Hk. unfold C. rewrite <- Hnth. apply initCC_mapNode; rewrite Hnth; assumption. }
  assert (Hrec : forall v adj, In v cc -> In adj (recorded G v) -> In (twinNode adj) cc).
  { intros v adj Hv Hadj. destruct (recorded_twin _ _ _ Hadj) as (e & He & _ & Hor).
    apply Hincc in Hv. destruct Hv as [_ Hcv].
    destruct (Hends e He) as [Hs Ht]. pose proof (Hclosed e He) as Hc.
    apply Hincc. destruct Hor as [[E1 E2]|[E1 E2]]; rewrite <- E2; split; auto; congruence. }
  assert (Hvalid : forall p, In p ps ->
            fst p < length cc /\ m_mapNode C (snd p) < length cc).
  { intros p Hp. destruct (edgePairs_in _ _ _ _ Hp) as (Hr & adj & Hadj & Hs).
    split; [lia|]. rewrite Nat.sub_0_r in Hadj.
    assert (Hv : In (nth (fst p) cc 0) cc) by (apply nth_In; lia).
    destruct (In_nth cc _ 0 (Hrec _ _ Hv Hadj)) as (k & Hk & Ek).
    rewrite Hs, <- Ek, Hmap; assumption. }
  assert (Hstored : storedEdges C
            = flat_map (fun v => map (fun adj => (v, twinNode adj)) (recorded G v)) cc).
  { unfold storedEdges, original, rdi. rewrite Hm, Hsrc, Htgt, Ho.
    rewrite (map_seq_nth2 fst (fun p => m_mapNode C (snd p))
               (fun a b => (nth a cc 0, nth b cc 0)) ps).
    apply (edgePairs_originals G (m_mapNode C) Hmap Hrec cc nil). reflexivity. }
  assert (Hperm : Permutation (storedEdges C)
            (map norm (filter (fun e => negb (isLoop e)) (componentEdges G comp i)))).
  { rewrite Hstored. eapply Permutation_trans; [apply edges_by_smaller_end; exact Hndcc|].
    apply Permutation_map. unfold componentEdges.
    assert (Hflt : forall (p q : edgeElement -> bool) l,
              filter p (filter q l) = filter (fun e => q e && p e) l).
    { intros p q l. induction l as [|x l IHl]; simpl; [reflexivity|].
      destruct (q x); simpl; [destruct (p x)|]; rewrite ?IHl; reflexivity. }
    rewrite Hflt.
    rewrite (filter_ext_in
      (fun e => negb (isLoop e) && existsb (Nat.eqb (Nat.min (e_source e) (e_target e))) cc)
      (fun e => Nat.eqb (comp (e_source e)) i && negb (isLoop e))); [apply Permutation_refl|].
    intros e He. rewrite andb_comm. f_equal.
    destruct (Hends e He) as [Hs Ht]. pose proof (Hclosed e He) as Hc.
    destruct (Nat.eqb_spec (comp (e_source e)) i) as [E|E].
    - apply existsb_exists. exists (Nat.min (e_source e) (e_target e)).
      split; [|apply Nat.eqb_refl]. apply Hincc.
      destruct (Nat.min_spec (e_source e) (e_target e)) as [[_ ->]|[_ ->]]; split; congruence.
    - match goal with |- existsb ?f cc = _ => destruct (existsb f cc) eqn:Ex end;
        [|reflexivity].
      apply existsb_exists in Ex. destruct Ex as (u & Hu & Eu).
      apply Nat.eqb_eq in Eu. subst u. apply Hincc in Hu. destruct Hu as [_ Hu].
      destruct (Nat.min_spec (e_source e) (e_target e)) as [[_ Hmin]|[_ Hmin]];
        rewrite Hmin in Hu; congruence. }
  split; [|split; [|split]].
  - rewrite Ho, Hn, Hx, Hy, Hw, !length_map.
    split; [reflexivity|]. split; [exact Hndcc|]. split; [exact Hincc|].
    split; [|auto].
    intros j Hj. unfold original. rewrite Ho. apply Hmap. exact Hj.
  - unfold rdi. rewrite Hsrc, Htgt, Hm, Hn, !length_map.
    split; [reflexivity|]. split; [reflexivity|].
    intros j Hj. split.
    + destruct (nth_map_in fst ps 0 Hj) as (p & Hp & ->). apply Hvalid. exact Hp.
    + destruct (nth_map_in (fun p => m_mapNode C (snd p)) ps 0 Hj) as (p & Hp & ->).
      apply Hvalid. exact Hp.
  - exact Hperm.
  - apply Forall_forall. intros p Hp.
    apply (Permutation_in _ Hperm) in Hp. apply in_map_iff in Hp.
    destruct Hp as (e & <- & He). apply filter_In in He. destruct He as [_ Hl].
    unfold isLoop in Hl. unfold norm. cbn [fst snd].
    destruct (Nat.eqb_spec (e_source e) (e_target e)); [discriminate | lia].
Qed.

End Components.

(** ** A component of one node *)

Section SingleNode.

Variable num : Type.
Context {AR : Arith num}.
Variable ext : Extern num.

Local Open Scope num_scope.

Lemma na_set_same {T : Type} (a : NodeArray T) v x : na_set a v x v = x.
Proof. unfold na_set. rewrite Nat.eqb_refl. reflexivity. Qed.

(** C1, as the code has it: in the round of [call] for a component with the
    single node [v], neither [initialize] nor [mainStep] nor [mainStep_sse3]
    is called (the round adds [EvInitCC i] alone to the calls made, and the
    embedder's temperatures are not touched), the view stays as [initCC]
    built it, holding the coordinates of [v] in the attribute store, and
    these very coordinates are what the write-back loop stores for [v]; the
    shift that follows subtracts the lower bound of the node's box less
    [m_minDistCC]. *)
Theorem single_node_component_keeps_input (s : CallState num) i v :
  nth i (m_nodesInCC (cs_component s)) [] = [v] ->
  let AG := cs_AG s in
  let component := initCC AG (cs_component s) i in
  let s' := call_cc ext s i in
  cs_trace s' = cs_trace s ++ [EvInitCC i]
  /\ cs_se s' = cs_se s
  /\ cs_component s' = component
  /\ m_x component = [ga_x AG v] /\ m_y component = [ga_y AG v]
  /\ ga_x (wb_AG (writeBack component AG)) v = ga_x AG v
  /\ ga_y (wb_AG (writeBack component AG)) v = ga_y AG v
  /\ ga_x (cs_AG s') v
     = ga_x AG v
       - ((if ga_x AG v - half (ga_width AG v) <? ga_x AG v
           then ga_x AG v - half (ga_width AG v) else ga_x AG v)
          - m_minDistCC (cs_se s))
  /\ ga_y (cs_AG s') v
     = ga_y AG v
       - ((if ga_y AG v - half (ga_height AG v) <? ga_y AG v
           then ga_y AG v - half (ga_height AG v) else ga_y AG v)
          - m_minDistCC (cs_se s)).
Proof.
  intros Hcc AG component s'.
  destruct (initCC_spec AG (cs_component s) i) as (Hn & Ho & Hx & Hy & _).
  fold AG component in Hn, Ho, Hx, Hy. rewrite Hcc in Hn, Ho, Hx, Hy.
  cbn [length map] in Hn, Hx, Hy.
  assert (Hl : layoutCC ext (cs_se s) component i = (cs_se s, component, [])).
  { unfold layoutCC. rewrite Hn. reflexivity. }
  assert (Hwb : writeBack component AG
     = writeBack_node component
         (mkWriteBack AG (ga_x AG v) (ga_x AG v) (ga_y AG v) (ga_y AG v)) 0).
  { unfold writeBack. rewrite Hn, Hx, Hy. reflexivity. }
  assert (Hov : original component 0 = v) by (unfold original; rewrite Ho; reflexivity).
  unfold s', call_cc. fold AG. fold component. rewrite Hl, Hwb.
  unfold writeBack_node. rewrite Hov, Hx, Hy, Hn.
  cbn [cs_trace cs_se cs_component cs_AG wb_AG minX minY fold_left seq rd nth
       set_x set_y ga_x ga_y ga_width ga_height].
  unfold shift_node. rewrite Hov.
  cbn [set_x set_y ga_x ga_y ga_width ga_height]. rewrite !na_set_same.
  repeat split.
Qed.

Lemma call_cc_nodesInCC (s : CallState num) i :
  m_nodesInCC (cs_component (call_cc ext s i)) = m_nodesInCC (cs_component s).
Proof.
  unfold call_cc.
  pose proof (only_xy_layoutCC ext (cs_se s) (initCC (cs_AG s) (cs_component s) i) i) as Ho.
  destruct (layoutCC _ _ _ _) as [[se' c'] evs]. cbn [fst snd cs_component] in *.
  destruct Ho as (x & y & -> & _). reflexivity.
Qed.

Lemma call_loop_no_engine l (s : CallState num) i :
  length (nth i (m_nodesInCC (cs_component s)) []) < 2 ->
  (forall e, In e (cs_trace s) -> ~ engineEvent i e) ->
  forall e, In e (cs_trace (fold_left (call_cc ext) l s)) -> ~ engineEvent i e.
Proof.
  revert s; induction l as [|j l IH]; intros s Hlen Htr; [exact Htr|].
  cbn [fold_left]. apply IH.
  - rewrite call_cc_nodesInCC. exact Hlen.
  - destruct (call_cc_trace ext s j) as (evs & E & Htag & Hone).
    rewrite E. intros e He. apply in_app_or in He. destruct He as [He|He].
    + apply Htr. exact He.
    + destruct (Nat.eq_dec j i) as [->|Hne].
      * rewrite (Hone Hlen) in He. destruct He as [<-|[]].
        intros [H|[H|H]]; discriminate H.
      * destruct (Htag e He) as [E1|[E1|[E1|E1]]]; rewrite E1;
          intros [H|[H|H]]; try discriminate H; injection H as H; contradiction.
Qed.

(** In a whole [call], none of [initialize], [mainStep], [mainStep_sse3] is
    called for a component of fewer than two nodes. *)
Lemma call_skips_small_components se (AG : GraphAttributes num) i e :
  length (nth i (m_nodesInCC (ArrayGraph_new ext (clearAllBends AG))) []) < 2 ->
  In e (snd (call ext se AG)) -> ~ engineEvent i e.
Proof.
  intros Hlen. unfold call. destruct (empty (constGraph AG)); [intros []|].
  cbn [snd]. intros He. apply in_app_or in He. destruct He as [He|[<-|[]]].
  - revert e He. apply call_loop_no_engine.
    + exact Hlen.
    + intros e [<-|[]] [H|[H|H]]; discriminate H.
  - intros [H|[H|H]]; discriminate H.
Qed.

End SingleNode.

(** ** The arithmetic of the engine, over the reals *)

Section Reals.

Local Open Scope R_scope.

Lemma Rltb_true a b : a < b -> Rltb a b = true.
Proof. intros H. unfold Rltb. destruct (Rlt_dec a b); [reflexivity | contradiction]. Qed.

Lemma Rltb_false a b : b <= a -> Rltb a b = false.
Proof. intros H. unfold Rltb. destruct (Rlt_dec a b); [lra | reflexivity]. Qed.

Lemma std_max_R (a b : R) : std_max a b = Rmax a b.
Proof.
  unfold std_max, Rmax. cbn [num_lt R_arith]. unfold Rltb.
  destruct (Rlt_dec a b), (Rle_dec a b); lra.
Qed.

Lemma std_min_R (a b : R) : std_min a b = Rmin a b.
Proof.
  unfold std_min, Rmin. cbn [num_lt R_arith]. unfold Rltb.
  destruct (Rlt_dec b a), (Rle_dec a b); lra.
Qed.

Lemma sse_max_R (a b : R) : sse_max a b = Rmax a b.
Proof.
  unfold sse_max, Rmax. cbn [num_lt R_arith]. unfold Rltb.
  destruct (Rlt_dec b a), (Rle_dec a b); lra.
Qed.

Lemma sse_min_R (a b : R) : sse_min a b = Rmin a b.
Proof.
  unfold sse_min, Rmin. cbn [num_lt R_arith]. unfold Rltb.
  destruct (Rlt_dec a b), (Rle_dec a b); lra.
Qed.

Lemma updateMin_R (m x : R) : updateMin m x = Rmin m x.
Proof.
  unfold updateMin, Rmin. cbn [num_lt R_arith]. unfold Rltb.
  destruct (Rlt_dec x m), (Rle_dec m x); lra.
Qed.

Lemma updateMax_R (m x : R) : updateMax m x = Rmax m x.
Proof.
  unfold updateMax, Rmax. cbn [num_lt R_arith]. unfold Rltb.
  destruct (Rlt_dec m x), (Rle_dec m x); lra.
Qed.

Lemma minDist_pos : 0 < @minDist R _.
Proof. unfold minDist. cbn [lit_10e_6 R_arith]. lra. Qed.

Lemma minDistSquare_pos : 0 < @minDistSquare R _.
Proof.
  unfold minDistSquare. cbn [num_mul R_arith].
  apply Rmult_lt_0_compat; apply minDist_pos.
Qed.

(** *** The bounding box of [initialize] *)

Lemma bbox_fold (C : ArrayGraph R) l b :
  let b' := fold_left (bbox_node C) l b in
  (xmin b' <= xmin b /\ xmax b <= xmax b' /\ ymin b' <= ymin b /\ ymax b <= ymax b')
  /\ (forall v, In v l ->
        xmin b' <= rd (m_x C) v <= xmax b' /\ ymin b' <= rd (m_y C) v <= ymax b')
  /\ (xmin b' = xmin b \/ exists v, In v l /\ xmin b' = rd (m_x C) v)
  /\ (xmax b' = xmax b \/ exists v, In v l /\ xmax b' = rd (m_x C) v)
  /\ (ymin b' = ymin b \/ exists v, In v l /\ ymin b' = rd (m_y C) v)
  /\ (ymax b' = ymax b \/ exists v, In v l /\ ymax b' = rd (m_y C) v).
Proof.
  revert b; induction l as [|u l IH]; intros b; simpl.
  - repeat split; try lra; try (intros v []); left; reflexivity.
  - destruct (IH (bbox_node C b u)) as ((M1 & M2 & M3 & M4) & Hall & E1 & E2 & E3 & E4).
    set (b' := fold_left (bbox_node C) l (bbox_node C b u)) in *.
    unfold bbox_node in M1, M2, M3, M4, E1, E2, E3, E4.
    cbn [xmin xmax ymin ymax] in M1, M2, M3, M4, E1, E2, E3, E4.
    rewrite updateMin_R in M1, M3, E1, E3. rewrite updateMax_R in M2, M4, E2, E4.
    pose proof (Rmin_l (xmin b) (rd (m_x C) u)). pose proof (Rmin_r (xmin b) (rd (m_x C) u)).
    pose proof (Rmin_l (ymin b) (rd (m_y C) u)). pose proof (Rmin_r (ymin b) (rd (m_y C) u)).
    pose proof (Rmax_l (xmax b) (rd (m_x C) u)). pose proof (Rmax_r (xmax b) (rd (m_x C) u)).
    pose proof (Rmax_l (ymax b) (rd (m_y C) u)). pose proof (Rmax_r (ymax b) (rd (m_y C) u)).
    split; [repeat split; lra|]. split.
    + intros v [<-|Hv]; [repeat split; lra | apply Hall; exact Hv].
    + assert (Hmin : forall p q, Rmin p q = p \/ Rmin p q = q).
      { intros p q. unfold Rmin. destruct (Rle_dec p q); auto. }
      assert (Hmax : forall p q, Rmax p q = p \/ Rmax p q = q).
      { intros p q. unfold Rmax. destruct (Rle_dec p q); auto. }
      repeat split.
      * destruct E1 as [E|(v & Hv & E)]; [|right; exists v; auto].
        destruct (Hmin (xmin b) (rd (m_x C) u)) as [E'|E'];
          [left | right; exists u; split; [left; reflexivity|]]; congruence.
      * destruct E2 as [E|(v & Hv & E)]; [|right; exists v; auto].
        destruct (Hmax (xmax b) (rd (m_x C) u)) as [E'|E'];
          [left | right; exists u; split; [left; reflexivity|]]; congruence.
      * destruct E3 as [E|(v & Hv & E)]; [|right; exists v; auto].
        destruct (Hmin (ymin b) (rd (m_y C) u)) as [E'|E'];
          [left | right; exists u; split; [left; reflexivity|]]; congruence.
      * destruct E4 as [E|(v & Hv & E)]; [|right; exists v; auto].
        destruct (Hmax (ymax b) (rd (m_y C) u)) as [E'|E'];
          [left | right; exists u; split; [left; reflexivity|]]; congruence.
Qed.

Lemma boundingBoxOf_spec (C : ArrayGraph R) :
  (1 <= m_numNodes C)%nat -> isBoundingBox C (boundingBoxOf C).
Proof.
  intros Hn. unfold boundingBoxOf.
  destruct (bbox_fold C (seq 0 (m_numNodes C))
              (mkBBox (rd (m_x C) 0) (rd (m_x C) 0) (rd (m_y C) 0) (rd (m_y C) 0)))
    as (_ & Hall & E1 & E2 & E3 & E4).
  cbn [xmin xmax ymin ymax] in E1, E2, E3, E4.
  assert (Hseq : forall v, In v (seq 0 (m_numNodes C)) <-> (v < m_numNodes C)%nat).
  { intros v. rewrite in_seq. lia. }
  split; [intros v Hv; apply Hall, Hseq, Hv|].
  repeat split.
  - destruct E1 as [E|(v & Hv & E)];
      [exists 0%nat; split; [lia | exact E] | exists v; split; [apply Hseq, Hv | exact E]].
  - destruct E2 as [E|(v & Hv & E)];
      [exists 0%nat; split; [lia | exact E] | exists v; split; [apply Hseq, Hv | exact E]].
  - destruct E3 as [E|(v & Hv & E)];
      [exists 0%nat; split; [lia | exact E] | exists v; split; [apply Hseq, Hv | exact E]].
  - destruct E4 as [E|(v & Hv & E)];
      [exists 0%nat; split; [lia | exact E] | exists v; split; [apply Hseq, Hv | exact E]].
Qed.

End Reals.

(** ** Loops that update one cell per round *)

Section Pointwise.

Variable num : Type.
Context {AR : Arith num}.

Local Open Scope num_scope.

Lemma upd_length f l a : length (upd f l a) = length a.
Proof.
  unfold upd. revert a; induction l as [|v l IH]; intros a; simpl; [reflexivity|].
  rewrite IH. apply store_length.
Qed.

Lemma upd_rd_notin f l a v : ~ In v l -> rd (upd f l a) v = rd a v.
Proof.
  unfold upd. revert a; induction l as [|u l IH]; intros a Hn; simpl; [reflexivity|].
  rewrite IH by (intros H; apply Hn; right; exact H).
  unfold rd. apply nth_store_other. intros E. apply Hn. left. exact E.
Qed.

Lemma upd_rd_in f l a v :
  NoDup l -> In v l -> v < length a -> rd (upd f l a) v = f v (rd a v).
Proof.
  revert a; induction l as [|u l IH]; intros a Hnd Hin Hlen; [contradiction|].
  inversion Hnd as [|? ? Hnotin Hnd']; subst.
  change (upd f (u :: l) a) with (upd f l (store a u (f u (rd a u)))).
  destruct (Nat.eq_dec u v) as [->|Hne].
  - rewrite upd_rd_notin by exact Hnotin. unfold rd. apply nth_store_same. exact Hlen.
  - destruct Hin as [E|Hin]; [contradiction|].
    rewrite IH by (auto; rewrite store_length; exact Hlen).
    unfold rd. rewrite nth_store_other by exact Hne. reflexivity.
Qed.

Lemma rescale_fold (b : BBox num) fx fy l (C : ArrayGraph num) :
  let C' := fold_left (rescale_node b fx fy) l C in
  m_x C' = upd (fun _ x => (x - xmin b) * fx) l (m_x C)
  /\ m_y C' = upd (fun _ y => (y - ymin b) * fy) l (m_y C).
Proof.
  revert C; induction l as [|v l IH]; intros C; simpl; [split; reflexivity|].
  destruct (IH (rescale_node b fx fy C v)) as [Hx Hy]. rewrite Hx, Hy.
  split; reflexivity.
Qed.

Lemma cap_fold (se : SpringEmbedderFRExact num) D tx ty l (s : ArrayGraph num * bool) :
  let s' := fold_left (cap_node se D tx ty) l s in
  m_x (fst s')
    = upd (fun v x => x + xdisplace (rd (fst D) v) (rd (snd D) v) tx) l (m_x (fst s))
  /\ m_y (fst s')
    = upd (fun v y => y + ydisplace (rd (fst D) v) (rd (snd D) v) ty) l (m_y (fst s))
  /\ snd s' = snd s && forallb (fun v => negb (exceeds se D tx ty v)) l.
Proof.
  revert s; induction l as [|v l IH]; intros s; simpl.
  - rewrite andb_true_r. repeat split.
  - destruct (IH (cap_node se D tx ty s v)) as (Hx & Hy & Hc). rewrite Hx, Hy, Hc.
    repeat split. unfold cap_node, exceeds. cbn [snd].
    destruct (num_lt _ _); simpl; [symmetry; apply andb_false_r | reflexivity].
Qed.

End Pointwise.

(** ** The initializer *)

Section Initializer.

Local Open Scope R_scope.

(** C4: on a component of at least one node, with [b] the bounding box of
    its positions, [k] the ideal edge length, [w = xmax - xmin + k],
    [h = ymax - ymin + k], [ratio = h / w], [W = sqrt (n / ratio) * k] and
    [H = ratio * W], [initialize] replaces every position [(x, y)] by
    [((x - xmin) * W / w, (y - ymin) * H / h)], sets the initial temperatures
    to [W / 8] and [H / 8], and changes nothing else. *)
Theorem initialize_rescales (se : SpringEmbedderFRExact R) (C : ArrayGraph R) :
  (1 <= m_numNodes C)%nat ->
  length (m_x C) = m_numNodes C ->
  length (m_y C) = m_numNodes C ->
  let b := boundingBoxOf C in
  let k := m_idealEdgeLength se in
  let w := xmax b - xmin b + k in
  let h := ymax b - ymin b + k in
  let ratio := h / w in
  let W := sqrt (INR (m_numNodes C) / ratio) * k in
  let H := ratio * W in
  let se' := fst (initialize se C) in
  let C' := snd (initialize se C) in
  isBoundingBox C b
  /\ (forall v, (v < m_numNodes C)%nat ->
        rd (m_x C') v = (rd (m_x C) v - xmin b) * W / w
        /\ rd (m_y C') v = (rd (m_y C) v - ymin b) * H / h)
  /\ m_txNull se' = W / 8 /\ m_tyNull se' = H / 8
  /\ se' = set_tNull se (W / 8) (H / 8)
  /\ only_xy C C'.
Proof.
  intros Hn Hlx Hly b k w h ratio W H se' C'.
  split; [apply boundingBoxOf_spec; exact Hn|].
  split; [|split; [|split; [|split]]].
  - intros v Hv.
    unfold C', initialize. cbn [snd]. fold b.
    match goal with |- context [fold_left (rescale_node b ?fx ?fy) ?l C] =>
      destruct (rescale_fold b fx fy l C) as [Hx Hy] end.
    rewrite Hx, Hy.
    rewrite !upd_rd_in; try (apply seq_NoDup); try (apply in_seq; lia); try lia.
    cbn [num_sqrt num_div num_add num_sub num_mul num_of_Z R_arith].
    rewrite <- INR_IZR_INZ. fold k. fold w. fold h. fold ratio. fold W. fold H.
    unfold Rdiv. split; ring.
  - unfold se', initialize. cbn [fst set_tNull m_txNull]. fold b.
    cbn [num_sqrt num_div num_add num_sub num_mul num_of_Z R_arith].
    rewrite <- INR_IZR_INZ. reflexivity.
  - unfold se', initialize. cbn [fst set_tNull m_tyNull]. fold b.
    cbn [num_sqrt num_div num_add num_sub num_mul num_of_Z R_arith].
    rewrite <- INR_IZR_INZ. reflexivity.
  - unfold se', initialize. cbn [fst]. fold b.
    cbn [num_sqrt num_div num_add num_sub num_mul num_of_Z R_arith].
    rewrite <- INR_IZR_INZ. reflexivity.
  - apply only_xy_initialize.
Qed.

End Initializer.

(** ** The cooling schedule *)

Section Cooling.

Local Open Scope R_scope.

Variable ext : Extern R.
Hypothesis mylog2_is : mylog2 ext = mylog2_spec.

Lemma ln2_pos : 0 < ln 2.
Proof. rewrite <- ln_1. apply ln_increasing; lra. Qed.

Lemma mylog2_spec_1 : mylog2_spec 1 = 0.
Proof. unfold mylog2_spec. rewrite ln_1. unfold Rdiv. ring. Qed.

Lemma mylog2_spec_mono a b : (1 <= a <= b)%Z -> mylog2_spec a <= mylog2_spec b.
Proof.
  intros [Ha Hab]. unfold mylog2_spec, Rdiv.
  apply Rmult_le_compat_r; [left; apply Rinv_0_lt_compat, ln2_pos|].
  apply IZR_le in Ha. apply IZR_le in Hab.
  destruct (Req_dec (IZR a) (IZR b)) as [->|Hne]; [lra|].
  left. apply ln_increasing; lra.
Qed.

Lemma mylog2_spec_ge_1 a : (2 <= a)%Z -> 1 <= mylog2_spec a.
Proof.
  intros Ha. replace 1 with (mylog2_spec 2).
  - apply mylog2_spec_mono. lia.
  - unfold mylog2_spec. field. pose proof ln2_pos. lra.
Qed.

Lemma cooled_factor se n :
  m_coolingFunction se = Factor ->
  cooled ext se (S n)
  = (tempX (cooled ext se n) * m_coolFactor_x se, tempY (cooled ext se n) * m_coolFactor_y se,
     snd (cooled ext se n)).
Proof.
  intros Hf. unfold cooled. simpl. destruct (Nat.iter n _ _) as [[tx ty] cF].
  unfold cool. rewrite Hf. reflexivity.
Qed.

Lemma cooled_log se n :
  m_coolingFunction se = Logarithmic ->
  cooled ext se n
  = (if (n <=? 1)%nat then m_txNull se else m_txNull se / mylog2_spec (Z.of_nat n),
     if (n <=? 1)%nat then m_tyNull se else m_tyNull se / mylog2_spec (Z.of_nat n),
     (Z.of_nat n + 1)%Z).
Proof.
  intros Hl. induction n as [|n IH]; [reflexivity|].
  unfold cooled in *. simpl Nat.iter. rewrite IH. unfold cool. rewrite Hl, mylog2_is.
  cbn [num_eq num_div R_arith]. unfold Reqb, num0. cbn [num_of_Z R_arith].
  replace (Z.of_nat n + 1)%Z with (Z.of_nat (S n)) by lia.
  destruct n as [|n].
  - change (Z.of_nat 1) with 1%Z. rewrite mylog2_spec_1.
    destruct (Req_dec_T 0 0); [reflexivity | contradiction].
  - assert (H1 : 1 <= mylog2_spec (Z.of_nat (S (S n)))) by (apply mylog2_spec_ge_1; lia).
    destruct (Req_dec_T _ 0); [lra|]. cbn [negb].
    replace (S (S n) <=? 1)%nat with false by reflexivity.
    reflexivity.
Qed.

(** C5: no call of [cool] raises a temperature. From the non-negative
    initial temperatures of [initialize] and the counter 1, the temperatures
    after [n + 1] calls are at most those after [n] calls, in factor mode
    with factors in (0, 1] and in logarithmic mode; and the first call in
    logarithmic mode, where the logarithm of the counter is 0, leaves both
    as they are. *)
Theorem cool_never_heats (se : SpringEmbedderFRExact R) (n : nat) :
  0 <= m_txNull se -> 0 <= m_tyNull se ->
  (m_coolingFunction se = Factor ->
     0 < m_coolFactor_x se <= 1 /\ 0 < m_coolFactor_y se <= 1) ->
  (tempX (cooled ext se (S n)) <= tempX (cooled ext se n)
   /\ tempY (cooled ext se (S n)) <= tempY (cooled ext se n))
  /\ (m_coolingFunction se = Logarithmic ->
        cool ext se (m_txNull se, m_tyNull se, 1%Z)
        = (m_txNull se, m_tyNull se, 2%Z)).
Proof.
  intros Hx Hy Hf. split.
  - destruct (m_coolingFunction se) eqn:Em.
    + destruct (Hf eq_refl) as [[Hfx0 Hfx1] [Hfy0 Hfy1]].
      assert (Hpos : forall m, 0 <= tempX (cooled ext se m) /\ 0 <= tempY (cooled ext se m)).
      { induction m as [|m [IHx IHy]]; [split; assumption|].
        rewrite cooled_factor by exact Em. unfold tempX, tempY in *. cbn [fst snd].
        split; apply Rmult_le_pos; lra. }
      destruct (Hpos n) as [Px Py].
      rewrite cooled_factor by exact Em. unfold tempX, tempY in *. cbn [fst snd].
      split; nra.
    + rewrite !cooled_log by exact Em. unfold tempX, tempY. cbn [fst snd].
      destruct n as [|[|n]].
      * simpl. lra.
      * replace (2 <=? 1)%nat with false by reflexivity.
        replace (1 <=? 1)%nat with true by reflexivity.
        replace (mylog2_spec (Z.of_nat 2)) with 1
          by (unfold mylog2_spec; simpl; field; pose proof ln2_pos; lra).
        lra.
      * replace (S (S (S n)) <=? 1)%nat with false by reflexivity.
        replace (S (S n) <=? 1)%nat with false by reflexivity.
        assert (H1 : 1 <= mylog2_spec (Z.of_nat (S (S n)))) by (apply mylog2_spec_ge_1; lia).
        assert (H2 : mylog2_spec (Z.of_nat (S (S n))) <= mylog2_spec (Z.of_nat (S (S (S n)))))
          by (apply mylog2_spec_mono; lia).
        assert (Hinv : / mylog2_spec (Z.of_nat (S (S (S n))))
                       <= / mylog2_spec (Z.of_nat (S (S n))))
          by (apply Rinv_le_contravar; lra).
        unfold Rdiv. split; apply Rmult_le_compat_l; assumption.
  - intros Em. change (cool ext se (m_txNull se, m_tyNull se, 1%Z)) with (cooled ext se 1).
    rewrite cooled_log by exact Em. reflexivity.
Qed.

End Cooling.

(** ** One round of the loop of [mainStep] *)

Section MainStepBody.

Variable num : Type.
Context {AR : Arith num}.
Variable ext : Extern num.

Local Open Scope num_scope.

(** The positions after one round: every node has moved by its capped
    displacement, computed from the positions before the round. *)
Lemma mainStep_body_positions (se : SpringEmbedderFRExact num) (s : MainLoop num) v :
  let C := ml_C s in
  let D := forces se C in
  let C' := ml_C (mainStep_body ext se s) in
  length (m_x C) = m_numNodes C -> length (m_y C) = m_numNodes C ->
  v < m_numNodes C ->
  rd (m_x C') v = rd (m_x C) v + xdisplace (rd (fst D) v) (rd (snd D) v) (ml_tx s)
  /\ rd (m_y C') v = rd (m_y C) v + ydisplace (rd (fst D) v) (rd (snd D) v) (ml_ty s).
Proof.
  intros C D C' Hlx Hly Hv. unfold C', mainStep_body. fold C. fold D.
  match goal with |- context [fold_left (cap_node se D ?tx ?ty) ?l ?a] =>
    destruct (cap_fold se D tx ty l a) as (Hx & Hy & _);
    destruct (fold_left (cap_node se D tx ty) l a) as [C1 c1] end.
  destruct (cool _ _ _) as [[tx ty] cF]. cbn [ml_C fst] in *.
  rewrite Hx, Hy.
  rewrite !upd_rd_in; try apply seq_NoDup; try (apply in_seq; lia); try lia.
  split; reflexivity.
Qed.

(** The flag [converged] after one round. *)
Lemma mainStep_body_converged (se : SpringEmbedderFRExact num) (s : MainLoop num) :
  let C := ml_C s in
  ml_converged (mainStep_body ext se s)
  = (m_iterations se <? ml_itCount s + 1)%Z
    || ((if m_checkConvergence se then true else ml_converged s)
        && forallb (fun v => negb (exceeds se (forces se C) (ml_tx s) (ml_ty s) v))
             (seq 0 (m_numNodes C))).
Proof.
  intros C. unfold mainStep_body. fold C.
  match goal with |- context [fold_left (cap_node se ?D ?tx ?ty) ?l ?a] =>
    destruct (cap_fold se D tx ty l a) as (_ & _ & Hc);
    destruct (fold_left (cap_node se D tx ty) l a) as [C1 c1] end.
  destruct (cool _ _ _) as [[tx ty] cF]. cbn [ml_converged snd] in *.
  rewrite Hc. reflexivity.
Qed.

Lemma mainStep_body_itCount (se : SpringEmbedderFRExact num) (s : MainLoop num) :
  ml_itCount (mainStep_body ext se s) = (ml_itCount s + 1)%Z.
Proof.
  unfold mainStep_body.
  destruct (fold_left _ _ _) as [C1 c1]. destruct (cool _ _ _) as [[tx ty] cF].
  reflexivity.
Qed.

End MainStepBody.

(** ** The capping by the temperature *)

Section Capping.

Local Open Scope R_scope.

Variable ext : Extern R.

Lemma cap_dist_bounds (dx dy : R) :
  minDist <= cap_dist dx dy
  /\ sqrt (dx * dx + dy * dy) <= cap_dist dx dy
  /\ Rabs dx <= cap_dist dx dy /\ Rabs dy <= cap_dist dx dy.
Proof.
  unfold cap_dist. rewrite std_max_R.
  cbn [num_sqrt num_add num_mul R_arith].
  pose proof (Rmax_l minDist (sqrt (dx * dx + dy * dy))) as Hl.
  pose proof (Rmax_r minDist (sqrt (dx * dx + dy * dy))) as Hr.
  assert (Hx : Rabs dx <= sqrt (dx * dx + dy * dy)).
  { rewrite <- sqrt_Rsqr_abs. apply sqrt_le_1_alt. unfold Rsqr. nra. }
  assert (Hy : Rabs dy <= sqrt (dx * dx + dy * dy)).
  { rewrite <- sqrt_Rsqr_abs. apply sqrt_le_1_alt. unfold Rsqr. nra. }
  repeat split; lra.
Qed.

Lemma capped (d dist t : R) :
  0 < dist -> Rabs d <= dist -> 0 <= t -> Rabs (d / dist * Rmin dist t) <= t.
Proof.
  intros Hd Habs Ht.
  assert (Hm0 : 0 <= Rmin dist t) by (apply Rmin_glb; lra).
  assert (Hmt : Rmin dist t <= t) by apply Rmin_r.
  assert (Hq : Rabs (d / dist) <= 1).
  { unfold Rdiv. rewrite Rabs_mult, (Rabs_pos_eq (/ dist)).
    - apply (Rmult_le_reg_r dist); [exact Hd|]. rewrite Rmult_assoc, Rinv_l; lra.
    - left. apply Rinv_0_lt_compat. exact Hd. }
  rewrite Rabs_mult, (Rabs_pos_eq (Rmin dist t)) by exact Hm0.
  pose proof (Rabs_pos (d / dist)). nra.
Qed.

Lemma xdisplace_capped (dx dy tx : R) : 0 <= tx -> Rabs (xdisplace dx dy tx) <= tx.
Proof.
  intros Ht. unfold xdisplace. rewrite std_min_R. cbn [num_mul num_div R_arith].
  destruct (cap_dist_bounds dx dy) as (H1 & _ & H2 & _). pose proof minDist_pos.
  apply capped; lra.
Qed.

Lemma ydisplace_capped (dx dy ty : R) : 0 <= ty -> Rabs (ydisplace dx dy ty) <= ty.
Proof.
  intros Ht. unfold ydisplace. rewrite std_min_R. cbn [num_mul num_div R_arith].
  destruct (cap_dist_bounds dx dy) as (H1 & _ & _ & H2). pose proof minDist_pos.
  apply capped; lra.
Qed.


End Capping.

(** ** When the loops stop *)

Section Rounds.

Variable num : Type.
Context {AR : Arith num}.
Variable ext : Extern num.

(** With [checkConvergence] set and a budget of at least one round, if no
    node exceeds the threshold in the first round, [mainStep] leaves its
    loop after that round. *)
Lemma mainStep_stops_after_first_round (se : SpringEmbedderFRExact num) (C : ArrayGraph num) :
  m_checkConvergence se = true ->
  (1 <= m_iterations se)%Z ->
  forallb (fun v => negb (exceeds se (forces se C) (m_txNull se) (m_tyNull se) v))
    (seq 0 (m_numNodes C)) = true ->
  mainStep_run ext se C
  = mainStep_body ext se (mkMainLoop C (m_txNull se) (m_tyNull se) 1 false 1)
  /\ ml_itCount (mainStep_run ext se C) = 2%Z.
Proof.
  intros Hchk Hit Hall.
  assert (E0 : (m_iterations se =? 0)%Z = false) by (apply Z.eqb_neq; lia).
  set (s0 := mkMainLoop C (m_txNull se) (m_tyNull se) 1 false 1).
  assert (Hc : ml_converged (mainStep_body ext se s0) = true).
  { rewrite mainStep_body_converged. unfold s0. cbn [ml_C ml_tx ml_ty ml_converged].
    rewrite Hchk, Hall. apply orb_true_r. }
  assert (Hrun : mainStep_run ext se C = mainStep_body ext se s0).
  { unfold mainStep_run. rewrite E0. fold s0.
    cbn [mainStep_while ml_converged s0].
    destruct (Z.to_nat (m_iterations se)); simpl; rewrite Hc; reflexivity. }
  split; [exact Hrun|]. rewrite Hrun, mainStep_body_itCount. reflexivity.
Qed.

Lemma sse3_body_i (se : SpringEmbedderFRExact num) (s : Sse3Loop num) :
  sl_i (sse3_body ext se s) = (sl_i s + 1)%Z.
Proof. unfold sse3_body. destruct (cool _ _ _) as [[tx ty] cF]. reflexivity. Qed.

(** The loop compiled into [mainStep_sse3] runs the whole budget, whatever
    the options and the positions are. *)
Lemma sse3_runs_whole_budget (se : SpringEmbedderFRExact num) (C : ArrayGraph num) :
  (0 <= m_iterations se)%Z ->
  sl_i (sse3_run ext se C) = (m_iterations se + 1)%Z.
Proof.
  intros Hit. unfold sse3_run.
  assert (H : forall fuel (s : Sse3Loop num),
             (sl_i s + Z.of_nat fuel = m_iterations se + 1)%Z ->
             sl_i (sse3_for ext se fuel s) = (m_iterations se + 1)%Z).
  { induction fuel as [|fuel IH]; intros s Hs; simpl.
    - destruct (sl_i s <=? m_iterations se)%Z eqn:E; lia.
    - destruct (sl_i s <=? m_iterations se)%Z eqn:E; [|apply Z.leb_gt in E; lia].
      apply IH. rewrite sse3_body_i. lia. }
  apply H. cbn [sl_i]. lia.
Qed.

End Rounds.

(** ** Temperatures stay non-negative *)

Section Temperatures.

Local Open Scope R_scope.

Variable ext : Extern R.

Lemma mainStep_body_cool (se : SpringEmbedderFRExact R) (s : MainLoop R) :
  (ml_tx (mainStep_body ext se s), ml_ty (mainStep_body ext se s),
   ml_cF (mainStep_body ext se s))
  = cool ext se (ml_tx s, ml_ty s, ml_cF s).
Proof.
  unfold mainStep_body. destruct (fold_left _ _ _) as [C1 c1].
  destruct (cool _ _ _) as [[tx ty] cF]. reflexivity.
Qed.

Lemma mylog2_spec_nonneg c : (1 <= c)%Z -> 0 <= mylog2_spec c.
Proof.
  intros Hc. rewrite <- mylog2_spec_1. apply mylog2_spec_mono. lia.
Qed.

Lemma reached_temperatures (se : SpringEmbedderFRExact R) (C : ArrayGraph R) s :
  0 <= m_txNull se -> 0 <= m_tyNull se ->
  (m_coolingFunction se = Factor -> 0 <= m_coolFactor_x se /\ 0 <= m_coolFactor_y se) ->
  (m_coolingFunction se = Logarithmic -> mylog2 ext = mylog2_spec) ->
  reached ext se C s ->
  0 <= ml_tx s /\ 0 <= ml_ty s /\ (1 <= ml_cF s)%Z.
Proof.
  intros Hx Hy Hf Hl Hr. induction Hr as [|s Hr (IHx & IHy & IHc) Hn].
  - cbn [ml_tx ml_ty ml_cF]. repeat split; try assumption; lia.
  - pose proof (mainStep_body_cool se s) as E. unfold cool in E.
    destruct (m_coolingFunction se) eqn:Em.
    + destruct (Hf eq_refl) as [Hfx Hfy]. injection E as -> -> ->.
      cbn [num_mul R_arith]. repeat split; try assumption; apply Rmult_le_pos; assumption.
    + rewrite (Hl eq_refl) in E. pose proof (mylog2_spec_nonneg IHc) as Hlog.
      cbn [num_eq num_div R_arith] in E. unfold Reqb, num0 in E. cbn [num_of_Z R_arith] in E.
      destruct (Req_dec_T (mylog2_spec (ml_cF s)) 0) as [E0|N0]; cbn [negb] in E;
        injection E as -> -> ->.
      * repeat split; try assumption; lia.
      * assert (Hinv : 0 < / mylog2_spec (ml_cF s)) by (apply Rinv_0_lt_compat; lra).
        unfold Rdiv. repeat split; try lia; apply Rmult_le_pos; lra.
Qed.

(** The temperatures [initialize] sets are not negative when the ideal edge
    length is positive. *)
Lemma initialize_temperatures (se : SpringEmbedderFRExact R) (C : ArrayGraph R) :
  (1 <= m_numNodes C)%nat -> 0 < m_idealEdgeLength se ->
  0 <= m_txNull (fst (initialize se C)) /\ 0 <= m_tyNull (fst (initialize se C)).
Proof.
  intros Hn Hk. destruct (boundingBoxOf_spec C Hn) as (Hall & _).
  destruct (Hall 0%nat ltac:(lia)) as [Hx Hy].
  unfold initialize. cbn [fst set_tNull m_txNull m_tyNull].
  cbn [num_sqrt num_div num_add num_sub num_mul num_of_Z R_arith].
  set (b := boundingBoxOf C) in *. set (k := m_idealEdgeLength se) in *.
  assert (Hw : 0 < xmax b - xmin b + k) by lra.
  assert (Hh : 0 < ymax b - ymin b + k) by lra.
  set (W := sqrt _ * k).
  assert (HW : 0 <= W) by (apply Rmult_le_pos; [apply sqrt_pos | lra]).
  assert (Hr : 0 < (ymax b - ymin b + k) / (xmax b - xmin b + k))
    by (apply Rdiv_lt_0_compat; assumption).
  split.
  - unfold Rdiv. apply Rmult_le_pos; lra.
  - unfold Rdiv at 1. apply Rmult_le_pos; [|lra]. apply Rmult_le_pos; lra.
Qed.

Lemma reached_only_xy (se : SpringEmbedderFRExact R) (C : ArrayGraph R) s :
  reached ext se C s -> only_xy C (ml_C s).
Proof.
  induction 1 as [|s Hr IH Hn].
  - apply only_xy_refl.
  - eapply only_xy_trans; [exact IH | apply only_xy_mainStep_body].
Qed.

(** In every round of a run of [mainStep], from temperatures and cooling
    factors that are not negative, no node moves by more than the current
    temperature on either axis. *)
Lemma every_round_capped (se : SpringEmbedderFRExact R) (C : ArrayGraph R) s v :
  length (m_x C) = m_numNodes C -> length (m_y C) = m_numNodes C ->
  0 <= m_txNull se -> 0 <= m_tyNull se ->
  (m_coolingFunction se = Factor -> 0 <= m_coolFactor_x se /\ 0 <= m_coolFactor_y se) ->
  (m_coolingFunction se = Logarithmic -> mylog2 ext = mylog2_spec) ->
  reached ext se C s ->
  (v < m_numNodes C)%nat ->
  Rabs (rd (m_x (ml_C (mainStep_body ext se s))) v - rd (m_x (ml_C s)) v) <= ml_tx s
  /\ Rabs (rd (m_y (ml_C (mainStep_body ext se s))) v - rd (m_y (ml_C s)) v) <= ml_ty s.
Proof.
  intros Hlx Hly Hx Hy Hf Hl Hr Hv.
  destruct (reached_temperatures Hx Hy Hf Hl Hr) as (Htx & Hty & _).
  destruct (reached_only_xy Hr) as (x & y & E & Ex & Ey).
  assert (Hn : m_numNodes (ml_C s) = m_numNodes C) by (rewrite E; reflexivity).
  assert (Hlx' : length (m_x (ml_C s)) = m_numNodes (ml_C s))
    by (rewrite Hn, E; cbn [set_xy m_x]; congruence).
  assert (Hly' : length (m_y (ml_C s)) = m_numNodes (ml_C s))
    by (rewrite Hn, E; cbn [set_xy m_y]; congruence).
  rewrite <- Hn in Hv.
  destruct (@mainStep_body_positions R _ ext se s v Hlx' Hly' Hv) as [Px Py].
  cbn [num_add R_arith] in Px, Py. rewrite Px, Py.
  match goal with |- Rabs (?a + ?d - ?a) <= _ /\ Rabs (?b + ?e - ?b) <= _ =>
    replace (a + d - a) with d by ring; replace (b + e - b) with e by ring end.
  split; [apply xdisplace_capped | apply ydisplace_capped]; assumption.
Qed.

End Temperatures.

(** ** The vectorized passes against the scalar ones *)

Section Refinement.

Local Open Scope R_scope.

Variable ext : Extern R.
Hypothesis no_ksquare : OGDF_SPRINGEMBEDDERFREXACT_USE_KSQUARE ext = false.

Lemma sum_from_app f a n m :
  sum_from f a (n + m) = sum_from f a n + sum_from f (a + n) m.
Proof.
  revert a; induction n as [|n IH]; intros a; simpl.
  - rewrite Nat.add_0_r. ring.
  - rewrite IH. replace (S a + n)%nat with (a + S n)%nat by lia. ring.
Qed.

Lemma sum_from_2 f a n :
  sum_from f a (2 + n) = f a + f (a + 1)%nat + sum_from f (a + 2)%nat n.
Proof.
  cbn [Nat.add sum_from].
  replace (S a) with (a + 1)%nat by lia. replace (S (a + 1)) with (a + 2)%nat by lia.
  ring.
Qed.

Lemma sum_from_S_r f a n : sum_from f a (S n) = sum_from f a n + f (a + n)%nat.
Proof.
  replace (S n) with (n + 1)%nat by lia. rewrite sum_from_app. cbn [sum_from]. ring.
Qed.

Lemma rep_pair_R (C : ArrayGraph R) v d u :
  u <> v -> rep_pair C v d u = (fst d + rep_x C v u, snd d + rep_y C v u).
Proof.
  intros Hne. unfold rep_pair. apply Nat.eqb_neq in Hne. rewrite Hne. reflexivity.
Qed.

Lemma sse_distSquare (C : ArrayGraph R) v u :
  sse_max minDistSquare
    ((rd (m_x C) v - rd (m_x C) u) * (rd (m_x C) v - rd (m_x C) u)
     + (rd (m_y C) v - rd (m_y C) u) * (rd (m_y C) v - rd (m_y C) u))
  = rep_distSquare C v u.
Proof. unfold rep_distSquare. rewrite sse_max_R, std_max_R. reflexivity. Qed.

Lemma compute_sd_R se (C : ArrayGraph R) v u d :
  compute_sd ext se C v u d
  = ((fst (fst d) + rep_x C v u, snd (fst d)), (fst (snd d) + rep_y C v u, snd (snd d))).
Proof.
  unfold compute_sd. rewrite no_ksquare.
  unfold _mm_add_sd, _mm_mul_sd, _mm_div_sd, _mm_max_sd, _mm_sub_sd, _mm_load_sd,
    _mm_set1_pd, lane_lo.
  cbn [fst snd num_add num_sub num_mul num_div R_arith].
  rewrite sse_distSquare. reflexivity.
Qed.

Lemma compute_pd_R se (C : ArrayGraph R) v u d :
  compute_pd ext se C v u d
  = ((fst (fst d) + rep_x C v u, snd (fst d) + rep_x C v (u + 1)),
     (fst (snd d) + rep_y C v u, snd (snd d) + rep_y C v (u + 1))).
Proof.
  unfold compute_pd. rewrite no_ksquare.
  unfold _mm_add_pd, _mm_mul_pd, _mm_div_pd, _mm_max_pd, _mm_sub_pd, _mm_load_pd,
    _mm_set1_pd, lanes2.
  cbn [fst snd num_add num_sub num_mul num_div R_arith].
  rewrite !sse_distSquare. reflexivity.
Qed.

(** A loop over pairs adds, to the two lanes together, the terms of the
    indices it passes, and stops with fewer than two indices left. *)
Lemma for_pairs_compute_pd se (C : ArrayGraph R) v bound fuel u d :
  (bound <= u + fuel)%nat ->
  let r := for_pairs fuel u bound (compute_pd ext se C v) d in
  exists m,
    fst r = (u + 2 * m)%nat
    /\ ~ (fst r + 1 < bound)%nat
    /\ (m = 0%nat \/ fst r <= bound)%nat
    /\ lanesum (fst (snd r)) = lanesum (fst d) + sum_from (rep_x C v) u (2 * m)
    /\ lanesum (snd (snd r)) = lanesum (snd d) + sum_from (rep_y C v) u (2 * m).
Proof.
  revert u d; induction fuel as [|fuel IH]; intros u d Hf.
  - exists 0%nat. cbn [for_pairs fst snd]. rewrite Nat.mul_0_r, Nat.add_0_r.
    cbn [sum_from]. split; [reflexivity|]. split; [lia|]. split; [left; reflexivity|].
    split; ring.
  - cbn [for_pairs]. destruct (Nat.ltb_spec (u + 1) bound) as [Hlt|Hge].
    + destruct (IH (u + 2)%nat (compute_pd ext se C v u d) ltac:(lia))
        as (m & E & Hstop & Hle & Hx & Hy).
      exists (S m).
      replace (2 * S m)%nat with (2 + 2 * m)%nat by lia.
      rewrite !sum_from_2, Hx, Hy, E, compute_pd_R. unfold lanesum. cbn [fst snd].
      split; [lia|]. split; [rewrite E in Hstop; exact Hstop|].
      split; [right; rewrite E in Hle; destruct Hle as [->|Hle]; lia|].
      split; ring.
    + exists 0%nat. cbn [fst snd]. rewrite Nat.mul_0_r, Nat.add_0_r.
      cbn [sum_from]. split; [reflexivity|]. split; [lia|]. split; [left; reflexivity|].
      split; ring.
Qed.

Lemma compute_sd_lanesum se (C : ArrayGraph R) v u d :
  lanesum (fst (compute_sd ext se C v u d)) = lanesum (fst d) + rep_x C v u
  /\ lanesum (snd (compute_sd ext se C v u d)) = lanesum (snd d) + rep_y C v u.
Proof. rewrite compute_sd_R. unfold lanesum. cbn [fst snd]. split; ring. Qed.

(** The second loop over pairs with the single step after it: all the
    indices from [a] up to [n]. *)
Lemma sse3_tail se (C : ArrayGraph R) v n a d :
  let r := for_pairs n a n (compute_pd ext se C v) d in
  let d' := if Nat.ltb (fst r) n then compute_sd ext se C v (fst r) (snd r) else snd r in
  lanesum (fst d') = lanesum (fst d) + sum_from (rep_x C v) a (n - a)
  /\ lanesum (snd d') = lanesum (snd d) + sum_from (rep_y C v) a (n - a).
Proof.
  intros r d'.
  destruct (@for_pairs_compute_pd se C v n n a d ltac:(lia))
    as (m & E & Hstop & Hle & Hx & Hy).
  fold r in E, Hstop, Hle, Hx, Hy. unfold d'.
  destruct (Nat.ltb_spec (fst r) n) as [Hlt|Hge].
  - destruct (compute_sd_lanesum se C v (fst r) (snd r)) as [Sx Sy].
    rewrite Sx, Sy, Hx, Hy.
    replace (n - a)%nat with (S (2 * m)) by lia.
    rewrite !sum_from_S_r, E. split; ring.
  - rewrite Hx, Hy.
    replace (n - a)%nat with (2 * m)%nat by lia. split; reflexivity.
Qed.

Lemma lanesum_zero : lanesum (@_mm_setzero_pd R _) = 0.
Proof. unfold lanesum, _mm_setzero_pd, num0. cbn [fst snd num_of_Z R_arith]. ring. Qed.

(** The four loops of the vectorized pass add, to the two lanes together,
    the terms of all the nodes but [v]. *)
Lemma rep_lanes_sse3_sum se (C : ArrayGraph R) v :
  (v < m_numNodes C)%nat ->
  lanesum (fst (rep_lanes_sse3 ext se C v))
  = sum_from (rep_x C v) 0 v + sum_from (rep_x C v) (S v) (m_numNodes C - S v)
  /\ lanesum (snd (rep_lanes_sse3 ext se C v))
     = sum_from (rep_y C v) 0 v + sum_from (rep_y C v) (S v) (m_numNodes C - S v).
Proof.
  intros Hv. unfold rep_lanes_sse3.
  set (n := m_numNodes C) in *.
  destruct (@for_pairs_compute_pd se C v v v 0%nat (_mm_setzero_pd, _mm_setzero_pd)
              ltac:(lia)) as (m & E & Hstop & Hle & Hx & Hy).
  destruct (for_pairs v 0 v (compute_pd ext se C v) (_mm_setzero_pd, _mm_setzero_pd))
    as [u1 d1].
  cbn [fst snd] in E, Hstop, Hle, Hx, Hy. rewrite lanesum_zero in Hx, Hy.
  assert (Hm : (2 * m = u1)%nat) by lia. rewrite Hm in Hx, Hy.
  assert (Hu1 : (u1 <= v /\ v <= u1 + 1)%nat) by lia. clear E Hm Hstop Hle.
  destruct (Nat.eqb_spec u1 v) as [Eu|Nu]; cbv beta iota zeta.
  - (* the first loop stops at v: the single step takes v + 1 *)
    rewrite Eu in *. clear Eu.
    set (d2 := if Nat.ltb (v + 1) n then compute_sd ext se C v (v + 1) d1 else d1).
    pose proof (sse3_tail se C v n (v + 2) d2) as [Tx Ty].
    destruct (for_pairs n (v + 2) n (compute_pd ext se C v) d2) as [u2 d3].
    cbn [fst snd] in Tx, Ty. rewrite Tx, Ty. unfold d2.
    destruct (Nat.ltb_spec (v + 1) n) as [Hlt|Hge].
    + destruct (compute_sd_lanesum se C v (v + 1) d1) as [Sx Sy].
      rewrite Sx, Sy, Hx, Hy.
      replace (n - S v)%nat with (S (n - (v + 2))) by lia. cbn [sum_from].
      replace (v + 1)%nat with (S v) by lia. replace (v + 2)%nat with (S (S v)) by lia.
      split; ring.
    + rewrite Hx, Hy.
      replace (n - S v)%nat with 0%nat by lia. replace (n - (v + 2))%nat with 0%nat by lia.
      cbn [sum_from]. split; ring.
  - (* the first loop stops at v - 1: the single step takes it *)
    assert (Ev : v = S u1) by lia.
    assert (Hlt : (u1 < n)%nat) by lia. apply Nat.ltb_lt in Hlt. rewrite Hlt.
    pose proof (sse3_tail se C v n (u1 + 2) (compute_sd ext se C v u1 d1)) as [Tx Ty].
    destruct (for_pairs n (u1 + 2) n (compute_pd ext se C v) (compute_sd ext se C v u1 d1))
      as [u2 d3].
    cbn [fst snd] in Tx, Ty. rewrite Tx, Ty.
    destruct (compute_sd_lanesum se C v u1 d1) as [Sx Sy].
    rewrite Sx, Sy, Hx, Hy.
    replace (u1 + 2)%nat with (S v) by lia.
    replace (sum_from (rep_x C v) 0 v) with (sum_from (rep_x C v) 0 (S u1)) by (rewrite Ev; reflexivity).
    replace (sum_from (rep_y C v) 0 v) with (sum_from (rep_y C v) 0 (S u1)) by (rewrite Ev; reflexivity).
    rewrite !sum_from_S_r. cbn [Nat.add].
    split; ring.
Qed.

Lemma rep_pair_sum (C : ArrayGraph R) v a len d :
  (v < a \/ a + len <= v)%nat ->
  fold_left (rep_pair C v) (seq a len) d
  = (fst d + sum_from (rep_x C v) a len, snd d + sum_from (rep_y C v) a len).
Proof.
  revert a d; induction len as [|len IH]; intros a d Hva; cbn [seq fold_left sum_from].
  - destruct d; cbn [fst snd]. f_equal; ring.
  - rewrite IH by lia. rewrite rep_pair_R by lia. cbn [fst snd]. f_equal; ring.
Qed.

(** The scalar pass adds the same terms. *)
Lemma rep_scalar_sum (C : ArrayGraph R) v :
  (v < m_numNodes C)%nat ->
  fold_left (rep_pair C v) (seq 0 (m_numNodes C)) (0, 0)
  = (sum_from (rep_x C v) 0 v + sum_from (rep_x C v) (S v) (m_numNodes C - S v),
     sum_from (rep_y C v) 0 v + sum_from (rep_y C v) (S v) (m_numNodes C - S v)).
Proof.
  intros Hv.
  replace (m_numNodes C) with (v + S (m_numNodes C - S v))%nat at 1 by lia.
  rewrite seq_app, fold_left_app. cbn [seq fold_left Nat.add].
  rewrite (@rep_pair_sum C v 0%nat v) by lia.
  unfold rep_pair at 2. rewrite Nat.eqb_refl.
  rewrite rep_pair_sum by lia. cbn [fst snd]. f_equal; ring.
Qed.

Lemma rep_node_sse3_scalar se (C : ArrayGraph R) D v :
  (v < m_numNodes C)%nat -> rep_node_sse3 ext se C D v = rep_node se C D v.
Proof.
  intros Hv. unfold rep_node_sse3, rep_node.
  destruct (rep_lanes_sse3_sum se C Hv) as [Lx Ly].
  unfold num0. cbn [num_of_Z R_arith]. rewrite (rep_scalar_sum C Hv).
  unfold _mm_store_sd, _mm_mul_sd, _mm_hadd_pd, _mm_set1_pd, lane_lo.
  cbn [fst snd num_add num_mul R_arith].
  unfold lanesum in Lx, Ly. rewrite Lx, Ly. reflexivity.
Qed.

Lemma fold_left_ext_in {S X : Type} (f g : S -> X -> S) (l : list X) :
  (forall s x, In x l -> f s x = g s x) ->
  forall s, fold_left f l s = fold_left g l s.
Proof.
  induction l as [|x l IH]; intros Hfg s; simpl; [reflexivity|].
  rewrite Hfg by (left; reflexivity). apply IH. intros s' y Hy. apply Hfg. right. exact Hy.
Qed.

(** The displacement buffers of the two paths are the same. *)
Lemma forces_sse3_scalar se (C : ArrayGraph R) : forces_sse3 ext se C = forces se C.
Proof.
  unfold forces_sse3, forces. f_equal.
  apply fold_left_ext_in. intros D v Hv. apply rep_node_sse3_scalar.
  apply in_seq in Hv. lia.
Qed.

(** *** The capping pass *)

Lemma upd_app (f : nat -> R -> R) l1 l2 a : upd f (l1 ++ l2) a = upd f l2 (upd f l1 a).
Proof. unfold upd. apply fold_left_app. Qed.

Lemma sse_displace (d t dx dy : R) :
  d / sse_max minDist (sqrt (dx * dx + dy * dy))
    * sse_min (sse_max minDist (sqrt (dx * dx + dy * dy))) t
  = d / cap_dist dx dy * std_min (cap_dist dx dy) t.
Proof.
  unfold cap_dist. rewrite sse_max_R, sse_min_R, std_max_R, std_min_R.
  reflexivity.
Qed.

Lemma cap_pair_sse3_upd D tx ty v (C : ArrayGraph R) :
  m_x (cap_pair_sse3 D tx ty v C) = upd (cap_x D tx) [v; (v + 1)%nat] (m_x C)
  /\ m_y (cap_pair_sse3 D tx ty v C) = upd (cap_y D ty) [v; (v + 1)%nat] (m_y C).
Proof.
  unfold cap_pair_sse3, upd, cap_x, cap_y, xdisplace, ydisplace.
  cbn [set_xy m_x m_y fold_left].
  unfold _mm_store_pd, _mm_add_pd, _mm_mul_pd, _mm_div_pd, _mm_min_pd, _mm_max_pd,
    _mm_sqrt_pd, _mm_load_pd, _mm_set1_pd, lanes2.
  cbn [fst snd num_add num_sub num_mul num_div num_sqrt R_arith].
  assert (Hrd : forall (l : list R) i j x, i <> j -> rd (store l i x) j = rd l j).
  { intros l i j x Hij. unfold rd. apply nth_store_other. exact Hij. }
  rewrite !Hrd by lia.
  rewrite !sse_displace. split; reflexivity.
Qed.

Lemma for_pairs_cap D tx ty bound fuel u (C : ArrayGraph R) :
  (bound <= u + fuel)%nat ->
  let r := for_pairs fuel u bound (cap_pair_sse3 D tx ty) C in
  exists m,
    fst r = (u + 2 * m)%nat
    /\ ~ (fst r + 1 < bound)%nat
    /\ (m = 0%nat \/ fst r <= bound)%nat
    /\ m_x (snd r) = upd (cap_x D tx) (seq u (2 * m)) (m_x C)
    /\ m_y (snd r) = upd (cap_y D ty) (seq u (2 * m)) (m_y C).
Proof.
  revert u C; induction fuel as [|fuel IH]; intros u C Hf.
  - exists 0%nat. cbn [for_pairs fst snd]. rewrite Nat.mul_0_r, Nat.add_0_r.
    split; [reflexivity|]. split; [lia|]. split; [left; reflexivity|].
    split; reflexivity.
  - cbn [for_pairs]. destruct (Nat.ltb_spec (u + 1) bound) as [Hlt|Hge].
    + destruct (IH (u + 2)%nat (cap_pair_sse3 D tx ty u C) ltac:(lia))
        as (m & E & Hstop & Hle & Hx & Hy).
      destruct (cap_pair_sse3_upd D tx ty u C) as [Px Py].
      exists (S m).
      replace (2 * S m)%nat with (2 + 2 * m)%nat by lia.
      rewrite seq_app, !upd_app, Hx, Hy, Px, Py, E. cbn [seq].
      replace (S u) with (u + 1)%nat by lia.
      split; [lia|]. split; [rewrite E in Hstop; exact Hstop|].
      split; [right; rewrite E in Hle; destruct Hle as [->|Hle]; lia|].
      split; reflexivity.
    + exists 0%nat. cbn [fst snd]. rewrite Nat.mul_0_r, Nat.add_0_r.
      split; [reflexivity|]. split; [lia|]. split; [left; reflexivity|].
      split; reflexivity.
Qed.

Lemma only_xy_eq (C C1 C2 : ArrayGraph R) :
  only_xy C C1 -> only_xy C C2 -> m_x C1 = m_x C2 -> m_y C1 = m_y C2 -> C1 = C2.
Proof.
  intros (x1 & y1 & -> & _) (x2 & y2 & -> & _). cbn [set_xy m_x m_y].
  intros -> ->. reflexivity.
Qed.

(** The positions after the vectorized capping, pairs and the odd node. *)
Lemma cap_sse3_upd D tx ty (C : ArrayGraph R) :
  let n := m_numNodes C in
  let C2 := cap_last_sse3 D tx ty (snd (for_pairs n 0 n (cap_pair_sse3 D tx ty) C)) in
  m_x C2 = upd (cap_x D tx) (seq 0 n) (m_x C)
  /\ m_y C2 = upd (cap_y D ty) (seq 0 n) (m_y C).
Proof.
  intros n C2.
  destruct (@for_pairs_cap D tx ty n n 0%nat C ltac:(lia)) as (m & E & Hstop & Hle & Hx & Hy).
  assert (Hn : m_numNodes (snd (for_pairs n 0 n (cap_pair_sse3 D tx ty) C)) = n).
  { apply (for_pairs_inv (fun C' : ArrayGraph R => m_numNodes C' = n)); [|reflexivity].
    intros u C' H. exact H. }
  unfold C2, cap_last_sse3. rewrite Hn.
  set (C1 := snd (for_pairs n 0 n (cap_pair_sse3 D tx ty) C)) in *.
  cbn [Nat.add] in E.
  destruct (Nat.eqb_spec (n mod 2) 0) as [Heven|Hodd].
  - assert (E2 : (2 * m = n)%nat).
    { pose proof (Nat.div_mod_eq n 2). lia. }
    rewrite Hx, Hy, E2. split; reflexivity.
  - assert (E2 : (n = 2 * m + 1)%nat).
    { pose proof (Nat.div_mod_eq n 2). pose proof (Nat.mod_upper_bound n 2). lia. }
    assert (Hseq : seq 0 n = seq 0 (2 * m) ++ [(n - 1)%nat]).
    { replace (n - 1)%nat with (0 + 2 * m)%nat by lia. rewrite E2, seq_app. reflexivity. }
    rewrite Hseq, !upd_app, <- Hx, <- Hy. split; reflexivity.
Qed.

(** *** One round, and the whole loop *)

Lemma mainStep_body_xy se (s : MainLoop R) :
  let C := ml_C s in
  let D := forces se C in
  let C' := ml_C (mainStep_body ext se s) in
  m_x C' = upd (cap_x D (ml_tx s)) (seq 0 (m_numNodes C)) (m_x C)
  /\ m_y C' = upd (cap_y D (ml_ty s)) (seq 0 (m_numNodes C)) (m_y C).
Proof.
  intros C D C'. unfold C', mainStep_body. fold C. fold D.
  match goal with |- context [fold_left (cap_node se D ?tx ?ty) ?l ?a] =>
    destruct (cap_fold se D tx ty l a) as (Hx & Hy & _);
    destruct (fold_left (cap_node se D tx ty) l a) as [C1 c1] end.
  destruct (cool _ _ _) as [[tx ty] cF]. cbn [ml_C fst] in *.
  rewrite Hx, Hy. split; reflexivity.
Qed.

Lemma sse3_body_cool se (t : Sse3Loop R) :
  (sl_tx (sse3_body ext se t), sl_ty (sse3_body ext se t), sl_cF (sse3_body ext se t))
  = cool ext se (sl_tx t, sl_ty t, sl_cF t).
Proof. unfold sse3_body. destruct (cool _ _ _) as [[tx ty] cF]. reflexivity. Qed.

Lemma sse3_body_xy se (t : Sse3Loop R) :
  let C := sl_C t in
  let D := forces se C in
  let C' := sl_C (sse3_body ext se t) in
  m_x C' = upd (cap_x D (sl_tx t)) (seq 0 (m_numNodes C)) (m_x C)
  /\ m_y C' = upd (cap_y D (sl_ty t)) (seq 0 (m_numNodes C)) (m_y C).
Proof.
  intros C D C'. unfold C', sse3_body. fold C. rewrite forces_sse3_scalar. fold D.
  destruct (cool _ _ _) as [[tx ty] cF]. cbn [sl_C].
  apply cap_sse3_upd.
Qed.

Lemma body_same_state se s t :
  same_state s t -> same_state (mainStep_body ext se s) (sse3_body ext se t).
Proof.
  intros (HC & Htx & Hty & HcF & Hi).
  pose proof (mainStep_body_cool ext se s) as Ec.
  pose proof (sse3_body_cool se t) as Ec'.
  rewrite Htx, Hty, HcF, <- Ec' in Ec. injection Ec as E1 E2 E3.
  destruct (mainStep_body_xy se s) as [Sx Sy].
  destruct (sse3_body_xy se t) as [Tx Ty].
  rewrite HC, Htx in Sx. rewrite HC, Hty in Sy. rewrite <- Tx in Sx. rewrite <- Ty in Sy.
  repeat split; try assumption.
  - apply (only_xy_eq (C := ml_C s)).
    + apply only_xy_mainStep_body.
    + rewrite HC. apply only_xy_sse3_body.
    + exact Sx.
    + exact Sy.
  - rewrite mainStep_body_itCount, sse3_body_i, Hi. reflexivity.
Qed.

Lemma loops_agree se :
  m_checkConvergence se = false ->
  forall fuel s t,
    same_state s t ->
    ml_converged s = negb (sl_i t <=? m_iterations se)%Z ->
    (m_iterations se < sl_i t + Z.of_nat fuel)%Z ->
    ml_C (mainStep_while ext se (S fuel) s) = sl_C (sse3_for ext se fuel t).
Proof.
  intros Hchk. induction fuel as [|fuel IH]; intros s t Hst Hc Hf.
  - assert (E : (sl_i t <=? m_iterations se)%Z = false) by (apply Z.leb_gt; lia).
    cbn [mainStep_while sse3_for]. rewrite Hc, E. cbn [negb]. apply Hst.
  - cbn [sse3_for]. change (mainStep_while ext se (S (S fuel)) s)
      with (if ml_converged s then s
            else mainStep_while ext se (S fuel) (mainStep_body ext se s)).
    rewrite Hc. destruct (sl_i t <=? m_iterations se)%Z eqn:E; cbn [negb]; [|apply Hst].
    apply IH.
    + apply body_same_state. exact Hst.
    + rewrite mainStep_body_converged, Hchk, Hc. cbn [negb andb].
      rewrite orb_false_r, sse3_body_i.
      destruct Hst as (_ & _ & _ & _ & ->).
      destruct (Z.ltb_spec (m_iterations se) (sl_i t + 1)),
               (Z.leb_spec (sl_i t + 1) (m_iterations se)); try reflexivity; lia.
    + rewrite sse3_body_i. lia.
Qed.

(** With [checkConvergence] off and a budget that is not negative, the
    vectorized path leaves the component exactly as the scalar path does,
    in exact arithmetic. *)
Lemma mainStep_sse3_scalar se (C : ArrayGraph R) :
  m_checkConvergence se = false ->
  (0 <= m_iterations se)%Z ->
  mainStep_sse3 ext se C = mainStep ext se C.
Proof.
  intros Hchk Hit. unfold mainStep_sse3.
  destruct (OGDF_SSE3_EXTENSIONS ext); [|reflexivity].
  unfold mainStep, mainStep_run, sse3_run. symmetry. apply loops_agree.
  - exact Hchk.
  - repeat split.
  - cbn [ml_converged sl_i].
    destruct (Z.eqb_spec (m_iterations se) 0), (Z.leb_spec 1 (m_iterations se));
      try reflexivity; lia.
  - cbn [sl_i]. lia.
Qed.

End Refinement.

(** ** The constructor of the flat view *)

Lemma concat_by_index {A : Type} (l : list (list A)) :
  concat l = flat_map (fun i => nth i l []) (seq 0 (length l)).
Proof.
  induction l as [|x l IH]; simpl; [reflexivity|].
  rewrite <- seq_shift, flat_map_concat_map, map_map, <- flat_map_concat_map.
  simpl. rewrite IH. reflexivity.
Qed.

Lemma flat_map_ext_on {A B : Type} (f g : A -> list B) (l : list A) :
  (forall x, In x l -> f x = g x) -> flat_map f l = flat_map g l.
Proof.
  intros H. rewrite !flat_map_concat_map. f_equal. apply map_ext_in. exact H.
Qed.

Lemma filter_holds {A : Type} (p : A -> bool) (l : list A) :
  (forall x, In x l -> p x = true) -> filter p l = l.
Proof.
  induction l as [|x l IH]; intros H; simpl; [reflexivity|].
  rewrite (H x (or_introl eq_refl)), IH; [reflexivity|].
  intros y Hy. apply H. right. exact Hy.
Qed.

Lemma classes_below (comp : NodeArray nat) (l : list node) n :
  Permutation (flat_map (fun i => filter (fun v => Nat.eqb (comp v) i) l) (seq 0 n))
              (filter (fun v => Nat.ltb (comp v) n) l).
Proof.
  induction n as [|n IH].
  - simpl. induction l as [|x l IHl]; simpl; [constructor | exact IHl].
  - rewrite seq_S, flat_map_app. simpl. rewrite app_nil_r.
    eapply Permutation_trans; [apply Permutation_app_tail; exact IH|].
    apply Permutation_sym.
    eapply Permutation_trans; [|apply filter_orb_disjoint].
    + erewrite filter_ext; [apply Permutation_refl|].
      intros v. simpl.
      destruct (Nat.ltb_spec (comp v) (S n)), (Nat.ltb_spec (comp v) n),
        (Nat.eqb_spec (comp v) n); simpl; try reflexivity; lia.
    + intros v _ Hv. apply Nat.ltb_lt in Hv. apply Nat.eqb_neq. lia.
Qed.

Section Constructor.

Variable num : Type.
Context {AR : Arith num}.
Variable ext : Extern num.

Lemma pushBack_fold_length (comp : NodeArray nat) l (cc0 : list (list node)) :
  length (fold_left (fun cc v => pushBack_in cc (comp v) v) l cc0) = length cc0.
Proof.
  revert cc0; induction l as [|v l IH]; intros cc0; simpl; [reflexivity|].
  rewrite IH. unfold pushBack_in. apply store_length.
Qed.

(** X1: the constructor sorts the nodes of the graph into the components
    [connectedComponents] reports: it makes one list per component, the list
    of component [i] holds the nodes labelled [i] in the order of [G.nodes],
    and, the labels being below the number of components, the lists together
    hold every node of the graph exactly as often as [G.nodes] does. The
    view starts without nodes and edges and with node weights off. *)
Theorem ArrayGraph_new_partitions_nodes (ga : GraphAttributes num) numCC comp :
  connectedComponents ext (constGraph ga) = (numCC, comp) ->
  (forall v, In v (nodes (constGraph ga)) -> comp v < numCC) ->
  let A := ArrayGraph_new ext ga in
  m_numCC A = numCC
  /\ length (m_nodesInCC A) = numCC
  /\ (forall i, i < numCC ->
        nth i (m_nodesInCC A) []
        = filter (fun v => Nat.eqb (comp v) i) (nodes (constGraph ga)))
  /\ Permutation (concat (m_nodesInCC A)) (nodes (constGraph ga))
  /\ m_numNodes A = 0 /\ m_numEdges A = 0 /\ ag_useNodeWeight A = false.
Proof.
  intros Hcc Hlt A.
  assert (Hlen : length (m_nodesInCC A) = numCC).
  { unfold A, ArrayGraph_new. rewrite Hcc. cbn [m_nodesInCC].
    rewrite pushBack_fold_length. apply alloc_length. }
  assert (Hnth : forall i, i < numCC ->
            nth i (m_nodesInCC A) []
            = filter (fun v => Nat.eqb (comp v) i) (nodes (constGraph ga))).
  { intros i Hi. apply (nodesInCC_new ext ga Hcc Hi). }
  repeat split.
  - unfold A, ArrayGraph_new. rewrite Hcc. reflexivity.
  - exact Hlen.
  - exact Hnth.
  - rewrite concat_by_index, Hlen.
    rewrite (flat_map_ext_on _
               (fun i => filter (fun v => Nat.eqb (comp v) i) (nodes (constGraph ga)))).
    + eapply Permutation_trans; [apply classes_below|].
      rewrite filter_holds; [apply Permutation_refl|].
      intros v Hv. apply Nat.ltb_lt. apply Hlt. exact Hv.
    + intros i Hi. apply in_seq in Hi. apply Hnth. lia.
  - unfold A, ArrayGraph_new. rewrite Hcc. reflexivity.
  - unfold A, ArrayGraph_new. rewrite Hcc. reflexivity.
  - unfold A, ArrayGraph_new. rewrite Hcc. reflexivity.
Qed.

End Constructor.

(** ** More on the flat view *)

Section FlatViewMore.

Variable num : Type.
Context {AR : Arith num}.

(** X2: [initCC] copies the attributes of the nodes into the buffers: cell
    [j] of [m_x] and [m_y] holds the position the attribute store has for
    node [original(j)], and cell [j] of [m_nodeWeight] holds 1.0 unless node
    weights are switched on and the store has them, in which case it holds
    the (integer) weight of that node. *)
Theorem initCC_copies_attributes (ga : GraphAttributes num) (A : ArrayGraph num) i j :
  let C := initCC ga A i in
  j < m_numNodes C ->
  m_numNodes C = length (nth i (m_nodesInCC A) [])
  /\ original C j = nth j (nth i (m_nodesInCC A) []) 0
  /\ rd (m_x C) j = ga_x ga (original C j)
  /\ rd (m_y C) j = ga_y ga (original C j)
  /\ rd (m_nodeWeight C) j
     = (if ag_useNodeWeight A && has_nodeWeight ga
        then num_of_Z (ga_weight ga (original C j)) else num1)
  /\ ag_useNodeWeight C = ag_useNodeWeight A.
Proof.
  intros C Hj.
  destruct (initCC_spec ga A i) as (Hn & Ho & Hx & Hy & Hw & _).
  fold C in Hn, Ho, Hx, Hy, Hw.
  set (cc := nth i (m_nodesInCC A) []) in *.
  rewrite Hn in Hj.
  unfold original, rd. rewrite Ho, Hx, Hy, Hw.
  repeat split.
  - rewrite (nth_indep _ num0 (ga_x ga 0)) by (rewrite length_map; exact Hj).
    apply map_nth.
  - rewrite (nth_indep _ num0 (ga_y ga 0)) by (rewrite length_map; exact Hj).
    apply map_nth.
  - rewrite (nth_indep _ num0 (weightOf ga (ag_useNodeWeight A) 0))
      by (rewrite length_map; exact Hj).
    rewrite map_nth. unfold weightOf.
    destruct (ag_useNodeWeight A), (has_nodeWeight ga); reflexivity.
Qed.

Lemma initCC_nodes_map_notin (ga : GraphAttributes num) b l (s : InitNodes num) v :
  ~ In v l -> in_map (fold_left (initCC_node ga b) l s) v = in_map s v.
Proof.
  revert s; induction l as [|u l IH]; intros s Hv; simpl; [reflexivity|].
  rewrite IH by (intros H; apply Hv; right; exact H).
  cbn [initCC_node in_map]. unfold na_set.
  destruct (Nat.eqb_spec v u) as [E|E]; [|reflexivity].
  exfalso. apply Hv. left. symmetry. exact E.
Qed.

(** X3: [call] uses one [ArrayGraph] for all components, and [initCC] does
    not depend on what the component before left in it: from two views with
    the same lists of components and the same setting of node weights,
    [initCC(i)] builds the same counts and the same buffers, and the same
    entries of [m_mapNode] for the nodes of component [i]. The entries of
    [m_mapNode] for all other nodes are left as they were. This needs the
    nodes of the component to be listed once and the other end of every
    stored edge to be in the component. *)
Theorem initCC_forgets_previous_component (ga : GraphAttributes num)
    (A B : ArrayGraph num) i :
  m_nodesInCC A = m_nodesInCC B ->
  ag_useNodeWeight A = ag_useNodeWeight B ->
  let cc := nth i (m_nodesInCC A) [] in
  NoDup cc ->
  (forall v adj, In v cc -> In adj (recorded (constGraph ga) v) -> In (twinNode adj) cc) ->
  let CA := initCC ga A i in
  let CB := initCC ga B i in
  (m_numNodes CA = m_numNodes CB /\ m_numEdges CA = m_numEdges CB
   /\ m_orig CA = m_orig CB /\ m_src CA = m_src CB /\ m_tgt CA = m_tgt CB
   /\ m_x CA = m_x CB /\ m_y CA = m_y CB /\ m_nodeWeight CA = m_nodeWeight CB)
  /\ (forall v, In v cc -> m_mapNode CA v = m_mapNode CB v)
  /\ (forall v, ~ In v cc -> m_mapNode CA v = m_mapNode A v).
Proof.
  intros Hcc Hw cc Hnd Hclosed CA CB.
  destruct (initCC_spec ga A i) as (An & Ao & Ax & Ay & Aw & Ae & As & At & _).
  destruct (initCC_spec ga B i) as (Bn & Bo & Bx & By & Bw & Be & Bs & Bt & _).
  fold CA in An, Ao, Ax, Ay, Aw, Ae, As, At.
  fold CB in Bn, Bo, Bx, By, Bw, Be, Bs, Bt.
  rewrite <- Hcc in Bn, Bo, Bx, By, Bw, Be, Bs, Bt. rewrite <- Hw in Bw.
  fold cc in An, Ao, Ax, Ay, Aw, Ae, As, At, Bn, Bo, Bx, By, Bw, Be, Bs, Bt.
  assert (Hmap : forall v, In v cc -> m_mapNode CA v = m_mapNode CB v).
  { intros v Hv. destruct (In_nth cc v 0 Hv) as (k & Hk & <-).
    pose proof (@initCC_mapNode num AR ga A i k Hnd Hk) as HA.
    fold cc in HA. fold CA in HA.
    assert (HndB : NoDup (nth i (m_nodesInCC B) [])) by (rewrite <- Hcc; exact Hnd).
    assert (HkB : k < length (nth i (m_nodesInCC B) [])) by (rewrite <- Hcc; exact Hk).
    pose proof (@initCC_mapNode num AR ga B i k HndB HkB) as HB.
    rewrite <- Hcc in HB. fold cc in HB. fold CB in HB. rewrite HA, HB. reflexivity. }
  split; [|split].
  - repeat split; try congruence.
    rewrite At, Bt. apply map_ext_in. intros p Hp.
    apply edgePairs_in in Hp. destruct Hp as (Hr & adj & Hadj & Hs).
    rewrite Hs. apply Hmap.
    apply (Hclosed (nth (fst p - 0) cc 0) adj); [|exact Hadj].
    apply nth_In. simpl in Hr. lia.
  - exact Hmap.
  - intros v Hv. unfold CA, initCC. fold cc. cbn [m_mapNode].
    rewrite initCC_nodes_map_notin by exact Hv. reflexivity.
Qed.

End FlatViewMore.

Section EngineFrame.

Variable num : Type.
Context {AR : Arith num}.
Variable ext : Extern num.

(** X4: what [call] does to the view of a component between [initCC] and
    the write-back ([initialize], then [mainStep] or [mainStep_sse3], or
    nothing for fewer than two nodes) writes the two position buffers only:
    the counts, the node and edge buffers, the weights and the maps are
    those [initCC] built, the position buffers keep their lengths, and of
    the embedder only the two initial temperatures may change. *)
Theorem layoutCC_writes_positions_only (se : SpringEmbedderFRExact num)
    (C : ArrayGraph num) i :
  let se' := fst (fst (layoutCC ext se C i)) in
  let C' := snd (fst (layoutCC ext se C i)) in
  (m_numNodes C' = m_numNodes C /\ m_numEdges C' = m_numEdges C
   /\ m_numCC C' = m_numCC C /\ m_orig C' = m_orig C
   /\ m_src C' = m_src C /\ m_tgt C' = m_tgt C
   /\ m_nodeWeight C' = m_nodeWeight C /\ ag_useNodeWeight C' = ag_useNodeWeight C
   /\ m_mapNode C' = m_mapNode C /\ m_nodesInCC C' = m_nodesInCC C)
  /\ (length (m_x C') = length (m_x C) /\ length (m_y C') = length (m_y C))
  /\ se' = set_tNull se (m_txNull se') (m_tyNull se').
Proof.
  intros se' C'.
  destruct (only_xy_layoutCC ext se C i) as (x & y & E & Hx & Hy).
  fold C' in E. rewrite E. cbn. split; [repeat split|split; [split; assumption|]].
  unfold se', layoutCC.
  destruct (Nat.leb 2 (m_numNodes C)).
  - pose proof (initialize_options se C) as Ho.
    destruct (initialize se C) as (se1, c1). cbn [fst snd] in Ho.
    destruct (cpuSupports_SSE3 ext); cbn [fst snd]; exact Ho.
  - cbn [fst snd]. destruct se; reflexivity.
Qed.

End EngineFrame.

(** ** More on the initializer *)

Section InitializerMore.

Local Open Scope R_scope.

(** The positions after [initialize], with the two factors as the source
    computes them. *)
Lemma initialize_positions (se : SpringEmbedderFRExact R) (C : ArrayGraph R) v :
  length (m_x C) = m_numNodes C -> length (m_y C) = m_numNodes C ->
  (v < m_numNodes C)%nat ->
  let b := boundingBoxOf C in
  let k := m_idealEdgeLength se in
  let w := xmax b - xmin b + k in
  let h := ymax b - ymin b + k in
  let W := sqrt (INR (m_numNodes C) / (h / w)) * k in
  let H := h / w * W in
  rd (m_x (snd (initialize se C))) v = (rd (m_x C) v - xmin b) * (W / w)
  /\ rd (m_y (snd (initialize se C))) v = (rd (m_y C) v - ymin b) * (H / h).
Proof.
  intros Hlx Hly Hv b k w h W H.
  unfold initialize. cbn [snd]. fold b.
  match goal with |- context [fold_left (rescale_node b ?fx ?fy) ?l C] =>
    destruct (rescale_fold b fx fy l C) as [Hx Hy] end.
  rewrite Hx, Hy.
  rewrite !upd_rd_in; try (apply seq_NoDup); try (apply in_seq; lia); try lia.
  cbn [num_sqrt num_div num_add num_sub num_mul num_of_Z R_arith].
  rewrite <- INR_IZR_INZ. split; reflexivity.
Qed.

(** The sizes [initialize] computes, for a positive ideal edge length. *)
Lemma initialize_sizes (se : SpringEmbedderFRExact R) (C : ArrayGraph R) :
  (1 <= m_numNodes C)%nat -> 0 < m_idealEdgeLength se ->
  let b := boundingBoxOf C in
  let k := m_idealEdgeLength se in
  let w := xmax b - xmin b + k in
  let h := ymax b - ymin b + k in
  let W := sqrt (INR (m_numNodes C) / (h / w)) * k in
  let H := h / w * W in
  0 < w /\ 0 < h /\ 0 < W /\ 0 < H
  /\ W * W = INR (m_numNodes C) * (k * k) * w / h
  /\ H / h = W / w.
Proof.
  intros Hn Hk b k w h W H.
  destruct (boundingBoxOf_spec C Hn) as (Hall & _). fold b in Hall.
  destruct (Hall 0%nat ltac:(lia)) as [Hx Hy].
  assert (Hw : 0 < w) by (unfold w, k; lra).
  assert (Hh : 0 < h) by (unfold h, k; lra).
  assert (Hr : 0 < h / w) by (apply Rdiv_lt_0_compat; assumption).
  assert (HN : 0 < INR (m_numNodes C)) by (apply lt_0_INR; lia).
  assert (Ha : 0 < INR (m_numNodes C) / (h / w)) by (apply Rdiv_lt_0_compat; assumption).
  assert (HW : 0 < W) by (unfold W; apply Rmult_lt_0_compat; [apply sqrt_lt_R0; exact Ha | exact Hk]).
  assert (HH : 0 < H) by (unfold H; apply Rmult_lt_0_compat; assumption).
  repeat split; try assumption.
  - unfold W.
    replace (sqrt (INR (m_numNodes C) / (h / w)) * k * (sqrt (INR (m_numNodes C) / (h / w)) * k))
      with (sqrt (INR (m_numNodes C) / (h / w)) * sqrt (INR (m_numNodes C) / (h / w)) * (k * k))
      by ring.
    rewrite sqrt_sqrt by lra. field. split; lra.
  - unfold H. field. split; lra.
Qed.

(** X5, in exact arithmetic: for a positive ideal edge length [k],
    [initialize] is a translation followed by one scaling of both axes: with
    [w] and [h] the width and the height of the bounding box, each enlarged
    by [k], every position [(x, y)] becomes
    [(s * (x - xmin), s * (y - ymin))] for the one factor
    [s = k * sqrt(n / (w * h))], which is positive. The two factors [fx] and
    [fy] of the source are this same number. The statement is over the real
    numbers: the binary64 run computes [fx] and [fy] by separate divisions
    and rounds each. *)
Theorem initialize_scales_both_axes_alike (se : SpringEmbedderFRExact R)
    (C : ArrayGraph R) :
  (1 <= m_numNodes C)%nat ->
  length (m_x C) = m_numNodes C -> length (m_y C) = m_numNodes C ->
  0 < m_idealEdgeLength se ->
  let b := boundingBoxOf C in
  let k := m_idealEdgeLength se in
  let w := xmax b - xmin b + k in
  let h := ymax b - ymin b + k in
  let s := k * sqrt (INR (m_numNodes C) / (w * h)) in
  let C' := snd (initialize se C) in
  0 < s
  /\ forall v, (v < m_numNodes C)%nat ->
       rd (m_x C') v = s * (rd (m_x C) v - xmin b)
       /\ rd (m_y C') v = s * (rd (m_y C) v - ymin b).
Proof.
  intros Hn Hlx Hly Hk b k w h s C'.
  destruct (initialize_sizes se C Hn Hk) as (Hw & Hh & HW & HH & HWW & HHh).
  fold b in Hw, Hh, HW, HH, HWW, HHh. fold k in Hw, Hh, HW, HH, HWW, HHh.
  fold w in Hw, Hh, HW, HH, HWW, HHh. fold h in Hw, Hh, HW, HH, HWW, HHh.
  set (W := sqrt (INR (m_numNodes C) / (h / w)) * k) in *.
  set (H := h / w * W) in *.
  assert (HN : 0 < INR (m_numNodes C)) by (apply lt_0_INR; lia).
  assert (Hs : s = W / w).
  { unfold s, W.
    assert (E : sqrt (INR (m_numNodes C) / (w * h))
                = sqrt (INR (m_numNodes C) / (h / w)) / w).
    { apply sqrt_lem_1.
      - apply Rlt_le. apply Rdiv_lt_0_compat; [exact HN | apply Rmult_lt_0_compat; assumption].
      - apply Rlt_le. apply Rdiv_lt_0_compat; [|exact Hw].
        apply sqrt_lt_R0. apply Rdiv_lt_0_compat; [exact HN|].
        apply Rdiv_lt_0_compat; assumption.
      - replace (sqrt (INR (m_numNodes C) / (h / w)) / w
                 * (sqrt (INR (m_numNodes C) / (h / w)) / w))
          with (sqrt (INR (m_numNodes C) / (h / w)) * sqrt (INR (m_numNodes C) / (h / w))
                / (w * w)) by (field; lra).
        rewrite sqrt_sqrt.
        + field. split; lra.
        + apply Rlt_le. apply Rdiv_lt_0_compat; [exact HN|].
          apply Rdiv_lt_0_compat; assumption. }
    rewrite E. field. lra. }
  split.
  - rewrite Hs. apply Rdiv_lt_0_compat; assumption.
  - intros v Hv.
    destruct (initialize_positions se C Hlx Hly Hv) as [Ex Ey].
    fold b in Ex, Ey. fold k in Ex, Ey. fold w in Ex, Ey. fold h in Ex, Ey.
    fold W in Ex, Ey. fold H in Ex, Ey. fold C' in Ex, Ey.
    rewrite Ex, Ey, HHh, Hs. split; ring.
Qed.

(** X6, in exact arithmetic: for a positive ideal edge length [k],
    [initialize] spreads a component of [n] nodes over an area of
    [n * k * k]: the sizes [W] and [H] it computes are positive with
    [W * H = n * k * k], every node gets a position in [0, W) x [0, H), some
    node gets the x coordinate 0 and some node the y coordinate 0, and the
    two initial temperatures are positive. The statement is over the real
    numbers; the binary64 run rounds every operation. *)
Theorem initialize_spreads_over_area (se : SpringEmbedderFRExact R) (C : ArrayGraph R) :
  (1 <= m_numNodes C)%nat ->
  length (m_x C) = m_numNodes C -> length (m_y C) = m_numNodes C ->
  0 < m_idealEdgeLength se ->
  let b := boundingBoxOf C in
  let k := m_idealEdgeLength se in
  let w := xmax b - xmin b + k in
  let h := ymax b - ymin b + k in
  let W := sqrt (INR (m_numNodes C) / (h / w)) * k in
  let H := h / w * W in
  let se' := fst (initialize se C) in
  let C' := snd (initialize se C) in
  (0 < W /\ 0 < H /\ W * H = INR (m_numNodes C) * (k * k))
  /\ (forall v, (v < m_numNodes C)%nat ->
        0 <= rd (m_x C') v < W /\ 0 <= rd (m_y C') v < H)
  /\ (exists v, (v < m_numNodes C)%nat /\ rd (m_x C') v = 0)
  /\ (exists v, (v < m_numNodes C)%nat /\ rd (m_y C') v = 0)
  /\ 0 < m_txNull se' /\ 0 < m_tyNull se'.
Proof.
  intros Hn Hlx Hly Hk b k w h W H se' C'.
  destruct (initialize_sizes se C Hn Hk) as (Hw & Hh & HW & HH & HWW & HHh).
  fold b in Hw, Hh, HW, HH, HWW, HHh. fold k in Hw, Hh, HW, HH, HWW, HHh.
  fold w in Hw, Hh, HW, HH, HWW, HHh. fold h in Hw, Hh, HW, HH, HWW, HHh.
  fold W in HW, HH, HWW, HHh. fold H in HH, HHh.
  destruct (boundingBoxOf_spec C Hn) as (Hall & (vx & Hvx & Exmin) & _ & (vy & Hvy & Eymin) & _).
  fold b in Hall, Exmin, Eymin.
  assert (Hpos : forall v, (v < m_numNodes C)%nat ->
            rd (m_x C') v = (rd (m_x C) v - xmin b) * (W / w)
            /\ rd (m_y C') v = (rd (m_y C) v - ymin b) * (W / w)).
  { intros v Hv. destruct (initialize_positions se C Hlx Hly Hv) as [Ex Ey].
    fold b in Ex, Ey. fold k in Ex, Ey. fold w in Ex, Ey. fold h in Ex, Ey.
    fold W in Ex, Ey. fold H in Ex, Ey. fold C' in Ex, Ey.
    rewrite Ex, Ey, HHh. split; reflexivity. }
  assert (Hs : 0 < W / w) by (apply Rdiv_lt_0_compat; assumption).
  split; [|split; [|split; [|split; [|split]]]].
  - split; [exact HW|]. split; [exact HH|].
    unfold H. replace (W * (h / w * W)) with (W * W * (h / w)) by ring.
    rewrite HWW. field. split; lra.
  - intros v Hv. destruct (Hpos v Hv) as [Ex Ey]. rewrite Ex, Ey.
    destruct (Hall v Hv) as [Hx Hy].
    assert (EW : W = w * (W / w)) by (field; lra).
    assert (EH : H = h * (W / w)) by (rewrite <- HHh; field; lra).
    split; split.
    + apply Rmult_le_pos; lra.
    + rewrite EW at 2. apply Rmult_lt_compat_r; [exact Hs | unfold w, k; lra].
    + apply Rmult_le_pos; lra.
    + rewrite EH. apply Rmult_lt_compat_r; [exact Hs | unfold h, k; lra].
  - exists vx. split; [exact Hvx|]. destruct (Hpos vx Hvx) as [Ex _].
    rewrite Ex, <- Exmin. ring.
  - exists vy. split; [exact Hvy|]. destruct (Hpos vy Hvy) as [_ Ey].
    rewrite Ey, <- Eymin. ring.
  - unfold se', initialize. cbn [fst set_tNull m_txNull]. fold b.
    cbn [num_sqrt num_div num_add num_sub num_mul num_of_Z R_arith].
    rewrite <- INR_IZR_INZ. fold k. fold w. fold h. fold W. lra.
  - unfold se', initialize. cbn [fst set_tNull m_tyNull]. fold b.
    cbn [num_sqrt num_div num_add num_sub num_mul num_of_Z R_arith].
    rewrite <- INR_IZR_INZ. fold k. fold w. fold h. fold W. fold H. lra.
Qed.

End InitializerMore.

(** ** The initializer and where the component is *)

Section InitializerTranslation.

Local Open Scope R_scope.

Lemma rd_map (f : R -> R) (l : list R) v :
  (v < length l)%nat -> rd (map f l) v = f (rd l v).
Proof.
  intros Hv. unfold rd. rewrite (nth_indep _ num0 (f num0)) by (rewrite length_map; exact Hv).
  apply map_nth.
Qed.

Lemma Rmin_shift (a m x : R) : Rmin (m + a) (x + a) = Rmin m x + a.
Proof. unfold Rmin. destruct (Rle_dec (m + a) (x + a)), (Rle_dec m x); lra. Qed.

Lemma Rmax_shift (a m x : R) : Rmax (m + a) (x + a) = Rmax m x + a.
Proof. unfold Rmax. destruct (Rle_dec (m + a) (x + a)), (Rle_dec m x); lra. Qed.

Lemma boundingBoxOf_translate (a b : R) (C : ArrayGraph R) :
  (1 <= m_numNodes C)%nat ->
  length (m_x C) = m_numNodes C -> length (m_y C) = m_numNodes C ->
  boundingBoxOf (translate a b C)
  = mkBBox (xmin (boundingBoxOf C) + a) (xmax (boundingBoxOf C) + a)
           (ymin (boundingBoxOf C) + b) (ymax (boundingBoxOf C) + b).
Proof.
  intros Hn Hlx Hly. unfold boundingBoxOf.
  change (m_numNodes (translate a b C)) with (m_numNodes C).
  change (m_x (translate a b C)) with (map (fun x => x + a) (m_x C)).
  change (m_y (translate a b C)) with (map (fun y => y + b) (m_y C)).
  rewrite !rd_map by lia.
  set (B0 := mkBBox (rd (m_x C) 0) (rd (m_x C) 0) (rd (m_y C) 0) (rd (m_y C) 0)).
  change (mkBBox (rd (m_x C) 0 + a) (rd (m_x C) 0 + a) (rd (m_y C) 0 + b) (rd (m_y C) 0 + b))
    with (mkBBox (xmin B0 + a) (xmax B0 + a) (ymin B0 + b) (ymax B0 + b)).
  assert (H : forall l B,
            (forall v, In v l -> (v < m_numNodes C)%nat) ->
            fold_left (bbox_node (translate a b C)) l
              (mkBBox (xmin B + a) (xmax B + a) (ymin B + b) (ymax B + b))
            = mkBBox (xmin (fold_left (bbox_node C) l B) + a)
                     (xmax (fold_left (bbox_node C) l B) + a)
                     (ymin (fold_left (bbox_node C) l B) + b)
                     (ymax (fold_left (bbox_node C) l B) + b)).
  { induction l as [|v l IH]; intros B Hl; [reflexivity|].
    cbn [fold_left]. rewrite <- IH by (intros u Hu; apply Hl; right; exact Hu).
    f_equal. unfold bbox_node.
    change (m_x (translate a b C)) with (map (fun x => x + a) (m_x C)).
    change (m_y (translate a b C)) with (map (fun y => y + b) (m_y C)).
    pose proof (Hl v (or_introl eq_refl)) as Hv.
    rewrite !rd_map by lia. cbn [xmin xmax ymin ymax].
    rewrite !updateMin_R, !updateMax_R.
    rewrite !Rmin_shift, !Rmax_shift. reflexivity. }
  apply H. intros v Hv. apply in_seq in Hv. lia.
Qed.

(** The positions [initialize] computes do not depend on where the component
    is. *)
Lemma initialize_translate_xy (se : SpringEmbedderFRExact R) (C : ArrayGraph R) (a b : R) :
  (1 <= m_numNodes C)%nat ->
  length (m_x C) = m_numNodes C -> length (m_y C) = m_numNodes C ->
  fst (initialize se (translate a b C)) = fst (initialize se C)
  /\ m_x (snd (initialize se (translate a b C))) = m_x (snd (initialize se C))
  /\ m_y (snd (initialize se (translate a b C))) = m_y (snd (initialize se C)).
Proof.
  intros Hn Hlx Hly.
  pose proof (boundingBoxOf_translate a b C Hn Hlx Hly) as Hb.
  set (b0 := boundingBoxOf C) in *. set (k := m_idealEdgeLength se).
  assert (Ew : xmax (boundingBoxOf (translate a b C)) - xmin (boundingBoxOf (translate a b C)) + k
               = xmax b0 - xmin b0 + k) by (rewrite Hb; cbn [xmin xmax]; ring).
  assert (Eh : ymax (boundingBoxOf (translate a b C)) - ymin (boundingBoxOf (translate a b C)) + k
               = ymax b0 - ymin b0 + k) by (rewrite Hb; cbn [ymin ymax]; ring).
  assert (Hlx' : length (m_x (translate a b C)) = m_numNodes (translate a b C))
    by (cbn [translate set_xy m_x m_numNodes]; rewrite length_map; exact Hlx).
  assert (Hly' : length (m_y (translate a b C)) = m_numNodes (translate a b C))
    by (cbn [translate set_xy m_y m_numNodes]; rewrite length_map; exact Hly).
  split; [|split].
  - unfold initialize. cbn [fst].
    change (m_numNodes (translate a b C)) with (m_numNodes C).
    cbn [num_add num_sub num_mul num_div num_sqrt num_of_Z R_arith].
    fold k. rewrite Ew, Eh. reflexivity.
  - apply (nth_ext _ _ num0 num0).
    + destruct (only_xy_initialize se (translate a b C)) as (x1 & y1 & E1 & L1 & _).
      destruct (only_xy_initialize se C) as (x2 & y2 & E2 & L2 & _).
      rewrite E1, E2. cbn [set_xy m_x]. rewrite L1, L2.
      cbn [translate set_xy m_x]. apply length_map.
    + intros v Hv.
      assert (Hv' : (v < m_numNodes C)%nat).
      { destruct (only_xy_initialize se (translate a b C)) as (x1 & y1 & E1 & L1 & _).
        rewrite E1 in Hv. cbn [set_xy m_x] in Hv. rewrite L1 in Hv.
        cbn [translate set_xy m_x] in Hv. rewrite length_map in Hv. lia. }
      destruct (@initialize_positions se (translate a b C) v Hlx' Hly' Hv') as [P1 _].
      destruct (@initialize_positions se C v Hlx Hly Hv') as [P2 _].
      unfold rd in P1, P2. rewrite P1, P2.
      change (m_numNodes (translate a b C)) with (m_numNodes C).
      fold k. fold b0. rewrite Ew, Eh.
      change (m_x (translate a b C)) with (map (fun x => x + a) (m_x C)).
      fold (rd (map (fun x => x + a) (m_x C)) v). rewrite rd_map by lia.
      rewrite Hb. cbn [xmin]. unfold rd. f_equal. ring.
  - apply (nth_ext _ _ num0 num0).
    + destruct (only_xy_initialize se (translate a b C)) as (x1 & y1 & E1 & _ & L1).
      destruct (only_xy_initialize se C) as (x2 & y2 & E2 & _ & L2).
      rewrite E1, E2. cbn [set_xy m_y]. rewrite L1, L2.
      cbn [translate set_xy m_y]. apply length_map.
    + intros v Hv.
      assert (Hv' : (v < m_numNodes C)%nat).
      { destruct (only_xy_initialize se (translate a b C)) as (x1 & y1 & E1 & _ & L1).
        rewrite E1 in Hv. cbn [set_xy m_y] in Hv. rewrite L1 in Hv.
        cbn [translate set_xy m_y] in Hv. rewrite length_map in Hv. lia. }
      destruct (@initialize_positions se (translate a b C) v Hlx' Hly' Hv') as [_ P1].
      destruct (@initialize_positions se C v Hlx Hly Hv') as [_ P2].
      unfold rd in P1, P2. rewrite P1, P2.
      change (m_numNodes (translate a b C)) with (m_numNodes C).
      fold k. fold b0. rewrite Ew, Eh.
      change (m_y (translate a b C)) with (map (fun y => y + b) (m_y C)).
      fold (rd (map (fun y => y + b) (m_y C)) v). rewrite rd_map by lia.
      rewrite Hb. cbn [ymin]. unfold rd. f_equal. ring.
Qed.

Variable ext : Extern R.

(** X7: [initialize] forgets where the component was: from a view whose
    positions are all moved by the same vector it computes the same view and
    the same initial temperatures. So, in exact arithmetic, what [call]
    computes for a component of two nodes or more before it writes the
    positions back does not depend on where the input had put the component
    as a whole. *)
Theorem initialize_forgets_translation (se : SpringEmbedderFRExact R)
    (C : ArrayGraph R) (a b : R) (i : nat) :
  (1 <= m_numNodes C)%nat ->
  length (m_x C) = m_numNodes C -> length (m_y C) = m_numNodes C ->
  initialize se (translate a b C) = initialize se C
  /\ ((2 <= m_numNodes C)%nat ->
      layoutCC ext se (translate a b C) i = layoutCC ext se C i).
Proof.
  intros Hn Hlx Hly.
  destruct (@initialize_translate_xy se C a b Hn Hlx Hly) as (Hse & Hx & Hy).
  assert (Hxy : only_xy C (translate a b C)).
  { unfold translate. apply only_xy_set; apply length_map. }
  assert (HC : snd (initialize se (translate a b C)) = snd (initialize se C)).
  { apply (@only_xy_eq C).
    - eapply only_xy_trans; [exact Hxy | apply only_xy_initialize].
    - apply only_xy_initialize.
    - exact Hx.
    - exact Hy. }
  assert (Hinit : initialize se (translate a b C) = initialize se C).
  { rewrite (surjective_pairing (initialize se (translate a b C))),
            (surjective_pairing (initialize se C)), Hse, HC. reflexivity. }
  split; [exact Hinit|].
  intros H2. unfold layoutCC.
  change (m_numNodes (translate a b C)) with (m_numNodes C).
  rewrite Hinit. rewrite (proj2 (Nat.leb_le 2 (m_numNodes C)) H2). reflexivity.
Qed.

End InitializerTranslation.

(** ** More on the cooling schedule *)

Section CoolingMore.

Variable num : Type.
Context {AR : Arith num}.
Variable ext : Extern num.

Local Open Scope num_scope.

(** X8: the counter [cF] of [cool]. Cooling by a factor never touches it;
    the logarithmic mode advances it by one at every call, also at a call
    that leaves the temperatures alone because [mylog2(cF)] is zero. So the
    call made with the counter at [c] in logarithmic mode sets the
    temperatures to [m_txNull / mylog2(c)] and [m_tyNull / mylog2(c)],
    whatever they were, unless [mylog2(c)] is zero. *)
Theorem cool_counter (se : SpringEmbedderFRExact num) (t : num * num * Z) (n : nat) :
  let r := Nat.iter n (cool ext se) t in
  snd r = match m_coolingFunction se with
          | Factor => snd t
          | Logarithmic => (snd t + Z.of_nat n)%Z
          end
  /\ (m_coolingFunction se = Logarithmic ->
      cool ext se r
      = if mylog2 ext (snd r) =? num0
        then (fst (fst r), snd (fst r), (snd r + 1)%Z)
        else (m_txNull se / mylog2 ext (snd r), m_tyNull se / mylog2 ext (snd r),
              (snd r + 1)%Z)).
Proof.
  intros r. split.
  - unfold r. clear r. induction n as [|n IH].
    + cbn. destruct (m_coolingFunction se); [reflexivity | lia].
    + rewrite Nat.iter_succ.
      destruct (Nat.iter n (cool ext se) t) as [[tx ty] cF]. cbn [snd] in IH.
      unfold cool. destruct (m_coolingFunction se).
      * cbn [snd]. exact IH.
      * destruct (negb _); cbn [snd]; lia.
  - intros Hlog. destruct r as [[tx ty] cF]. unfold cool. rewrite Hlog.
    cbn [fst snd]. destruct (mylog2 ext cF =? num0); reflexivity.
Qed.

End CoolingMore.

Section CoolingFactor.

Variable ext : Extern R.

Local Open Scope R_scope.

(** X9, in exact arithmetic: cooling by a factor is geometric: after [n]
    rounds the two temperatures are [m_txNull * m_coolFactor_x ^ n] and
    [m_tyNull * m_coolFactor_y ^ n], and the counter is still 1. The
    statement is over the real numbers; the binary64 run rounds every
    product. *)
Theorem cool_by_factor_is_geometric (se : SpringEmbedderFRExact R) (n : nat) :
  m_coolingFunction se = Factor ->
  cooled ext se n
  = (m_txNull se * m_coolFactor_x se ^ n, m_tyNull se * m_coolFactor_y se ^ n, 1%Z).
Proof.
  intros HF. induction n as [|n IH].
  - unfold cooled. cbn [Nat.iter nat_rect pow]. rewrite !Rmult_1_r. reflexivity.
  - rewrite (cooled_factor ext se n HF), IH. unfold tempX, tempY. cbn [fst snd pow].
    apply pair_equal_spec; split; [apply pair_equal_spec; split; ring | reflexivity].
Qed.

End CoolingFactor.

(** ** The number of rounds *)

Section RoundsMore.

Variable num : Type.
Context {AR : Arith num}.
Variable ext : Extern num.

Lemma mainStep_while_iter (se : SpringEmbedderFRExact num) fuel (s : MainLoop num) :
  exists j, j <= fuel
    /\ mainStep_while ext se fuel s = Nat.iter j (mainStep_body ext se) s
    /\ (forall i, i < j -> ml_converged (Nat.iter i (mainStep_body ext se) s) = false)
    /\ (ml_converged (Nat.iter j (mainStep_body ext se) s) = true \/ j = fuel).
Proof.
  revert s; induction fuel as [|fuel IH]; intros s.
  - exists 0. simpl. destruct (ml_converged s) eqn:E.
    + repeat split; [lia | intros i Hi; lia | first [left; exact E | left; reflexivity]].
    + repeat split; [lia | intros i Hi; lia | right; reflexivity].
  - cbn [mainStep_while]. destruct (ml_converged s) eqn:E.
    + exists 0. simpl. repeat split; [lia | intros i Hi; lia | first [left; exact E | left; reflexivity]].
    + destruct (IH (mainStep_body ext se s)) as (j & Hj & Hrun & Hbefore & Hend).
      exists (S j). rewrite Nat.iter_succ_r. repeat split.
      * lia.
      * exact Hrun.
      * intros i Hi. destruct i as [|i]; [exact E|].
        rewrite Nat.iter_succ_r. apply Hbefore. lia.
      * destruct Hend as [Hend|Hend]; [left; exact Hend | right; lia].
Qed.

Lemma afterRounds_itCount (se : SpringEmbedderFRExact num) (C : ArrayGraph num) r :
  ml_itCount (afterRounds ext se C r) = (1 + Z.of_nat r)%Z.
Proof.
  induction r as [|r IH]; [reflexivity|].
  unfold afterRounds in *. rewrite Nat.iter_succ, mainStep_body_itCount, IH. lia.
Qed.

Lemma afterRounds_converged (se : SpringEmbedderFRExact num) (C : ArrayGraph num) r :
  ml_converged (afterRounds ext se C (S r))
  = (m_iterations se <? Z.of_nat r + 2)%Z
    || ((if m_checkConvergence se then true else ml_converged (afterRounds ext se C r))
        && quiet se (afterRounds ext se C r)).
Proof.
  unfold afterRounds at 1. rewrite Nat.iter_succ. fold (afterRounds ext se C r).
  rewrite mainStep_body_converged, afterRounds_itCount.
  replace (1 + Z.of_nat r + 1)%Z with (Z.of_nat r + 2)%Z by lia. reflexivity.
Qed.

(** How [mainStep] leaves its loop, for a budget of at least one round:
    after [rounds] rounds, with [converged] clear before each of them and set
    after the last. *)
Lemma mainStep_run_rounds (se : SpringEmbedderFRExact num) (C : ArrayGraph num) :
  (1 <= m_iterations se)%Z ->
  exists rounds, 1 <= rounds /\ (Z.of_nat rounds <= m_iterations se)%Z
    /\ mainStep_run ext se C = afterRounds ext se C rounds
    /\ roundsDone ext se C = rounds
    /\ (forall r, r < rounds -> ml_converged (afterRounds ext se C r) = false)
    /\ ml_converged (afterRounds ext se C rounds) = true.
Proof.
  intros Hit.
  destruct (mainStep_while_iter se (S (Z.to_nat (m_iterations se))) (mainStep_init se C))
    as (rounds & Hrounds & Hrun & Hbefore & _).
  change (mainStep_while ext se (S (Z.to_nat (m_iterations se))) (mainStep_init se C))
    with (mainStep_run ext se C) in Hrun.
  fold (afterRounds ext se C rounds) in Hrun.
  assert (Hconv : ml_converged (afterRounds ext se C rounds) = true)
    by (rewrite <- Hrun; apply mainStep_exits).
  assert (H0 : ml_converged (afterRounds ext se C 0) = false).
  { cbn. apply Z.eqb_neq. lia. }
  assert (H1 : 1 <= rounds).
  { destruct rounds as [|rounds]; [|lia]. rewrite H0 in Hconv. discriminate. }
  exists rounds. repeat split.
  - exact H1.
  - destruct rounds as [|[|rounds]]; [lia | lia |].
    pose proof (Hbefore (S rounds) ltac:(lia)) as Hb.
    fold (afterRounds ext se C (S rounds)) in Hb.
    rewrite afterRounds_converged in Hb.
    apply orb_false_iff in Hb. destruct Hb as [Hb _].
    apply Z.ltb_ge in Hb. lia.
  - exact Hrun.
  - unfold roundsDone. rewrite Hrun, afterRounds_itCount. lia.
  - exact Hbefore.
  - exact Hconv.
Qed.

(** X10: for a budget of at least one round and below [INT_MAX], [mainStep]
    runs at least one round and at most [m_iterations] rounds, and returns
    the component as that many executions of the loop body leave it; its
    counter [itCount] ends at the number of rounds plus one, which is
    [INT_MAX] at most, so the [int] of the source holds it; without
    [checkConvergence] the rounds are exactly [m_iterations]. *)
Theorem mainStep_runs_within_budget (se : SpringEmbedderFRExact num) (C : ArrayGraph num) :
  (1 <= m_iterations se < INT_MAX)%Z ->
  let rounds := roundsDone ext se C in
  1 <= rounds /\ (Z.of_nat rounds <= m_iterations se)%Z
  /\ ml_itCount (mainStep_run ext se C) = (Z.of_nat rounds + 1)%Z
  /\ (ml_itCount (mainStep_run ext se C) <= INT_MAX)%Z
  /\ mainStep ext se C = ml_C (afterRounds ext se C rounds)
  /\ (m_checkConvergence se = false -> Z.of_nat rounds = m_iterations se).
Proof.
  intros [Hit Hmax] rounds.
  destruct (mainStep_run_rounds se C Hit)
    as (rounds' & H1 & H2 & Hrun & Hrounds & Hbefore & Hconv).
  fold rounds in Hrounds. subst rounds'.
  repeat split.
  - exact H1.
  - exact H2.
  - rewrite Hrun, afterRounds_itCount. lia.
  - rewrite Hrun, afterRounds_itCount. unfold INT_MAX in *. lia.
  - unfold mainStep. rewrite Hrun. reflexivity.
  - intros Hchk.
    assert (Hinv : forall r, r <= rounds ->
              ml_converged (afterRounds ext se C r) = (m_iterations se <? Z.of_nat r + 1)%Z).
    { induction r as [|r IH]; intros Hr.
      - cbn. destruct (Z.eqb_spec (m_iterations se) 0), (Z.ltb_spec (m_iterations se) 1);
          try reflexivity; lia.
      - rewrite afterRounds_converged, Hchk, (Hbefore r ltac:(lia)). cbn [andb].
        rewrite orb_false_r. f_equal. lia. }
    rewrite (Hinv rounds (Nat.le_refl rounds)) in Hconv. apply Z.ltb_lt in Hconv. lia.
Qed.

(** X11: with [checkConvergence], and for a budget of at least one round,
    [mainStep] stops after the first quiet round, a round in which no node
    moves by more than [m_convTolerance * m_idealEdgeLength]: no round before
    the last is quiet, and if the loop is left before the budget is used up,
    the last round is quiet. *)
Theorem mainStep_stops_at_first_quiet_round (se : SpringEmbedderFRExact num)
    (C : ArrayGraph num) :
  m_checkConvergence se = true ->
  (1 <= m_iterations se)%Z ->
  let rounds := roundsDone ext se C in
  (forall r, S r < rounds -> quiet se (afterRounds ext se C r) = false)
  /\ ((Z.of_nat rounds < m_iterations se)%Z ->
      quiet se (afterRounds ext se C (rounds - 1)) = true).
Proof.
  intros Hchk Hit rounds.
  destruct (mainStep_run_rounds se C Hit)
    as (rounds' & H1 & H2 & Hrun & Hrounds & Hbefore & Hconv).
  fold rounds in Hrounds. subst rounds'.
  split.
  - intros r Hr. pose proof (Hbefore (S r) Hr) as Hb.
    rewrite afterRounds_converged, Hchk in Hb.
    apply orb_false_iff in Hb. destruct Hb as [_ Hb]. exact Hb.
  - intros Hlt. destruct rounds as [|rounds]; [lia|].
    rewrite afterRounds_converged, Hchk in Hconv.
    replace (S rounds - 1) with rounds by lia.
    apply orb_true_iff in Hconv. destruct Hconv as [Hc|Hc]; [|exact Hc].
    apply Z.ltb_lt in Hc. lia.
Qed.

Lemma sse3_for_iter (se : SpringEmbedderFRExact num) fuel (s : Sse3Loop num) :
  (sl_i s + Z.of_nat fuel = m_iterations se + 1)%Z ->
  sse3_for ext se fuel s = Nat.iter fuel (sse3_body ext se) s.
Proof.
  revert s; induction fuel as [|fuel IH]; intros s Hs.
  - simpl. destruct (sl_i s <=? m_iterations se)%Z; reflexivity.
  - cbn [sse3_for]. destruct (Z.leb_spec (sl_i s) (m_iterations se)) as [E|E]; [|lia].
    rewrite Nat.iter_succ_r. apply IH. rewrite sse3_body_i. lia.
Qed.

(** X12: for a budget below [INT_MAX], the loop compiled into
    [mainStep_sse3] runs its body [m_iterations] times, whatever the options
    and the positions are, and not at all for a budget that is zero or
    negative; its counter [i] ends at the number of rounds plus one, which
    is [INT_MAX] at most, so the [int] of the source holds it;
    [mainStep_sse3] returns the component as that many executions of the
    body leave it, or what [mainStep] returns when the vectorized loop is
    not compiled in. *)
Theorem mainStep_sse3_runs_whole_budget (se : SpringEmbedderFRExact num)
    (C : ArrayGraph num) :
  (m_iterations se < INT_MAX)%Z ->
  sse3_run ext se C
  = Nat.iter (Z.to_nat (m_iterations se)) (sse3_body ext se) (sse3_init se C)
  /\ sl_i (sse3_run ext se C) = (Z.max 0 (m_iterations se) + 1)%Z
  /\ (sl_i (sse3_run ext se C) <= INT_MAX)%Z
  /\ mainStep_sse3 ext se C
     = if OGDF_SSE3_EXTENSIONS ext
       then sl_C (Nat.iter (Z.to_nat (m_iterations se)) (sse3_body ext se) (sse3_init se C))
       else mainStep ext se C.
Proof.
  intros Hmax.
  assert (Hrun : sse3_run ext se C
            = Nat.iter (Z.to_nat (m_iterations se)) (sse3_body ext se) (sse3_init se C)).
  { unfold sse3_run. fold (sse3_init se C).
    destruct (Z.leb_spec 0 (m_iterations se)) as [E|E].
    - apply sse3_for_iter. cbn [sl_i sse3_init]. lia.
    - replace (Z.to_nat (m_iterations se)) with 0 by lia.
      cbn [sse3_for Nat.iter nat_rect sse3_init sl_i].
      destruct (Z.leb_spec 1 (m_iterations se)); [lia | reflexivity]. }
  assert (Hi : sl_i (sse3_run ext se C) = (Z.max 0 (m_iterations se) + 1)%Z).
  { rewrite Hrun.
    assert (Hi : forall r, sl_i (Nat.iter r (sse3_body ext se) (sse3_init se C))
                 = (1 + Z.of_nat r)%Z).
    { induction r as [|r IH]; [reflexivity|].
      rewrite Nat.iter_succ, sse3_body_i, IH. lia. }
    rewrite Hi. lia. }
  split; [exact Hrun|]. split; [exact Hi|]. split.
  - rewrite Hi. unfold INT_MAX in *. lia.
  - unfold mainStep_sse3. rewrite Hrun. reflexivity.
Qed.

(** X13: for a negative budget the two engines differ: the test of the loop
    of [mainStep] is [m_iterations == 0] before the first round and
    [itCount > m_iterations] after it, so [mainStep] runs one round and
    moves the nodes, whereas the loop compiled into [mainStep_sse3] is not
    entered and leaves the component as it is. *)
Theorem negative_budget_runs_scalar_round_only (se : SpringEmbedderFRExact num)
    (C : ArrayGraph num) :
  (m_iterations se < 0)%Z ->
  mainStep_run ext se C = afterRounds ext se C 1
  /\ ml_itCount (mainStep_run ext se C) = 2%Z
  /\ mainStep ext se C = ml_C (mainStep_body ext se (mainStep_init se C))
  /\ sse3_run ext se C = sse3_init se C
  /\ (OGDF_SSE3_EXTENSIONS ext = true -> mainStep_sse3 ext se C = C).
Proof.
  intros Hneg.
  assert (E0 : (m_iterations se =? 0)%Z = false) by (apply Z.eqb_neq; lia).
  assert (Hc : ml_converged (mainStep_body ext se (mainStep_init se C)) = true).
  { rewrite mainStep_body_converged. cbn [mainStep_init ml_itCount].
    replace (m_iterations se <? 1 + 1)%Z with true by (symmetry; apply Z.ltb_lt; lia).
    reflexivity. }
  assert (Hrun : mainStep_run ext se C = afterRounds ext se C 1).
  { unfold mainStep_run, afterRounds. rewrite Nat.iter_succ. cbn [Nat.iter nat_rect].
    fold (mainStep_init se C).
    replace (Z.to_nat (m_iterations se)) with 0 by lia.
    cbn [mainStep_while]. unfold mainStep_init at 1. cbn [ml_converged]. rewrite E0.
    rewrite Hc. reflexivity. }
  assert (Hsse : sse3_run ext se C = sse3_init se C).
  { unfold sse3_run. replace (Z.to_nat (m_iterations se)) with 0 by lia.
    cbn [sse3_for sl_i]. destruct (Z.leb_spec 1 (m_iterations se)); [lia | reflexivity]. }
  repeat split.
  - exact Hrun.
  - rewrite Hrun, afterRounds_itCount. reflexivity.
  - unfold mainStep. rewrite Hrun. reflexivity.
  - exact Hsse.
  - intros Hflag. unfold mainStep_sse3. rewrite Hflag, Hsse. reflexivity.
Qed.

End RoundsMore.

(** ** The engine over the reals *)

Section EngineReals.

Variable ext : Extern R.

Local Open Scope R_scope.

(** X14: without [checkConvergence], for a budget that is not negative and
    unless the vectorized loop is compiled with the square of the edge
    length, the layout of a component does not depend on the processor: in
    exact arithmetic, whether [call] takes [mainStep_sse3] or [mainStep],
    and whether or not the vectorized loop is compiled in, the view it
    writes back is the one [mainStep] computes after [initialize]. *)
Theorem layout_does_not_depend_on_processor (se : SpringEmbedderFRExact R)
    (C : ArrayGraph R) i :
  OGDF_SPRINGEMBEDDERFREXACT_USE_KSQUARE ext = false ->
  m_checkConvergence se = false ->
  (0 <= m_iterations se)%Z ->
  fst (layoutCC ext se C i)
  = if Nat.leb 2 (m_numNodes C)
    then (fst (initialize se C), mainStep ext (fst (initialize se C)) (snd (initialize se C)))
    else (se, C).
Proof.
  intros Hk Hchk Hit. unfold layoutCC.
  destruct (Nat.leb 2 (m_numNodes C)); [|reflexivity].
  pose proof (initialize_options se C) as Ho.
  destruct (initialize se C) as [se1 c1]. cbn [fst snd] in *.
  destruct (cpuSupports_SSE3 ext); cbn [fst]; [|reflexivity].
  rewrite (@mainStep_sse3_scalar ext Hk se1 c1); [reflexivity | |].
  - rewrite Ho. exact Hchk.
  - rewrite Ho. exact Hit.
Qed.

(** X15, in exact arithmetic: the capping scales the displacement of a node
    by a factor between 0 and 1 on each axis, [min(dist, t) / dist] for the
    temperature [t] of the axis: it never reverses a displacement and never
    lengthens it, and it leaves the displacement as it is on an axis whose
    temperature is [dist] or more. The statement is over the real
    numbers. *)
Theorem capping_shortens_only (dx dy tx ty : R) :
  0 <= tx -> 0 <= ty ->
  let c := cap_dist dx dy in
  (xdisplace dx dy tx = dx * (Rmin c tx / c) /\ 0 <= Rmin c tx / c <= 1)
  /\ (ydisplace dx dy ty = dy * (Rmin c ty / c) /\ 0 <= Rmin c ty / c <= 1)
  /\ (c <= tx -> xdisplace dx dy tx = dx)
  /\ (c <= ty -> ydisplace dx dy ty = dy).
Proof.
  intros Htx Hty c.
  destruct (cap_dist_bounds dx dy) as (Hc & _). fold c in Hc.
  pose proof minDist_pos as Hm.
  assert (Hc0 : 0 < c) by lra.
  assert (Hfac : forall t, 0 <= t -> 0 <= Rmin c t / c <= 1).
  { intros t Ht. split.
    - apply Rmult_le_pos; [apply Rmin_glb; lra | left; apply Rinv_0_lt_compat; exact Hc0].
    - apply (Rmult_le_reg_r c); [exact Hc0|].
      unfold Rdiv. rewrite Rmult_assoc, Rinv_l, Rmult_1_r, Rmult_1_l by lra.
      apply Rmin_l. }
  unfold xdisplace, ydisplace. fold c. rewrite !std_min_R.
  cbn [num_mul num_div R_arith].
  split; [|split; [|split]].
  - split; [unfold Rdiv; ring | apply Hfac; exact Htx].
  - split; [unfold Rdiv; ring | apply Hfac; exact Hty].
  - intros Hle. rewrite Rmin_left by exact Hle. field. lra.
  - intros Hle. rewrite Rmin_left by exact Hle. field. lra.
Qed.

(** The sum of the first [r] powers of [f]. *)
Lemma geometric_sum (f : R) r :
  0 <= f < 1 -> 0 <= sum_from (fun i => f ^ i) 0 r <= 1 / (1 - f).
Proof.
  intros Hf.
  assert (H : (1 - f) * sum_from (fun i => f ^ i) 0 r = 1 - f ^ r).
  { induction r as [|r IH]; [simpl; ring|].
    rewrite sum_from_S_r. cbn [Nat.add pow]. rewrite Rmult_plus_distr_l, IH. ring. }
  assert (Hp : 0 <= f ^ r) by (apply pow_le; lra).
  assert (Hs : forall a, 0 <= sum_from (fun i => f ^ i) a r).
  { clear H Hp. induction r as [|r IH]; intros a; simpl; [lra|].
    assert (0 <= f ^ a) by (apply pow_le; lra).
    specialize (IH (S a)). lra. }
  split; [apply Hs|].
  apply (Rmult_le_reg_l (1 - f)); [lra|].
  rewrite H. unfold Rdiv. rewrite Rmult_1_l, Rinv_r by lra. lra.
Qed.

(** The rounds of [mainStep] when it cools by a factor: the temperatures of
    round [r + 1], and how far the nodes are from where they started. *)
Lemma afterRounds_factor (se : SpringEmbedderFRExact R) (C : ArrayGraph R) r :
  m_coolingFunction se = Factor ->
  0 <= m_coolFactor_x se -> 0 <= m_coolFactor_y se ->
  0 <= m_txNull se -> 0 <= m_tyNull se ->
  length (m_x C) = m_numNodes C -> length (m_y C) = m_numNodes C ->
  let s := afterRounds ext se C r in
  only_xy C (ml_C s)
  /\ ml_tx s = m_txNull se * m_coolFactor_x se ^ r
  /\ ml_ty s = m_tyNull se * m_coolFactor_y se ^ r
  /\ forall v, (v < m_numNodes C)%nat ->
       Rabs (rd (m_x (ml_C s)) v - rd (m_x C) v)
       <= m_txNull se * sum_from (fun i => m_coolFactor_x se ^ i) 0 r
       /\ Rabs (rd (m_y (ml_C s)) v - rd (m_y C) v)
          <= m_tyNull se * sum_from (fun i => m_coolFactor_y se ^ i) 0 r.
Proof.
  intros HF Hfx Hfy Htx Hty Hlx Hly.
  induction r as [|r IH]; cbv zeta.
  - unfold afterRounds. cbn [Nat.iter nat_rect mainStep_init ml_C ml_tx ml_ty pow sum_from].
    split; [apply only_xy_refl|]. split; [ring|]. split; [ring|].
    intros v Hv. rewrite !Rminus_diag, Rabs_R0. split; lra.
  - cbv zeta in IH. destruct IH as (Hxy & Etx & Ety & Hd).
    unfold afterRounds in *. rewrite Nat.iter_succ.
    set (s := Nat.iter r (mainStep_body ext se) (mainStep_init se C)) in *.
    pose proof (mainStep_body_cool ext se s) as Hcool.
    unfold cool in Hcool. rewrite HF in Hcool.
    apply pair_equal_spec in Hcool. destruct Hcool as [Hcool _].
    apply pair_equal_spec in Hcool. destruct Hcool as [Cx Cy].
    cbn [num_mul R_arith] in Cx, Cy.
    split; [eapply only_xy_trans; [exact Hxy | apply only_xy_mainStep_body]|].
    split; [rewrite Cx, Etx; cbn [pow]; ring|].
    split; [rewrite Cy, Ety; cbn [pow]; ring|].
    intros v Hv.
    destruct Hxy as (x & y & E & Ex & Ey).
    assert (Hn : m_numNodes (ml_C s) = m_numNodes C) by (rewrite E; reflexivity).
    assert (Hlx' : length (m_x (ml_C s)) = m_numNodes (ml_C s))
      by (rewrite Hn, E; cbn [set_xy m_x]; congruence).
    assert (Hly' : length (m_y (ml_C s)) = m_numNodes (ml_C s))
      by (rewrite Hn, E; cbn [set_xy m_y]; congruence).
    assert (Hv' : (v < m_numNodes (ml_C s))%nat) by (rewrite Hn; exact Hv).
    destruct (@mainStep_body_positions R _ ext se s v Hlx' Hly' Hv') as [Px Py].
    cbn [num_add R_arith] in Px, Py. rewrite Px, Py.
    destruct (Hd v Hv) as [Dx Dy].
    assert (Hpx : 0 <= ml_tx s) by (rewrite Etx; apply Rmult_le_pos; [lra | apply pow_le; lra]).
    assert (Hpy : 0 <= ml_ty s) by (rewrite Ety; apply Rmult_le_pos; [lra | apply pow_le; lra]).
    pose proof (@xdisplace_capped (rd (fst (forces se (ml_C s))) v)
                  (rd (snd (forces se (ml_C s))) v) (ml_tx s) Hpx) as Cxd.
    pose proof (@ydisplace_capped (rd (fst (forces se (ml_C s))) v)
                  (rd (snd (forces se (ml_C s))) v) (ml_ty s) Hpy) as Cyd.
    rewrite !sum_from_S_r. cbn [Nat.add]. rewrite !Rmult_plus_distr_l, <- Etx, <- Ety.
    split.
    + eapply Rle_trans; [|apply Rplus_le_compat; [exact Dx | exact Cxd]].
      eapply Rle_trans; [|apply Rabs_triang]. right. f_equal. ring.
    + eapply Rle_trans; [|apply Rplus_le_compat; [exact Dy | exact Cyd]].
      eapply Rle_trans; [|apply Rabs_triang]. right. f_equal. ring.
Qed.


End EngineReals.

(** ** The clamps on binary64 numbers *)

Section ClampsOnFloats.

Lemma SFeqb_same (x : spec_float) : x <> S754_nan -> SFeqb x x = true.
Proof.
  intros Hx. unfold SFeqb, SFcompare.
  destruct x as [s|s| |s m e]; [reflexivity | destruct s; reflexivity | contradiction|].
  rewrite Z.compare_refl, Pos.compare_cont_refl. destruct s; reflexivity.
Qed.

Lemma SFltb_nan_r (x : spec_float) : SFltb x S754_nan = false.
Proof. destruct x; reflexivity. Qed.

Lemma ltb_right_not_nan (a b : float) : PrimFloat.ltb a b = true -> PrimFloat.is_nan b = false.
Proof.
  intros H. rewrite FloatAxioms.ltb_spec in H. unfold PrimFloat.is_nan.
  rewrite FloatAxioms.eqb_spec. rewrite SFeqb_same; [reflexivity|].
  intros E. rewrite E, SFltb_nan_r in H. discriminate H.
Qed.

Lemma ltb_left_not_nan (a b : float) : PrimFloat.ltb a b = true -> PrimFloat.is_nan a = false.
Proof.
  intros H. rewrite FloatAxioms.ltb_spec in H. unfold PrimFloat.is_nan.
  rewrite FloatAxioms.eqb_spec. rewrite SFeqb_same; [reflexivity|].
  intros E. rewrite E in H. discriminate H.
Qed.

(** X17: the clamps and NaN, in binary64. [std::max(minDist, x)] of the
    scalar passes is never NaN, whatever [x] is: for a NaN the comparison
    fails and the clamp gives [minDist]; so the divisors [dist] and
    [distSquare] of [mainStep] are never NaN. [_mm_max_pd(mm_minDist, x)] of
    the vectorized passes gives its second operand when the comparison
    fails: a NaN lane of [x] stays NaN. *)
Theorem scalar_clamp_is_never_nan (x dx dy : float) (C : ArrayGraph float) (v u : nat) :
  (PrimFloat.is_nan (std_max minDist x) = false
   /\ PrimFloat.is_nan (std_max minDistSquare x) = false
   /\ PrimFloat.is_nan (cap_dist dx dy) = false
   /\ PrimFloat.is_nan (rep_distSquare C v u) = false)
  /\ (PrimFloat.is_nan x = true ->
      std_max minDist x = minDist
      /\ sse_max minDist x = x
      /\ sse_max minDistSquare x = x
      /\ _mm_max_pd (_mm_set1_pd minDist) (x, x) = (x, x)).
Proof.
  assert (Hmax : forall m y : float,
            PrimFloat.is_nan m = false -> PrimFloat.is_nan (std_max m y) = false).
  { intros m y Hm. unfold std_max. cbn [num_lt float_arith].
    destruct (PrimFloat.ltb m y) eqn:E; [apply (@ltb_right_not_nan m y E) | exact Hm]. }
  assert (H1 : PrimFloat.is_nan (@minDist float _) = false) by (vm_compute; reflexivity).
  assert (H2 : PrimFloat.is_nan (@minDistSquare float _) = false) by (vm_compute; reflexivity).
  split.
  - repeat split.
    + apply Hmax. exact H1.
    + apply Hmax. exact H2.
    + unfold cap_dist. apply Hmax. exact H1.
    + unfold rep_distSquare. apply Hmax. exact H2.
  - intros Hx.
    assert (Hr : forall m : float, PrimFloat.ltb m x = false).
    { intros m. destruct (PrimFloat.ltb m x) eqn:E; [|reflexivity].
      rewrite (@ltb_right_not_nan m x E) in Hx. discriminate Hx. }
    assert (Hl : forall m : float, PrimFloat.ltb x m = false).
    { intros m. destruct (PrimFloat.ltb x m) eqn:E; [|reflexivity].
      rewrite (@ltb_left_not_nan x m E) in Hx. discriminate Hx. }
    unfold std_max, sse_max, _mm_max_pd, _mm_set1_pd, lanes2, sse_max.
    cbn [num_lt float_arith fst snd]. rewrite !Hr, !Hl. repeat split.
Qed.

End ClampsOnFloats.

(** ** Zeros and signs of binary64 numbers *)

Section FloatZeros.

Local Open Scope float_scope.

Lemma Prim2SF_zero_cases (x : float) (s : bool) :
  Prim2SF x = S754_zero s -> x = zero \/ x = neg_zero.
Proof.
  intros E. destruct s; [right | left]; apply FloatAxioms.Prim2SF_inj; rewrite E; reflexivity.
Qed.

Lemma is_zero_SF (x : float) :
  is_zero x = true <-> exists s, Prim2SF x = S754_zero s.
Proof.
  unfold is_zero. rewrite FloatAxioms.eqb_spec.
  change (Prim2SF zero) with (S754_zero false).
  split.
  - destruct (Prim2SF x) as [s|s| |s m e]; intros H.
    + exists s. reflexivity.
    + destruct s; discriminate H.
    + discriminate H.
    + destruct s; discriminate H.
  - intros [s ->]. reflexivity.
Qed.

Lemma is_zero_cases (x : float) : is_zero x = true -> x = zero \/ x = neg_zero.
Proof. intros H. apply is_zero_SF in H. destruct H as [s E]. exact (Prim2SF_zero_cases x E). Qed.

Lemma is_finite_SF (x : float) :
  is_finite x = true <->
  (exists s, Prim2SF x = S754_zero s) \/ (exists s m e, Prim2SF x = S754_finite s m e).
Proof.
  unfold is_finite, is_nan, is_infinity.
  rewrite !FloatAxioms.eqb_spec, FloatAxioms.abs_spec.
  change (Prim2SF infinity) with (S754_infinity false).
  destruct (Prim2SF x) as [s|s| |s m e]; cbn [SFabs].
  - split; [intros _; left; exists s; reflexivity | intros _; reflexivity].
  - split; [intros H; destruct s; discriminate H |].
    intros [[s' E]|(s' & m & e & E)]; discriminate E.
  - split; [intros H; discriminate H |].
    intros [[s' E]|(s' & m & e & E)]; discriminate E.
  - split.
    + intros _. right. exists s, m, e. reflexivity.
    + intros _. rewrite SFeqb_same by discriminate. reflexivity.
Qed.

(** [a - a] is [+0] for a finite [a]. *)
Lemma sub_same (a : float) : is_finite a = true -> a - a = zero.
Proof.
  intros H. apply is_finite_SF in H. apply FloatAxioms.Prim2SF_inj.
  rewrite FloatAxioms.sub_spec. change (Prim2SF zero) with (S754_zero false).
  destruct H as [[s E]|(s & m & e & E)]; rewrite E.
  - destruct s; reflexivity.
  - unfold FloatAxioms.SF64sub, SFsub. rewrite Z.sub_diag. reflexivity.
Qed.

(** Zero times a finite number is zero. *)
Lemma mul_zero_finite (z t : float) :
  is_zero z = true -> is_finite t = true -> is_zero (z * t) = true.
Proof.
  intros Hz Ht. apply is_zero_SF in Hz. apply is_finite_SF in Ht. apply is_zero_SF.
  rewrite FloatAxioms.mul_spec. destruct Hz as [s ->].
  destruct Ht as [[s' ->]|(s' & m & e & ->)]; eexists; reflexivity.
Qed.

(** Zero divided by a number that is neither zero nor NaN is zero. *)
Lemma div_zero_nonzero (z k : float) :
  is_zero z = true -> is_zero k = false -> is_nan k = false -> is_zero (z / k) = true.
Proof.
  intros Hz Hk Hn. apply is_zero_SF in Hz. apply is_zero_SF.
  rewrite FloatAxioms.div_spec. destruct Hz as [s ->].
  destruct (Prim2SF k) as [s'|s'| |s' m e] eqn:E.
  - assert (H : is_zero k = true) by (apply is_zero_SF; exists s'; exact E).
    rewrite H in Hk. discriminate Hk.
  - eexists; reflexivity.
  - unfold is_nan in Hn. rewrite FloatAxioms.eqb_spec, E in Hn. discriminate Hn.
  - eexists; reflexivity.
Qed.

Lemma add_zeros (z1 z2 : float) :
  is_zero z1 = true -> is_zero z2 = true -> is_zero (z1 + z2) = true.
Proof.
  intros H1 H2. destruct (is_zero_cases H1) as [->| ->], (is_zero_cases H2) as [->| ->];
    reflexivity.
Qed.

Lemma sub_zeros (z1 z2 : float) :
  is_zero z1 = true -> is_zero z2 = true -> is_zero (z1 - z2) = true.
Proof.
  intros H1 H2. destruct (is_zero_cases H1) as [->| ->], (is_zero_cases H2) as [->| ->];
    reflexivity.
Qed.

(** Adding a zero to a finite number that is not a zero gives the number. *)
Lemma add_zero_r (x z : float) :
  is_finite x = true -> is_zero x = false -> is_zero z = true -> x + z = x.
Proof.
  intros Hx Hnz Hz. apply is_finite_SF in Hx. apply is_zero_SF in Hz.
  apply FloatAxioms.Prim2SF_inj. rewrite FloatAxioms.add_spec. destruct Hz as [s ->].
  destruct Hx as [[s' E]|(s' & m & e & E)].
  - assert (H : is_zero x = true) by (apply is_zero_SF; exists s'; exact E).
    rewrite H in Hnz. discriminate Hnz.
  - rewrite E. reflexivity.
Qed.

Lemma is_zero_finite (z : float) : is_zero z = true -> is_finite z = true.
Proof. intros H. destruct (is_zero_cases H) as [->| ->]; reflexivity. Qed.

Lemma nonneg_SF (t : float) :
  nonneg t = true <->
  (exists s, Prim2SF t = S754_zero s) \/ (exists m e, Prim2SF t = S754_finite false m e)
  \/ Prim2SF t = S754_infinity false.
Proof.
  unfold nonneg. rewrite FloatAxioms.leb_spec. change (Prim2SF zero) with (S754_zero false).
  destruct (Prim2SF t) as [s|s| |s m e].
  - split; [intros _; left; exists s; reflexivity | intros _; reflexivity].
  - destruct s; split; try (intros H; discriminate H); try (intros _; right; right; reflexivity);
      try (intros _; reflexivity).
    intros [[s E]|[(m & e & E)|E]]; discriminate E.
  - split; [intros H; discriminate H | intros [[s E]|[(m & e & E)|E]]; discriminate E].
  - destruct s; split; try (intros H; discriminate H);
      try (intros _; right; left; exists m, e; reflexivity); try (intros _; reflexivity).
    intros [[s E]|[(m' & e' & E)|E]]; discriminate E.
Qed.

(** A number that is at least zero and below a finite bound is finite. *)
Lemma nonneg_below_finite (t b : float) :
  nonneg t = true -> is_finite b = true -> (t <? b) = true -> is_finite t = true.
Proof.
  intros Ht Hb H. apply nonneg_SF in Ht. apply is_finite_SF.
  destruct Ht as [[s E]|[(m & e & E)|E]].
  - left. exists s. exact E.
  - right. exists false, m, e. exact E.
  - rewrite FloatAxioms.ltb_spec, E in H. apply is_finite_SF in Hb.
    destruct Hb as [[s Eb]|(s & m & e & Eb)]; rewrite Eb in H; discriminate H.
Qed.

(** A number that is at least zero and not above a finite positive bound is
    finite. *)
Lemma nonneg_not_above_finite (t b : float) :
  nonneg t = true -> is_finite b = true -> (b <? t) = false -> is_finite t = true.
Proof.
  intros Ht Hb H. apply nonneg_SF in Ht. apply is_finite_SF.
  destruct Ht as [[s E]|[(m & e & E)|E]].
  - left. exists s. exact E.
  - right. exists false, m, e. exact E.
  - rewrite FloatAxioms.ltb_spec, E in H. apply is_finite_SF in Hb.
    destruct Hb as [[s Eb]|(s & m & e & Eb)]; rewrite Eb in H; discriminate H.
Qed.

(** *** The sign of a rounded result *)

Lemma shr_1_nonneg (mrs : shr_record) : (0 <= shr_m mrs)%Z -> (0 <= shr_m (shr_1 mrs))%Z.
Proof.
  destruct mrs as [m r t]. cbn [shr_m shr_1].
  destruct m as [|p|p]; [| destruct p | destruct p]; cbn [shr_m]; lia.
Qed.

Lemma iter_pos_inv {A : Type} (P : A -> Prop) (f : A -> A) :
  (forall x, P x -> P (f x)) -> forall p x, P x -> P (@SpecFloat.iter_pos A f p x).
Proof.
  intros Hf. induction p as [p IH|p IH|]; intros x Hx; cbn [SpecFloat.iter_pos]; auto.
Qed.

Lemma shr_fexp_nonneg (m e : Z) (l : location) :
  (0 <= m)%Z -> (0 <= shr_m (fst (shr_fexp prec emax m e l)))%Z.
Proof.
  intros Hm. unfold shr_fexp, shr.
  assert (H0 : (0 <= shr_m (shr_record_of_loc m l))%Z).
  { destruct l as [|[| |]]; cbn [shr_record_of_loc shr_m]; exact Hm. }
  destruct (fexp prec emax (Zdigits2 m + e) - e)%Z as [|p|p]; cbn [fst]; try exact H0.
  apply (iter_pos_inv (fun mrs => (0 <= shr_m mrs)%Z)); [apply shr_1_nonneg | exact H0].
Qed.

Lemma round_nearest_even_nonneg (m : Z) (l : location) :
  (0 <= m)%Z -> (0 <= round_nearest_even m l)%Z.
Proof.
  intros Hm. destruct l as [|[| |]]; cbn [round_nearest_even]; try lia.
  destruct (Z.even m); lia.
Qed.

Lemma binary_round_aux_signed (s : bool) (m e : Z) (l : location) :
  (0 <= m)%Z -> signed s (binary_round_aux prec emax s m e l).
Proof.
  intros Hm. unfold binary_round_aux.
  pose proof (shr_fexp_nonneg e l Hm) as H1.
  destruct (shr_fexp prec emax m e l) as [mrs1 e1]. cbn [fst] in H1.
  pose proof (round_nearest_even_nonneg (loc_of_shr_record mrs1) H1) as H2.
  pose proof (shr_fexp_nonneg e1 loc_Exact H2) as H3.
  destruct (shr_fexp prec emax _ e1 loc_Exact) as [mrs2 e2]. cbn [fst] in H3.
  destruct (shr_m mrs2) as [|p|p]; [reflexivity | | lia].
  destruct (e2 <=? emax - prec)%Z; reflexivity.
Qed.

Lemma nonneg_SFnonneg (t : float) : nonneg t = true <-> SFnonneg (Prim2SF t).
Proof.
  rewrite nonneg_SF. destruct (Prim2SF t) as [s|s| |s m e]; cbn [SFnonneg].
  - split; [intros _; exact I | intros _; left; exists s; reflexivity].
  - destruct s; split; try (intros _; exact I); try (intros _; right; right; reflexivity);
      try contradiction.
    intros [[s E]|[(m & e & E)|E]]; discriminate E.
  - split; [intros [[s E]|[(m & e & E)|E]]; discriminate E | contradiction].
  - destruct s; split; try (intros _; exact I);
      try (intros _; right; left; exists m, e; reflexivity); try contradiction.
    intros [[s E]|[(m' & e' & E)|E]]; discriminate E.
Qed.

Lemma signed_SFnonneg (x : spec_float) : signed false x -> SFnonneg x.
Proof.
  destruct x as [s|s| |s m e]; cbn [signed SFnonneg]; intros H; try exact I;
    try contradiction; rewrite H; exact I.
Qed.

Lemma posfin_SF (c : float) :
  posfin c = true -> exists m e, Prim2SF c = S754_finite false m e.
Proof.
  unfold posfin. intros H. apply andb_true_iff in H. destruct H as [Hlt Hf].
  rewrite FloatAxioms.ltb_spec in Hlt. change (Prim2SF zero) with (S754_zero false) in Hlt.
  apply is_finite_SF in Hf. destruct Hf as [[s E]|(s & m & e & E)]; rewrite E in Hlt.
  - discriminate Hlt.
  - destruct s; [discriminate Hlt|]. exists m, e. exact E.
Qed.

(** What is not negative stays so when multiplied by a positive finite
    number; in particular the product is not NaN. *)
Lemma nonneg_mul (t c : float) :
  nonneg t = true -> posfin c = true -> nonneg (t * c) = true.
Proof.
  intros Ht Hc. apply nonneg_SFnonneg in Ht. destruct (posfin_SF c Hc) as (mc & ec & Ec).
  apply nonneg_SFnonneg. rewrite FloatAxioms.mul_spec, Ec.
  destruct (Prim2SF t) as [s|s| |s m e]; cbn [SFnonneg] in Ht.
  - exact I.
  - destruct s; [contradiction | exact I].
  - contradiction.
  - destruct s; [contradiction|].
    apply signed_SFnonneg. unfold FloatAxioms.SF64mul, SFmul.
    apply binary_round_aux_signed. lia.
Qed.

Lemma SFdiv_core_binary_nonneg (m1 m2 : positive) (e1 e2 : Z) :
  (0 <= fst (fst (SFdiv_core_binary prec emax (Zpos m1) e1 (Zpos m2) e2)))%Z.
Proof.
  unfold SFdiv_core_binary.
  set (s := (e1 - e2 - _)%Z).
  set (m' := match s with Zpos _ => Z.shiftl (Zpos m1) s | Z0 => Zpos m1 | Zneg _ => 0%Z end).
  assert (Hm : (0 <= m')%Z).
  { unfold m'. destruct s as [|p|p]; try lia. apply Z.shiftl_nonneg. lia. }
  pose proof (Z_div_mod m' (Zpos m2) ltac:(lia)) as H.
  destruct (Z.div_eucl m' (Zpos m2)) as [q r]. cbn [fst]. nia.
Qed.

(** A finite number that is not negative, divided by a number that is
    neither negative nor zero, is not negative; in particular it is not
    NaN. *)
Lemma nonneg_div (t l : float) :
  nonneg t = true -> is_finite t = true ->
  nonneg l = true -> is_zero l = false ->
  nonneg (t / l) = true.
Proof.
  intros Ht Hf Hl Hz. apply nonneg_SFnonneg in Ht, Hl. apply is_finite_SF in Hf.
  apply nonneg_SFnonneg. rewrite FloatAxioms.div_spec.
  destruct (Prim2SF l) as [s|s| |s m e] eqn:El; cbn [SFnonneg] in Hl.
  - assert (H : is_zero l = true) by (apply is_zero_SF; exists s; exact El).
    rewrite H in Hz. discriminate Hz.
  - destruct s; [contradiction|].
    destruct Hf as [[s' ->]|(s' & m' & e' & ->)]; exact I.
  - contradiction.
  - destruct s; [contradiction|].
    destruct Hf as [[s' E]|(s' & m' & e' & E)]; rewrite E in *; [exact I|].
    cbn [SFnonneg] in Ht. destruct s'; [contradiction|].
    apply signed_SFnonneg. unfold FloatAxioms.SF64div, SFdiv.
    pose proof (SFdiv_core_binary_nonneg m' m e' e) as Hq.
    destruct (SFdiv_core_binary prec emax (Zpos m') e' (Zpos m) e) as [[mz ez] lz].
    cbn [fst] in Hq. apply binary_round_aux_signed. exact Hq.
Qed.

Lemma finite_not_nan (x : float) : is_finite x = true -> is_nan x = false.
Proof.
  unfold is_finite. intros H. apply negb_true_iff, orb_false_iff in H. apply H.
Qed.

Lemma is_nan_SF (x : float) : is_nan x = true <-> Prim2SF x = S754_nan.
Proof.
  unfold is_nan. rewrite FloatAxioms.eqb_spec. split.
  - intros H. destruct (Prim2SF x) as [s|s| |s m e] eqn:E; [| |reflexivity|];
      rewrite SFeqb_same in H by discriminate; discriminate H.
  - intros ->. reflexivity.
Qed.

(** A product that is not NaN has no NaN among its factors. *)
Lemma mul_not_nan (x y : float) :
  is_nan (x * y) = false -> is_nan x = false /\ is_nan y = false.
Proof.
  intros H. split.
  - destruct (is_nan x) eqn:E; [|reflexivity]. apply is_nan_SF in E.
    assert (N : is_nan (x * y) = true).
    { apply is_nan_SF. rewrite FloatAxioms.mul_spec, E. reflexivity. }
    rewrite N in H. discriminate H.
  - destruct (is_nan y) eqn:E; [|reflexivity]. apply is_nan_SF in E.
    assert (N : is_nan (x * y) = true).
    { apply is_nan_SF. rewrite FloatAxioms.mul_spec, E. destruct (Prim2SF x); reflexivity. }
    rewrite N in H. discriminate H.
Qed.

End FloatZeros.

(** ** Two nodes at the same place, on binary64 numbers *)

Section CoincidentBinary64.

Local Open Scope float_scope.

Variable ext : Extern float.
Variable se : SpringEmbedderFRExact float.
Variables a b : float.

Hypothesis Ha : is_finite a = true.
Hypothesis Hb : is_finite b = true.
Hypothesis Hcrep : is_finite (c_rep se) = true.
Hypothesis Hk0 : is_zero (m_idealEdgeLength se) = false.
Hypothesis Hksq :
  OGDF_SPRINGEMBEDDERFREXACT_USE_KSQUARE ext = true ->
  is_finite (m_idealEdgeLength se * m_idealEdgeLength se / minDistSquare) = true.

Lemma idealEdgeLength_not_nan : is_nan (m_idealEdgeLength se) = false.
Proof.
  unfold c_rep in Hcrep. cbn [num_mul float_arith] in Hcrep.
  apply finite_not_nan in Hcrep. apply mul_not_nan in Hcrep. destruct Hcrep as [_ H].
  apply mul_not_nan in H. apply H.
Qed.

Lemma near_finite (c x : float) : is_finite c = true -> near c x -> is_finite x = true.
Proof.
  intros Hc [->|[_ Hx]]; [exact Hc | apply is_zero_finite; exact Hx].
Qed.

Lemma near_sub (c x y : float) :
  is_finite c = true -> near c x -> near c y -> is_zero (x - y) = true.
Proof.
  intros Hc [->|[Hz Hx]] [->|[Hz' Hy]].
  - rewrite (@sub_same c Hc). reflexivity.
  - apply sub_zeros; assumption.
  - apply sub_zeros; assumption.
  - apply sub_zeros; assumption.
Qed.

Lemma near_add (c x z : float) :
  is_finite c = true -> near c x -> is_zero z = true -> near c (x + z).
Proof.
  intros Hc Hx Hz. destruct (is_zero c) eqn:Ec.
  - right. split; [exact Ec|]. apply add_zeros; [|exact Hz].
    destruct Hx as [->|[_ Hx]]; assumption.
  - destruct Hx as [->|[Hc' _]]; [|rewrite Hc' in Ec; discriminate Ec].
    left. apply add_zero_r; assumption.
Qed.

Lemma near_eqb (c x : float) : is_finite c = true -> near c x -> (x =? c) = true.
Proof.
  intros Hc [->|[Hz Hx]].
  - rewrite FloatAxioms.eqb_spec. apply SFeqb_same. apply is_finite_SF in Hc.
    destruct Hc as [[s E]|(s & m & e & E)]; rewrite E; discriminate.
  - destruct (is_zero_cases Hz) as [->| ->], (is_zero_cases Hx) as [->| ->]; reflexivity.
Qed.

Lemma nth_store_cases {A : Type} (l : list A) i j v d :
  nth j (store l i v) d = v \/ nth j (store l i v) d = nth j l d.
Proof.
  revert i j; induction l as [|h t IH]; intros [|i] [|j]; simpl; auto.
Qed.

Lemma zeros_store (l : list float) i v : zeros l -> is_zero v = true -> zeros (store l i v).
Proof.
  intros Hl Hv j. unfold rd. destruct (nth_store_cases l i j v num0) as [-> | ->];
    [exact Hv | apply Hl].
Qed.

Lemma zeros_alloc n : zeros (alloc n (@num0 float _)).
Proof.
  intros i. unfold rd, alloc.
  destruct (nth_in_or_default i (repeat (@num0 float _) n) num0) as [H|H].
  - apply repeat_spec in H. rewrite H. reflexivity.
  - rewrite H. reflexivity.
Qed.

(** The clamps at a displacement of zero. *)
Lemma distSquare_zero (dx dy : float) :
  is_zero dx = true -> is_zero dy = true ->
  std_max minDistSquare (dx * dx + dy * dy) = minDistSquare.
Proof.
  intros Hx Hy. destruct (is_zero_cases Hx) as [->| ->], (is_zero_cases Hy) as [->| ->];
    vm_compute; reflexivity.
Qed.

Lemma cap_dist_zero (dx dy : float) :
  is_zero dx = true -> is_zero dy = true -> cap_dist dx dy = minDist.
Proof.
  intros Hx Hy. destruct (is_zero_cases Hx) as [->| ->], (is_zero_cases Hy) as [->| ->];
    vm_compute; reflexivity.
Qed.

Lemma sse_distSquare_zero (dx dy : float) :
  is_zero dx = true -> is_zero dy = true ->
  sse_max minDistSquare (dx * dx + dy * dy) = minDistSquare.
Proof.
  intros Hx Hy. destruct (is_zero_cases Hx) as [->| ->], (is_zero_cases Hy) as [->| ->];
    vm_compute; reflexivity.
Qed.

Lemma sse_dist_zero (dx dy : float) :
  is_zero dx = true -> is_zero dy = true ->
  sse_max minDist (PrimFloat.sqrt (dx * dx + dy * dy)) = minDist.
Proof.
  intros Hx Hy. destruct (is_zero_cases Hx) as [->| ->], (is_zero_cases Hy) as [->| ->];
    vm_compute; reflexivity.
Qed.

Lemma minDist_finite : is_finite (@minDist float _) = true.
Proof. vm_compute. reflexivity. Qed.

Lemma pairAt_delta (C : ArrayGraph float) v u :
  pairAt a b C -> v < 2 -> u < 2 ->
  is_zero (rd (m_x C) v - rd (m_x C) u) = true
  /\ is_zero (rd (m_y C) v - rd (m_y C) u) = true.
Proof.
  intros (_ & _ & _ & Hxy & _) Hv Hu.
  destruct (Hxy v Hv) as [Hxv Hyv]. destruct (Hxy u Hu) as [Hxu Hyu].
  split; [apply (@near_sub a) | apply (@near_sub b)]; assumption.
Qed.

(** *** The two force passes *)

Lemma pairAt_rep_pair (C : ArrayGraph float) v u (d : float * float) :
  pairAt a b C -> v < 2 -> u < 2 ->
  is_zero (fst d) = true /\ is_zero (snd d) = true ->
  is_zero (fst (rep_pair C v d u)) = true /\ is_zero (snd (rep_pair C v d u)) = true.
Proof.
  intros Hp Hv Hu [Hd1 Hd2]. unfold rep_pair. destruct (Nat.eqb u v); [split; assumption|].
  destruct (@pairAt_delta C _ _ Hp Hv Hu) as [Ex Ey].
  destruct Hp as (_ & _ & _ & _ & _ & Hw).
  unfold rep_distSquare. cbn [num_add num_sub num_mul num_div float_arith fst snd].
  rewrite (@distSquare_zero _ _ Ex Ey).
  split; apply add_zeros; try assumption; apply mul_zero_finite; try assumption; apply Hw, Hu.
Qed.

Lemma pairAt_rep_node (C : ArrayGraph float) v (D : list float * list float) :
  pairAt a b C -> v < 2 ->
  zeros (fst D) /\ zeros (snd D) ->
  zeros (fst (rep_node se C D v)) /\ zeros (snd (rep_node se C D v)).
Proof.
  intros Hp Hv [H1 H2]. unfold rep_node.
  set (d := fold_left (rep_pair C v) (seq 0 (m_numNodes C)) (num0, num0)).
  assert (Hd : is_zero (fst d) = true /\ is_zero (snd d) = true).
  { apply (fold_left_inv (fun p => is_zero (fst p) = true /\ is_zero (snd p) = true)).
    - intros p u Hu Hd. apply pairAt_rep_pair; try assumption.
      apply in_seq in Hu. destruct Hp as (Hn & _). lia.
    - split; reflexivity. }
  destruct Hd as [Hd1 Hd2]. cbn [fst snd num_mul float_arith].
  split; apply zeros_store; try assumption; apply mul_zero_finite; assumption.
Qed.

Lemma pairAt_attr_edge (C : ArrayGraph float) e (D : list float * list float) :
  pairAt a b C ->
  zeros (fst D) /\ zeros (snd D) ->
  zeros (fst (attr_edge se C D e)) /\ zeros (snd (attr_edge se C D e)).
Proof.
  intros Hp [H1 H2]. pose proof Hp as (_ & _ & _ & _ & He & _).
  destruct (He e) as [Hv Hu]. destruct (@pairAt_delta C _ _ Hp Hv Hu) as [Ex Ey].
  unfold attr_edge. cbn [num_add num_sub num_mul num_div num_sqrt float_arith fst snd].
  set (dx := rd (m_x C) (rdi (m_src C) e) - rd (m_x C) (rdi (m_tgt C) e)) in *.
  set (dy := rd (m_y C) (rdi (m_src C) e) - rd (m_y C) (rdi (m_tgt C) e)) in *.
  change (std_max minDist (PrimFloat.sqrt (dx * dx + dy * dy))) with (cap_dist dx dy).
  rewrite (@cap_dist_zero _ _ Ex Ey).
  assert (Tx : is_zero (dx * minDist / m_idealEdgeLength se) = true).
  { apply div_zero_nonzero; [|exact Hk0 | apply idealEdgeLength_not_nan].
    apply mul_zero_finite; [exact Ex | apply minDist_finite]. }
  assert (Ty : is_zero (dy * minDist / m_idealEdgeLength se) = true).
  { apply div_zero_nonzero; [|exact Hk0 | apply idealEdgeLength_not_nan].
    apply mul_zero_finite; [exact Ey | apply minDist_finite]. }
  split.
  - apply zeros_store; [apply zeros_store; [exact H1 | apply sub_zeros; [apply H1 | exact Tx]]|].
    apply add_zeros; [|exact Tx].
    apply (@zeros_store (fst D) _ _ H1). apply sub_zeros; [apply H1 | exact Tx].
  - apply zeros_store; [apply zeros_store; [exact H2 | apply sub_zeros; [apply H2 | exact Ty]]|].
    apply add_zeros; [|exact Ty].
    apply (@zeros_store (snd D) _ _ H2). apply sub_zeros; [apply H2 | exact Ty].
Qed.

Lemma pairAt_attr_pass (C : ArrayGraph float) (D : list float * list float) :
  pairAt a b C ->
  zeros (fst D) /\ zeros (snd D) ->
  zeros (fst (fold_left (attr_edge se C) (seq 0 (m_numEdges C)) D))
  /\ zeros (snd (fold_left (attr_edge se C) (seq 0 (m_numEdges C)) D)).
Proof.
  intros Hp HD.
  apply (fold_left_inv (fun D => zeros (fst D) /\ zeros (snd D))); [|exact HD].
  intros D' e _ HD'. apply pairAt_attr_edge; assumption.
Qed.

Lemma pairAt_forces (C : ArrayGraph float) :
  pairAt a b C -> zeros (fst (forces se C)) /\ zeros (snd (forces se C)).
Proof.
  intros Hp. unfold forces. apply pairAt_attr_pass; [exact Hp|].
  apply (fold_left_inv (fun D => zeros (fst D) /\ zeros (snd D))).
  - intros D v Hv HD. apply pairAt_rep_node; try assumption.
    apply in_seq in Hv. destruct Hp as (Hn & _). lia.
  - split; apply zeros_alloc.
Qed.

(** *** The capping, and one round of the scalar loop *)

Lemma std_min_finite (t : float) : nonneg t = true -> is_finite (std_min minDist t) = true.
Proof.
  intros Ht. unfold std_min. cbn [num_lt float_arith].
  destruct (t <? minDist) eqn:E; [|apply minDist_finite].
  apply (@nonneg_below_finite t minDist Ht minDist_finite E).
Qed.

Lemma sse_min_finite (t : float) : nonneg t = true -> is_finite (sse_min minDist t) = true.
Proof.
  intros Ht. unfold sse_min. cbn [num_lt float_arith].
  destruct (minDist <? t) eqn:E; [apply minDist_finite|].
  apply (@nonneg_not_above_finite t minDist Ht minDist_finite E).
Qed.

Lemma div_zero_minDist (z : float) : is_zero z = true -> is_zero (z / minDist) = true.
Proof. intros Hz. destruct (is_zero_cases Hz) as [->| ->]; vm_compute; reflexivity. Qed.

Lemma xdisplace_of_zero (dx dy tx : float) :
  is_zero dx = true -> is_zero dy = true -> nonneg tx = true ->
  is_zero (xdisplace dx dy tx) = true.
Proof.
  intros Hx Hy Ht. unfold xdisplace. rewrite (@cap_dist_zero _ _ Hx Hy).
  cbn [num_mul num_div float_arith].
  apply mul_zero_finite; [apply div_zero_minDist; exact Hx | apply std_min_finite; exact Ht].
Qed.

Lemma ydisplace_of_zero (dx dy ty : float) :
  is_zero dx = true -> is_zero dy = true -> nonneg ty = true ->
  is_zero (ydisplace dx dy ty) = true.
Proof.
  intros Hx Hy Ht. unfold ydisplace. rewrite (@cap_dist_zero _ _ Hx Hy).
  cbn [num_mul num_div float_arith].
  apply mul_zero_finite; [apply div_zero_minDist; exact Hy | apply std_min_finite; exact Ht].
Qed.

(** A view that differs from a coincident pair in its positions only, and
    has every position where it was, is a coincident pair. *)
Lemma pairAt_only_xy (C C' : ArrayGraph float) :
  pairAt a b C -> only_xy C C' ->
  (forall v, v < 2 -> near a (rd (m_x C') v) /\ near b (rd (m_y C') v)) ->
  pairAt a b C'.
Proof.
  intros (Hn & Hlx & Hly & _ & He & Hw) (x & y & -> & Ex & Ey) Hxy.
  unfold pairAt. cbn [set_xy m_numNodes m_x m_y m_src m_tgt m_nodeWeight] in *.
  repeat split; try assumption; try congruence; try apply He; try apply Hxy; try assumption.
Qed.

Lemma pairAt_mainStep_body (s : MainLoop float) :
  pairAt a b (ml_C s) -> nonneg (ml_tx s) = true -> nonneg (ml_ty s) = true ->
  pairAt a b (ml_C (mainStep_body ext se s)).
Proof.
  intros Hp Htx Hty. apply (pairAt_only_xy Hp); [apply only_xy_mainStep_body|].
  intros v Hv. pose proof Hp as (Hn & Hlx & Hly & Hxy & _).
  destruct (@mainStep_body_positions float _ ext se s v) as [Px Py]; try lia.
  rewrite Px, Py. destruct (pairAt_forces Hp) as [Z1 Z2]. destruct (Hxy v Hv) as [Nx Ny].
  cbn [num_add float_arith].
  split.
  - apply (near_add Ha Nx). apply xdisplace_of_zero; [apply Z1 | apply Z2 | exact Htx].
  - apply (near_add Hb Ny). apply ydisplace_of_zero; [apply Z1 | apply Z2 | exact Hty].
Qed.

(** *** The temperatures *)

Hypothesis Htx0 : nonneg (m_txNull se) = true.
Hypothesis Hty0 : nonneg (m_tyNull se) = true.
Hypothesis Hfactor :
  m_coolingFunction se = Factor ->
  posfin (m_coolFactor_x se) = true /\ posfin (m_coolFactor_y se) = true.
Hypothesis Hlog :
  m_coolingFunction se = Logarithmic ->
  is_finite (m_txNull se) = true /\ is_finite (m_tyNull se) = true
  /\ forall c, nonneg (mylog2 ext c) = true.

Lemma cool_nonneg (tx ty : float) (cF : Z) :
  nonneg tx = true -> nonneg ty = true ->
  nonneg (fst (fst (cool ext se (tx, ty, cF)))) = true
  /\ nonneg (snd (fst (cool ext se (tx, ty, cF)))) = true.
Proof.
  intros Hx Hy. unfold cool. destruct (m_coolingFunction se) eqn:Em.
  - destruct (Hfactor eq_refl) as [Hcx Hcy]. cbn [fst snd num_mul float_arith].
    split; apply nonneg_mul; assumption.
  - cbn [num_eq num_div float_arith].
    destruct (Hlog eq_refl) as (Hfx & Hfy & Hl).
    destruct (mylog2 ext cF =? num0) eqn:E; cbn [negb fst snd]; [split; assumption|].
    split; apply nonneg_div; try assumption; try apply Hl; exact E.
Qed.

Lemma mainStep_body_temperatures (s : MainLoop float) :
  ml_tx (mainStep_body ext se s) = fst (fst (cool ext se (ml_tx s, ml_ty s, ml_cF s)))
  /\ ml_ty (mainStep_body ext se s) = snd (fst (cool ext se (ml_tx s, ml_ty s, ml_cF s))).
Proof.
  unfold mainStep_body. destruct (fold_left _ _ _) as [C1 c1].
  destruct (cool _ _ _) as [[tx ty] cF]. split; reflexivity.
Qed.

Lemma sse3_body_temperatures (s : Sse3Loop float) :
  sl_tx (sse3_body ext se s) = fst (fst (cool ext se (sl_tx s, sl_ty s, sl_cF s)))
  /\ sl_ty (sse3_body ext se s) = snd (fst (cool ext se (sl_tx s, sl_ty s, sl_cF s))).
Proof.
  unfold sse3_body. destruct (cool _ _ _) as [[tx ty] cF]. split; reflexivity.
Qed.

Lemma pairAt_mainStep_while fuel (s : MainLoop float) :
  pairAt a b (ml_C s) -> nonneg (ml_tx s) = true -> nonneg (ml_ty s) = true ->
  pairAt a b (ml_C (mainStep_while ext se fuel s)).
Proof.
  revert s; induction fuel as [|fuel IH]; intros s Hp Htx Hty; cbn [mainStep_while].
  - destruct (ml_converged s); exact Hp.
  - destruct (ml_converged s); [exact Hp|].
    destruct (mainStep_body_temperatures s) as [Ex Ey].
    destruct (@cool_nonneg (ml_tx s) (ml_ty s) (ml_cF s) Htx Hty) as [Cx Cy].
    apply IH; [apply pairAt_mainStep_body; assumption | rewrite Ex; exact Cx |].
    rewrite Ey. exact Cy.
Qed.

(** *** The vectorized loop *)

(** The factor [t] of the vectorized repulsive pass. *)
Lemma sse_factor_finite (C : ArrayGraph float) u :
  pairAt a b C -> u < 2 ->
  is_finite
    ((if OGDF_SPRINGEMBEDDERFREXACT_USE_KSQUARE ext
      then m_idealEdgeLength se * m_idealEdgeLength se
      else rd (m_nodeWeight C) u) / minDistSquare) = true.
Proof.
  intros (_ & _ & _ & _ & _ & Hw) Hu.
  destruct (OGDF_SPRINGEMBEDDERFREXACT_USE_KSQUARE ext) eqn:E; [apply Hksq; reflexivity|].
  apply Hw, Hu.
Qed.

Lemma pairAt_compute_sd (C : ArrayGraph float) v u :
  pairAt a b C -> v < 2 -> u < 2 ->
  let d := compute_sd ext se C v u (_mm_setzero_pd, _mm_setzero_pd) in
  is_zero (fst (fst d) + snd (fst d)) = true /\ is_zero (fst (snd d) + snd (snd d)) = true.
Proof.
  intros Hp Hv Hu d. destruct (@pairAt_delta C _ _ Hp Hv Hu) as [Ex Ey].
  pose proof (sse_factor_finite Hp Hu) as Ht.
  unfold d, compute_sd, _mm_add_sd, _mm_mul_sd, _mm_div_sd, _mm_max_sd, _mm_sub_sd,
    _mm_load_sd, _mm_set1_pd, _mm_setzero_pd, lane_lo.
  cbn [fst snd num_add num_sub num_mul num_div float_arith].
  rewrite (@sse_distSquare_zero _ _ Ex Ey).
  destruct (OGDF_SPRINGEMBEDDERFREXACT_USE_KSQUARE ext); cbn [fst snd num_div float_arith];
    split; apply add_zeros; try reflexivity; apply add_zeros; try reflexivity;
    apply mul_zero_finite; assumption.
Qed.

Lemma rep_lanes_sse3_pair (C : ArrayGraph float) v :
  m_numNodes C = 2%nat -> (v < 2)%nat ->
  rep_lanes_sse3 ext se C v
  = compute_sd ext se C v (1 - v)%nat (_mm_setzero_pd, _mm_setzero_pd).
Proof.
  intros Hn Hv. unfold rep_lanes_sse3. rewrite Hn.
  destruct v as [|[|v]]; [reflexivity | reflexivity | lia].
Qed.

Lemma pairAt_rep_node_sse3 (C : ArrayGraph float) v (D : list float * list float) :
  pairAt a b C -> v < 2 ->
  zeros (fst D) /\ zeros (snd D) ->
  zeros (fst (rep_node_sse3 ext se C D v)) /\ zeros (snd (rep_node_sse3 ext se C D v)).
Proof.
  intros Hp Hv [H1 H2]. pose proof Hp as (Hn & _).
  unfold rep_node_sse3. rewrite (rep_lanes_sse3_pair C Hn Hv).
  destruct (@pairAt_compute_sd C v (1 - v)%nat Hp Hv ltac:(lia)) as [Zx Zy].
  unfold _mm_store_sd, _mm_mul_sd, _mm_hadd_pd, _mm_set1_pd, lane_lo.
  cbn [fst snd num_add num_mul float_arith].
  split; apply zeros_store; try assumption; apply mul_zero_finite; assumption.
Qed.

Lemma pairAt_forces_sse3 (C : ArrayGraph float) :
  pairAt a b C -> zeros (fst (forces_sse3 ext se C)) /\ zeros (snd (forces_sse3 ext se C)).
Proof.
  intros Hp. unfold forces_sse3. apply pairAt_attr_pass; [exact Hp|].
  apply (fold_left_inv (fun D => zeros (fst D) /\ zeros (snd D))).
  - intros D v Hv HD. apply pairAt_rep_node_sse3; try assumption.
    apply in_seq in Hv. destruct Hp as (Hn & _). lia.
  - split; apply zeros_alloc.
Qed.

(** The capping of the vectorized loop, for one lane. *)
Lemma sse_displace_of_zero (d d' t : float) :
  is_zero d = true -> is_zero d' = true -> nonneg t = true ->
  is_zero (d / sse_max minDist (PrimFloat.sqrt (d * d + d' * d'))
           * sse_min (sse_max minDist (PrimFloat.sqrt (d * d + d' * d'))) t) = true.
Proof.
  intros Hd Hd' Ht. rewrite (@sse_dist_zero _ _ Hd Hd').
  apply mul_zero_finite; [apply div_zero_minDist; exact Hd | apply sse_min_finite; exact Ht].
Qed.

Lemma sse_displace_of_zero' (d d' t : float) :
  is_zero d = true -> is_zero d' = true -> nonneg t = true ->
  is_zero (d' / sse_max minDist (PrimFloat.sqrt (d * d + d' * d'))
           * sse_min (sse_max minDist (PrimFloat.sqrt (d * d + d' * d'))) t) = true.
Proof.
  intros Hd Hd' Ht. rewrite (@sse_dist_zero _ _ Hd Hd').
  apply mul_zero_finite; [apply div_zero_minDist; exact Hd' | apply sse_min_finite; exact Ht].
Qed.

(** The vectorized capping of a view of two nodes is one round of its loop
    over pairs. *)
Lemma cap_sse3_pair (D : list float * list float) (tx ty : float) (C : ArrayGraph float) :
  m_numNodes C = 2%nat ->
  cap_last_sse3 D tx ty (snd (for_pairs 2 0 2 (cap_pair_sse3 D tx ty) C))
  = cap_pair_sse3 D tx ty 0 C.
Proof.
  intros Hn. cbn [for_pairs Nat.ltb Nat.leb Nat.add snd]. unfold cap_last_sse3.
  change (m_numNodes (cap_pair_sse3 D tx ty 0 C)) with (m_numNodes C). rewrite Hn.
  reflexivity.
Qed.

Lemma pairAt_sse3_body (s : Sse3Loop float) :
  pairAt a b (sl_C s) -> nonneg (sl_tx s) = true -> nonneg (sl_ty s) = true ->
  pairAt a b (sl_C (sse3_body ext se s)).
Proof.
  intros Hp Htx Hty. apply (pairAt_only_xy Hp); [apply only_xy_sse3_body|].
  pose proof Hp as (Hn & Hlx & Hly & Hxy & _).
  destruct (pairAt_forces_sse3 Hp) as [Z1 Z2].
  unfold sse3_body. destruct (cool _ _ _) as [[tx ty] cF]. cbn [sl_C]. rewrite Hn.
  rewrite (cap_sse3_pair _ _ _ _ Hn).
  set (D := forces_sse3 ext se (sl_C s)) in *.
  unfold cap_pair_sse3, _mm_store_pd, _mm_add_pd, _mm_mul_pd, _mm_div_pd, _mm_min_pd,
    _mm_max_pd, _mm_sqrt_pd, _mm_load_pd, _mm_set1_pd, lanes2.
  cbn [fst snd set_xy m_x m_y Nat.add num_add num_mul num_div num_sqrt float_arith].
  destruct (Hxy 0%nat ltac:(lia)) as [Nx0 Ny0]. destruct (Hxy 1%nat ltac:(lia)) as [Nx1 Ny1].
  intros v Hv. destruct v as [|[|v]]; [| |lia].
  - split; unfold rd at 1; rewrite nth_store_other by lia; rewrite nth_store_same by lia.
    + apply (near_add Ha Nx0). apply sse_displace_of_zero; [apply Z1 | apply Z2 | exact Htx].
    + apply (near_add Hb Ny0). apply sse_displace_of_zero'; [apply Z1 | apply Z2 | exact Hty].
  - split; unfold rd at 1; rewrite nth_store_same by (rewrite store_length; lia).
    + apply (near_add Ha Nx1). apply sse_displace_of_zero; [apply Z1 | apply Z2 | exact Htx].
    + apply (near_add Hb Ny1). apply sse_displace_of_zero'; [apply Z1 | apply Z2 | exact Hty].
Qed.

Lemma pairAt_sse3_for fuel (s : Sse3Loop float) :
  pairAt a b (sl_C s) -> nonneg (sl_tx s) = true -> nonneg (sl_ty s) = true ->
  pairAt a b (sl_C (sse3_for ext se fuel s)).
Proof.
  revert s; induction fuel as [|fuel IH]; intros s Hp Htx Hty; cbn [sse3_for].
  - destruct (sl_i s <=? m_iterations se)%Z; exact Hp.
  - destruct (sl_i s <=? m_iterations se)%Z; [|exact Hp].
    destruct (sse3_body_temperatures s) as [Ex Ey].
    destruct (@cool_nonneg (sl_tx s) (sl_ty s) (sl_cF s) Htx Hty) as [Cx Cy].
    apply IH; [apply pairAt_sse3_body; assumption | rewrite Ex; exact Cx |].
    rewrite Ey. exact Cy.
Qed.

End CoincidentBinary64.

(** C8, as the code has it, on binary64 numbers: for a component made of
    two nodes alone, both at the same finite position, with an ideal edge
    length that is not zero, factors of the force passes that do not
    overflow ([c_rep], and the weight of a node divided by [minDistSquare]),
    and temperatures that are never negative nor NaN (initial temperatures
    at least zero; finite positive cooling factors, or a logarithm that is
    at least zero with finite initial temperatures):
    - the divisors are the clamps: [minDistSquare] in the repulsive pass and
      [minDist] in the capping pass, so no division is by zero;
    - the displacement of both nodes after the two force passes is a zero
      on both axes, not NaN and not infinite, on the scalar and on the
      vectorized path, and so is the capped displacement;
    - the nodes do not separate: after [mainStep] and after [mainStep_sse3],
      whatever the budget of rounds, both nodes are at the position they
      had (equal as numbers: a zero may have changed its sign). *)
Theorem coincident_pair_stays_put (ext : Extern float) (se : SpringEmbedderFRExact float)
    (C : ArrayGraph float) (a b : float) :
  m_numNodes C = 2 -> m_x C = [a; a] -> m_y C = [b; b] ->
  (forall e, rdi (m_src C) e < 2 /\ rdi (m_tgt C) e < 2) ->
  is_finite a = true -> is_finite b = true ->
  (forall u, u < 2 ->
     is_finite (PrimFloat.div (rd (m_nodeWeight C) u) minDistSquare) = true) ->
  is_finite (c_rep se) = true ->
  (OGDF_SPRINGEMBEDDERFREXACT_USE_KSQUARE ext = true ->
   is_finite (PrimFloat.div
                (PrimFloat.mul (m_idealEdgeLength se) (m_idealEdgeLength se))
                minDistSquare) = true) ->
  is_zero (m_idealEdgeLength se) = false ->
  nonneg (m_txNull se) = true -> nonneg (m_tyNull se) = true ->
  (m_coolingFunction se = Factor ->
   posfin (m_coolFactor_x se) = true /\ posfin (m_coolFactor_y se) = true) ->
  (m_coolingFunction se = Logarithmic ->
   is_finite (m_txNull se) = true /\ is_finite (m_tyNull se) = true
   /\ forall c, nonneg (mylog2 ext c) = true) ->
  let D := forces se C in
  let D' := forces_sse3 ext se C in
  (forall v u, v < 2 -> u < 2 -> rep_distSquare C v u = minDistSquare)
  /\ (forall v, cap_dist (rd (fst D) v) (rd (snd D) v) = minDist)
  /\ (forall v, is_zero (rd (fst D) v) = true /\ is_zero (rd (snd D) v) = true)
  /\ (forall v, is_zero (rd (fst D') v) = true /\ is_zero (rd (snd D') v) = true)
  /\ (forall v tx ty, nonneg tx = true -> nonneg ty = true ->
        is_zero (xdisplace (rd (fst D) v) (rd (snd D) v) tx) = true
        /\ is_zero (ydisplace (rd (fst D) v) (rd (snd D) v) ty) = true)
  /\ (forall v, v < 2 ->
        PrimFloat.eqb (rd (m_x (mainStep ext se C)) v) a = true
        /\ PrimFloat.eqb (rd (m_y (mainStep ext se C)) v) b = true)
  /\ (forall v, v < 2 ->
        PrimFloat.eqb (rd (m_x (mainStep_sse3 ext se C)) v) a = true
        /\ PrimFloat.eqb (rd (m_y (mainStep_sse3 ext se C)) v) b = true).
Proof.
  intros Hn Hx Hy He Ha Hb Hw Hcrep Hksq Hk0 Htx Hty Hfactor Hlog D D'.
  assert (Hp : pairAt a b C).
  { unfold pairAt. rewrite Hx, Hy. repeat split; try assumption; try apply He;
      destruct v as [|[|v]]; try lia; left; reflexivity. }
  destruct (@pairAt_forces se a b Ha Hb Hcrep Hk0 C Hp) as [Z1 Z2]. fold D in Z1, Z2.
  destruct (@pairAt_forces_sse3 ext se a b Ha Hb Hcrep Hk0 Hksq C Hp) as [Z1' Z2'].
  fold D' in Z1', Z2'.
  assert (Hm : forall v, v < 2 ->
            PrimFloat.eqb (rd (m_x (mainStep ext se C)) v) a = true
            /\ PrimFloat.eqb (rd (m_y (mainStep ext se C)) v) b = true).
  { intros v Hv. unfold mainStep, mainStep_run.
    match goal with |- context [mainStep_while ext se ?f ?s] =>
      pose proof (@pairAt_mainStep_while ext se a b Ha Hb Hcrep Hk0 Htx Hty Hfactor Hlog f s
                    Hp Htx Hty) as (_ & _ & _ & Hxy & _) end.
    destruct (Hxy v Hv) as [Nx Ny]. split; apply near_eqb; assumption. }
  repeat split.
  - intros v u Hv Hu. destruct (@pairAt_delta a b Ha Hb C v u Hp Hv Hu) as [Ex Ey].
    unfold rep_distSquare. cbn [num_add num_sub num_mul float_arith].
    apply distSquare_zero; assumption.
  - intros v. apply cap_dist_zero; [apply Z1 | apply Z2].
  - apply Z1.
  - apply Z2.
  - apply Z1'.
  - apply Z2'.
  - apply xdisplace_of_zero; [apply Z1 | apply Z2 | assumption].
  - apply ydisplace_of_zero; [apply Z1 | apply Z2 | assumption].
  - apply Hm; assumption.
  - apply Hm; assumption.
  - unfold mainStep_sse3. destruct (OGDF_SSE3_EXTENSIONS ext); [|apply Hm; assumption].
    unfold sse3_run.
    match goal with |- context [sse3_for ext se ?f ?s] =>
      pose proof (@pairAt_sse3_for ext se a b Ha Hb Hcrep Hk0 Hksq Htx Hty Hfactor Hlog f s
                    Hp Htx Hty) as (_ & _ & _ & Hxy & _) end.
    match goal with H : ?v < 2 |- _ => destruct (Hxy v H) as [Nx Ny] end.
    apply near_eqb; assumption.
  - unfold mainStep_sse3. destruct (OGDF_SSE3_EXTENSIONS ext); [|apply Hm; assumption].
    unfold sse3_run.
    match goal with |- context [sse3_for ext se ?f ?s] =>
      pose proof (@pairAt_sse3_for ext se a b Ha Hb Hcrep Hk0 Hksq Htx Hty Hfactor Hlog f s
                    Hp Htx Hty) as (_ & _ & _ & Hxy & _) end.
    match goal with H : ?v < 2 |- _ => destruct (Hxy v H) as [Nx Ny] end.
    apply near_eqb; assumption.
Qed.

(** ** The two force laws *)

Section ForceLaws.

Local Open Scope R_scope.

(** X18, in exact arithmetic: the forces are those of Fruchterman and
    Reingold. For two nodes [v] and [u] at a distance [d] of [minDist] or
    more, with [dd = d * d]: the repulsive pass adds to the displacement of
    [v] the vector from [u] to [v] times [weight(u) / dd], a vector of
    length [weight(u) / d], which the pass then multiplies by
    [0.052 * k * k]; and for an edge between them the attractive pass takes
    from the displacement of [v], and adds to that of [u], the same vector
    times [d / k], a vector of length [dd / k]. The statement is over the
    real numbers. *)
Theorem forces_follow_fruchterman_reingold (se : SpringEmbedderFRExact R)
    (C : ArrayGraph R) (v u : nat) :
  let delta_x := rd (m_x C) v - rd (m_x C) u in
  let delta_y := rd (m_y C) v - rd (m_y C) u in
  let dd := delta_x * delta_x + delta_y * delta_y in
  let k := m_idealEdgeLength se in
  minDistSquare <= dd ->
  0 < k ->
  u <> v ->
  (forall d,
     rep_pair C v d u
     = (fst d + delta_x * (rd (m_nodeWeight C) u / dd),
        snd d + delta_y * (rd (m_nodeWeight C) u / dd)))
  /\ (delta_x * (rd (m_nodeWeight C) u / dd)) * (delta_x * (rd (m_nodeWeight C) u / dd))
     + (delta_y * (rd (m_nodeWeight C) u / dd)) * (delta_y * (rd (m_nodeWeight C) u / dd))
     = rd (m_nodeWeight C) u * rd (m_nodeWeight C) u / dd
  /\ (forall D e,
        rdi (m_src C) e = v -> rdi (m_tgt C) e = u ->
        (v < length (fst D))%nat -> (u < length (fst D))%nat ->
        (v < length (snd D))%nat -> (u < length (snd D))%nat ->
        let D' := attr_edge se C D e in
        rd (fst D') v = rd (fst D) v - delta_x * sqrt dd / k
        /\ rd (fst D') u = rd (fst D) u + delta_x * sqrt dd / k
        /\ rd (snd D') v = rd (snd D) v - delta_y * sqrt dd / k
        /\ rd (snd D') u = rd (snd D) u + delta_y * sqrt dd / k)
  /\ (delta_x * sqrt dd / k) * (delta_x * sqrt dd / k)
     + (delta_y * sqrt dd / k) * (delta_y * sqrt dd / k)
     = (dd / k) * (dd / k).
Proof.
  intros delta_x delta_y dd k Hdd Hk Huv.
  pose proof minDistSquare_pos as Hms. pose proof minDist_pos as Hm.
  assert (Hdd0 : 0 < dd) by lra.
  assert (Hmax : rep_distSquare C v u = dd).
  { unfold rep_distSquare. rewrite std_max_R. cbn [num_add num_sub num_mul R_arith].
    apply Rmax_right. exact Hdd. }
  assert (Hsq : sqrt dd * sqrt dd = dd) by (apply sqrt_sqrt; lra).
  assert (Hdist : std_max minDist (sqrt dd) = sqrt dd).
  { rewrite std_max_R. apply Rmax_right.
    rewrite <- (sqrt_square minDist) by lra. apply sqrt_le_1_alt. exact Hdd. }
  split; [|split; [|split]].
  - intros d. unfold rep_pair. rewrite (proj2 (Nat.eqb_neq u v) Huv), Hmax. reflexivity.
  - set (w := rd (m_nodeWeight C) u).
    replace (delta_x * (w / dd) * (delta_x * (w / dd))
             + delta_y * (w / dd) * (delta_y * (w / dd)))
      with ((delta_x * delta_x + delta_y * delta_y) * (w * w) / (dd * dd))
      by (field; lra).
    fold dd. field. lra.
  - intros D e Hs Ht Hv1 Hu1 Hv2 Hu2 D'. unfold D', attr_edge. rewrite Hs, Ht.
    cbn [fst snd num_add num_sub num_mul num_div num_sqrt R_arith].
    fold delta_x. fold delta_y. fold dd. fold k. rewrite Hdist.
    unfold rd.
    rewrite !nth_store_same by (rewrite ?store_length; assumption).
    rewrite !(nth_store_other _ (i := u) (j := v)) by exact Huv.
    rewrite !nth_store_same by assumption.
    rewrite !(nth_store_other _ (i := v) (j := u)) by (intros E; apply Huv; symmetry; exact E).
    repeat split; reflexivity.
  - replace (delta_x * sqrt dd / k * (delta_x * sqrt dd / k)
             + delta_y * sqrt dd / k * (delta_y * sqrt dd / k))
      with ((delta_x * delta_x + delta_y * delta_y) * (sqrt dd * sqrt dd) / (k * k))
      by (field; lra).
    rewrite Hsq. fold dd. field. lra.
Qed.

End ForceLaws.

(** ** The forces of a round add up to zero *)

Section ForcesCancel.

Local Open Scope R_scope.












Lemma rep_distSquare_sym (C : ArrayGraph R) v u : rep_distSquare C v u = rep_distSquare C u v.
Proof.
  unfold rep_distSquare. cbn [num_add num_sub num_mul R_arith]. f_equal. ring.
Qed.



End ForcesCancel.

(** ** Two nodes joined by an edge *)

Section PairAtRest.

Local Open Scope R_scope.

(** X20, in exact arithmetic: two nodes of weight 1 joined by an edge, at a
    distance [d] of [minDist] or more. The two passes give node 0 the vector
    from node 1 to node 0 times [f = 0.052 * k * k / (d * d) - d / k], and
    node 1 the opposite. So the pair is at rest exactly at the distance with
    [d * d * d = 0.052 * k * k * k], about 0.37 times the ideal edge length
    [k] and not [k] itself; closer together the two nodes are pushed apart,
    further apart they are pulled together. The statement is over the real
    numbers. *)
Theorem pair_rests_below_ideal_length (se : SpringEmbedderFRExact R) (x0 y0 x1 y1 : R) :
  let C := viewR [x0; x1] [y0; y1] in
  let k := m_idealEdgeLength se in
  let dd := (x0 - x1) * (x0 - x1) + (y0 - y1) * (y0 - y1) in
  let f := 52 / 1000 * (k * k) / dd - sqrt dd / k in
  minDistSquare <= dd ->
  0 < k ->
  forces se C
  = ([(x0 - x1) * f; (x1 - x0) * f], [(y0 - y1) * f; (y1 - y0) * f])
  /\ (f = 0 <-> dd * sqrt dd = 52 / 1000 * (k * k * k))
  /\ (0 < f <-> dd * sqrt dd < 52 / 1000 * (k * k * k))
  /\ (forces se C = ([0; 0], [0; 0]) <-> dd * sqrt dd = 52 / 1000 * (k * k * k)).
Proof.
  intros C k dd f Hdd Hk.
  pose proof minDistSquare_pos as Hms.
  assert (Hdd0 : 0 < dd) by lra.
  assert (Hsq : 0 < sqrt dd) by (apply sqrt_lt_R0; exact Hdd0).
  assert (Hd01 : rep_distSquare C 0 1 = dd).
  { unfold rep_distSquare, C, viewR, rd. cbn [m_x m_y nth]. rewrite std_max_R.
    cbn [num_add num_sub num_mul R_arith]. apply Rmax_right. exact Hdd. }
  assert (Hd10 : rep_distSquare C 1 0 = dd).
  { rewrite <- Hd01. apply rep_distSquare_sym. }
  assert (Hdist : std_max minDist (sqrt dd) = sqrt dd).
  { rewrite std_max_R. apply Rmax_right. pose proof minDist_pos.
    rewrite <- (sqrt_square minDist) by lra. apply sqrt_le_1_alt. exact Hdd. }
  assert (Hforces : forces se C
            = ([(x0 - x1) * f; (x1 - x0) * f], [(y0 - y1) * f; (y1 - y0) * f])).
  { unfold forces, rep_node, attr_edge, rep_pair.
    change (m_numNodes C) with 2%nat. change (m_numEdges C) with 1%nat.
    cbn [seq fold_left alloc repeat Nat.eqb fst snd].
    rewrite Hd01, Hd10.
    unfold C, viewR, rd, rdi. cbn [m_x m_y m_src m_tgt m_nodeWeight nth store fst snd].
    cbn [num_add num_sub num_mul num_div num_sqrt R_arith].
    fold dd. rewrite Hdist. unfold c_rep, num0. fold k.
    cbn [num_of_Z lit_0_052 num_mul R_arith].
    unfold f. apply pair_equal_spec. split.
    - f_equal; [field; lra | f_equal; field; lra].
    - f_equal; [field; lra | f_equal; field; lra]. }
  assert (Hf0 : f = 0 <-> dd * sqrt dd = 52 / 1000 * (k * k * k)).
  { unfold f. split; intros H.
    - apply (Rmult_eq_compat_r (dd * k)) in H. field_simplify in H; lra.
    - apply (Rmult_eq_reg_r (dd * k)); [|nra]. field_simplify; lra. }
  split; [exact Hforces|]. split; [exact Hf0|]. split.
  - unfold f. split; intros H.
    + apply (Rmult_lt_compat_r (dd * k)) in H; [|nra]. field_simplify in H; lra.
    + apply (Rmult_lt_reg_r (dd * k)); [nra|]. field_simplify; lra.
  - rewrite Hforces, <- Hf0. split; intros H.
    + apply pair_equal_spec in H. destruct H as [Hx Hy].
      injection Hx as Hx _. injection Hy as Hy _.
      destruct (Req_dec f 0) as [E|E]; [exact E|].
      exfalso.
      assert (x0 - x1 = 0) by (apply (Rmult_eq_reg_r f); lra).
      assert (y0 - y1 = 0) by (apply (Rmult_eq_reg_r f); lra).
      unfold dd in Hdd0. nra.
    + rewrite H, !Rmult_0_r. reflexivity.
Qed.

End PairAtRest.

(** ** The vectorized loop compiled with the square of the edge length *)

Section KSquare.

Variable num : Type.
Context {AR : Arith num}.
Variable ext : Extern num.

Hypothesis sse3 : OGDF_SSE3_EXTENSIONS ext = true.
Hypothesis ksquare : OGDF_SPRINGEMBEDDERFREXACT_USE_KSQUARE ext = true.

Lemma forces_sse3_no_weights (se : SpringEmbedderFRExact num) (C : ArrayGraph num) w :
  forces_sse3 ext se (set_nodeWeight C w) = forces_sse3 ext se C.
Proof.
  unfold forces_sse3, rep_node_sse3, rep_lanes_sse3, compute_pd, compute_sd.
  rewrite ksquare. reflexivity.
Qed.

Lemma for_pairs_cap_no_weights D tx ty bound fuel u (C : ArrayGraph num) w :
  for_pairs fuel u bound (cap_pair_sse3 D tx ty) (set_nodeWeight C w)
  = (fst (for_pairs fuel u bound (cap_pair_sse3 D tx ty) C),
     set_nodeWeight (snd (for_pairs fuel u bound (cap_pair_sse3 D tx ty) C)) w).
Proof.
  revert u C; induction fuel as [|fuel IH]; intros u C; simpl; [reflexivity|].
  destruct (Nat.ltb (u + 1) bound); [|reflexivity].
  change (cap_pair_sse3 D tx ty u (set_nodeWeight C w))
    with (set_nodeWeight (cap_pair_sse3 D tx ty u C) w).
  apply IH.
Qed.

Lemma sse3_body_no_weights (se : SpringEmbedderFRExact num) (s : Sse3Loop num) w :
  sse3_body ext se (mkSse3Loop (set_nodeWeight (sl_C s) w) (sl_tx s) (sl_ty s) (sl_cF s) (sl_i s))
  = let s' := sse3_body ext se s in
    mkSse3Loop (set_nodeWeight (sl_C s') w) (sl_tx s') (sl_ty s') (sl_cF s') (sl_i s').
Proof.
  unfold sse3_body. cbn [sl_C sl_tx sl_ty sl_cF sl_i].
  rewrite forces_sse3_no_weights.
  change (m_numNodes (set_nodeWeight (sl_C s) w)) with (m_numNodes (sl_C s)).
  rewrite for_pairs_cap_no_weights. cbn [snd].
  destruct (cool ext se (sl_tx s, sl_ty s, sl_cF s)) as [[tx ty] cF].
  cbv zeta. cbn [sl_C sl_tx sl_ty sl_cF sl_i]. f_equal.
  unfold cap_last_sse3.
  change (m_numNodes (set_nodeWeight ?X w)) with (m_numNodes X).
  destruct (Nat.eqb _ 0); reflexivity.
Qed.

Lemma sse3_for_no_weights (se : SpringEmbedderFRExact num) fuel (s : Sse3Loop num) w :
  sl_C (sse3_for ext se fuel
          (mkSse3Loop (set_nodeWeight (sl_C s) w) (sl_tx s) (sl_ty s) (sl_cF s) (sl_i s)))
  = set_nodeWeight (sl_C (sse3_for ext se fuel s)) w.
Proof.
  revert s; induction fuel as [|fuel IH]; intros s; cbn [sse3_for sl_i].
  - destruct (sl_i s <=? m_iterations se)%Z; reflexivity.
  - destruct (sl_i s <=? m_iterations se)%Z; [|reflexivity].
    rewrite sse3_body_no_weights. cbv zeta. apply IH.
Qed.

(** X21: compiled with [OGDF_SPRINGEMBEDDERFREXACT_USE_KSQUARE], the
    vectorized loop divides the square of the ideal edge length, and not
    the weight of the other node, by the squared distance, and never reads
    [m_nodeWeight]: [mainStep_sse3] computes the same positions whatever the
    node weights are. *)
Theorem ksquare_build_ignores_node_weights (se : SpringEmbedderFRExact num)
    (C : ArrayGraph num) (w : list num) :
  mainStep_sse3 ext se (set_nodeWeight C w) = set_nodeWeight (mainStep_sse3 ext se C) w.
Proof.
  unfold mainStep_sse3. rewrite sse3. unfold sse3_run.
  apply (sse3_for_no_weights se (Z.to_nat (m_iterations se))
           (mkSse3Loop C (m_txNull se) (m_tyNull se) 1 1) w).
Qed.

End KSquare.

(** ** The option [noise] *)

Section Noise.

Variable num : Type.
Context {AR : Arith num}.
Variable ext : Extern num.

Lemma mainStep_while_noise (se : SpringEmbedderFRExact num) b fuel (s : MainLoop num) :
  mainStep_while ext (set_noise se b) fuel s = mainStep_while ext se fuel s.
Proof.
  revert s; induction fuel as [|fuel IH]; intros s; cbn [mainStep_while]; [reflexivity|].
  destruct (ml_converged s); [reflexivity|].
  change (mainStep_body ext (set_noise se b) s) with (mainStep_body ext se s).
  apply IH.
Qed.

Lemma sse3_for_noise (se : SpringEmbedderFRExact num) b fuel (s : Sse3Loop num) :
  sse3_for ext (set_noise se b) fuel s = sse3_for ext se fuel s.
Proof.
  revert s; induction fuel as [|fuel IH]; intros s; cbn [sse3_for set_noise m_iterations].
  - reflexivity.
  - destruct (sl_i s <=? m_iterations se)%Z; [|reflexivity].
    change (sse3_body ext (set_noise se b) s) with (sse3_body ext se s).
    apply IH.
Qed.

Lemma mainStep_noise (se : SpringEmbedderFRExact num) b (C : ArrayGraph num) :
  mainStep ext (set_noise se b) C = mainStep ext se C.
Proof.
  unfold mainStep, mainStep_run. cbn [set_noise m_iterations m_txNull m_tyNull].
  rewrite mainStep_while_noise. reflexivity.
Qed.

Lemma mainStep_sse3_noise (se : SpringEmbedderFRExact num) b (C : ArrayGraph num) :
  mainStep_sse3 ext (set_noise se b) C = mainStep_sse3 ext se C.
Proof.
  unfold mainStep_sse3. rewrite mainStep_noise. unfold sse3_run.
  cbn [set_noise m_iterations m_txNull m_tyNull]. rewrite sse3_for_noise. reflexivity.
Qed.

Lemma layoutCC_noise (se : SpringEmbedderFRExact num) b (C : ArrayGraph num) i :
  layoutCC ext (set_noise se b) C i
  = (set_noise (fst (fst (layoutCC ext se C i))) b, snd (fst (layoutCC ext se C i)),
     snd (layoutCC ext se C i)).
Proof.
  unfold layoutCC. destruct (Nat.leb 2 (m_numNodes C)); [|reflexivity].
  change (initialize (set_noise se b) C)
    with (set_noise (fst (initialize se C)) b, snd (initialize se C)).
  destruct (initialize se C) as [se1 c1]. cbn [fst snd].
  destruct (cpuSupports_SSE3 ext); cbn [fst snd].
  - rewrite mainStep_sse3_noise. reflexivity.
  - rewrite mainStep_noise. reflexivity.
Qed.

Lemma call_cc_noise (s : CallState num) b i :
  call_cc ext (mkCallState (set_noise (cs_se s) b) (cs_AG s) (cs_component s)
                 (cs_boundingBox s) (cs_trace s)) i
  = let s' := call_cc ext s i in
    mkCallState (set_noise (cs_se s') b) (cs_AG s') (cs_component s')
      (cs_boundingBox s') (cs_trace s').
Proof.
  unfold call_cc. cbn [cs_se cs_AG cs_component cs_boundingBox cs_trace].
  rewrite layoutCC_noise.
  destruct (layoutCC ext (cs_se s) (initCC (cs_AG s) (cs_component s) i) i)
    as [[se1 c1] evs].
  reflexivity.
Qed.

Lemma call_loop_noise l (s : CallState num) b :
  fold_left (call_cc ext) l
    (mkCallState (set_noise (cs_se s) b) (cs_AG s) (cs_component s)
       (cs_boundingBox s) (cs_trace s))
  = let s' := fold_left (call_cc ext) l s in
    mkCallState (set_noise (cs_se s') b) (cs_AG s') (cs_component s')
      (cs_boundingBox s') (cs_trace s').
Proof.
  revert s; induction l as [|i l IH]; intros s; cbn [fold_left]; [reflexivity|].
  rewrite call_cc_noise. cbv zeta. apply (IH (call_cc ext s i)).
Qed.

(** X22: the option [noise], which the constructor switches on, has no
    effect: nothing in the file reads it. A call with the option changed
    leaves the same attribute store and makes the same calls, and the two
    engines return the same view. *)
Theorem noise_option_has_no_effect (se : SpringEmbedderFRExact num) (b : bool) :
  (forall AG,
     call ext (set_noise se b) AG
     = (set_noise (fst (fst (call ext se AG))) b, snd (fst (call ext se AG)),
        snd (call ext se AG)))
  /\ (forall C, mainStep ext (set_noise se b) C = mainStep ext se C)
  /\ (forall C, mainStep_sse3 ext (set_noise se b) C = mainStep_sse3 ext se C).
Proof.
  split; [|split; [apply mainStep_noise | apply mainStep_sse3_noise]].
  intros AG. unfold call. destruct (empty (constGraph AG)); [reflexivity|].
  change (call_start ext (set_noise se b) (clearAllBends AG))
    with (let s := call_start ext se (clearAllBends AG) in
          mkCallState (set_noise (cs_se s) b) (cs_AG s) (cs_component s)
            (cs_boundingBox s) (cs_trace s)).
  cbv zeta. cbn [cs_component]. rewrite call_loop_noise. cbv zeta.
  cbn [cs_se cs_AG cs_component cs_boundingBox cs_trace fst snd set_noise m_pageRatio].
  reflexivity.
Qed.

End Noise.

(** ** The embedder with its default options *)

Section Defaults.

Variable ext : Extern R.

Local Open Scope R_scope.

(** X23, in exact arithmetic: the embedder as its constructor leaves it, for
    a positive default distance between nodes. Its ideal edge length is that
    distance plus the diagonal of the default node, and positive. On every
    component [mainStep] runs at least one round and at most 1000. And after
    [initialize], cooling by 0.9, it moves no node by more than ten times
    the initial temperature of the axis. The statement is over the real
    numbers. *)
Theorem default_embedder (ls : LayoutStandards R) (txNull tyNull : R) :
  0 < defaultNodeSeparation ls ->
  let se := SpringEmbedderFRExact_new ls txNull tyNull in
  let k := m_idealEdgeLength se in
  (0 < k
   /\ (k - defaultNodeSeparation ls) * (k - defaultNodeSeparation ls)
      = defaultNodeWidth ls * defaultNodeWidth ls
        + defaultNodeHeight ls * defaultNodeHeight ls)
  /\ (forall C, (1 <= roundsDone ext se C <= 1000)%nat)
  /\ (forall C v,
        (1 <= m_numNodes C)%nat ->
        length (m_x C) = m_numNodes C -> length (m_y C) = m_numNodes C ->
        (v < m_numNodes C)%nat ->
        let se1 := fst (initialize se C) in
        let C1 := snd (initialize se C) in
        Rabs (rd (m_x (mainStep ext se1 C1)) v - rd (m_x C1) v) <= 10 * m_txNull se1
        /\ Rabs (rd (m_y (mainStep ext se1 C1)) v - rd (m_y C1) v) <= 10 * m_tyNull se1).
Proof.
  intros Hsep se k.
  set (w := defaultNodeWidth ls) in *. set (h := defaultNodeHeight ls) in *.
  assert (Hsq : 0 <= w * w + h * h) by nra.
  assert (Hk : k = defaultNodeSeparation ls + sqrt (w * w + h * h)) by reflexivity.
  assert (Hk0 : 0 < k) by (rewrite Hk; pose proof (sqrt_pos (w * w + h * h)); lra).
  split; [|split].
  - split; [exact Hk0|]. rewrite Hk.
    replace (defaultNodeSeparation ls + sqrt (w * w + h * h) - defaultNodeSeparation ls)
      with (sqrt (w * w + h * h)) by ring.
    apply sqrt_sqrt. exact Hsq.
  - intros C.
    destruct (@mainStep_run_rounds R _ ext se C ltac:(cbn; lia))
      as (r & H1 & H2 & _ & HR & _).
    rewrite HR. cbn [se SpringEmbedderFRExact_new m_iterations] in H2. lia.
  - intros C v Hn Hlx Hly Hv se1 C1.
    pose proof (initialize_options se C) as Ho. fold se1 in Ho.
    destruct (@initialize_temperatures se C Hn Hk0) as [Htx Hty]. fold se1 in Htx, Hty.
    destruct (only_xy_initialize se C) as (x & y & E & Lx & Ly). fold C1 in E.
    assert (HF : m_coolingFunction se1 = Factor) by (rewrite Ho; reflexivity).
    assert (Hfx : m_coolFactor_x se1 = 9 / 10) by (rewrite Ho; reflexivity).
    assert (Hfy : m_coolFactor_y se1 = 9 / 10) by (rewrite Ho; reflexivity).
    assert (Hn1 : m_numNodes C1 = m_numNodes C) by (rewrite E; reflexivity).
    assert (Hlx1 : length (m_x C1) = m_numNodes C1)
      by (rewrite Hn1, E; cbn [set_xy m_x]; congruence).
    assert (Hly1 : length (m_y C1) = m_numNodes C1)
      by (rewrite Hn1, E; cbn [set_xy m_y]; congruence).
    destruct (mainStep_while_iter ext se1 (S (Z.to_nat (m_iterations se1)))
                (mainStep_init se1 C1)) as (r & _ & Hrun & _).
    change (mainStep_while ext se1 (S (Z.to_nat (m_iterations se1))) (mainStep_init se1 C1))
      with (mainStep_run ext se1 C1) in Hrun.
    fold (afterRounds ext se1 C1 r) in Hrun.
    unfold mainStep. rewrite Hrun.
    destruct (@afterRounds_factor ext se1 C1 r HF ltac:(rewrite Hfx; lra)
                ltac:(rewrite Hfy; lra) Htx Hty Hlx1 Hly1) as (_ & _ & _ & Hd).
    destruct (Hd v ltac:(rewrite Hn1; exact Hv)) as [Dx Dy].
    rewrite Hfx in Dx. rewrite Hfy in Dy.
    destruct (@geometric_sum (9 / 10) r ltac:(lra)) as [_ G].
    replace (1 / (1 - 9 / 10)) with 10 in G by field.
    split.
    + eapply Rle_trans; [exact Dx|]. rewrite (Rmult_comm 10).
      apply Rmult_le_compat_l; [exact Htx | exact G].
    + eapply Rle_trans; [exact Dy|]. rewrite (Rmult_comm 10).
      apply Rmult_le_compat_l; [exact Hty | exact G].
Qed.

End Defaults.

(** ** More on the orchestrator *)

Section OrchestratorMore.

Variable num : Type.
Context {AR : Arith num}.
Variable ext : Extern num.

Local Open Scope num_scope.

(** *** The calls, in order *)

Lemma call_cc_calls (s : CallState num) i :
  cs_trace (call_cc ext s i) = cs_trace s ++ callsFor ext (cs_component s) i.
Proof.
  unfold call_cc, callsFor, layoutCC. cbn [initCC m_numNodes].
  destruct (Nat.leb 2 _).
  - destruct (initialize _ _) as [se1 c1].
    destruct (cpuSupports_SSE3 ext); reflexivity.
  - reflexivity.
Qed.

Lemma callsFor_nodesInCC (A B : ArrayGraph num) i :
  m_nodesInCC A = m_nodesInCC B -> callsFor ext A i = callsFor ext B i.
Proof. intros H. unfold callsFor. rewrite H. reflexivity. Qed.

Lemma call_loop_nodesInCC l (s : CallState num) :
  m_nodesInCC (cs_component (fold_left (call_cc ext) l s)) = m_nodesInCC (cs_component s).
Proof.
  revert s; induction l as [|i l IH]; intros s; simpl; [reflexivity|].
  rewrite IH. apply call_cc_nodesInCC.
Qed.

Lemma call_loop_calls l (s : CallState num) :
  cs_trace (fold_left (call_cc ext) l s)
  = cs_trace s ++ flat_map (callsFor ext (cs_component s)) l.
Proof.
  revert s; induction l as [|i l IH]; intros s; cbn [fold_left flat_map].
  - rewrite app_nil_r. reflexivity.
  - rewrite IH, call_cc_calls, <- app_assoc. f_equal. f_equal.
    apply flat_map_ext. intros j. apply callsFor_nodesInCC. apply call_cc_nodesInCC.
Qed.

(** X24: the calls [call] makes, in order. On a graph without nodes it makes
    none. Otherwise it clears the bends, then takes the components in the
    order of their indices, calling [initCC] for each and, for a component
    of two nodes or more, [initialize] and then [mainStep_sse3] if the
    processor has SSE3 and [mainStep] if not; the packer is called once,
    after the last component. *)
Theorem call_makes_its_calls_in_order (se : SpringEmbedderFRExact num)
    (AG : GraphAttributes num) :
  let A := ArrayGraph_new ext (clearAllBends AG) in
  snd (call ext se AG)
  = if empty (constGraph AG) then []
    else EvClearAllBends :: flat_map (callsFor ext A) (seq 0 (m_numCC A))
         ++ [EvPackerCall].
Proof.
  intros A. unfold call. destruct (empty (constGraph AG)); [reflexivity|].
  cbn [snd]. rewrite call_loop_calls. unfold call_start. cbn [cs_trace cs_component app].
  reflexivity.
Qed.

(** *** What a call leaves as it is *)

Lemma sameButPositions_refl (AG : GraphAttributes num) : sameButPositions AG AG.
Proof. repeat split. Qed.

Lemma sameButPositions_trans (A B C : GraphAttributes num) :
  sameButPositions A B -> sameButPositions B C -> sameButPositions A C.
Proof.
  intros (a1 & a2 & a3 & a4 & a5) (b1 & b2 & b3 & b4 & b5).
  repeat split; congruence.
Qed.

Lemma sameOptions_refl (se : SpringEmbedderFRExact num) : sameOptions se se.
Proof. unfold sameOptions. destruct se; reflexivity. Qed.

Lemma sameOptions_trans (a b c : SpringEmbedderFRExact num) :
  sameOptions a b -> sameOptions b c -> sameOptions a c.
Proof.
  unfold sameOptions. intros Hb Hc. rewrite Hc, Hb. destruct a; reflexivity.
Qed.

Lemma layoutCC_options (se : SpringEmbedderFRExact num) (C : ArrayGraph num) i :
  sameOptions se (fst (fst (layoutCC ext se C i))).
Proof.
  unfold layoutCC. destruct (Nat.leb 2 (m_numNodes C)).
  - pose proof (initialize_options se C) as Ho.
    destruct (initialize se C) as (se1, c1). cbn [fst snd] in Ho.
    destruct (cpuSupports_SSE3 ext); cbn [fst snd]; exact Ho.
  - apply sameOptions_refl.
Qed.

Lemma writeBack_same (component : ArrayGraph num) AG :
  sameButPositions AG (wb_AG (writeBack component AG)).
Proof.
  unfold writeBack.
  apply (fold_left_inv (fun s => sameButPositions AG (wb_AG s))).
  - intros s v _ H. exact H.
  - apply sameButPositions_refl.
Qed.

Lemma move_fold_same (f : GraphAttributes num -> nat -> GraphAttributes num) l AG :
  (forall A x, sameButPositions A (f A x)) ->
  sameButPositions AG (fold_left f l AG).
Proof.
  intros Hf. apply (fold_left_inv (fun A => sameButPositions AG A)).
  - intros A x _ H. eapply sameButPositions_trans; [exact H | apply Hf].
  - apply sameButPositions_refl.
Qed.

Lemma call_cc_same (s : CallState num) i :
  sameButPositions (cs_AG s) (cs_AG (call_cc ext s i))
  /\ sameOptions (cs_se s) (cs_se (call_cc ext s i)).
Proof.
  unfold call_cc.
  pose proof (layoutCC_options (cs_se s) (initCC (cs_AG s) (cs_component s) i) i) as Ho.
  destruct (layoutCC _ _ _ _) as [[se' c'] evs]. cbn [fst snd cs_AG cs_se] in *.
  split; [|exact Ho].
  eapply sameButPositions_trans; [apply writeBack_same|].
  apply move_fold_same. intros A x. repeat split.
Qed.

Lemma call_loop_same l (s : CallState num) :
  sameButPositions (cs_AG s) (cs_AG (fold_left (call_cc ext) l s))
  /\ sameOptions (cs_se s) (cs_se (fold_left (call_cc ext) l s)).
Proof.
  revert s; induction l as [|i l IH]; intros s; simpl.
  - split; [apply sameButPositions_refl | apply sameOptions_refl].
  - destruct (IH (call_cc ext s i)) as [H1 H2]. destruct (call_cc_same s i) as [H3 H4].
    split.
    + eapply sameButPositions_trans; eassumption.
    + eapply sameOptions_trans; eassumption.
Qed.

Lemma offset_loop_same (component : ArrayGraph num) offset l AG :
  sameButPositions AG (fold_left (offset_cc component offset) l AG).
Proof.
  apply move_fold_same. intros A i. unfold offset_cc.
  apply move_fold_same. intros B v. repeat split.
Qed.

(** X25: what [call] leaves as it is. It writes positions and bends only:
    the graph, the widths and heights of the nodes and their weights are
    those of the input, and of the options of the embedder only the two
    initial temperatures may change. On a graph without nodes it changes
    nothing at all: the bends stay too. *)
Theorem call_keeps_graph_and_sizes (se : SpringEmbedderFRExact num)
    (AG : GraphAttributes num) :
  let se' := fst (fst (call ext se AG)) in
  let AG' := snd (fst (call ext se AG)) in
  sameButPositions AG AG'
  /\ sameOptions se se'
  /\ (if empty (constGraph AG) then AG' = AG /\ se' = se
      else forall e, ga_bends AG' e = []).
Proof.
  intros se' AG'. unfold se', AG', call.
  destruct (empty (constGraph AG)) eqn:Hne; cbn [fst snd].
  - split; [apply sameButPositions_refl|]. split; [apply sameOptions_refl|].
    split; reflexivity.
  - match goal with |- context [fold_left (call_cc ext) ?l ?s0] =>
      destruct (call_loop_same l s0) as [H1 H2];
      pose proof (call_loop_bends ext l s0) as Hb
    end.
    split; [|split].
    + eapply sameButPositions_trans; [|apply offset_loop_same].
      eapply sameButPositions_trans; [|exact H1]. repeat split.
    + exact H2.
    + intros e.
      match goal with |- ga_bends (fold_left ?f ?l ?a) e = _ =>
        assert (H : ga_bends (fold_left f l a) = ga_bends a) end.
      { apply (fold_left_inv (fun a' => ga_bends a' = ga_bends _)); auto.
        intros a' i _ H. rewrite offset_cc_bends. exact H. }
      rewrite H, Hb. reflexivity.
Qed.

End OrchestratorMore.

(** *** Where a call puts the nodes *)

Section Placement.

Variable num : Type.
Context {AR : Arith num}.
Variable ext : Extern num.

Local Open Scope num_scope.

Lemma move_node_x fx fy (AG : GraphAttributes num) u v :
  ga_x (move_node fx fy AG u) v = if Nat.eqb v u then fx (ga_x AG u) else ga_x AG v.
Proof. reflexivity. Qed.

Lemma move_node_y fx fy (AG : GraphAttributes num) u v :
  ga_y (move_node fx fy AG u) v = if Nat.eqb v u then fy (ga_y AG u) else ga_y AG v.
Proof. reflexivity. Qed.

Lemma move_fold_notin fx fy l (AG : GraphAttributes num) v :
  ~ In v l ->
  ga_x (fold_left (move_node fx fy) l AG) v = ga_x AG v
  /\ ga_y (fold_left (move_node fx fy) l AG) v = ga_y AG v.
Proof.
  revert AG; induction l as [|u l IH]; intros AG Hv; cbn [fold_left]; [split; reflexivity|].
  destruct (IH (move_node fx fy AG u) ltac:(intros H; apply Hv; right; exact H)) as [Hx Hy].
  rewrite Hx, Hy, move_node_x, move_node_y.
  destruct (Nat.eqb_spec v u) as [E|E]; [|split; reflexivity].
  exfalso. apply Hv. left. symmetry. exact E.
Qed.

Lemma move_fold_in fx fy l (AG : GraphAttributes num) v :
  NoDup l -> In v l ->
  ga_x (fold_left (move_node fx fy) l AG) v = fx (ga_x AG v)
  /\ ga_y (fold_left (move_node fx fy) l AG) v = fy (ga_y AG v).
Proof.
  revert AG; induction l as [|u l IH]; intros AG Hnd Hv; [destruct Hv|].
  cbn [fold_left]. inversion Hnd as [|? ? Hu Hnd']; subst.
  destruct Hv as [->|Hv].
  - destruct (@move_fold_notin fx fy l (move_node fx fy AG v) v Hu) as [Hx Hy].
    rewrite Hx, Hy, move_node_x, move_node_y, Nat.eqb_refl. split; reflexivity.
  - destruct (IH (move_node fx fy AG u) Hnd' Hv) as [Hx Hy].
    rewrite Hx, Hy, move_node_x, move_node_y.
    destruct (Nat.eqb_spec v u) as [E|E]; [|split; reflexivity].
    subst. contradiction.
Qed.

Lemma fold_left_map_arg {S X Y : Type} (f : S -> Y -> S) (g : X -> Y) (l : list X) (s : S) :
  fold_left (fun a x => f a (g x)) l s = fold_left f (map g l) s.
Proof. revert s; induction l as [|x l IH]; intros s; simpl; [reflexivity | apply IH]. Qed.

Lemma originals (C : ArrayGraph num) :
  length (m_orig C) = m_numNodes C ->
  map (original C) (seq 0 (m_numNodes C)) = m_orig C.
Proof.
  intros <-. unfold original.
  rewrite (map_seq_nth (fun v => v) (m_orig C) 0). apply map_id.
Qed.

(** The attribute store after the write-back loop: every node of the
    component has the position its cell holds, the others are where they
    were. *)
Lemma writeBack_positions (C : ArrayGraph num) (AG : GraphAttributes num) :
  NoDup (m_orig C) -> length (m_orig C) = m_numNodes C ->
  (forall j, j < m_numNodes C ->
     ga_x (wb_AG (writeBack C AG)) (original C j) = rd (m_x C) j
     /\ ga_y (wb_AG (writeBack C AG)) (original C j) = rd (m_y C) j)
  /\ (forall v, ~ In v (m_orig C) ->
        ga_x (wb_AG (writeBack C AG)) v = ga_x AG v
        /\ ga_y (wb_AG (writeBack C AG)) v = ga_y AG v).
Proof.
  intros Hnd Hlen. unfold writeBack.
  set (s0 := mkWriteBack AG _ _ _ _).
  assert (H : forall m, m <= m_numNodes C ->
            let s := fold_left (writeBack_node C) (seq 0 m) s0 in
            (forall j, j < m ->
               ga_x (wb_AG s) (original C j) = rd (m_x C) j
               /\ ga_y (wb_AG s) (original C j) = rd (m_y C) j)
            /\ (forall v, (forall j, j < m -> original C j <> v) ->
                  ga_x (wb_AG s) v = ga_x AG v /\ ga_y (wb_AG s) v = ga_y AG v)).
  { induction m as [|m IH]; intros Hm.
    - cbn. split; [intros j Hj; lia | intros v _; split; reflexivity].
    - rewrite seq_S, fold_left_app. cbn [fold_left Nat.add].
      destruct (IH ltac:(lia)) as [IH1 IH2].
      set (s := fold_left (writeBack_node C) (seq 0 m) s0) in *.
      change (wb_AG (writeBack_node C s m))
        with (move_node (fun _ => rd (m_x C) m) (fun _ => rd (m_y C) m) (wb_AG s) (original C m)).
      split.
      + intros j Hj. rewrite move_node_x, move_node_y.
        destruct (Nat.eqb_spec (original C j) (original C m)) as [E|E].
        * split; f_equal.
          -- unfold original in E. apply (proj1 (NoDup_nth (m_orig C) 0) Hnd) in E; lia.
          -- unfold original in E. apply (proj1 (NoDup_nth (m_orig C) 0) Hnd) in E; lia.
        * apply IH1.
          assert (j <> m) by (intros ->; apply E; reflexivity). lia.
      + intros v Hv. rewrite move_node_x, move_node_y.
        destruct (Nat.eqb_spec v (original C m)) as [E|E].
        * exfalso. apply (Hv m); [lia | symmetry; exact E].
        * apply IH2. intros j Hj. apply Hv. lia. }
  destruct (H (m_numNodes C) (Nat.le_refl _)) as [H1 H2].
  split; [exact H1|].
  intros v Hv. apply H2. intros j Hj E. apply Hv. rewrite <- E.
  unfold original. apply nth_In. lia.
Qed.

(** The parts of the state after the round of the loop of [call] for
    component [i]. *)
Lemma call_cc_parts (s : CallState num) i :
  let C' := snd (fst (layoutCC ext (cs_se s) (initCC (cs_AG s) (cs_component s) i) i)) in
  let wb := writeBack C' (cs_AG s) in
  let mX := minX wb - m_minDistCC (cs_se s) in
  let mY := minY wb - m_minDistCC (cs_se s) in
  cs_component (call_cc ext s i) = C'
  /\ cs_AG (call_cc ext s i)
     = fold_left (shift_node C' mX mY) (seq 0 (m_numNodes C')) (wb_AG wb)
  /\ cs_boundingBox (call_cc ext s i)
     = store (cs_boundingBox s) i (maxX wb - mX, maxY wb - mY).
Proof.
  unfold call_cc.
  pose proof (layoutCC_options ext (cs_se s) (initCC (cs_AG s) (cs_component s) i) i) as Ho.
  destruct (layoutCC _ _ _ _) as [[se' c'] evs]. cbn [fst snd] in *.
  assert (Hd : m_minDistCC se' = m_minDistCC (cs_se s)).
  { unfold sameOptions in Ho. rewrite Ho. reflexivity. }
  cbn [cs_component cs_AG cs_boundingBox]. rewrite Hd. repeat split.
Qed.

(** The view that is written back for component [i] has the nodes of the
    component, in the order of its list. *)
Lemma call_cc_view (s : CallState num) i :
  let cc := nth i (m_nodesInCC (cs_component s)) [] in
  let C' := cs_component (call_cc ext s i) in
  m_orig C' = cc /\ m_numNodes C' = length cc
  /\ length (m_x C') = length cc /\ length (m_y C') = length cc.
Proof.
  intros cc C'. destruct (call_cc_parts s i) as (HC & _). fold C' in HC.
  destruct (only_xy_layoutCC ext (cs_se s) (initCC (cs_AG s) (cs_component s) i) i)
    as (x & y & E & Hx & Hy).
  rewrite <- HC in E.
  destruct (initCC_spec (cs_AG s) (cs_component s) i) as (Hn & Ho & Hx0 & Hy0 & _).
  fold cc in Hn, Ho, Hx0, Hy0.
  rewrite E. cbn [set_xy m_orig m_numNodes m_x m_y].
  rewrite Hx, Hy, Hx0, Hy0, !length_map. repeat split; assumption.
Qed.

(** Where the round for component [i] puts the nodes: those of the
    component at the positions of the view, less the two lower bounds; the
    others where they were. *)
Lemma call_cc_moves (s : CallState num) i :
  let cc := nth i (m_nodesInCC (cs_component s)) [] in
  NoDup cc ->
  let s' := call_cc ext s i in
  let C' := cs_component s' in
  let wb := writeBack C' (cs_AG s) in
  let mX := minX wb - m_minDistCC (cs_se s) in
  let mY := minY wb - m_minDistCC (cs_se s) in
  (forall j, j < length cc ->
     ga_x (cs_AG s') (nth j cc 0) = rd (m_x C') j - mX
     /\ ga_y (cs_AG s') (nth j cc 0) = rd (m_y C') j - mY)
  /\ (forall v, ~ In v cc ->
        ga_x (cs_AG s') v = ga_x (cs_AG s) v /\ ga_y (cs_AG s') v = ga_y (cs_AG s) v)
  /\ cs_boundingBox s' = store (cs_boundingBox s) i (maxX wb - mX, maxY wb - mY).
Proof.
  intros cc Hnd s' C' wb mX mY.
  destruct (call_cc_view s i) as (Ho & Hn & _). fold cc in Ho, Hn. fold s' in Ho, Hn.
  fold C' in Ho, Hn.
  destruct (call_cc_parts s i) as (HC & HAG & HB).
  fold s' in HC, HAG, HB. rewrite <- HC in HAG, HB. fold C' in HAG, HB.
  fold wb in HAG, HB. fold mX in HAG, HB. fold mY in HAG, HB.
  assert (Hnd' : NoDup (m_orig C')) by (rewrite Ho; exact Hnd).
  assert (Hlen : length (m_orig C') = m_numNodes C') by (rewrite Ho, Hn; reflexivity).
  destruct (writeBack_positions C' (cs_AG s) Hnd' Hlen) as [W1 W2]. fold wb in W1, W2.
  assert (Hshift : cs_AG s'
            = fold_left (move_node (fun x => x - mX) (fun y => y - mY)) cc (wb_AG wb)).
  { rewrite HAG.
    change (shift_node C' mX mY)
      with (fun AG j => move_node (fun x => x - mX) (fun y => y - mY) AG (original C' j)).
    rewrite (fold_left_map_arg (move_node (fun x => x - mX) (fun y => y - mY)) (original C')).
    rewrite (originals C' Hlen), Ho. reflexivity. }
  split; [|split].
  - intros j Hj.
    destruct (@move_fold_in (fun x => x - mX) (fun y => y - mY) cc (wb_AG wb)
                (nth j cc 0) Hnd (nth_In cc 0 Hj)) as [Hx Hy].
    rewrite Hshift, Hx, Hy.
    destruct (W1 j ltac:(lia)) as [Wx Wy]. unfold original in Wx, Wy.
    rewrite Ho in Wx, Wy. rewrite Wx, Wy. split; reflexivity.
  - intros v Hv.
    destruct (@move_fold_notin (fun x => x - mX) (fun y => y - mY) cc (wb_AG wb) v Hv)
      as [Hx Hy].
    rewrite Hshift, Hx, Hy. apply W2. rewrite Ho. exact Hv.
  - exact HB.
Qed.

(** X26: the write-back of a component takes one vector from what the
    engine left in the view, in any arithmetic and so in the compiled
    program. With [mX] and [mY] the lower bounds of the component less
    [m_minDistCC], as the write-back loop leaves them in [minX] and [minY],
    every node of the component gets the position of its cell less [mX] on
    the x axis and less [mY] on the y axis, the same two numbers for all
    nodes of the component; the nodes of the other components are not
    moved. *)
Theorem call_translates_each_component (s : CallState num) i :
  let cc := nth i (m_nodesInCC (cs_component s)) [] in
  NoDup cc ->
  let s' := call_cc ext s i in
  let C' := cs_component s' in
  let wb := writeBack C' (cs_AG s) in
  let mX := minX wb - m_minDistCC (cs_se s) in
  let mY := minY wb - m_minDistCC (cs_se s) in
  (forall j, j < length cc ->
     ga_x (cs_AG s') (nth j cc 0) = rd (m_x C') j - mX
     /\ ga_y (cs_AG s') (nth j cc 0) = rd (m_y C') j - mY)
  /\ (forall v, ~ In v cc ->
        ga_x (cs_AG s') v = ga_x (cs_AG s) v /\ ga_y (cs_AG s') v = ga_y (cs_AG s) v).
Proof.
  intros cc Hnd s' C' wb mX mY.
  destruct (call_cc_moves s i Hnd) as (Hin & Hout & _).
  split; [exact Hin | exact Hout].
Qed.

Lemma offset_cc_move (C : ArrayGraph num) offset (AG : GraphAttributes num) i :
  offset_cc C offset AG i
  = fold_left (move_node (fun x => x + fst (nth i offset (num0, num0)))
                         (fun y => y + snd (nth i offset (num0, num0))))
      (nth i (m_nodesInCC C) []) AG.
Proof. reflexivity. Qed.

(** The last loop of [call] moves the nodes of every component by the
    offset of the component, once. *)
Lemma offset_loop_notin (C : ArrayGraph num) offset l (AG : GraphAttributes num) v :
  (forall j, In j l -> ~ In v (nth j (m_nodesInCC C) [])) ->
  ga_x (fold_left (offset_cc C offset) l AG) v = ga_x AG v
  /\ ga_y (fold_left (offset_cc C offset) l AG) v = ga_y AG v.
Proof.
  revert AG; induction l as [|j l IH]; intros AG Hl; cbn [fold_left]; [split; reflexivity|].
  destruct (IH (offset_cc C offset AG j) ltac:(intros k Hk; apply Hl; right; exact Hk))
    as [Hx Hy].
  rewrite Hx, Hy, offset_cc_move.
  apply move_fold_notin. apply Hl. left. reflexivity.
Qed.

Lemma offset_loop_in (C : ArrayGraph num) offset l (AG : GraphAttributes num) i v :
  NoDup l -> In i l ->
  NoDup (nth i (m_nodesInCC C) []) -> In v (nth i (m_nodesInCC C) []) ->
  (forall j, j <> i -> ~ In v (nth j (m_nodesInCC C) [])) ->
  ga_x (fold_left (offset_cc C offset) l AG) v = ga_x AG v + fst (nth i offset (num0, num0))
  /\ ga_y (fold_left (offset_cc C offset) l AG) v
     = ga_y AG v + snd (nth i offset (num0, num0)).
Proof.
  revert AG; induction l as [|j l IH]; intros AG Hnd Hi Hcc Hv Hdis; [destruct Hi|].
  cbn [fold_left]. apply NoDup_cons_iff in Hnd. destruct Hnd as [Hj Hnd'].
  destruct (Nat.eq_dec j i) as [->|Hji].
  - destruct (@offset_loop_notin C offset l (offset_cc C offset AG i) v) as [Hx Hy].
    { intros k Hk. apply Hdis. intros ->. contradiction. }
    rewrite Hx, Hy, offset_cc_move.
    apply (@move_fold_in (fun x => x + fst (nth i offset (num0, num0)))
             (fun y => y + snd (nth i offset (num0, num0)))); assumption.
  - destruct Hi as [Hi|Hi]; [contradiction|].
    destruct (IH (offset_cc C offset AG j) Hnd' Hi Hcc Hv Hdis) as [Hx Hy].
    rewrite Hx, Hy, offset_cc_move.
    destruct (@move_fold_notin (fun x => x + fst (nth j offset (num0, num0)))
                (fun y => y + snd (nth j offset (num0, num0)))
                (nth j (m_nodesInCC C) []) AG v (Hdis j Hji)) as [Mx My].
    rewrite Mx, My. split; reflexivity.
Qed.

End Placement.

Section PlacementReals.

Variable ext : Extern R.

Local Open Scope R_scope.

(** The bounds after the write-back loop hold the rectangle of every node
    of the component. *)
Lemma writeBack_bounds (C : ArrayGraph R) (AG : GraphAttributes R) j :
  (j < m_numNodes C)%nat ->
  let wb := writeBack C AG in
  (minX wb <= rd (m_x C) j - ga_width AG (original C j) / 2
   /\ rd (m_x C) j + ga_width AG (original C j) / 2 <= maxX wb)
  /\ (minY wb <= rd (m_y C) j - ga_height AG (original C j) / 2
      /\ rd (m_y C) j + ga_height AG (original C j) / 2 <= maxY wb).
Proof.
  intros Hj wb. unfold wb, writeBack.
  set (s0 := mkWriteBack AG _ _ _ _).
  assert (H : forall m, (m <= m_numNodes C)%nat ->
            let s := fold_left (writeBack_node C) (seq 0 m) s0 in
            sameButPositions AG (wb_AG s)
            /\ forall j, (j < m)%nat ->
                 (minX s <= rd (m_x C) j - ga_width AG (original C j) / 2
                  /\ rd (m_x C) j + ga_width AG (original C j) / 2 <= maxX s)
                 /\ (minY s <= rd (m_y C) j - ga_height AG (original C j) / 2
                     /\ rd (m_y C) j + ga_height AG (original C j) / 2 <= maxY s)).
  { induction m as [|m IH]; intros Hm.
    - cbn. split; [apply sameButPositions_refl | intros k Hk; lia].
    - rewrite seq_S, fold_left_app. cbn [fold_left Nat.add].
      destruct (IH ltac:(lia)) as [IHs IHb].
      set (s := fold_left (writeBack_node C) (seq 0 m) s0) in *.
      destruct IHs as (G1 & Hw & Hh & G4 & G5).
      split.
      { unfold sameButPositions, writeBack_node.
        cbn [wb_AG set_x set_y constGraph ga_width ga_height ga_weight has_nodeWeight].
        repeat split; assumption. }
      assert (Ex : minX (writeBack_node C s m)
                   <= Rmin (minX s) (rd (m_x C) m - ga_width AG (original C m) / 2)
                /\ Rmax (maxX s) (rd (m_x C) m + ga_width AG (original C m) / 2)
                   <= maxX (writeBack_node C s m)
                /\ minY (writeBack_node C s m)
                   <= Rmin (minY s) (rd (m_y C) m - ga_height AG (original C m) / 2)
                /\ Rmax (maxY s) (rd (m_y C) m + ga_height AG (original C m) / 2)
                   <= maxY (writeBack_node C s m)).
      { unfold writeBack_node. cbn [minX maxX minY maxY set_x set_y ga_x ga_y ga_width ga_height].
        rewrite !na_set_same, Hw, Hh. unfold half.
        cbn [num_lt num_add num_sub num_div num_of_Z R_arith]. unfold Rltb, Rmin, Rmax.
        repeat split;
          repeat match goal with
                 | |- context [Rlt_dec ?a ?b] => destruct (Rlt_dec a b)
                 | |- context [Rle_dec ?a ?b] => destruct (Rle_dec a b)
                 end; lra. }
      destruct Ex as (E1 & E2 & E3 & E4).
      intros k Hk.
      assert (Hcase : (k < m)%nat \/ k = m) by lia.
      destruct Hcase as [Hlt| ->].
      + destruct (IHb k Hlt) as [[B1 B2] [B3 B4]].
        pose proof (Rmin_l (minX s) (rd (m_x C) m - ga_width AG (original C m) / 2)).
        pose proof (Rmax_l (maxX s) (rd (m_x C) m + ga_width AG (original C m) / 2)).
        pose proof (Rmin_l (minY s) (rd (m_y C) m - ga_height AG (original C m) / 2)).
        pose proof (Rmax_l (maxY s) (rd (m_y C) m + ga_height AG (original C m) / 2)).
        repeat split; lra.
      + pose proof (Rmin_r (minX s) (rd (m_x C) m - ga_width AG (original C m) / 2)).
        pose proof (Rmax_r (maxX s) (rd (m_x C) m + ga_width AG (original C m) / 2)).
        pose proof (Rmin_r (minY s) (rd (m_y C) m - ga_height AG (original C m) / 2)).
        pose proof (Rmax_r (maxY s) (rd (m_y C) m + ga_height AG (original C m) / 2)).
        repeat split; lra. }
  destruct (H (m_numNodes C) (Nat.le_refl _)) as [_ Hb]. apply Hb. exact Hj.
Qed.

(** The rectangle of every node of component [i] after the round of the
    loop of [call] for it. *)
Lemma call_cc_in_box (s : CallState R) i v :
  let cc := nth i (m_nodesInCC (cs_component s)) [] in
  NoDup cc -> (i < length (cs_boundingBox s))%nat ->
  In v cc ->
  let s' := call_cc ext s i in
  inTile (cs_AG s') (m_minDistCC (cs_se s)) (0, 0) (nth i (cs_boundingBox s') (0, 0)) v.
Proof.
  intros cc Hnd Hi Hv s'.
  destruct (call_cc_moves ext s i Hnd) as (Hin & _ & HB).
  fold cc in Hin. fold s' in Hin, HB.
  destruct (call_cc_view ext s i) as (Ho & Hn & _). fold cc in Ho, Hn. fold s' in Ho, Hn.
  destruct (call_cc_same ext s i) as [(_ & Hw & Hh & _) _]. fold s' in Hw, Hh.
  destruct (In_nth cc v 0%nat Hv) as (j & Hj & <-).
  destruct (Hin j Hj) as [Xj Yj].
  destruct (@writeBack_bounds (cs_component s') (cs_AG s) j ltac:(lia)) as [[B1 B2] [B3 B4]].
  unfold original in B1, B2, B3, B4. rewrite Ho in B1, B2, B3, B4.
  unfold inTile. rewrite HB, nth_store_same by exact Hi.
  rewrite Xj, Yj, Hw, Hh. cbn [fst snd num_sub R_arith].
  repeat split; lra.
Qed.

(** X27, in exact arithmetic: after the round of the loop of [call] for a
    component, the rectangle of every node of the component, of the node's
    width and height around its position, lies in the bounding box recorded
    for the component, with its left and its lower side at [m_minDistCC] or
    more. The statement is over the real numbers: it supposes that the
    subtraction of the lower bounds is exact. *)
Theorem call_fits_component_in_bounding_box (s : CallState R) i :
  let cc := nth i (m_nodesInCC (cs_component s)) [] in
  NoDup cc -> (i < length (cs_boundingBox s))%nat ->
  let s' := call_cc ext s i in
  let AG' := cs_AG s' in
  let d := m_minDistCC (cs_se s) in
  let box := nth i (cs_boundingBox s') (0, 0) in
  forall v, In v cc ->
    (d <= ga_x AG' v - ga_width AG' v / 2 /\ ga_x AG' v + ga_width AG' v / 2 <= fst box)
    /\ (d <= ga_y AG' v - ga_height AG' v / 2 /\ ga_y AG' v + ga_height AG' v / 2 <= snd box).
Proof.
  intros cc Hnd Hi s' AG' d box v Hv.
  pose proof (@call_cc_in_box s i v Hnd Hi Hv) as H.
  unfold inTile in H. cbn [fst snd] in H. fold s' in H. fold AG' in H. fold d in H.
  fold box in H. rewrite !Rplus_0_l in H. exact H.
Qed.

(** With widths and heights that are not negative, each of the four bounds
    after the write-back loop is a side of the rectangle of some node. *)
Lemma writeBack_attained (C : ArrayGraph R) (AG : GraphAttributes R) :
  (1 <= m_numNodes C)%nat ->
  (forall j, (j < m_numNodes C)%nat ->
     0 <= ga_width AG (original C j) /\ 0 <= ga_height AG (original C j)) ->
  let wb := writeBack C AG in
  (exists j, (j < m_numNodes C)%nat
     /\ minX wb = rd (m_x C) j - ga_width AG (original C j) / 2)
  /\ (exists j, (j < m_numNodes C)%nat
        /\ maxX wb = rd (m_x C) j + ga_width AG (original C j) / 2)
  /\ (exists j, (j < m_numNodes C)%nat
        /\ minY wb = rd (m_y C) j - ga_height AG (original C j) / 2)
  /\ (exists j, (j < m_numNodes C)%nat
        /\ maxY wb = rd (m_y C) j + ga_height AG (original C j) / 2).
Proof.
  intros Hn Hpos wb. unfold wb, writeBack.
  set (s0 := mkWriteBack AG _ _ _ _).
  assert (Hsame : forall m,
            sameButPositions AG (wb_AG (fold_left (writeBack_node C) (seq 0 m) s0))).
  { intros m. apply (fold_left_inv (fun s => sameButPositions AG (wb_AG s))).
    - intros s v _ H. exact H.
    - apply sameButPositions_refl. }
  assert (Hstep : forall s m,
            ga_width (wb_AG s) = ga_width AG -> ga_height (wb_AG s) = ga_height AG ->
            let s' := writeBack_node C s m in
            (minX s' = minX s \/ minX s' = rd (m_x C) m - ga_width AG (original C m) / 2)
            /\ (maxX s' = maxX s \/ maxX s' = rd (m_x C) m + ga_width AG (original C m) / 2)
            /\ (minY s' = minY s \/ minY s' = rd (m_y C) m - ga_height AG (original C m) / 2)
            /\ (maxY s' = maxY s \/ maxY s' = rd (m_y C) m + ga_height AG (original C m) / 2)).
  { intros s m Hw Hh. unfold writeBack_node.
    cbn [minX maxX minY maxY set_x set_y ga_x ga_y ga_width ga_height].
    rewrite !na_set_same, Hw, Hh. unfold half.
    cbn [num_lt num_add num_sub num_div num_of_Z R_arith]. unfold Rltb.
    repeat split;
      match goal with |- context [Rlt_dec ?a ?b] => destruct (Rlt_dec a b) end;
      auto. }
  assert (H : forall m, (m < m_numNodes C)%nat ->
            let s := fold_left (writeBack_node C) (seq 0 (S m)) s0 in
            (exists j, (j <= m)%nat
               /\ minX s = rd (m_x C) j - ga_width AG (original C j) / 2)
            /\ (exists j, (j <= m)%nat
                  /\ maxX s = rd (m_x C) j + ga_width AG (original C j) / 2)
            /\ (exists j, (j <= m)%nat
                  /\ minY s = rd (m_y C) j - ga_height AG (original C j) / 2)
            /\ (exists j, (j <= m)%nat
                  /\ maxY s = rd (m_y C) j + ga_height AG (original C j) / 2)).
  { induction m as [|m IH]; intros Hm.
    - cbn [seq fold_left].
      destruct (Hpos 0%nat Hm) as [Pw Ph].
      unfold writeBack_node, s0.
      cbn [wb_AG minX maxX minY maxY set_x set_y ga_x ga_y ga_width ga_height].
      rewrite !na_set_same. unfold half.
      cbn [num_lt num_add num_sub num_div num_of_Z R_arith]. unfold Rltb.
      repeat split; exists 0%nat; (split; [lia|]);
        match goal with |- context [Rlt_dec ?a ?b] => destruct (Rlt_dec a b) end;
        lra.
    - rewrite seq_S, fold_left_app. cbn [fold_left Nat.add].
      destruct (IH ltac:(lia)) as ((j1 & J1 & E1) & (j2 & J2 & E2) & (j3 & J3 & E3)
                                   & (j4 & J4 & E4)).
      destruct (Hsame (S m)) as (_ & Hw & Hh & _).
      set (s := fold_left (writeBack_node C) (seq 0 (S m)) s0) in *.
      destruct (Hstep s (S m) Hw Hh) as (S1 & S2 & S3 & S4).
      repeat split.
      + destruct S1 as [S1|S1]; [exists j1 | exists (S m)]; split; try lia; congruence.
      + destruct S2 as [S2|S2]; [exists j2 | exists (S m)]; split; try lia; congruence.
      + destruct S3 as [S3|S3]; [exists j3 | exists (S m)]; split; try lia; congruence.
      + destruct S4 as [S4|S4]; [exists j4 | exists (S m)]; split; try lia; congruence. }
  destruct (m_numNodes C) as [|n] eqn:En; [lia|].
  destruct (H n ltac:(lia)) as ((j1 & J1 & E1) & (j2 & J2 & E2) & (j3 & J3 & E3)
                                & (j4 & J4 & E4)).
  repeat split; [exists j1 | exists j2 | exists j3 | exists j4]; (split; [lia | assumption]).
Qed.

(** X28, in exact arithmetic: the bounding box of a component is tight. With
    node widths and heights that are not negative, after the round of the
    loop of [call] for a component that has a node, some node of the
    component has the left side of its rectangle at exactly [m_minDistCC]
    and some node the right side at exactly the width of the bounding box,
    and the same for the lower side and the height: the margin [m_minDistCC]
    is on the left and below only. The statement is over the real numbers:
    it supposes that the subtraction of the lower bounds is exact. *)
Theorem call_bounding_box_is_tight (s : CallState R) i :
  let cc := nth i (m_nodesInCC (cs_component s)) [] in
  NoDup cc -> (i < length (cs_boundingBox s))%nat ->
  (1 <= length cc)%nat ->
  (forall v, In v cc -> 0 <= ga_width (cs_AG s) v /\ 0 <= ga_height (cs_AG s) v) ->
  let s' := call_cc ext s i in
  let AG' := cs_AG s' in
  let d := m_minDistCC (cs_se s) in
  let box := nth i (cs_boundingBox s') (0, 0) in
  (exists v, In v cc /\ ga_x AG' v - ga_width AG' v / 2 = d)
  /\ (exists v, In v cc /\ ga_x AG' v + ga_width AG' v / 2 = fst box)
  /\ (exists v, In v cc /\ ga_y AG' v - ga_height AG' v / 2 = d)
  /\ (exists v, In v cc /\ ga_y AG' v + ga_height AG' v / 2 = snd box).
Proof.
  intros cc Hnd Hi Hne Hpos s' AG' d box.
  destruct (call_cc_moves ext s i Hnd) as (Hin & _ & HB).
  fold cc in Hin. fold s' in Hin, HB.
  destruct (call_cc_view ext s i) as (Ho & Hn & _). fold cc in Ho, Hn. fold s' in Ho, Hn.
  destruct (call_cc_same ext s i) as [(_ & Hw & Hh & _) _]. fold s' in Hw, Hh.
  fold AG' in Hin, Hw, Hh.
  assert (Hpos' : forall j, (j < m_numNodes (cs_component s'))%nat ->
            0 <= ga_width (cs_AG s) (original (cs_component s') j)
            /\ 0 <= ga_height (cs_AG s) (original (cs_component s') j)).
  { intros j Hj. apply Hpos. unfold original. rewrite Ho. apply nth_In. lia. }
  destruct (@writeBack_attained (cs_component s') (cs_AG s) ltac:(lia) Hpos')
    as ((j1 & J1 & E1) & (j2 & J2 & E2) & (j3 & J3 & E3) & (j4 & J4 & E4)).
  unfold original in E1, E2, E3, E4. rewrite Ho in E1, E2, E3, E4.
  unfold box. rewrite HB, nth_store_same by exact Hi. cbn [fst snd num_sub R_arith].
  rewrite Hw, Hh.
  repeat split.
  - exists (nth j1 cc 0%nat). split; [apply nth_In; lia|].
    destruct (Hin j1 ltac:(lia)) as [X _]. cbn [num_sub R_arith] in X. rewrite X, E1.
    unfold d. ring.
  - exists (nth j2 cc 0%nat). split; [apply nth_In; lia|].
    destruct (Hin j2 ltac:(lia)) as [X _]. cbn [num_sub R_arith] in X. rewrite X, E2.
    ring.
  - exists (nth j3 cc 0%nat). split; [apply nth_In; lia|].
    destruct (Hin j3 ltac:(lia)) as [_ Y]. cbn [num_sub R_arith] in Y. rewrite Y, E3.
    unfold d. ring.
  - exists (nth j4 cc 0%nat). split; [apply nth_In; lia|].
    destruct (Hin j4 ltac:(lia)) as [_ Y]. cbn [num_sub R_arith] in Y. rewrite Y, E4.
    ring.
Qed.

(** X29, in exact arithmetic: a component of one node. With a width and a
    height that are not negative, [call] puts the node at [m_minDistCC] plus
    half its width and [m_minDistCC] plus half its height (the packer's
    offset comes on top), wherever the input had it, and records its width
    and height, each plus [m_minDistCC], as the bounding box of the
    component. The statement is over the real numbers: it supposes that the
    subtraction of the lower bounds is exact. *)
Theorem isolated_node_lands_at_margin (s : CallState R) i v :
  nth i (m_nodesInCC (cs_component s)) [] = [v] ->
  (i < length (cs_boundingBox s))%nat ->
  0 <= ga_width (cs_AG s) v -> 0 <= ga_height (cs_AG s) v ->
  let s' := call_cc ext s i in
  let d := m_minDistCC (cs_se s) in
  ga_x (cs_AG s') v = d + ga_width (cs_AG s) v / 2
  /\ ga_y (cs_AG s') v = d + ga_height (cs_AG s) v / 2
  /\ nth i (cs_boundingBox s') (0, 0)
     = (ga_width (cs_AG s) v + d, ga_height (cs_AG s) v + d).
Proof.
  intros Hcc Hi Hw Hh s' d.
  assert (Hnd : NoDup (nth i (m_nodesInCC (cs_component s)) [])).
  { rewrite Hcc. repeat constructor. intros []. }
  destruct (call_cc_moves ext s i Hnd) as (Hin & _ & HB).
  fold s' in Hin, HB. rewrite Hcc in Hin.
  destruct (call_cc_view ext s i) as (Ho & Hn & _). fold s' in Ho, Hn.
  rewrite Hcc in Ho, Hn. cbn [length] in Hn.
  assert (Hpos : forall j, (j < m_numNodes (cs_component s'))%nat ->
            0 <= ga_width (cs_AG s) (original (cs_component s') j)
            /\ 0 <= ga_height (cs_AG s) (original (cs_component s') j)).
  { intros j Hj. unfold original. rewrite Ho.
    destruct j as [|j]; [cbn [nth]; split; assumption | lia]. }
  destruct (@writeBack_attained (cs_component s') (cs_AG s) ltac:(lia) Hpos)
    as ((j1 & J1 & E1) & (j2 & J2 & E2) & (j3 & J3 & E3) & (j4 & J4 & E4)).
  assert (j1 = 0%nat) by lia. assert (j2 = 0%nat) by lia.
  assert (j3 = 0%nat) by lia. assert (j4 = 0%nat) by lia. subst j1 j2 j3 j4.
  unfold original in E1, E2, E3, E4. rewrite Ho in E1, E2, E3, E4.
  cbn [nth] in E1, E2, E3, E4.
  destruct (Hin 0%nat ltac:(cbn; lia)) as [X Y]. cbn [nth num_sub R_arith] in X, Y.
  rewrite X, Y, HB, nth_store_same by exact Hi. cbn [num_sub R_arith].
  rewrite E1, E2, E3, E4. fold d.
  split; [lra|]. split; [lra|].
  apply pair_equal_spec. split; lra.
Qed.

End PlacementReals.

Section Tiles.

Variable ext : Extern R.

Local Open Scope R_scope.

Lemma inTile_ext (A B : GraphAttributes R) d off box v :
  ga_x B v = ga_x A v -> ga_y B v = ga_y A v ->
  ga_width B = ga_width A -> ga_height B = ga_height A ->
  inTile A d off box v -> inTile B d off box v.
Proof.
  intros Hx Hy Hw Hh. unfold inTile. rewrite Hx, Hy, Hw, Hh. intros H; exact H.
Qed.

(** The loop of [call] over the components keeps what it has done for the
    components before. *)
Lemma call_loop_tiles (N : list (list node)) (d : R) (numCC : nat) l :
  (forall i, In i l -> (i < numCC)%nat /\ NoDup (nth i N [])) ->
  NoDup l ->
  (forall i j v, i <> j -> In v (nth i N []) -> ~ In v (nth j N [])) ->
  forall (s : CallState R) done,
    m_nodesInCC (cs_component s) = N ->
    m_minDistCC (cs_se s) = d ->
    length (cs_boundingBox s) = numCC ->
    (forall i, In i l -> ~ In i done) ->
    (forall i v, In i done -> In v (nth i N []) ->
       inTile (cs_AG s) d (0, 0) (nth i (cs_boundingBox s) (0, 0)) v) ->
    let s' := fold_left (call_cc ext) l s in
    forall i v, In i (done ++ l) -> In v (nth i N []) ->
      inTile (cs_AG s') d (0, 0) (nth i (cs_boundingBox s') (0, 0)) v.
Proof.
  induction l as [|i l IH]; intros Hl Hnd Hdis s done HN Hd Hlen Hfresh Hinv.
  - cbn. intros k v Hk. rewrite app_nil_r in Hk. apply Hinv. exact Hk.
  - cbn [fold_left]. apply NoDup_cons_iff in Hnd. destruct Hnd as [Hi Hnd'].
    destruct (Hl i (or_introl eq_refl)) as [Hilt Hindd].
    rewrite <- HN in Hindd.
    pose proof Hindd as Hcc.
    destruct (call_cc_moves ext s i Hcc) as (_ & Hout & HB).
    destruct (call_cc_same ext s i) as [(_ & Hw & Hh & _) Hopt].
    intros k v Hk Hv.
    apply (IH ltac:(intros j Hj; apply Hl; right; exact Hj) Hnd' Hdis
              (call_cc ext s i) (done ++ [i])).
    + rewrite call_cc_nodesInCC. exact HN.
    + unfold sameOptions in Hopt. rewrite Hopt. exact Hd.
    + rewrite HB, store_length. exact Hlen.
    + intros j Hj Hjd. apply in_app_or in Hjd. destruct Hjd as [Hjd|[<-|[]]].
      * apply (Hfresh j); [right; exact Hj | exact Hjd].
      * contradiction.
    + intros j u Hj Hu. apply in_app_or in Hj. destruct Hj as [Hj|[<-|[]]].
      * assert (Hji : j <> i).
        { intros ->. apply (Hfresh i); [left; reflexivity | exact Hj]. }
        assert (Hui : ~ In u (nth i (m_nodesInCC (cs_component s)) []))
          by (rewrite HN; apply (Hdis j i u Hji Hu)).
        destruct (Hout u Hui) as [Hx Hy].
        rewrite HB, nth_store_other by (intros E; apply Hji; symmetry; exact E).
        apply (@inTile_ext (cs_AG s) (cs_AG (call_cc ext s i)) d (0, 0)
                 (nth j (cs_boundingBox s) (0, 0)) u Hx Hy Hw Hh).
        apply Hinv; assumption.
      * rewrite <- Hd.
        apply (@call_cc_in_box ext s i u Hcc); [lia | rewrite HN; exact Hu].
    + rewrite <- app_assoc. exact Hk.
    + exact Hv.
Qed.

(** X30, in exact arithmetic: where [call] leaves the nodes. With the
    bounding boxes it hands to the packer and the offsets the packer
    returns, the rectangle of every node of the graph, of the node's width
    and height around its final position, lies in the tile of its component:
    the bounding box of the component placed at the offset of the component,
    with the left and the lower side of the rectangle at [m_minDistCC] or
    more from those of the tile. (So components do not overlap when the
    tiles of the packer do not.) The nodes of the graph are listed once and
    the component indices are below the number of components. The statement
    is over the real numbers: it supposes that the subtraction of the lower
    bounds and the addition of the offsets are exact. *)
Theorem call_places_nodes_in_their_tiles (se : SpringEmbedderFRExact R)
    (AG : GraphAttributes R) numCC comp :
  connectedComponents ext (constGraph AG) = (numCC, comp) ->
  NoDup (nodes (constGraph AG)) ->
  (forall v, In v (nodes (constGraph AG)) -> (comp v < numCC)%nat) ->
  let AG' := snd (fst (call ext se AG)) in
  let boxes := cs_boundingBox (call_loop ext se AG) in
  let offset := packer_call ext boxes (m_pageRatio se) in
  forall v, In v (nodes (constGraph AG)) ->
    inTile AG' (m_minDistCC se) (nth (comp v) offset (0, 0)) (nth (comp v) boxes (0, 0)) v.
Proof.
  intros Hcomp Hnd Hlt AG' boxes offset v Hv.
  assert (Hne : empty (constGraph AG) = false).
  { unfold empty. destruct (nodes (constGraph AG)); [destruct Hv | reflexivity]. }
  set (s0 := call_start ext se (clearAllBends AG)).
  set (N := m_nodesInCC (cs_component s0)).
  assert (HnumCC : m_numCC (cs_component s0) = numCC).
  { unfold s0, call_start, ArrayGraph_new. cbn [constGraph clearAllBends].
    rewrite Hcomp. reflexivity. }
  assert (HN : forall i, (i < numCC)%nat ->
            nth i N [] = filter (fun u => Nat.eqb (comp u) i) (nodes (constGraph AG))).
  { intros i Hi. apply (@nodesInCC_new R ext (clearAllBends AG) numCC comp i Hcomp Hi). }
  assert (HNout : forall i, (numCC <= i)%nat -> nth i N [] = []).
  { intros i Hi. apply nth_overflow. unfold N, s0, call_start, ArrayGraph_new.
    cbn [constGraph clearAllBends]. rewrite Hcomp.
    cbn [set_useNodeWeight m_nodesInCC cs_component].
    rewrite pushBack_fold_length, alloc_length. exact Hi. }
  assert (Hmem : forall i u, In u (nth i N []) ->
            (i < numCC)%nat /\ In u (nodes (constGraph AG)) /\ comp u = i).
  { intros i u Hu. destruct (Nat.lt_ge_cases i numCC) as [Hi|Hi].
    - rewrite (HN i Hi) in Hu. apply filter_In in Hu. destruct Hu as [Hu1 Hu2].
      apply Nat.eqb_eq in Hu2. repeat split; assumption.
    - rewrite (HNout i Hi) in Hu. destruct Hu. }
  assert (Hdis : forall i j u, i <> j -> In u (nth i N []) -> ~ In u (nth j N [])).
  { intros i j u Hij Hi Hj. apply Hmem in Hi. apply Hmem in Hj.
    destruct Hi as (_ & _ & Hi). destruct Hj as (_ & _ & Hj). congruence. }
  assert (HNnd : forall i, NoDup (nth i N [])).
  { intros i. destruct (Nat.lt_ge_cases i numCC) as [Hi|Hi].
    - rewrite (HN i Hi). apply NoDup_filter. exact Hnd.
    - rewrite (HNout i Hi). constructor. }
  assert (HvN : In v (nth (comp v) N [])).
  { rewrite (HN (comp v) (Hlt v Hv)). apply filter_In. split; [exact Hv|].
    apply Nat.eqb_refl. }
  set (s := call_loop ext se AG).
  assert (Hs : s = fold_left (call_cc ext) (seq 0 numCC) s0).
  { unfold s, call_loop. fold s0. rewrite HnumCC. reflexivity. }
  destruct (call_loop_same ext (seq 0 numCC) s0) as [Hsame Hopt]. rewrite <- Hs in Hsame, Hopt.
  assert (Htile : inTile (cs_AG s) (m_minDistCC se) (0, 0)
                    (nth (comp v) (cs_boundingBox s) (0, 0)) v).
  { rewrite Hs.
    apply (@call_loop_tiles N (m_minDistCC se) numCC (seq 0 numCC)) with (done := []).
    - intros i Hi. apply in_seq in Hi. split; [lia | apply HNnd].
    - apply seq_NoDup.
    - exact Hdis.
    - reflexivity.
    - reflexivity.
    - unfold s0, call_start. cbn [cs_boundingBox]. rewrite alloc_length. exact HnumCC.
    - intros i _ [].
    - intros i u [].
    - cbn [app]. apply in_seq. pose proof (Hlt v Hv). lia.
    - exact HvN. }
  assert (HNs : m_nodesInCC (cs_component s) = N).
  { rewrite Hs. apply call_loop_nodesInCC. }
  assert (HAG' : AG' = fold_left (offset_cc (cs_component s) offset) (seq 0 numCC) (cs_AG s)).
  { unfold AG', call. rewrite Hne. cbn [fst snd]. fold s0. rewrite HnumCC, <- Hs.
    unfold offset, boxes. fold s.
    unfold sameOptions in Hopt. rewrite Hopt. reflexivity. }
  destruct (@offset_loop_in R _ (cs_component s) offset (seq 0 numCC) (cs_AG s) (comp v) v)
    as [Hx Hy].
  { apply seq_NoDup. }
  { apply in_seq. pose proof (Hlt v Hv). lia. }
  { rewrite HNs. apply HNnd. }
  { rewrite HNs. exact HvN. }
  { intros j Hj. rewrite HNs. apply (Hdis (comp v) j v); [congruence | exact HvN]. }
  pose proof (offset_loop_same (cs_component s) offset (seq 0 numCC) (cs_AG s))
    as (_ & Hw & Hh & _).
  rewrite <- HAG' in Hx, Hy, Hw, Hh.
  change (@num0 R _) with 0 in Hx, Hy. cbn [num_add R_arith] in Hx, Hy.
  unfold inTile in *. fold boxes in Htile.
  rewrite Hx, Hy, Hw, Hh. cbn [fst snd] in Htile.
  change boxes with (cs_boundingBox s).
  repeat split; lra.
Qed.

End Tiles.

(** * Runs of the code on binary64 numbers *)

(** ** What the runs show *)

(** C1, as stated, fails: for the single node at (5, 7) the write-back loop
    stores the x coordinate 5 of the input, and not the 0 that [initialize]
    would give it. *)
Lemma single_node_written_back_unscaled :
  let C := viewF AG_single 0 in
  let C' := snd (fst (layoutCC (extF true) (seF 1000 true) C 0)) in
  ga_x (wb_AG (writeBack C' AG_single)) 0%nat
  <> rd (m_x (snd (initialize (seF 1000 true) C))) 0.
Proof.
  intros C C' H.
  apply (f_equal (fun z => PrimFloat.eqb z 5%float)) in H.
  vm_compute in H. discriminate H.
Qed.

(** C7, as stated, fails: of the two edges of the pair with a self-loop at
    node 1, [initCC] stores one; the self-loop is not stored. *)
Lemma self_loop_not_stored :
  ~ Permutation (storedEdges (viewF AG_loop 0))
      (map norm (componentEdges G_loop (snd (connectedComponents_ref G_loop)) 0)).
Proof.
  intros H. apply Permutation_length in H. vm_compute in H. discriminate H.
Qed.

(** For the two nodes at (3, 4), in binary64: both displacement buffers hold
    zeros after the two force passes, on both paths, and the capping moves
    the nodes by zero. *)
Lemma coincident_pair_forces_zero :
  let se := fst (initializedF 1000 false AG_coincident) in
  let C := snd (initializedF 1000 false AG_coincident) in
  forces se C = ([0%float; 0%float], [0%float; 0%float])
  /\ forces_sse3 (extF true) se C = ([0%float; 0%float], [0%float; 0%float])
  /\ xdisplace 0%float 0%float (m_txNull se) = 0%float
  /\ ydisplace 0%float 0%float (m_tyNull se) = 0%float.
Proof. vm_compute. repeat split. Qed.

(** C8, as stated, fails: two nodes at (3, 4), joined by an edge, are not
    apart after the thousand rounds of the default budget, on the scalar and
    on the vectorized path; both are at (0, 0), where [initialize] put
    them. *)
Lemma coincident_pair_not_separated :
  ~ separated (mainStep (extF true) (fst (initializedF 1000 false AG_coincident))
                 (snd (initializedF 1000 false AG_coincident)))
  /\ ~ separated (mainStep_sse3 (extF true) (fst (initializedF 1000 false AG_coincident))
                    (snd (initializedF 1000 false AG_coincident))).
Proof.
  split; intros [H|H]; apply H; vm_compute; reflexivity.
Qed.

(** Beside a third node, two nodes at the same place do separate: on the
    path 0 - 1 - 2 with nodes 0 and 1 both at (3, 4), [initialize] leaves the
    two at one position, the forces on them differ (node 1 is pulled by its
    edge to node 2, node 0 is not), and after [mainStep] they are apart. *)
Lemma coincident_nodes_separate_beside_a_third :
  let se := fst (initializedF 1000 false AG_path) in
  let C := snd (initializedF 1000 false AG_path) in
  (rd (m_x C) 0 = rd (m_x C) 1 /\ rd (m_y C) 0 = rd (m_y C) 1)
  /\ PrimFloat.eqb (rd (fst (forces se C)) 0) (rd (fst (forces se C)) 1) = false
  /\ PrimFloat.eqb (rd (m_x (mainStep (extF true) se C)) 0)
                   (rd (m_x (mainStep (extF true) se C)) 1) = false
  /\ PrimFloat.eqb (rd (m_x (mainStep_sse3 (extF true) se C)) 0)
                   (rd (m_x (mainStep_sse3 (extF true) se C)) 1) = false.
Proof. vm_compute. repeat split. Qed.

(** With an ideal edge length of 1e200 the factor [c_rep] of the repulsive
    pass is infinite, and for the two nodes at (3, 4) the displacement is
    zero times infinity: NaN, on both paths, and so are the positions
    after the run. *)
Lemma coincident_pair_nan_when_factor_overflows :
  let se := fst (initialize seF_long (viewF AG_coincident 0)) in
  let C := snd (initialize seF_long (viewF AG_coincident 0)) in
  c_rep se = PrimFloat.infinity
  /\ PrimFloat.is_nan (rd (fst (forces se C)) 0) = true
  /\ PrimFloat.is_nan (rd (fst (forces_sse3 (extF true) se C)) 0) = true
  /\ PrimFloat.is_nan (rd (m_x (mainStep (extF true) se C)) 0) = true
  /\ PrimFloat.is_nan (rd (m_x (mainStep_sse3 (extF true) se C)) 0) = true.
Proof. vm_compute. repeat split. Qed.


(** C2, where the code fails it: the pair at (0, 0) and (3, 0), with
    [checkConvergence] set and a budget of 1000. In the first round no node
    exceeds the threshold, and [mainStep] leaves its loop after that round
    ([itCount] is 2); the loop of [mainStep_sse3] runs all 1000 rounds
    ([i] is 1001). *)
Theorem sse3_runs_whole_budget_when_converged :
  let se := fst (initializedF 1000 true AG_near) in
  let C := snd (initializedF 1000 true AG_near) in
  forallb (fun v => negb (exceeds se (forces se C) (m_txNull se) (m_tyNull se) v))
    (seq 0 (m_numNodes C)) = true
  /\ ml_itCount (mainStep_run (extF true) se C) = 2%Z
  /\ sl_i (sse3_run (extF true) se C) = 1001%Z.
Proof. vm_compute. repeat split. Qed.

(** C3, where the code fails it: the pair at (0, 0) and (30, 40), with
    [checkConvergence] set and a budget of 1000. [mainStep] stops after 29
    rounds, [mainStep_sse3] after 1000, and the positions they leave differ.
    Without [checkConvergence] the two paths leave the same positions. *)
Theorem sse3_and_scalar_disagree_on_convergence :
  let se := fst (initializedF 1000 true AG_far) in
  let C := snd (initializedF 1000 true AG_far) in
  let se' := fst (initializedF 1000 false AG_far) in
  ml_itCount (mainStep_run (extF true) se C) = 30%Z
  /\ sl_i (sse3_run (extF true) se C) = 1001%Z
  /\ m_x (mainStep (extF true) se C) <> m_x (mainStep_sse3 (extF true) se C)
  /\ m_x (mainStep (extF true) se' C) = m_x (mainStep_sse3 (extF true) se' C)
  /\ m_y (mainStep (extF true) se' C) = m_y (mainStep_sse3 (extF true) se' C).
Proof.
  intros se C se'. split; [vm_compute; reflexivity|]. split; [vm_compute; reflexivity|].
  split.
  - intros H.
    apply (f_equal (fun l => PrimFloat.eqb (hd 0%float l) (hd 0%float (m_x (mainStep (extF true) se C))))) in H.
    vm_compute in H. discriminate H.
  - split; vm_compute; reflexivity.
Qed.

(** ** The theorems at concrete inputs *)

(** [zero_budget_skips_engine] on the pair at (0, 0) and (30, 40), in
    binary64, with a budget of zero. *)
Lemma zero_budget_skips_engine_witness :
  m_iterations (seF 0 true) = 0%Z
  /\ mainStep (extF true) (seF 0 true) (viewF AG_far 0) = viewF AG_far 0
  /\ mainStep_sse3 (extF true) (seF 0 true) (viewF AG_far 0) = viewF AG_far 0.
Proof.
  split; [reflexivity|].
  pose proof (zero_budget_skips_engine (extF true) (seF 0 true) (viewF AG_far 0) eq_refl)
    as (_ & _ & H1 & H2 & _).
  split; [exact H1 | exact H2].
Defined.

(** [call_clears_all_bends] on the same pair, each edge of which has two
    bend points before the call. *)
Lemma call_clears_all_bends_witness :
  empty (constGraph AG_far) = false
  /\ ga_bends (snd (fst (call (extF true) (seF 1000 true) AG_far))) 0%nat = [].
Proof.
  split; [reflexivity|].
  apply (call_clears_all_bends (extF true) (seF 1000 true) AG_far eq_refl).
Defined.

(** [single_node_component_keeps_input] on the graph of one node, at the
    start of the loop of [call]. *)
Lemma single_node_component_keeps_input_witness :
  let s := call_start (extF true) (seF 1000 true) (clearAllBends AG_single) in
  nth 0 (m_nodesInCC (cs_component s)) [] = [0%nat]
  /\ cs_trace (call_cc (extF true) s 0) = [EvClearAllBends; EvInitCC 0].
Proof.
  intros s. split; [reflexivity|].
  apply (single_node_component_keeps_input (extF true) s 0 (v := 0%nat) eq_refl).
Defined.

(** [initCC_flat_view] on the pair with a self-loop, with the components the
    reference [connectedComponents_ref] gives. *)
Lemma initCC_flat_view_witness :
  wellFormed G_loop
  /\ closedComponents G_loop (snd (connectedComponents_ref G_loop))
  /\ (0 < fst (connectedComponents_ref G_loop))%nat
  /\ Permutation (storedEdges (viewF AG_loop 0))
       (map norm (filter (fun e => negb (isLoop e))
          (componentEdges G_loop (snd (connectedComponents_ref G_loop)) 0))).
Proof.
  assert (Hwf : wellFormed G_loop).
  { split.
    - repeat constructor; simpl; intuition discriminate.
    - intros e [<-|[<-|[]]]; simpl; auto. }
  assert (Hcl : closedComponents G_loop (snd (connectedComponents_ref G_loop))).
  { intros e [<-|[<-|[]]]; reflexivity. }
  assert (Hlt : (0 < fst (connectedComponents_ref G_loop))%nat) by (vm_compute; lia).
  split; [exact Hwf|]. split; [exact Hcl|]. split; [exact Hlt|].
  apply (initCC_flat_view (extF false) AG_loop (ArrayGraph_new (extF false) AG_loop)
           (numCC := fst (connectedComponents_ref G_loop))
           (comp := snd (connectedComponents_ref G_loop)) (i := 0%nat)
           (surjective_pairing _) eq_refl Hwf Hcl Hlt).
Defined.

(** [initialize_rescales] on the view of a pair at (0, 0) and (3, 4). *)
Lemma initialize_rescales_witness :
  (1 <= m_numNodes C_farR)%nat
  /\ isBoundingBox C_farR (boundingBoxOf C_farR)
  /\ only_xy C_farR (snd (initialize seR C_farR)).
Proof.
  assert (H1 : (1 <= m_numNodes C_farR)%nat) by (simpl; lia).
  split; [exact H1|].
  pose proof (initialize_rescales seR C_farR H1 eq_refl eq_refl) as (Hb & _ & _ & _ & _ & Ho).
  split; [exact Hb | exact Ho].
Defined.

(** [cool_never_heats] in logarithmic mode, from the temperatures 2 and 3:
    the third call against the second, and the first call. *)
Lemma cool_never_heats_witness :
  (0 <= m_txNull seR)%R
  /\ (tempX (cooled extR seR 3) <= tempX (cooled extR seR 2))%R
  /\ cool extR seR (2%R, 3%R, 1%Z) = (2%R, 3%R, 2%Z).
Proof.
  assert (Hx : (0 <= m_txNull seR)%R) by (simpl; lra).
  assert (Hy : (0 <= m_tyNull seR)%R) by (simpl; lra).
  assert (Hf : m_coolingFunction seR = Factor ->
               (0 < m_coolFactor_x seR <= 1 /\ 0 < m_coolFactor_y seR <= 1)%R)
    by (intros H; discriminate H).
  split; [exact Hx|].
  pose proof (cool_never_heats extR eq_refl seR 2 Hx Hy Hf) as ((H1 & _) & H2).
  split; [exact H1 | exact (H2 eq_refl)].
Defined.


(** [coincident_pair_stays_put] on the pair with both nodes at (3, 4), in
    binary64, as [call] hands it to the engine: [initialize] has put both
    nodes at (0, 0) and set positive temperatures; node 1 is still at x = 0
    after the thousand rounds of the vectorized loop. *)
Lemma coincident_pair_stays_put_witness :
  let se := fst (initializedF 1000 false AG_coincident) in
  let C := snd (initializedF 1000 false AG_coincident) in
  m_x C = [0%float; 0%float]
  /\ is_finite (c_rep se) = true
  /\ nonneg (m_txNull se) = true
  /\ PrimFloat.eqb (rd (m_x (mainStep_sse3 (extF true) se C)) 1) 0%float = true.
Proof.
  intros se C.
  assert (Hn : m_numNodes C = 2) by (vm_compute; reflexivity).
  assert (Hx : m_x C = [0%float; 0%float]) by (vm_compute; reflexivity).
  assert (Hy : m_y C = [0%float; 0%float]) by (vm_compute; reflexivity).
  assert (He : forall e, rdi (m_src C) e < 2 /\ rdi (m_tgt C) e < 2).
  { intros e. change (m_src C) with [0%nat]. change (m_tgt C) with [1%nat].
    unfold rdi. destruct e as [|[|e]]; cbn [nth]; lia. }
  assert (Hw : forall u, u < 2 ->
            is_finite (PrimFloat.div (rd (m_nodeWeight C) u) minDistSquare) = true).
  { intros u Hu. destruct u as [|[|u]]; [vm_compute; reflexivity | vm_compute; reflexivity | lia]. }
  assert (Hcrep : is_finite (c_rep se) = true) by (vm_compute; reflexivity).
  assert (Hksq : OGDF_SPRINGEMBEDDERFREXACT_USE_KSQUARE (extF true) = true ->
            is_finite (PrimFloat.div
                         (PrimFloat.mul (m_idealEdgeLength se) (m_idealEdgeLength se))
                         minDistSquare) = true) by (intros _; vm_compute; reflexivity).
  assert (Hk0 : is_zero (m_idealEdgeLength se) = false) by (vm_compute; reflexivity).
  assert (Htx : nonneg (m_txNull se) = true) by (vm_compute; reflexivity).
  assert (Hty : nonneg (m_tyNull se) = true) by (vm_compute; reflexivity).
  assert (Hf : m_coolingFunction se = Factor ->
            posfin (m_coolFactor_x se) = true /\ posfin (m_coolFactor_y se) = true)
    by (intros _; split; vm_compute; reflexivity).
  assert (Hl : m_coolingFunction se = Logarithmic ->
            is_finite (m_txNull se) = true /\ is_finite (m_tyNull se) = true
            /\ forall c, nonneg (mylog2 (extF true) c) = true)
    by (intros H; discriminate H).
  split; [exact Hx|]. split; [exact Hcrep|]. split; [exact Htx|].
  pose proof (@coincident_pair_stays_put (extF true) se C 0%float 0%float Hn Hx Hy He
                eq_refl eq_refl Hw Hcrep Hksq Hk0 Htx Hty Hf Hl)
    as (_ & _ & _ & _ & _ & _ & H).
  destruct (H 1%nat ltac:(lia)) as [H1 _]. exact H1.
Defined.

(** ** The further theorems at concrete inputs *)

(** [ArrayGraph_new_partitions_nodes] on the three nodes in two
    components. *)
Lemma ArrayGraph_new_partitions_nodes_witness :
  (forall v, In v (nodes G_two) ->
     snd (connectedComponents_ref G_two) v < fst (connectedComponents_ref G_two))
  /\ Permutation (concat (m_nodesInCC (ArrayGraph_new (extF true) AG_two)))
       [0%nat; 1%nat; 2%nat].
Proof.
  assert (Hlt : forall v, In v (nodes G_two) ->
            snd (connectedComponents_ref G_two) v < fst (connectedComponents_ref G_two)).
  { intros v [<-|[<-|[<-|[]]]]; vm_compute; lia. }
  split; [exact Hlt|].
  pose proof (@ArrayGraph_new_partitions_nodes float (extF true) AG_two
                (fst (connectedComponents_ref G_two)) (snd (connectedComponents_ref G_two))
                (surjective_pairing _) Hlt) as (_ & _ & _ & H & _).
  exact H.
Defined.

(** [initCC_copies_attributes] for the second cell of the view of the pair
    at (0, 0) and (30, 40). *)
Lemma initCC_copies_attributes_witness :
  1 < m_numNodes (viewF AG_far 0)
  /\ rd (m_x (viewF AG_far 0)) 1 = ga_x AG_far (original (viewF AG_far 0) 1).
Proof.
  assert (Hj : 1 < m_numNodes (initCC AG_far (ArrayGraph_new (extF false) AG_far) 0))
    by (vm_compute; lia).
  split; [exact Hj|].
  pose proof (@initCC_copies_attributes float _ AG_far (ArrayGraph_new (extF false) AG_far)
                0 1 Hj) as (_ & _ & H & _).
  exact H.
Defined.

(** [initCC_forgets_previous_component] on the three nodes: the view of the
    component of nodes 0 and 2, built first and built after the view of the
    other component. *)
Lemma initCC_forgets_previous_component_witness :
  let A := ArrayGraph_new (extF false) AG_two in
  NoDup (nth 0 (m_nodesInCC A) [])
  /\ m_tgt (initCC AG_two A 0) = m_tgt (initCC AG_two (initCC AG_two A 1) 0).
Proof.
  intros A.
  assert (Hnd : NoDup (nth 0 (m_nodesInCC A) [])).
  { vm_compute. repeat constructor; simpl; intuition discriminate. }
  assert (Hcl : forall v adj, In v (nth 0 (m_nodesInCC A) []) ->
            In adj (recorded (constGraph AG_two) v) ->
            In (twinNode adj) (nth 0 (m_nodesInCC A) [])).
  { intros v adj Hv Hadj. vm_compute in Hv. destruct Hv as [<-|[<-|[]]].
    - vm_compute in Hadj. destruct Hadj as [<-|[]]. vm_compute. auto.
    - vm_compute in Hadj. destruct Hadj. }
  split; [exact Hnd|].
  pose proof (@initCC_forgets_previous_component float _ AG_two A (initCC AG_two A 1) 0
                eq_refl eq_refl Hnd Hcl) as ((_ & _ & _ & _ & H & _) & _).
  exact H.
Defined.

(** [initialize_scales_both_axes_alike] on the view of a pair at (0, 0) and
    (3, 4), for an ideal edge length of 10. *)
Lemma initialize_scales_both_axes_alike_witness :
  (0 < m_idealEdgeLength seR)%R
  /\ (0 < 10 * sqrt (INR 2 / ((xmax (boundingBoxOf C_farR) - xmin (boundingBoxOf C_farR) + 10)
                              * (ymax (boundingBoxOf C_farR) - ymin (boundingBoxOf C_farR) + 10))))%R.
Proof.
  assert (Hn : (1 <= m_numNodes C_farR)%nat) by (simpl; lia).
  assert (Hk : (0 < m_idealEdgeLength seR)%R) by (simpl; lra).
  split; [exact Hk|].
  pose proof (@initialize_scales_both_axes_alike seR C_farR Hn eq_refl eq_refl Hk) as (H & _).
  exact H.
Defined.

(** [initialize_spreads_over_area] on the same view: some node gets the x
    coordinate 0. *)
Lemma initialize_spreads_over_area_witness :
  (0 < m_idealEdgeLength seR)%R
  /\ exists v, (v < m_numNodes C_farR)%nat /\ rd (m_x (snd (initialize seR C_farR))) v = 0%R.
Proof.
  assert (Hn : (1 <= m_numNodes C_farR)%nat) by (simpl; lia).
  assert (Hk : (0 < m_idealEdgeLength seR)%R) by (simpl; lra).
  split; [exact Hk|].
  pose proof (@initialize_spreads_over_area seR C_farR Hn eq_refl eq_refl Hk)
    as (_ & _ & H & _).
  exact H.
Defined.

(** [initialize_forgets_translation] on the same view, moved by (7, -2). *)
Lemma initialize_forgets_translation_witness :
  (1 <= m_numNodes C_farR)%nat
  /\ initialize seR (translate 7%R (-2)%R C_farR) = initialize seR C_farR.
Proof.
  assert (Hn : (1 <= m_numNodes C_farR)%nat) by (simpl; lia).
  split; [exact Hn|].
  pose proof (@initialize_forgets_translation extR seR C_farR 7%R (-2)%R 0%nat Hn
                eq_refl eq_refl) as (H & _).
  exact H.
Defined.

(** [cool_by_factor_is_geometric] for the default embedder, after three
    rounds. *)
Lemma cool_by_factor_is_geometric_witness :
  m_coolingFunction seR_default = Factor
  /\ cooled extR seR_default 3
     = ((2 * (9 / 10) ^ 3)%R, (3 * (9 / 10) ^ 3)%R, 1%Z).
Proof.
  split; [reflexivity|].
  apply (@cool_by_factor_is_geometric extR seR_default 3 eq_refl).
Defined.

(** [mainStep_runs_within_budget] on the pair at (0, 0) and (30, 40), in
    binary64, as [call] hands it to the engine. *)
Lemma mainStep_runs_within_budget_witness :
  let se := fst (initializedF 1000 true AG_far) in
  let C := snd (initializedF 1000 true AG_far) in
  (1 <= m_iterations se < INT_MAX)%Z
  /\ 1 <= roundsDone (extF true) se C
  /\ (Z.of_nat (roundsDone (extF true) se C) <= m_iterations se)%Z.
Proof.
  intros se C.
  assert (Hit : (1 <= m_iterations se < INT_MAX)%Z)
    by (split; [vm_compute; discriminate | vm_compute; reflexivity]).
  split; [exact Hit|].
  pose proof (@mainStep_runs_within_budget float _ (extF true) se C Hit) as (H1 & H2 & _).
  split; [exact H1 | exact H2].
Defined.

(** [mainStep_stops_at_first_quiet_round] on the same run: its 29 rounds
    are fewer than the budget, so the last one is quiet. *)
Lemma mainStep_stops_at_first_quiet_round_witness :
  let se := fst (initializedF 1000 true AG_far) in
  let C := snd (initializedF 1000 true AG_far) in
  m_checkConvergence se = true
  /\ quiet se (afterRounds (extF true) se C (roundsDone (extF true) se C - 1)) = true.
Proof.
  intros se C.
  assert (Hchk : m_checkConvergence se = true) by reflexivity.
  assert (Hit : (1 <= m_iterations se)%Z) by (vm_compute; discriminate).
  split; [exact Hchk|].
  pose proof (@mainStep_stops_at_first_quiet_round float _ (extF true) se C Hchk Hit)
    as (_ & H).
  apply H. vm_compute. reflexivity.
Defined.

(** [mainStep_sse3_runs_whole_budget] on the same pair: the counter of the
    loop ends at 1001. *)
Lemma mainStep_sse3_runs_whole_budget_witness :
  let se := fst (initializedF 1000 true AG_far) in
  let C := snd (initializedF 1000 true AG_far) in
  (m_iterations se < INT_MAX)%Z
  /\ sl_i (sse3_run (extF true) se C) = 1001%Z.
Proof.
  intros se C.
  assert (Hmax : (m_iterations se < INT_MAX)%Z) by (vm_compute; reflexivity).
  split; [exact Hmax|].
  pose proof (@mainStep_sse3_runs_whole_budget float _ (extF true) se C Hmax) as (_ & H & _).
  exact H.
Defined.

(** [negative_budget_runs_scalar_round_only] on the same pair, for a budget
    of -1. *)
Lemma negative_budget_runs_scalar_round_only_witness :
  let se := fst (initializedF (-1) true AG_far) in
  let C := snd (initializedF (-1) true AG_far) in
  (m_iterations se < 0)%Z
  /\ ml_itCount (mainStep_run (extF true) se C) = 2%Z
  /\ mainStep_sse3 (extF true) se C = C.
Proof.
  intros se C.
  assert (Hneg : (m_iterations se < 0)%Z) by (vm_compute; reflexivity).
  split; [exact Hneg|].
  pose proof (@negative_budget_runs_scalar_round_only float _ (extF true) se C Hneg)
    as (_ & H1 & _ & _ & H2).
  split; [exact H1 | exact (H2 eq_refl)].
Defined.


(** [ksquare_build_ignores_node_weights] on the pair at (0, 0) and (30, 40),
    in binary64, with the weights 7 and 9 in place of 1 and 1. *)
Lemma ksquare_build_ignores_node_weights_witness :
  OGDF_SPRINGEMBEDDERFREXACT_USE_KSQUARE extK = true
  /\ m_x (mainStep_sse3 extK (seF 3 true) (set_nodeWeight (viewF AG_far 0) [7%float; 9%float]))
     = m_x (mainStep_sse3 extK (seF 3 true) (viewF AG_far 0)).
Proof.
  split; [reflexivity|].
  rewrite (@ksquare_build_ignores_node_weights float _ extK eq_refl eq_refl (seF 3 true)
             (viewF AG_far 0) [7%float; 9%float]).
  reflexivity.
Defined.

(** [layout_does_not_depend_on_processor] on the view of a pair at (0, 0)
    and (3, 4), for collaborators with SSE3. *)
Lemma layout_does_not_depend_on_processor_witness :
  m_checkConvergence seR_nocheck = false
  /\ snd (fst (layoutCC extR seR_nocheck C_farR 0))
     = mainStep extR (fst (initialize seR_nocheck C_farR))
         (snd (initialize seR_nocheck C_farR)).
Proof.
  split; [reflexivity|].
  assert (Hit : (0 <= m_iterations seR_nocheck)%Z) by (simpl; lia).
  rewrite (@layout_does_not_depend_on_processor extR seR_nocheck C_farR 0
             eq_refl eq_refl Hit).
  reflexivity.
Defined.

(** [capping_shortens_only] for the displacement (3, 4) and the
    temperatures 2 and 3. *)
Lemma capping_shortens_only_witness :
  (0 <= 2)%R
  /\ xdisplace 3%R 4%R 2%R
     = (3 * (Rmin (cap_dist 3 4) 2 / cap_dist 3 4))%R.
Proof.
  assert (Hx : (0 <= 2)%R) by lra.
  assert (Hy : (0 <= 3)%R) by lra.
  split; [exact Hx|].
  pose proof (@capping_shortens_only 3%R 4%R 2%R 3%R Hx Hy) as ((H & _) & _).
  exact H.
Defined.


(** [default_embedder] for default nodes of 20 by 20 at a distance of 20. *)
Lemma default_embedder_witness :
  (0 < defaultNodeSeparation lsR)%R
  /\ (0 < m_idealEdgeLength seR_default)%R
  /\ roundsDone extR seR_default C_farR <= 1000.
Proof.
  assert (Hs : (0 < defaultNodeSeparation lsR)%R) by (simpl; lra).
  split; [exact Hs|].
  pose proof (@default_embedder extR lsR 2%R 3%R Hs) as ((H1 & _) & H2 & _).
  split; [exact H1 | apply H2].
Defined.

(** [call_translates_each_component] on the three nodes, in binary64, for
    the component of nodes 0 and 2: node 1, of the other component, is not
    moved. *)
Lemma call_translates_each_component_witness :
  let s := call_start (extF true) (seF 1000 true) (clearAllBends AG_two) in
  NoDup (nth 0 (m_nodesInCC (cs_component s)) [])
  /\ ga_x (cs_AG (call_cc (extF true) s 0)) 1%nat = ga_x (cs_AG s) 1%nat.
Proof.
  intros s.
  assert (Hnd : NoDup (nth 0 (m_nodesInCC (cs_component s)) [])).
  { vm_compute. constructor; [intros [E|[]]; discriminate E|].
    constructor; [intros []|]. constructor. }
  assert (Hout : ~ In 1%nat (nth 0 (m_nodesInCC (cs_component s)) [])).
  { vm_compute. intros [E|[E|[]]]; discriminate E. }
  split; [exact Hnd|].
  pose proof (@call_translates_each_component float _ (extF true) s 0 Hnd) as (_ & H).
  destruct (H 1%nat Hout) as [Hx _]. exact Hx.
Defined.

(** [call_fits_component_in_bounding_box] for the same component: node 2
    keeps [m_minDistCC], which is 5, to the left. *)
Lemma call_fits_component_in_bounding_box_witness :
  (0 < length (cs_boundingBox s_twoR))%nat
  /\ (5 <= ga_x (cs_AG (call_cc extR s_twoR 0)) 2%nat
          - ga_width (cs_AG (call_cc extR s_twoR 0)) 2%nat / 2)%R.
Proof.
  assert (Hnd : NoDup (nth 0 (m_nodesInCC (cs_component s_twoR)) [])).
  { vm_compute. repeat constructor; simpl; intuition discriminate. }
  assert (Hi : (0 < length (cs_boundingBox s_twoR))%nat) by (vm_compute; lia).
  split; [exact Hi|].
  pose proof (@call_fits_component_in_bounding_box extR s_twoR 0 Hnd Hi 2%nat) as H.
  cbv zeta in H.
  assert (Hin : In 2%nat (nth 0 (m_nodesInCC (cs_component s_twoR)) []))
    by (vm_compute; auto).
  destruct (H Hin) as ((H1 & _) & _). exact H1.
Defined.

(** [call_places_nodes_in_their_tiles] on the three nodes, over the reals:
    node 2 after the call. *)
Lemma call_places_nodes_in_their_tiles_witness :
  NoDup (nodes (constGraph AG_twoR))
  /\ inTile (snd (fst (call extR seR AG_twoR))) 5%R
       (nth 0 (packer_call extR (cs_boundingBox (call_loop extR seR AG_twoR)) 1%R) (0%R, 0%R))
       (nth 0 (cs_boundingBox (call_loop extR seR AG_twoR)) (0%R, 0%R)) 2%nat.
Proof.
  assert (Hnd : NoDup (nodes (constGraph AG_twoR))).
  { simpl. repeat constructor; simpl; intuition discriminate. }
  assert (Hlt : forall v, In v (nodes (constGraph AG_twoR)) ->
            (snd (connectedComponents_ref G_two) v < fst (connectedComponents_ref G_two))%nat).
  { intros v [<-|[<-|[<-|[]]]]; vm_compute; lia. }
  split; [exact Hnd|].
  apply (@call_places_nodes_in_their_tiles extR seR AG_twoR
           (fst (connectedComponents_ref G_two)) (snd (connectedComponents_ref G_two))
           (surjective_pairing _) Hnd Hlt 2%nat).
  simpl. auto.
Defined.

(** [forces_follow_fruchterman_reingold] for the two nodes of the pair at
    (0, 0) and (3, 4), which are 5 apart: what node 1 adds to the
    displacement of node 0 in the repulsive pass. *)
Lemma forces_follow_fruchterman_reingold_witness :
  (0 < m_idealEdgeLength seR)%R
  /\ rep_pair C_farR 0 (0%R, 0%R) 1
     = ((0 + (0 - 3) * (1 / ((0 - 3) * (0 - 3) + (0 - 4) * (0 - 4))))%R,
        (0 + (0 - 4) * (1 / ((0 - 3) * (0 - 3) + (0 - 4) * (0 - 4))))%R).
Proof.
  assert (Hk : (0 < m_idealEdgeLength seR)%R) by (simpl; lra).
  assert (Hdd : (minDistSquare
                 <= (rd (m_x C_farR) 0 - rd (m_x C_farR) 1)
                    * (rd (m_x C_farR) 0 - rd (m_x C_farR) 1)
                    + (rd (m_y C_farR) 0 - rd (m_y C_farR) 1)
                      * (rd (m_y C_farR) 0 - rd (m_y C_farR) 1))%R).
  { unfold minDistSquare, minDist, C_farR, viewR, rd.
    cbn [m_x m_y nth lit_10e_6 num_mul R_arith]. lra. }
  assert (Hne : 1%nat <> 0%nat) by lia.
  split; [exact Hk|].
  pose proof (@forces_follow_fruchterman_reingold seR C_farR 0%nat 1%nat Hdd Hk Hne)
    as (H & _).
  apply (H (0%R, 0%R)).
Defined.

(** [call_bounding_box_is_tight] for the component of nodes 0 and 2 of the
    three nodes: the left side of some rectangle is at 5. *)
Lemma call_bounding_box_is_tight_witness :
  (forall v, In v (nth 0 (m_nodesInCC (cs_component s_twoR)) []) ->
     (0 <= ga_width (cs_AG s_twoR) v /\ 0 <= ga_height (cs_AG s_twoR) v)%R)
  /\ exists v, In v (nth 0 (m_nodesInCC (cs_component s_twoR)) [])
       /\ (ga_x (cs_AG (call_cc extR s_twoR 0)) v
           - ga_width (cs_AG (call_cc extR s_twoR 0)) v / 2 = 5)%R.
Proof.
  assert (Hnd : NoDup (nth 0 (m_nodesInCC (cs_component s_twoR)) [])).
  { vm_compute. repeat constructor; simpl; intuition discriminate. }
  assert (Hi : (0 < length (cs_boundingBox s_twoR))%nat) by (vm_compute; lia).
  assert (Hne : (1 <= length (nth 0 (m_nodesInCC (cs_component s_twoR)) []))%nat)
    by (vm_compute; lia).
  assert (Hpos : forall v, In v (nth 0 (m_nodesInCC (cs_component s_twoR)) []) ->
            (0 <= ga_width (cs_AG s_twoR) v /\ 0 <= ga_height (cs_AG s_twoR) v)%R).
  { intros v _. simpl. lra. }
  split; [exact Hpos|].
  pose proof (@call_bounding_box_is_tight extR s_twoR 0 Hnd Hi Hne Hpos) as (H & _).
  exact H.
Defined.

(** [isolated_node_lands_at_margin] for node 1 of the three nodes, which is
    a component of its own: nodes are 2 by 2 and [m_minDistCC] is 5. *)
Lemma isolated_node_lands_at_margin_witness :
  nth 1 (m_nodesInCC (cs_component s_twoR)) [] = [1%nat]
  /\ ga_x (cs_AG (call_cc extR s_twoR 1)) 1%nat = (5 + 2 / 2)%R.
Proof.
  assert (Hcc : nth 1 (m_nodesInCC (cs_component s_twoR)) [] = [1%nat]) by reflexivity.
  assert (Hi : (1 < length (cs_boundingBox s_twoR))%nat) by (vm_compute; lia).
  assert (Hw : (0 <= ga_width (cs_AG s_twoR) 1%nat)%R) by (simpl; lra).
  assert (Hh : (0 <= ga_height (cs_AG s_twoR) 1%nat)%R) by (simpl; lra).
  split; [exact Hcc|].
  pose proof (@isolated_node_lands_at_margin extR s_twoR 1 1%nat Hcc Hi Hw Hh) as (H & _).
  exact H.
Defined.

(** [pair_rests_below_ideal_length] for the pair at (0, 0) and (3, 4) and
    an ideal edge length of 10: the two nodes, 5 apart, are further apart
    than the distance of rest, about 3.7, and pulled together. *)
Lemma pair_rests_below_ideal_length_witness :
  (0 < m_idealEdgeLength seR)%R
  /\ (0 < 52 / 1000 * (10 * 10) / ((0 - 3) * (0 - 3) + (0 - 4) * (0 - 4))
          - sqrt ((0 - 3) * (0 - 3) + (0 - 4) * (0 - 4)) / 10
       <-> ((0 - 3) * (0 - 3) + (0 - 4) * (0 - 4))
           * sqrt ((0 - 3) * (0 - 3) + (0 - 4) * (0 - 4))
           < 52 / 1000 * (10 * 10 * 10))%R.
Proof.
  assert (Hk : (0 < m_idealEdgeLength seR)%R) by (simpl; lra).
  assert (Hdd : (minDistSquare <= (0 - 3) * (0 - 3) + (0 - 4) * (0 - 4))%R).
  { unfold minDistSquare, minDist. cbn [lit_10e_6 num_mul R_arith]. lra. }
  split; [exact Hk|].
  pose proof (@pair_rests_below_ideal_length seR 0%R 0%R 3%R 4%R Hdd Hk) as (_ & _ & H & _).
  exact H.
Defined.
